(** * Arduino Space Invaders: the game engine and the pixel buffer

    A shallow embedding of [src/main.c] (game data, [gameReset],
    [gameOver], [gameLoop]) and of [lcdDrawPixel] / [lcdClear] from
    [src/lcd.c], with the constants of [src/gamedefs.h].  The second part
    adds the rest of the program: the text and the wires of [src/lcd.c],
    the buttons of [src/input.c], the drawing of [gameLoop], the screen of
    [gameOver] and the loop of [main].  The last part follows the formation
    through play, with the rounding of its float additions, and shows that
    one drawn alien at most touches an edge in a tick that goes on.

    Conventions.
    - [uint8_t] values are integers in [0, 256); every store into a
      [uint8_t] object goes through [u8] (reduction modulo 256).
    - [int] values ([x], [y], [shipToFire]) are integers; the game keeps
      them within a few hundred of zero, far from the 16-bit limits of the
      target, so no wrap-around is written out for them.
    - [float] is IEEE-754 binary32, as on the AVR target, computed with the
      Standard Library's [SpecFloat] operations at precision 24.
    - The global arrays are lists read with [!!!] and written with
      [<[ i := v ]>]; every index the program uses is a loop counter below
      the array length or a cursor reduced modulo the capacity. *)

From Stdlib Require Import ZArith Lia Bool List.
From Stdlib Require Import Floats.SpecFloat.
From stdpp Require Import base numbers list.

Open Scope Z_scope.

(** ** Constants of gamedefs.h *)

Definition SCREEN_WIDTH : Z := 128.
Definition SCREEN_HEIGHT : Z := 64.
Definition ALIEN_WIDTH : Z := 8.
Definition ALIEN_HEIGHT : Z := 8.
Definition SHIP_WIDTH : Z := 8.
Definition SHIP_HEIGHT : Z := 8.
Definition SHIP_X_MOVE : Z := 2.
Definition ENEMY_WAIT_BETWEEN_FIRE : Z := 5.
Definition PLAYER_WAIT_BETWEEN_FIRE : Z := 10.
Definition ROW1_ENEMY_COUNT : nat := 5.
Definition ROW2_ENEMY_COUNT : nat := 4.
Definition ENEMY_BULLET_SPEED : Z := 1.
Definition SHIP_BULL_SPEED : Z := 1.
Definition ALIEN_BETWEEN_OFFSET : Z := 18.
Definition ALIEN_INCREASE_Y_BY : Z := 4.
Definition MAX_PLAYER_BULLETS : nat := 20.
Definition MAX_ENEMY_BULLETS : nat := 20.
Definition ENEMY_COUNT : nat := (ROW1_ENEMY_COUNT + ROW2_ENEMY_COUNT)%nat.
Definition ALIVE : Z := 7.
Definition START_DYING : Z := ALIVE - 1.
Definition DEAD : Z := 0.

(** ** Machine arithmetic *)

(** Conversion to [uint8_t]. *)
Definition u8 (z : Z) : Z := z mod 256.

(** Single-precision floats. *)
Module F32.

Definition prec : Z := 24.
Definition emax : Z := 128.

Definition t : Type := spec_float.

Definition add : t -> t -> t := SFadd prec emax.
Definition mul : t -> t -> t := SFmul prec emax.
Definition neg : t -> t := SFopp.

(** [(float) z] for an integer [z]. *)
Definition of_int (z : Z) : t := binary_normalize prec emax z 0 false.

(** A decimal literal equal to the fraction [num / den], rounded to the
    nearest float as the compiler rounds it. *)
Definition lit (num den : Z) : t := SFdiv prec emax (of_int num) (of_int den).

(** [(int) f]: the fractional part is discarded (truncation toward zero).
    The conversion of an infinity or a NaN is undefined in C; the game
    never produces one, and the model answers 0 there. *)
Definition to_int (f : t) : Z :=
  match f with
  | S754_finite s m e =>
      let a := Z.shiftl (Z.pos m) e in if s then - a else a
  | _ => 0
  end.

End F32.

(** [1.2f] *)
Definition ALIEN_INCREASE_SPEED_BY : F32.t := F32.lit 12 10.

(** ** Game data (the static variables of main.c) *)

Record Game : Type := mkGame {
  lives : Z;
  shipAlive : Z;
  shipX : Z;
  shipY : Z;
  enemyX : F32.t;
  enemyY : F32.t;
  enemyDX : F32.t;
  enemyAlive : list Z;
  enemyRemaining : Z;
  currBulletId : Z;
  bulletWait : Z;
  bulletX : list Z;
  bulletY : list Z;
  currEnemyBulletId : Z;
  enemyBulletWait : Z;
  enemyBulletX : list Z;
  enemyBulletY : list Z
}.

(** Assignments to one variable. *)
Definition set_lives (v : Z) (g : Game) : Game :=
  mkGame v (shipAlive g) (shipX g) (shipY g) (enemyX g) (enemyY g) (enemyDX g)
    (enemyAlive g) (enemyRemaining g) (currBulletId g) (bulletWait g)
    (bulletX g) (bulletY g) (currEnemyBulletId g) (enemyBulletWait g)
    (enemyBulletX g) (enemyBulletY g).
Definition set_shipAlive (v : Z) (g : Game) : Game :=
  mkGame (lives g) v (shipX g) (shipY g) (enemyX g) (enemyY g) (enemyDX g)
    (enemyAlive g) (enemyRemaining g) (currBulletId g) (bulletWait g)
    (bulletX g) (bulletY g) (currEnemyBulletId g) (enemyBulletWait g)
    (enemyBulletX g) (enemyBulletY g).
Definition set_shipX (v : Z) (g : Game) : Game :=
  mkGame (lives g) (shipAlive g) v (shipY g) (enemyX g) (enemyY g) (enemyDX g)
    (enemyAlive g) (enemyRemaining g) (currBulletId g) (bulletWait g)
    (bulletX g) (bulletY g) (currEnemyBulletId g) (enemyBulletWait g)
    (enemyBulletX g) (enemyBulletY g).
Definition set_enemyX (v : F32.t) (g : Game) : Game :=
  mkGame (lives g) (shipAlive g) (shipX g) (shipY g) v (enemyY g) (enemyDX g)
    (enemyAlive g) (enemyRemaining g) (currBulletId g) (bulletWait g)
    (bulletX g) (bulletY g) (currEnemyBulletId g) (enemyBulletWait g)
    (enemyBulletX g) (enemyBulletY g).
Definition set_enemyY (v : F32.t) (g : Game) : Game :=
  mkGame (lives g) (shipAlive g) (shipX g) (shipY g) (enemyX g) v (enemyDX g)
    (enemyAlive g) (enemyRemaining g) (currBulletId g) (bulletWait g)
    (bulletX g) (bulletY g) (currEnemyBulletId g) (enemyBulletWait g)
    (enemyBulletX g) (enemyBulletY g).
Definition set_enemyDX (v : F32.t) (g : Game) : Game :=
  mkGame (lives g) (shipAlive g) (shipX g) (shipY g) (enemyX g) (enemyY g) v
    (enemyAlive g) (enemyRemaining g) (currBulletId g) (bulletWait g)
    (bulletX g) (bulletY g) (currEnemyBulletId g) (enemyBulletWait g)
    (enemyBulletX g) (enemyBulletY g).
Definition set_enemyAlive (v : list Z) (g : Game) : Game :=
  mkGame (lives g) (shipAlive g) (shipX g) (shipY g) (enemyX g) (enemyY g)
    (enemyDX g) v (enemyRemaining g) (currBulletId g) (bulletWait g)
    (bulletX g) (bulletY g) (currEnemyBulletId g) (enemyBulletWait g)
    (enemyBulletX g) (enemyBulletY g).
Definition set_enemyRemaining (v : Z) (g : Game) : Game :=
  mkGame (lives g) (shipAlive g) (shipX g) (shipY g) (enemyX g) (enemyY g)
    (enemyDX g) (enemyAlive g) v (currBulletId g) (bulletWait g)
    (bulletX g) (bulletY g) (currEnemyBulletId g) (enemyBulletWait g)
    (enemyBulletX g) (enemyBulletY g).
Definition set_currBulletId (v : Z) (g : Game) : Game :=
  mkGame (lives g) (shipAlive g) (shipX g) (shipY g) (enemyX g) (enemyY g)
    (enemyDX g) (enemyAlive g) (enemyRemaining g) v (bulletWait g)
    (bulletX g) (bulletY g) (currEnemyBulletId g) (enemyBulletWait g)
    (enemyBulletX g) (enemyBulletY g).
Definition set_bulletWait (v : Z) (g : Game) : Game :=
  mkGame (lives g) (shipAlive g) (shipX g) (shipY g) (enemyX g) (enemyY g)
    (enemyDX g) (enemyAlive g) (enemyRemaining g) (currBulletId g) v
    (bulletX g) (bulletY g) (currEnemyBulletId g) (enemyBulletWait g)
    (enemyBulletX g) (enemyBulletY g).
Definition set_bulletX (v : list Z) (g : Game) : Game :=
  mkGame (lives g) (shipAlive g) (shipX g) (shipY g) (enemyX g) (enemyY g)
    (enemyDX g) (enemyAlive g) (enemyRemaining g) (currBulletId g)
    (bulletWait g) v (bulletY g) (currEnemyBulletId g) (enemyBulletWait g)
    (enemyBulletX g) (enemyBulletY g).
Definition set_bulletY (v : list Z) (g : Game) : Game :=
  mkGame (lives g) (shipAlive g) (shipX g) (shipY g) (enemyX g) (enemyY g)
    (enemyDX g) (enemyAlive g) (enemyRemaining g) (currBulletId g)
    (bulletWait g) (bulletX g) v (currEnemyBulletId g) (enemyBulletWait g)
    (enemyBulletX g) (enemyBulletY g).
Definition set_currEnemyBulletId (v : Z) (g : Game) : Game :=
  mkGame (lives g) (shipAlive g) (shipX g) (shipY g) (enemyX g) (enemyY g)
    (enemyDX g) (enemyAlive g) (enemyRemaining g) (currBulletId g)
    (bulletWait g) (bulletX g) (bulletY g) v (enemyBulletWait g)
    (enemyBulletX g) (enemyBulletY g).
Definition set_enemyBulletWait (v : Z) (g : Game) : Game :=
  mkGame (lives g) (shipAlive g) (shipX g) (shipY g) (enemyX g) (enemyY g)
    (enemyDX g) (enemyAlive g) (enemyRemaining g) (currBulletId g)
    (bulletWait g) (bulletX g) (bulletY g) (currEnemyBulletId g) v
    (enemyBulletX g) (enemyBulletY g).
Definition set_enemyBulletX (v : list Z) (g : Game) : Game :=
  mkGame (lives g) (shipAlive g) (shipX g) (shipY g) (enemyX g) (enemyY g)
    (enemyDX g) (enemyAlive g) (enemyRemaining g) (currBulletId g)
    (bulletWait g) (bulletX g) (bulletY g) (currEnemyBulletId g)
    (enemyBulletWait g) v (enemyBulletY g).
Definition set_enemyBulletY (v : list Z) (g : Game) : Game :=
  mkGame (lives g) (shipAlive g) (shipX g) (shipY g) (enemyX g) (enemyY g)
    (enemyDX g) (enemyAlive g) (enemyRemaining g) (currBulletId g)
    (bulletWait g) (bulletX g) (bulletY g) (currEnemyBulletId g)
    (enemyBulletWait g) (enemyBulletX g) v.

(** ** gameReset (main.c, lines 71-99) *)

Definition gameReset (_ : Game) : Game :=
  {| lives := 3;
     shipAlive := ALIVE;
     shipX := 60;
     shipY := 50;
     enemyX := F32.of_int 10;
     enemyY := F32.of_int 0;
     enemyDX := F32.lit 1 2;
     enemyAlive := replicate ENEMY_COUNT ALIVE;
     enemyRemaining := Z.of_nat ENEMY_COUNT;
     currBulletId := 0;
     bulletWait := 0;
     bulletX := replicate MAX_PLAYER_BULLETS 0;
     bulletY := replicate MAX_PLAYER_BULLETS 0;
     currEnemyBulletId := 0;
     enemyBulletWait := ENEMY_WAIT_BETWEEN_FIRE;
     enemyBulletX := replicate MAX_ENEMY_BULLETS 0;
     enemyBulletY := replicate MAX_ENEMY_BULLETS 0 |}.

(** ** Inputs of one tick

    The buttons are sampled by [isButtonDown]; [randVal] is what [rand()]
    returns if the tick calls it (a non-negative [int]). *)

Record Input : Type := mkInput {
  btnLeft : bool;
  btnRight : bool;
  btnFire : bool;
  randVal : Z
}.

(** ** Early exit

    [gameLoop] leaves through [gameOver(); return;] at several places.
    [Over] is that exit; [Next] carries the state on. *)

Inductive flow (A : Type) : Type :=
  | Next (a : A)
  | Over.
Arguments Next {A} a.
Arguments Over {A}.

Definition flow_bind {A B : Type} (m : flow A) (k : A -> flow B) : flow B :=
  match m with
  | Next a => k a
  | Over => Over
  end.

Infix ">>=" := flow_bind (at level 50, left associativity).

(** A [for] loop whose body may exit early. *)
Fixpoint forFlow {S : Type} (body : nat -> S -> flow S) (idx : list nat) (s : S)
  : flow S :=
  match idx with
  | [] => Next s
  | i :: rest => body i s >>= forFlow body rest
  end.

(** ** gameOver (main.c, lines 101-115)

    [gameReset], then three lines of text on the display and the wait for a
    key release and a key press; only [gameReset] touches the game data. *)

Definition gameOver (g : Game) : Game := gameReset g.

(** ** The pieces of gameLoop (main.c, lines 142-658)

    The calls [drawShip], [drawAlien] and [drawBullet] write the frame
    buffer only, which the game never reads; they are left out here and
    modelled below with [lcdDrawPixel]. *)

(** Lines 151-159: the ship follows the buttons. *)
Definition moveShip (inp : Input) (g : Game) : Game :=
  let g :=
    if btnLeft inp then
      if 0 <? shipX g then set_shipX (u8 (shipX g - SHIP_X_MOVE)) g else g
    else g in
  if btnRight inp then
    if shipX g <? SCREEN_WIDTH - SHIP_WIDTH
    then set_shipX (u8 (shipX g + SHIP_X_MOVE)) g else g
  else g.

(** Lines 163-165. *)
Definition tickBulletWait (g : Game) : Game :=
  if 0 <? bulletWait g then set_bulletWait (u8 (bulletWait g - 1)) g else g.

(** Lines 177-199: the body of the player's shot. *)
Definition playerFire (g : Game) : Game :=
  let g := set_bulletX
             (<[Z.to_nat (currBulletId g) := u8 (shipX g + SHIP_WIDTH / 2)]> (bulletX g)) g in
  let g := set_bulletY (<[Z.to_nat (currBulletId g) := shipY g]> (bulletY g)) g in
  let g := set_currBulletId (u8 (currBulletId g + 1)) g in
  let g := set_currBulletId (currBulletId g mod Z.of_nat MAX_PLAYER_BULLETS) g in
  set_bulletWait PLAYER_WAIT_BETWEEN_FIRE g.

(** Lines 227-234: the ship's flash countdown. *)
Definition flashShip (g : Game) : Game :=
  if (0 <? shipAlive g) && (shipAlive g <? ALIVE)
  then set_shipAlive (u8 (shipAlive g - 1)) g else g.

(** Lines 250-261: a life is lost and play goes on. *)
Definition lifeLost (g : Game) : Game :=
  let g := set_lives (u8 (lives g - 1)) g in
  let g := set_shipAlive ALIVE g in
  let g := set_bulletWait 0 g in
  set_enemyBulletWait ENEMY_WAIT_BETWEEN_FIRE g.

(** Lines 239-269. *)
Definition shipDemise (g : Game) : flow Game :=
  if shipAlive g =? 0 then
    if 1 <? lives g then Next (lifeLost g) else Over
  else Next g.

(** Lines 319-325: the enemy cooldown and the draw of the ordinal; the
    second component is the local [shipToFire], initialised to -1. *)
Definition selectFirer (inp : Input) (g : Game) : Game * Z :=
  if 0 <? enemyBulletWait g then
    let g := set_enemyBulletWait (u8 (enemyBulletWait g - 1)) g in
    if (enemyBulletWait g =? 0) && (0 <? enemyRemaining g) then
      (set_enemyBulletWait ENEMY_WAIT_BETWEEN_FIRE g,
       Z.rem (randVal inp) (enemyRemaining g))
    else (g, -1)
  else (g, -1).

(** Lines 388-398 and 528-533: the body of an alien's shot. *)
Definition enemyFire (x y : Z) (g : Game) : Game :=
  let g := set_enemyBulletY
             (<[Z.to_nat (currEnemyBulletId g) := u8 (y + ALIEN_HEIGHT)]> (enemyBulletY g)) g in
  let g := set_enemyBulletX
             (<[Z.to_nat (currEnemyBulletId g) := u8 (x + ALIEN_WIDTH / 2)]> (enemyBulletX g)) g in
  let g := set_currEnemyBulletId (u8 (currEnemyBulletId g + 1)) g in
  let g := set_currEnemyBulletId (currEnemyBulletId g mod Z.of_nat MAX_ENEMY_BULLETS) g in
  set_enemyBulletWait ENEMY_WAIT_BETWEEN_FIRE g.

(** Lines 423-424 and 537-538: the formation turns round, speeds up and
    comes down. *)
Definition bounce (g : Game) : Game :=
  let g := set_enemyDX (F32.mul (enemyDX g) (F32.neg ALIEN_INCREASE_SPEED_BY)) g in
  set_enemyY (F32.add (enemyY g) (F32.of_int ALIEN_INCREASE_Y_BY)) g.

(** The test of lines 408 and 536. *)
Definition touchesEdge (x : Z) : bool :=
  (x <=? 0) || (SCREEN_WIDTH <=? x + ALIEN_WIDTH).

(** The box test of lines 470-471, 547-548 and 640-641 (edges included). *)
Definition inBox (x y w h bx by_ : Z) : bool :=
  (x <=? bx) && (bx <=? x + w) && (y <=? by_) && (by_ <=? y + h).

(** Lines 470-490 and 547-551: player bullet [j] against alien [k]. *)
Definition hitStep (k : nat) (x y : Z) (g : Game) (j : nat) : Game :=
  if inBox x y ALIEN_WIDTH ALIEN_HEIGHT (bulletX g !!! j) (bulletY g !!! j) then
    let g := set_enemyAlive (<[k := START_DYING]> (enemyAlive g)) g in
    let g := set_bulletY (<[j := 0]> (bulletY g)) g in
    set_bulletX (<[j := 0]> (bulletX g)) g
  else g.

(** Lines 459-491 and 546-552: the loop over the player's pool. *)
Definition hitScan (k : nat) (x y : Z) (g : Game) : Game :=
  foldl (hitStep k x y) g (seq 0 MAX_PLAYER_BULLETS).

(** Lines 354-491 and 525-552: what is done for a drawn alien, slot [k] at
    [(x, y)].  The two rows run the same statements. *)
Definition alienBody (k : nat) (x y : Z) (st : Game * Z) : flow (Game * Z) :=
  let '(g, shipToFire) := st in
  let g := if shipToFire =? 0 then enemyFire x y g else g in
  let shipToFire := shipToFire - 1 in
  let g := if touchesEdge x then bounce g else g in
  if SCREEN_HEIGHT <=? y + ALIEN_HEIGHT then Over
  else Next (hitScan k x y g, shipToFire).

(** Lines 501-506 and 555-560: the alien's flash countdown. *)
Definition flashAlien (k : nat) (g : Game) : Game :=
  if (0 <? enemyAlive g !!! k) && (enemyAlive g !!! k <? ALIVE) then
    let g := set_enemyAlive (<[k := u8 (enemyAlive g !!! k - 1)]> (enemyAlive g)) g in
    if enemyAlive g !!! k =? 0
    then set_enemyRemaining (u8 (enemyRemaining g - 1)) g else g
  else g.

(** Position of slot [i] of the first row (lines 351-352). *)
Definition row1X (g : Game) (i : nat) : Z :=
  F32.to_int (F32.add (enemyX g) (F32.of_int (ALIEN_BETWEEN_OFFSET * Z.of_nat i))).
Definition row1Y (g : Game) : Z :=
  F32.to_int (F32.add (enemyY g) (F32.of_int 0)).

(** Position of slot [ROW1_ENEMY_COUNT + i] of the second row (lines 522-523). *)
Definition row2X (g : Game) (i : nat) : Z :=
  F32.to_int (F32.add (F32.add (enemyX g) (F32.of_int 9))
                      (F32.of_int (ALIEN_BETWEEN_OFFSET * Z.of_nat i))).
Definition row2Y (g : Game) : Z :=
  F32.to_int (F32.add (enemyY g) (F32.of_int ALIEN_HEIGHT)).

(** Lines 344-507: one turn of the first loop. *)
Definition row1Body (i : nat) (st : Game * Z) : flow (Game * Z) :=
  (if (enemyAlive (fst st) !!! i) mod 2 =? 1
   then alienBody i (row1X (fst st) i) (row1Y (fst st)) st
   else Next st)
  >>= fun st' => Next (flashAlien i (fst st'), snd st').

(** Lines 516-561: one turn of the second loop. *)
Definition row2Body (i : nat) (st : Game * Z) : flow (Game * Z) :=
  let k := (ROW1_ENEMY_COUNT + i)%nat in
  (if (enemyAlive (fst st) !!! k) mod 2 =? 1
   then alienBody k (row2X (fst st) i) (row2Y (fst st)) st
   else Next st)
  >>= fun st' => Next (flashAlien k (fst st'), snd st').

(** Lines 344-561: both loops. *)
Definition alienSweep (st : Game * Z) : flow (Game * Z) :=
  forFlow row1Body (seq 0 ROW1_ENEMY_COUNT) st
  >>= forFlow row2Body (seq 0 ROW2_ENEMY_COUNT).

(** Line 566. *)
Definition moveFormation (g : Game) : Game :=
  set_enemyX (F32.add (enemyX g) (enemyDX g)) g.

(** Lines 587-618: slot [i] of the player's pool. *)
Definition playerBulletStep (g : Game) (i : nat) : Game :=
  if negb (bulletX g !!! i =? 0) && negb (bulletY g !!! i =? 0) then
    let g := set_bulletY (<[i := u8 (bulletY g !!! i - SHIP_BULL_SPEED)]> (bulletY g)) g in
    if (bulletY g !!! i =? 0) || (SCREEN_HEIGHT <? bulletY g !!! i) then
      let g := set_bulletX (<[i := 0]> (bulletX g)) g in
      set_bulletY (<[i := 0]> (bulletY g)) g
    else g
  else g.

(** Lines 583-619. *)
Definition advancePlayerBullets (g : Game) : Game :=
  foldl playerBulletStep g (seq 0 MAX_PLAYER_BULLETS).

(** Lines 635-656: slot [i] of the enemy pool. *)
Definition enemyBulletStep (g : Game) (i : nat) : Game :=
  if negb (enemyBulletX g !!! i =? 0) && negb (enemyBulletY g !!! i =? 0) then
    let g := set_enemyBulletY
               (<[i := u8 (enemyBulletY g !!! i + ENEMY_BULLET_SPEED)]> (enemyBulletY g)) g in
    let g :=
      if inBox (shipX g) (shipY g) SHIP_WIDTH SHIP_HEIGHT
               (enemyBulletX g !!! i) (enemyBulletY g !!! i) then
        let g := if shipAlive g =? ALIVE then set_shipAlive START_DYING g else g in
        let g := set_enemyBulletY (<[i := 0]> (enemyBulletY g)) g in
        set_enemyBulletX (<[i := 0]> (enemyBulletX g)) g
      else g in
    if SCREEN_HEIGHT <=? enemyBulletY g !!! i then
      let g := set_enemyBulletX (<[i := 0]> (enemyBulletX g)) g in
      set_enemyBulletY (<[i := 0]> (enemyBulletY g)) g
    else g
  else g.

(** Lines 634-657. *)
Definition advanceEnemyBullets (g : Game) : Game :=
  foldl enemyBulletStep g (seq 0 MAX_ENEMY_BULLETS).

(** ** gameLoop *)

Definition gameLoopBody (inp : Input) (g : Game) : flow Game :=
  let g := moveShip inp g in
  let g := tickBulletWait g in
  let g := if btnFire inp && (bulletWait g =? 0) then playerFire g else g in
  let g := flashShip g in
  shipDemise g >>= fun g =>
  if enemyRemaining g <=? 0 then Over else
  alienSweep (selectFirer inp g) >>= fun st =>
  let g := moveFormation (fst st) in
  let g := advancePlayerBullets g in
  Next (advanceEnemyBullets g).

Definition gameLoop (inp : Input) (g : Game) : Game :=
  match gameLoopBody inp g with
  | Next g' => g'
  | Over => gameOver g
  end.

(** The game after [main]'s [gameReset] and one [gameLoop] per input. *)
Definition start : Game :=
  gameReset (mkGame 0 0 0 0 (S754_zero false) (S754_zero false) (S754_zero false)
               [] 0 0 0 [] [] 0 0 [] []).

Definition run (inps : list Input) : Game :=
  foldl (fun g inp => gameLoop inp g) start inps.

(** ** The pixel buffer (lcd.c)

    [framebuffer] is an array of 1024 bytes: 8 pages of 128 columns, one
    byte for 8 vertically stacked pixels. *)

Definition FRAME_BYTES : nat := 1024.

(** lcdClear (lcd.c, lines 248-255). *)
Definition lcdClear (fb : list Z) : list Z :=
  foldl (fun fb i => <[i := 0]> fb) fb (seq 0 FRAME_BYTES).

(** lcdDrawPixel (lcd.c, lines 358-411); [x] and [y] are [uint8_t]. *)
Definition lcdDrawPixel (x y : Z) (fb : list Z) : list Z :=
  if (127 <? x) || (63 <? y) then fb
  else
    let y := u8 (63 - y) in
    let idx := Z.to_nat (Z.shiftl (Z.shiftr y 3) 7 + x) in
    <[idx := u8 (Z.lor (fb !!! idx) (Z.shiftl 1 (Z.land y 7)))]> fb.

(** The bitmaps of main.c, lines 48-49, one byte per row. *)
Definition alien8 : list Z := [0x00; 0x18; 0x3C; 0x7E; 0x5A; 0xFF; 0x54; 0xAA].
Definition ship8 : list Z := [0x00; 0x18; 0x3C; 0x18; 0x99; 0xBD; 0xFF; 0xE7].

(** draw8by8 (main.c, lines 117-140); the arguments of [lcdDrawPixel] are
    converted to [uint8_t]. *)
Definition draw8by8 (bitmap : list Z) (x y : Z) (fb : list Z) : list Z :=
  foldl (fun fb j =>
    foldl (fun fb i =>
      if Z.testbit (bitmap !!! j) (Z.of_nat i)
      then lcdDrawPixel (u8 (x + Z.of_nat i)) (u8 (y + Z.of_nat j)) fb
      else fb) fb (seq 0 8)) fb (seq 0 8).

(** The macro drawBullet (main.c, line 69). *)
Definition drawBullet (x y : Z) (fb : list Z) : list Z :=
  lcdDrawPixel (u8 x) (u8 (y + 1)) (lcdDrawPixel (u8 x) (u8 y) fb).

(** * Vocabulary of the statements *)

(** ** Pieces of a tick and views of the state *)

(** Lines 151-234, up to the test of [shipAlive == 0]. *)
Definition beforeDemise (inp : Input) (g : Game) : Game :=
  let g := moveShip inp g in
  let g := tickBulletWait g in
  let g := if btnFire inp && (bulletWait g =? 0) then playerFire g else g in
  flashShip g.

(** Where slot [k] is drawn when the formation stands at [ex] (lines 351
    and 522) and at [ey] (lines 352 and 523). *)
Definition slotXAt (ex : F32.t) (k : nat) : Z :=
  if (k <? ROW1_ENEMY_COUNT)%nat
  then F32.to_int (F32.add ex (F32.of_int (ALIEN_BETWEEN_OFFSET * Z.of_nat k)))
  else F32.to_int (F32.add (F32.add ex (F32.of_int 9))
         (F32.of_int (ALIEN_BETWEEN_OFFSET * Z.of_nat (k - ROW1_ENEMY_COUNT)))).

(** Its y, the formation standing at height [ey]. *)
Definition slotYAt (ey : F32.t) (k : nat) : Z :=
  if (k <? ROW1_ENEMY_COUNT)%nat
  then F32.to_int (F32.add ey (F32.of_int 0))
  else F32.to_int (F32.add ey (F32.of_int ALIEN_HEIGHT)).

(** One turn of either loop, for slot [k] in the draw order 0..8. *)
Definition slotBody (k : nat) (st : Game * Z) : flow (Game * Z) :=
  (if (enemyAlive (fst st) !!! k) mod 2 =? 1
   then alienBody k (slotXAt (enemyX (fst st)) k) (slotYAt (enemyY (fst st)) k) st
   else Next st)
  >>= fun st' => Next (flashAlien k (fst st'), snd st').

(** The game after [selectFirer] and the alien loops, run from [g] (the
    reset game when an alien has landed). *)
Definition afterSweep (inp : Input) (g : Game) : Game :=
  match alienSweep (selectFirer inp g) with
  | Next st => fst st
  | Over => gameOver g
  end.

(** Player shots fired one after the other, the ship standing at the given
    x-positions; nothing else runs in between. *)
Definition fireShots (ps : list Z) (g : Game) : Game :=
  foldl (fun g p => playerFire (set_shipX p g)) g ps.

(** The two coordinates of a slot. *)
Definition playerSlot (g : Game) (j : nat) : Z * Z := (bulletX g !!! j, bulletY g !!! j).
Definition enemySlot (g : Game) (j : nat) : Z * Z :=
  (enemyBulletX g !!! j, enemyBulletY g !!! j).

(** The enemy pool: cursor and coordinates. *)
Definition enemyPool (g : Game) : Z * list Z * list Z :=
  (currEnemyBulletId g, enemyBulletX g, enemyBulletY g).

(** The fields no statement of the alien loops assigns. *)
Definition sweepFrame (g : Game) : Z * Z * Z * Z * F32.t * Z * Z :=
  (lives g, shipAlive g, shipX g, shipY g, enemyX g, currBulletId g, bulletWait g).

(** The fields on the aliens' side, which nothing before the alien loops
    assigns (the enemy cooldown apart). *)
Definition enemySide (g : Game)
  : F32.t * F32.t * F32.t * list Z * Z * Z * list Z * list Z :=
  (enemyX g, enemyY g, enemyDX g, enemyAlive g, enemyRemaining g,
   currEnemyBulletId g, enemyBulletX g, enemyBulletY g).

(** ** What the pool loops do to one slot *)

(** What [hitScan] does to a slot holding [(bx, by)]. *)
Definition hitRule (x y : Z) (b : Z * Z) : Z * Z :=
  if inBox x y ALIEN_WIDTH ALIEN_HEIGHT (fst b) (snd b) then (0, 0) else b.

(** Some slot among the first [n] lies in the box. *)
Definition anyHit (x y : Z) (g : Game) (n : nat) : bool :=
  existsb (fun j => inBox x y ALIEN_WIDTH ALIEN_HEIGHT (bulletX g !!! j) (bulletY g !!! j))
          (seq 0 n).

(** What the player's loop does to a slot holding [(x, y)]. *)
Definition playerAdvanceRule (b : Z * Z) : Z * Z :=
  if negb (fst b =? 0) && negb (snd b =? 0) then
    if (u8 (snd b - SHIP_BULL_SPEED) =? 0) || (SCREEN_HEIGHT <? u8 (snd b - SHIP_BULL_SPEED))
    then (0, 0) else (fst b, u8 (snd b - SHIP_BULL_SPEED))
  else b.

(** What the enemy loop does to a slot holding [(x, y)], the ship's box
    having its corner at [(sx, sy)]. *)
Definition enemyAdvanceRule (sx sy : Z) (b : Z * Z) : Z * Z :=
  if negb (fst b =? 0) && negb (snd b =? 0) then
    if inBox sx sy SHIP_WIDTH SHIP_HEIGHT (fst b) (u8 (snd b + ENEMY_BULLET_SPEED))
    then (0, 0)
    else if SCREEN_HEIGHT <=? u8 (snd b + ENEMY_BULLET_SPEED) then (0, 0)
         else (fst b, u8 (snd b + ENEMY_BULLET_SPEED))
  else b.

(** ** Invariants *)

(** The pools have their declared capacity. *)
Definition playerPoolSized (g : Game) : Prop :=
  length (bulletX g) = MAX_PLAYER_BULLETS /\ length (bulletY g) = MAX_PLAYER_BULLETS.
Definition enemyPoolSized (g : Game) : Prop :=
  length (enemyBulletX g) = MAX_ENEMY_BULLETS /\ length (enemyBulletY g) = MAX_ENEMY_BULLETS.

(** What the enemy loop keeps: the pool's size and the ship's position. *)
Definition enemyLoopInv (sx sy : Z) (g : Game) : Prop :=
  enemyPoolSized g /\ shipX g = sx /\ shipY g = sy.

(** The ship stands on an even column between 0 and 120. *)
Definition shipOnTrack (g : Game) : Prop :=
  0 <= shipX g <= SCREEN_WIDTH - SHIP_WIDTH /\ shipX g mod 2 = 0.

(** Number of slots with [vitality > 0]. *)
Definition aliveCount (l : list Z) : Z :=
  Z.of_nat (length (List.filter (fun v => 0 <? v) l)).

(** There are nine vitalities, none negative, and [enemyRemaining] counts
    the positive ones. *)
Definition aliveInv (g : Game) : Prop :=
  length (enemyAlive g) = ENEMY_COUNT /\
  Forall (fun v => 0 <= v) (enemyAlive g) /\
  enemyRemaining g = aliveCount (enemyAlive g).

(** ** The alien loops in closed form *)

(** Slot [k] is drawn in this tick: its vitality is odd. *)
Definition isDrawn (alive : list Z) (k : nat) : bool := (alive !!! k) mod 2 =? 1.

(** Slot [k] is drawn and touches the left or the right edge. *)
Definition touches (alive : list Z) (ex : F32.t) (k : nat) : bool :=
  isDrawn alive k && touchesEdge (slotXAt ex k).

(** How many of the slots 0..n-1 are drawn, and how many touch an edge. *)
Definition drawnBefore (alive : list Z) (n : nat) : nat :=
  length (List.filter (isDrawn alive) (seq 0 n)).
Definition touchingBefore (alive : list Z) (ex : F32.t) (n : nat) : nat :=
  length (List.filter (touches alive ex) (seq 0 n)).

(** The two assignments of [bounce]. *)
Definition bounceDX (d : F32.t) : F32.t := F32.mul d (F32.neg ALIEN_INCREASE_SPEED_BY).
Definition bounceY (y : F32.t) : F32.t := F32.add y (F32.of_int ALIEN_INCREASE_Y_BY).

(** The formation's y after the bounces of the slots before [k]. *)
Definition enemyYBefore (g : Game) (k : nat) : F32.t :=
  Nat.iter (touchingBefore (enemyAlive g) (enemyX g) k) bounceY (enemyY g).

(** What the loops have done when the slots 0..n-1 have had their turn,
    started in [g] with [shipToFire = s]. *)
Definition sweptTo (g : Game) (s : Z) (n : nat) (gn : Game) (sn : Z) : Prop :=
  sn = s - Z.of_nat (drawnBefore (enemyAlive g) n) /\
  enemyX gn = enemyX g /\
  enemyDX gn = Nat.iter (touchingBefore (enemyAlive g) (enemyX g) n) bounceDX (enemyDX g) /\
  enemyY gn = enemyYBefore g n /\
  (forall j, (n <= j)%nat -> enemyAlive gn !!! j = enemyAlive g !!! j) /\
  ((0 <= s < Z.of_nat (drawnBefore (enemyAlive g) n) /\
    exists f, (f < n)%nat /\ isDrawn (enemyAlive g) f = true /\
              Z.of_nat (drawnBefore (enemyAlive g) f) = s /\
              enemyPool gn
              = enemyPool (enemyFire (slotXAt (enemyX g) f)
                                     (slotYAt (enemyYBefore g f) f) g))
   \/ (~ 0 <= s < Z.of_nat (drawnBefore (enemyAlive g) n) /\ enemyPool gn = enemyPool g)).

(** ** Input sequences and states of the examples *)

(** No button down; a button pattern; no button down and a given [rand()]. *)
Definition idle : Input := mkInput false false false 0.
Definition press (l r f : bool) : Input := mkInput l r f 0.
Definition idleRand (r : Z) : Input := mkInput false false false r.

(** The ship steps left twice and waits under the bullet that slot 7 fires
    in tick 5; it is hit in tick 38, loses a life in tick 44 and, its
    cooldown cleared, fires in ticks 44 and 45.  76 ticks in all. *)
Definition twoBulletsTrace : list Input :=
  replicate 2 (press true false false) ++ replicate 2 idle ++ [idleRand 7]
  ++ replicate 38 idle ++ replicate 2 (press false false true) ++ replicate 31 idle.

(** The player moves right and fires in tick 1; the bullet strikes slot 6
    in tick 43.  After 44 ticks that alien's vitality is 4: it still counts
    in [enemyRemaining] and is not drawn. *)
Definition dyingAlienTrace : list Input :=
  press false true true :: replicate 43 idle.

(** The player moves right and fires in tick 1 and fires again in tick 11.
    The first bullet strikes slot 6 in tick 43; after 45 ticks that alien's
    vitality is 3 and the second bullet stands at (66,15), inside the
    alien's box at (59,8). *)
Definition secondHitTrace : list Input :=
  press false true true :: replicate 9 idle ++ press false false true :: replicate 34 idle.

(** The ship steps to the left edge in the first 30 ticks and waits there;
    with the random value 8 it is always the last alien, slot 8, that
    fires, and its bullets fall to the right of the ship.  No alien is hit.
    After these 493 ticks the formation has turned eleven times and stands
    with slot 0 at x = 0. *)
Definition landingTrace : list Input :=
  replicate 30 (mkInput true false false 8) ++ replicate 463 (idleRand 8).

(** * The rest of the program *)

(** ** The display as the LCD shows it

    The byte at [page * 128 + x] holds the pixels [(x, 8*page .. 8*page+7)]
    of the flipped picture; [pixelAt] reads the bit [lcdDrawPixel] writes
    for the pixel [(x, y)]. *)

Definition pixelIndex (x y : Z) : nat := Z.to_nat ((63 - y) / 8 * 128 + x).
Definition pixelBit (y : Z) : Z := (63 - y) mod 8.
Definition pixelAt (fb : list Z) (x y : Z) : bool :=
  Z.testbit (fb !!! pixelIndex x y) (pixelBit y).

(** A frame buffer of 1024 bytes. *)
Definition frameOk (fb : list Z) : Prop :=
  length fb = FRAME_BYTES /\ forall k : nat, (k < FRAME_BYTES)%nat -> 0 <= fb !!! k < 256.

(** The pixel [(px, py)] is one that [draw8by8 bitmap x y] plots: bit [i]
    of row [j] is set and the [uint8_t] sums [x + i], [y + j] are [px], [py]. *)
Definition spritePlots (bitmap : list Z) (x y px py : Z) : Prop :=
  exists i j : nat,
    (i < 8)%nat /\ (j < 8)%nat /\ Z.testbit (bitmap !!! j) (Z.of_nat i) = true /\
    u8 (x + Z.of_nat i) = px /\ u8 (y + Z.of_nat j) = py.

(** Bit [i] of row [j] of the bitmap lands on [(px, py)]. *)
Definition plotsAt (bitmap : list Z) (x y : Z) (j i : nat) (px py : Z) : bool :=
  Z.testbit (bitmap !!! j) (Z.of_nat i)
  && (u8 (x + Z.of_nat i) =? px) && (u8 (y + Z.of_nat j) =? py).


(** ** Text (lcd.h, lines 4-15, and lcd.c, lines 431-469)

    The glyph table [TEXT] is defined in a file that is not part of the
    sources at hand (data.c); it is a parameter here.  A character takes
    [BYTES_PER_CHARACTER] bytes of it. *)

Definition UPPER_CASE_ALPHA_LENGTH : Z := 26.
Definition LOWER_CASE_ALPHA_LENGTH : Z := 26.
Definition BYTES_PER_CHARACTER : Z := 8.
Definition TEXT_WIDTH : Z := 8.

(** The offset into [TEXT] of byte [i] of the glyph of the character with
    code [c]: GET_TEXT_BYTE_UPPER, GET_TEXT_BYTE_LOWER and
    GET_TEXT_DOT_ADDRESS, in the order of the tests of lines 453-461; [None]
    for the characters printed as a blank. *)
Definition glyphOffset (c : Z) (i : nat) : option Z :=
  if (65 <=? c) && (c <=? 90)
  then Some (0 + (c - 65) * BYTES_PER_CHARACTER + Z.of_nat i)
  else if (97 <=? c) && (c <=? 122)
  then Some (UPPER_CASE_ALPHA_LENGTH * 8 + (c - 97) * BYTES_PER_CHARACTER + Z.of_nat i)
  else if c =? 46
  then Some (52 * 8 + Z.of_nat i)
  else None.

(** The byte stored for it: [pgm_read_byte] of that address, or 0x00. *)
Definition glyphByte (TEXT : list Z) (c : Z) (i : nat) : Z :=
  match glyphOffset c i with
  | Some o => u8 (TEXT !!! Z.to_nat o)
  | None => 0
  end.

(** lcdPrintText (lcd.c, lines 431-469); [text] holds the character codes
    before the terminating NUL, so that [strlen] is its length. *)
Definition lcdPrintText (TEXT : list Z) (text : list Z) (line : Z) (fb : list Z)
  : list Z :=
  if 7 <? line then fb
  else if 16 <? Z.of_nat (length text) then fb
  else
    foldl (fun fb j =>
      foldl (fun fb i =>
        <[Z.to_nat (1023 - Z.shiftl line 7 - Z.of_nat j * TEXT_WIDTH - Z.of_nat i) :=
            glyphByte TEXT (text !!! j) i]> fb) fb (seq 0 8))
      fb (seq 0 (length text)).

(** ** Buttons (input.c)

    [DDRC] and [PINC] are the direction and the input register of port C,
    8 bits each; a pressed button pulls its pin low. *)

(** initButtons (input.c, lines 15-27): the new value of [DDRC]. *)
Definition initButtons (DDRC : Z) : Z :=
  u8 (Z.land DDRC (Z.lnot (Z.lor (Z.lor (Z.shiftl 1 3) (Z.shiftl 1 4)) (Z.shiftl 1 5)))).

(** isButtonDown (input.c, lines 29-40). *)
Definition isButtonDown (PINC : Z) (buttonId : Z) : Z :=
  if 3 <? buttonId then 0
  else if Z.land PINC (Z.shiftl 1 (3 + buttonId)) =? 0 then 1 else 0.

(** isAnyKeyDown (input.c, lines 42-49). *)
Definition isAnyKeyDown (PINC : Z) : Z :=
  if Z.land PINC 56 =? 56 then 0 else 1.

(** ** States of the game in play *)

(** The tables have their declared sizes and the write cursors point into
    them. *)
Definition shapeOk (g : Game) : Prop :=
  length (enemyAlive g) = ENEMY_COUNT /\
  playerPoolSized g /\ enemyPoolSized g /\
  0 <= currBulletId g < Z.of_nat MAX_PLAYER_BULLETS /\
  0 <= currEnemyBulletId g < Z.of_nat MAX_ENEMY_BULLETS.

(** The ranges of the ship's counters between two ticks. *)
Definition countersOk (g : Game) : Prop :=
  1 <= lives g <= 3 /\ 1 <= shipAlive g <= ALIVE /\
  0 <= bulletWait g <= PLAYER_WAIT_BETWEEN_FIRE /\
  1 <= enemyBulletWait g <= ENEMY_WAIT_BETWEEN_FIRE.

(** A vitality seen between two ticks: dead, flashing with 1..5 counts
    left, or alive. *)
Definition vitalityOk (v : Z) : Prop := 0 <= v <= ALIVE - 2 \/ v = ALIVE.

(** A slot of the player's pool: free, or a bullet above the ship and below
    the top row, with at most [top] as its y. *)
Definition playerSlotOk (top : Z) (b : Z * Z) : Prop :=
  b = (0, 0) \/ (4 <= fst b <= 124 /\ 1 <= snd b <= top).

(** ** The display's wires (lcd.c)

    Port D is the data bus, C0 and C1 select the two controllers, B0 is the
    register/pixel line and B1 the enable line.  The registers are 8 bits
    wide.  [strobes] records what the display is shown: the select lines,
    the register/pixel line and the data bus at each falling edge of B1.
    The delays change no register and are left out. *)

Record Mcu : Type := mkMcu {
  DDRB : Z;
  DDRC : Z;
  DDRD : Z;
  PORTB : Z;
  PORTC : Z;
  PORTD : Z;
  strobes : list (Z * bool * Z)
}.

Definition set_DDRB (v : Z) (m : Mcu) : Mcu :=
  mkMcu (u8 v) (DDRC m) (DDRD m) (PORTB m) (PORTC m) (PORTD m) (strobes m).
Definition set_DDRC (v : Z) (m : Mcu) : Mcu :=
  mkMcu (DDRB m) (u8 v) (DDRD m) (PORTB m) (PORTC m) (PORTD m) (strobes m).
Definition set_DDRD (v : Z) (m : Mcu) : Mcu :=
  mkMcu (DDRB m) (DDRC m) (u8 v) (PORTB m) (PORTC m) (PORTD m) (strobes m).
Definition set_PORTC (v : Z) (m : Mcu) : Mcu :=
  mkMcu (DDRB m) (DDRC m) (DDRD m) (PORTB m) (u8 v) (PORTD m) (strobes m).
Definition set_PORTD (v : Z) (m : Mcu) : Mcu :=
  mkMcu (DDRB m) (DDRC m) (DDRD m) (PORTB m) (PORTC m) (u8 v) (strobes m).

(** A write to port B that takes B1 from high to low is a strobe. *)
Definition set_PORTB (v : Z) (m : Mcu) : Mcu :=
  mkMcu (DDRB m) (DDRC m) (DDRD m) (u8 v) (PORTC m) (PORTD m)
        (if Z.testbit (PORTB m) 1 && negb (Z.testbit v 1)
         then strobes m ++ [(Z.land (PORTC m) 3, Z.testbit (PORTB m) 0, PORTD m)]
         else strobes m).

(** The commands and macros of lcd.c, lines 71-121. *)
Definition ON : Z := 1.
Definition LCD_TURN_ONOFF_CMD (x : Z) : Z := Z.lor 62 (Z.land x 1).
Definition LCD_GOTO_ROW (x : Z) : Z := Z.lor 184 (Z.land x 7).
Definition LCD_GOTO_ORG : Z := 64.
Definition LCD_PIXEL_CMD (m : Mcu) : Mcu :=
  set_PORTB (Z.lor (PORTB m) (Z.shiftl 1 0)) m.
Definition LCD_REGISTER_CMD (m : Mcu) : Mcu :=
  set_PORTB (Z.land (PORTB m) (Z.lnot (Z.shiftl 1 0))) m.
Definition ICOFF (m : Mcu) : Mcu :=
  let m := set_PORTC (Z.lor (PORTC m) (Z.shiftl 1 0)) m in
  set_PORTC (Z.lor (PORTC m) (Z.shiftl 1 1)) m.
Definition IC1 (m : Mcu) : Mcu :=
  let m := set_PORTC (Z.lor (PORTC m) (Z.shiftl 1 0)) m in
  set_PORTC (Z.land (PORTC m) (Z.lnot (Z.shiftl 1 1))) m.
Definition IC2 (m : Mcu) : Mcu :=
  let m := set_PORTC (Z.land (PORTC m) (Z.lnot (Z.shiftl 1 0))) m in
  set_PORTC (Z.lor (PORTC m) (Z.shiftl 1 1)) m.
Definition ENABLE_LOW (m : Mcu) : Mcu :=
  set_PORTB (Z.land (PORTB m) (Z.lnot (Z.shiftl 1 1))) m.
Definition ENABLE_HIGH (m : Mcu) : Mcu :=
  set_PORTB (Z.lor (PORTB m) (Z.shiftl 1 1)) m.
Definition SETUP_LCD_PINS (m : Mcu) : Mcu :=
  let m := set_DDRD 255 m in
  let m := set_DDRB (Z.lor (DDRB m) (Z.lor (Z.shiftl 1 1) (Z.shiftl 1 0))) m in
  set_DDRC (Z.lor (DDRC m) (Z.lor (Z.shiftl 1 0) (Z.shiftl 1 1))) m.
Definition lcdWrite (x : Z) (m : Mcu) : Mcu := set_PORTD x m.

(** lcdEnable and lcdEnableSlow (lcd.c, lines 130-154) differ in their
    delays only. *)
Definition lcdEnable (m : Mcu) : Mcu := ENABLE_LOW (ENABLE_HIGH m).
Definition lcdEnableSlow (m : Mcu) : Mcu := ENABLE_LOW (ENABLE_HIGH m).

(** initLcdScreen (lcd.c, lines 174-246). *)
Definition initLcdScreen (st : Mcu * list Z) : Mcu * list Z :=
  let '(m, fb) := st in
  let m := SETUP_LCD_PINS m in
  let m := LCD_PIXEL_CMD m in
  let m := ENABLE_LOW m in
  let m := ICOFF m in
  let m := LCD_REGISTER_CMD m in
  let m := IC1 m in
  let m := lcdWrite (LCD_TURN_ONOFF_CMD ON) m in
  let m := lcdEnableSlow m in
  let m := IC2 m in
  let m := lcdWrite (LCD_TURN_ONOFF_CMD ON) m in
  let m := lcdEnableSlow m in
  let m := ICOFF m in
  let m := ENABLE_HIGH m in
  (m, lcdClear fb).

(** One page of lcdRepaint (lcd.c, lines 269-304 and 313-329): the 64 bytes
    from [framebuffer[128*j + off]] on. *)
Definition repaintPage (fb : list Z) (off : nat) (m : Mcu) (j : nat) : Mcu :=
  let m := LCD_REGISTER_CMD m in
  let m := lcdEnable (lcdWrite (LCD_GOTO_ROW (Z.of_nat j)) m) in
  let m := lcdEnable (lcdWrite LCD_GOTO_ORG m) in
  let m := LCD_PIXEL_CMD m in
  foldl (fun m i => lcdEnable (lcdWrite (fb !!! (128 * j + off + i)%nat) m)) m (seq 0 64).

(** lcdRepaint (lcd.c, lines 257-330). *)
Definition lcdRepaint (fb : list Z) (m : Mcu) : Mcu :=
  let m := IC1 m in
  let m := foldl (repaintPage fb 0) m (seq 0 8) in
  let m := IC2 m in
  foldl (repaintPage fb 64) m (seq 0 8).

(** What one page and a whole frame put on the wires. *)
Definition pageStrobes (fb : list Z) (chip : Z) (off : nat) (j : nat) : list (Z * bool * Z) :=
  [(chip, false, 184 + Z.of_nat j); (chip, false, 64)]
  ++ map (fun i => (chip, true, u8 (fb !!! (128 * j + off + i)%nat))) (seq 0 64).
Definition frameStrobes (fb : list Z) : list (Z * bool * Z) :=
  flat_map (pageStrobes fb 1 0) (seq 0 8) ++ flat_map (pageStrobes fb 2 64) (seq 0 8).

(** The wires as they stand: the select lines, B0 and B1. *)
Definition lines (m : Mcu) : Z * bool * bool :=
  (Z.land (PORTC m) 3, Z.testbit (PORTB m) 0, Z.testbit (PORTB m) 1).

(** What the display code leaves alone: the directions and the pins 2..7
    of the ports B and C. *)
Definition otherPins (m : Mcu) : Z * Z * Z * Z * Z :=
  (DDRB m, DDRC m, DDRD m, Z.land (PORTB m) 252, Z.land (PORTC m) 252).

(** From [m] to [m'] the strobes [l] were sent, the wires are left at
    [(cs, rs, e)] and nothing else has changed. *)
Definition wired (m m' : Mcu) (l : list (Z * bool * Z)) (cs : Z) (rs e : bool) : Prop :=
  strobes m' = strobes m ++ l /\ lines m' = (cs, rs, e) /\ otherPins m' = otherPins m.

(** ** gameLoop with its drawing (main.c, lines 142-658)

    The same statements as [gameLoopBody], with the calls [drawShip],
    [drawAlien] and [drawBullet] writing the frame buffer where the source
    has them.  An [int] argument of [draw8by8] is converted to [uint8_t].
    The frame buffer is followed through the ticks that go on; what
    [gameOver] prints over an unfinished frame is [lcdPrintText]. *)

(** Lines 220-226. *)
Definition shipFrame (g : Game) (fb : list Z) : list Z :=
  if shipAlive g mod 2 =? 1 then draw8by8 ship8 (shipX g) (shipY g) fb else fb.

(** Lines 344-507, with line 354. *)
Definition row1BodyD (i : nat) (st : Game * Z * list Z) : flow (Game * Z * list Z) :=
  let g := fst (fst st) in
  let fb := if (enemyAlive g !!! i) mod 2 =? 1
            then draw8by8 alien8 (u8 (row1X g i)) (u8 (row1Y g)) (snd st)
            else snd st in
  row1Body i (fst st) >>= fun gs => Next (gs, fb).

(** Lines 516-561, with line 525. *)
Definition row2BodyD (i : nat) (st : Game * Z * list Z) : flow (Game * Z * list Z) :=
  let g := fst (fst st) in
  let fb := if (enemyAlive g !!! (ROW1_ENEMY_COUNT + i)%nat) mod 2 =? 1
            then draw8by8 alien8 (u8 (row2X g i)) (u8 (row2Y g)) (snd st)
            else snd st in
  row2Body i (fst st) >>= fun gs => Next (gs, fb).

Definition alienSweepD (st : Game * Z * list Z) : flow (Game * Z * list Z) :=
  forFlow row1BodyD (seq 0 ROW1_ENEMY_COUNT) st
  >>= forFlow row2BodyD (seq 0 ROW2_ENEMY_COUNT).

(** Lines 587-618, with line 588. *)
Definition playerBulletStepD (st : Game * list Z) (i : nat) : Game * list Z :=
  let g := fst st in
  (playerBulletStep g i,
   if negb (bulletX g !!! i =? 0) && negb (bulletY g !!! i =? 0)
   then drawBullet (bulletX g !!! i) (bulletY g !!! i) (snd st) else snd st).

(** Lines 635-656, with line 636. *)
Definition enemyBulletStepD (st : Game * list Z) (i : nat) : Game * list Z :=
  let g := fst st in
  (enemyBulletStep g i,
   if negb (enemyBulletX g !!! i =? 0) && negb (enemyBulletY g !!! i =? 0)
   then drawBullet (enemyBulletX g !!! i) (enemyBulletY g !!! i) (snd st) else snd st).

Definition gameLoopBodyD (inp : Input) (st : Game * list Z) : flow (Game * list Z) :=
  let g := moveShip inp (fst st) in
  let g := tickBulletWait g in
  let g := if btnFire inp && (bulletWait g =? 0) then playerFire g else g in
  let fb := shipFrame g (snd st) in
  let g := flashShip g in
  shipDemise g >>= fun g =>
  if enemyRemaining g <=? 0 then Over else
  alienSweepD (selectFirer inp g, fb) >>= fun st =>
  let g := moveFormation (fst (fst st)) in
  let st := foldl playerBulletStepD (g, snd st) (seq 0 MAX_PLAYER_BULLETS) in
  Next (foldl enemyBulletStepD st (seq 0 MAX_ENEMY_BULLETS)).

(** One turn of the loop of [main] (main.c, lines 669-686) whose tick goes
    on: the buffer is cleared, drawn and sent to the display. *)
Definition mainTurn (inp : Input) (st : Game * list Z * Mcu) : flow (Game * list Z * Mcu) :=
  let '(g, fb, m) := st in
  gameLoopBodyD inp (g, lcdClear fb) >>= fun st' =>
  Next (fst st', snd st', lcdRepaint (snd st') m).

(** ** What a frame shows *)

(** From [fb] to [fb'] exactly the pixels of [S] were lit. *)
Definition shows (fb fb' : list Z) (S : Z -> Z -> Prop) : Prop :=
  frameOk fb' /\
  forall px py, 0 <= px <= 127 -> 0 <= py <= 63 ->
    (pixelAt fb' px py = true <-> pixelAt fb px py = true \/ S px py).

(** The ship's sprite, drawn while [shipAlive] is odd. *)
Definition shipLit (g : Game) (px py : Z) : Prop :=
  shipAlive g mod 2 = 1 /\ spritePlots ship8 (shipX g) (shipY g) px py.

(** The sprite of slot [k], drawn where the slot stands at its turn. *)
Definition alienLit (g : Game) (k : nat) (px py : Z) : Prop :=
  isDrawn (enemyAlive g) k = true /\
  spritePlots alien8 (u8 (slotXAt (enemyX g) k)) (u8 (slotYAt (enemyYBefore g k) k)) px py.

(** The two pixels of a bullet that is not the free slot. *)
Definition bulletLit (b : Z * Z) (px py : Z) : Prop :=
  fst b <> 0 /\ snd b <> 0 /\ px = u8 (fst b) /\ (py = u8 (snd b) \/ py = u8 (snd b + 1)).

(** One turn of either loop with its drawing, for slot [k] in the draw
    order 0..8. *)
Definition slotBodyD (k : nat) (st : Game * Z * list Z) : flow (Game * Z * list Z) :=
  let g := fst (fst st) in
  let fb := if (enemyAlive g !!! k) mod 2 =? 1
            then draw8by8 alien8 (u8 (slotXAt (enemyX g) k)) (u8 (slotYAt (enemyY g) k)) (snd st)
            else snd st in
  slotBody k (fst st) >>= fun gs => Next (gs, fb).

(** The game when the alien loops of the tick are done. *)
Definition sweptState (inp : Input) (g : Game) : Game :=
  match shipDemise (beforeDemise inp g) with
  | Next g1 => afterSweep inp g1
  | Over => gameOver g
  end.

(** Everything a tick draws. *)
Definition tickLit (inp : Input) (g : Game) (px py : Z) : Prop :=
  shipLit (moveShip inp g) px py \/
  (exists k, (k < ENEMY_COUNT)%nat /\ alienLit g k px py) \/
  (exists j, (j < MAX_PLAYER_BULLETS)%nat /\ bulletLit (playerSlot (sweptState inp g) j) px py) \/
  (exists j, (j < MAX_ENEMY_BULLETS)%nat /\ bulletLit (enemySlot (sweptState inp g) j) px py).

(** ** gameOver with its screen (main.c, lines 55-57 and 101-115) *)

(** The three strings, 16 characters each, as character codes. *)
Definition GAME_OVER_STRING : list Z :=
  [71; 97; 109; 101; 32; 79; 118; 101; 114; 32; 32; 32; 32; 32; 32; 32].
Definition PRESS_ANY_STRING : list Z :=
  [80; 114; 101; 115; 115; 32; 97; 110; 121; 32; 107; 101; 121; 32; 116; 111].
Definition PLAY_AGAN_STRING : list Z :=
  [112; 108; 97; 121; 32; 97; 103; 97; 105; 110; 32; 32; 32; 32; 32; 32].

(** [while(isAnyKeyDown());] and [while(!isAnyKeyDown());] over the values
    read from PINC, one per test; what is left of them is returned.  [None]:
    the loop is still waiting when the values run out. *)
Fixpoint waitRelease (samples : list Z) : option (list Z) :=
  match samples with
  | [] => None
  | pinc :: rest => if isAnyKeyDown pinc =? 0 then Some rest else waitRelease rest
  end.

Fixpoint waitPress (samples : list Z) : option (list Z) :=
  match samples with
  | [] => None
  | pinc :: rest => if isAnyKeyDown pinc =? 0 then waitPress rest else Some rest
  end.

(** gameOver on the game, the frame buffer, the wires and the values read
    from PINC.  [TEXT] is the glyph table. *)
Definition gameOverD (TEXT : list Z) (st : Game * list Z * Mcu) (samples : list Z)
  : option (Game * list Z * Mcu * list Z) :=
  let '(g, fb, m) := st in
  let g := gameReset g in
  let fb := lcdPrintText TEXT GAME_OVER_STRING 0 fb in
  let fb := lcdPrintText TEXT PRESS_ANY_STRING 1 fb in
  let fb := lcdPrintText TEXT PLAY_AGAN_STRING 2 fb in
  let m := lcdRepaint fb m in
  match waitRelease samples with
  | Some rest =>
      match waitPress rest with
      | Some rest' => Some (g, fb, m, rest')
      | None => None
      end
  | None => None
  end.

(** The string of a text line of the game-over screen. *)
Definition gameOverLine (line : nat) : list Z :=
  match line with
  | 0%nat => GAME_OVER_STRING
  | 1%nat => PRESS_ANY_STRING
  | _ => PLAY_AGAN_STRING
  end.

(** ** The ship under fire *)

(** An enemy bullet that is in flight and, moved down by its speed, lies in
    the ship's box (edges included). *)
Definition strikesShip (sx sy : Z) (b : Z * Z) : bool :=
  negb (fst b =? 0) && negb (snd b =? 0)
  && inBox sx sy SHIP_WIDTH SHIP_HEIGHT (fst b) (u8 (snd b + ENEMY_BULLET_SPEED)).

(** ** The start of main (main.c, lines 660-668)

    [init()] belongs to the Arduino core; the registers it leaves are
    arbitrary here. *)
Definition mainSetup (st : Game * list Z * Mcu) : Game * list Z * Mcu :=
  let '(g, fb, m) := st in
  let '(m, fb) := initLcdScreen (m, fb) in
  let m := set_DDRC (initButtons (DDRC m)) m in
  (gameReset g, fb, m).

(** ** The descent of the formation *)

(** The formation has bounced [n] times since the reset: it stands
    [ALIEN_INCREASE_Y_BY * n] pixels down and its velocity has been turned
    and scaled [n] times. *)
Definition descent (n : nat) (g : Game) : Prop :=
  enemyY g = F32.of_int (ALIEN_INCREASE_Y_BY * Z.of_nat n) /\
  enemyDX g = Nat.iter n bounceDX (F32.lit 1 2).

(** * The formation between the edges

    The vocabulary of the last part of the properties: in play, one drawn
    alien at most touches an edge in a tick that goes on.  Positions are
    counted exactly, as integers in units of 2^-149 (every binary32 value
    is a multiple of it); the rounding of a float addition is bounded by
    [ERR]. *)

(** One pixel, in units of 2^-149. *)
Definition UNIT : Z := 2 ^ 149.

(** The value of a float in that unit (0 for an infinity or a NaN). *)
Definition sval (x : F32.t) : Z :=
  match x with
  | S754_finite s m e => (if s then -1 else 1) * (Z.pos m * 2 ^ (e + 149))
  | _ => 0
  end.

(** The floats met in the game: a zero, or a finite float whose exponent
    lies between -149 and -15 (every float below 2^9 in size has one). *)
Definition inRange (x : F32.t) : Prop :=
  match x with
  | S754_zero _ => True
  | S754_finite _ _ e => -149 <= e <= -15
  | _ => False
  end.

Definition inRangeb (x : F32.t) : bool :=
  match x with
  | S754_zero _ => true
  | S754_finite _ _ e => (-149 <=? e) && (e <=? -15)
  | _ => false
  end.

(** The rounding error allowed for an addition: 2^-14 of a pixel. *)
Definition ERR : Z := 2 ^ 135.

(** [fexp] at precision 24 with [emax = 128]. *)
Definition fexp32 (x : Z) : Z := Z.max (x - 24) (-149).

(** The velocity after [n] turns. *)
Definition vel (n : nat) : Z := sval (Nat.iter n bounceDX (F32.lit 1 2)).

(** The column of slot [k] in the formation, in pixels, and its exact
    position when the formation stands at [ex]. *)
Definition off (k : nat) : Z :=
  if (k <? ROW1_ENEMY_COUNT)%nat then ALIEN_BETWEEN_OFFSET * Z.of_nat k
  else 9 + ALIEN_BETWEEN_OFFSET * Z.of_nat (k - ROW1_ENEMY_COUNT).

Definition posOf (ex : F32.t) (k : nat) : Z := sval ex + off k * UNIT.

(** The float whose integer part is [slotXAt]. *)
Definition slotPos (ex : F32.t) (k : nat) : F32.t :=
  if (k <? ROW1_ENEMY_COUNT)%nat
  then F32.add ex (F32.of_int (ALIEN_BETWEEN_OFFSET * Z.of_nat k))
  else F32.add (F32.add ex (F32.of_int 9))
         (F32.of_int (ALIEN_BETWEEN_OFFSET * Z.of_nat (k - ROW1_ENEMY_COUNT))).

(** How far a position lies beyond the line from which an alien touches
    the left edge (x < 1) or the right edge (x >= 120). *)
Definition depth (left : bool) (q : Z) : Z :=
  if left then UNIT - q else q - 120 * UNIT.

(** The formation's step toward that edge after [n] turns. *)
Definition grow (left : bool) (n : nat) : Z := if left then - vel n else vel n.

(** The depth an alien that touches no edge may have, and the depth below
    which a player's bullet reaches an alien (bullets fly at
    4 <= x <= 124). *)
Definition FREE : Z := 2 * ERR.
Definition REACH (left : bool) : Z := (if left then 6 else 5) * UNIT + 2 * ERR.

(** A vitality after the alien's turn, when no bullet has hit it. *)
Definition flash (a : Z) : Z := if (0 <? a) && (a <? ALIVE) then a - 1 else a.

(** Bounds on the depth of an alien at either edge, by the number of turns
    of the formation (rows 0..14) and by the alien's vitality (columns 1,
    2, 3, 4, 5 and 7), in units of 2^-20 of a pixel.  They are the least
    values, rounded up, that pass the check [sideOk] below. *)
Definition tabL : list (list Z) :=
  [ [0; 0; 0; 0; 0; 0];
    [1258548; 629338; 1258548; 629338; 629338; 629338];
    [0; 503638; 0; 0; 503638; 0];
    [1812196; 906162; 2315706; 1409672; 1409672; 906162];
    [141508; 1228607; 322573; 322573; 1228607; 0];
    [2931895; 1627234; 3837929; 2533268; 2533268; 1304789];
    [707027; 2272478; 967817; 967817; 2272478; 0];
    [4725185; 2846501; 6029846; 4151162; 4151162; 1878812];
    [1521288; 3775567; 1896883; 1896883; 3775567; 0];
    [7307435; 4602159; 9186119; 6480843; 6480843; 2705404];
    [2693739; 5939929; 3234653; 3234653; 3045394; 0];
    [11025793; 7130223; 10836534; 6940964; 7130223; 3895698];
    [2455681; 6161992; 2266422; 2455681; 1617042; 0];
    [13485606; 7876014; 12836226; 7226634; 8065273; 5609720];
    [1144644; 6104856; 495264; 1333903; 0; 0] ].

Definition tabR : list (list Z) :=
  [ [1048832; 524480; 1048832; 524480; 524480; 524480];
    [0; 419751; 0; 0; 419751; 0];
    [1510206; 755167; 1929829; 1174790; 1174790; 755167];
    [118019; 1023924; 268885; 268885; 1023924; 0];
    [2443341; 1356113; 3198380; 2111152; 2111152; 1087356];
    [589316; 1893848; 806620; 806620; 1893848; 0];
    [3937780; 2372200; 5025008; 3459428; 3459428; 1565708];
    [1267898; 3146453; 1580873; 1580873; 3146453; 0];
    [6089687; 3835280; 7655267; 5400860; 5400860; 2254535];
    [2244973; 4950120; 2695713; 2695713; 2537861; 0];
    [9188351; 5942032; 9030499; 5784180; 5942032; 3246447];
    [2046591; 5135058; 1888739; 2046591; 1347567; 0];
    [11238081; 6563410; 10696909; 6022238; 6721262; 4674799];
    [953946; 5087445; 412774; 1111798; 0; 0];
    [13875770; 7144272; 13463124; 6731626; 7685444; 6731626] ].

Definition col (a : Z) : nat :=
  match a with
  | 1 => 0%nat | 2 => 1%nat | 3 => 2%nat | 4 => 3%nat | 5 => 4%nat | _ => 5%nat
  end.

Definition bound (left : bool) (n : nat) (a : Z) : Z :=
  nth (col a) (nth n (if left then tabL else tabR) []) 0 * 2 ^ 129.

(** The vitalities of an alien that is not dead. *)
Definition vitalities : list Z := [1; 2; 3; 4; 5; 7].

(** The bounds are closed under one tick.  An alien with vitality [a]
    stands at depth [bound n a] at most, or at depth [FREE] at most when
    it is drawn and the formation does not turn ([c = 0]); the formation
    goes from [n] to [n + c] turns and moves; the alien then lies within
    the bound of its new vitality, [flash a], or 5 when a bullet has hit
    it, which needs a drawn alien within [REACH]. *)
Definition stepOk (left : bool) (n : nat) (a : Z) (c : nat) : bool :=
  let n' := (n + c)%nat in
  let free := Z.odd a && (c =? 0)%nat in
  let d := if free then FREE else bound left n a in
  let dh := if free then FREE else Z.min (bound left n a) (REACH left) in
  ((flash a =? 0) || (d + grow left n' + ERR <=? bound left n' (flash a)))
  && (negb (Z.odd a) || (dh + grow left n' + ERR <=? bound left n' 5)).

(** The bounds stay below 14 pixels; for a drawn alien they stay below the
    9 pixels between two neighbouring columns as long as a second-row
    alien can be drawn without landing (10 turns), and below the 18 pixels
    between two columns of the first row up to 12 turns; before the first
    turn an alien is within reach of the bullets. *)
Definition levelOk (left : bool) (n : nat) (a : Z) : bool :=
  (0 <=? bound left n a) && (bound left n a <=? 14 * UNIT)
  && (negb (Z.odd a) || negb (n <=? 10)%nat || (bound left n a + 4 * ERR <? 9 * UNIT))
  && (negb (Z.odd a) || negb (n <=? 12)%nat || (bound left n a + 4 * ERR <? 18 * UNIT))
  && (negb (n =? 0)%nat || (bound left n a <? REACH left)).

(** Everything the proof takes from the tables and from the 15 velocities:
    one vitality, one number of turns, one edge. *)
Definition cellOk (left : bool) (n : nat) (a : Z) : bool :=
  levelOk left n a
  && forallb (fun c => (14 <? n + c)%nat || stepOk left n a c) [0; 1]%nat.

Definition rowOk (left : bool) (n : nat) : bool :=
  inRangeb (Nat.iter n bounceDX (F32.lit 1 2))
  && (Z.abs (vel n) <=? 7 * UNIT)
  && forallb (cellOk left n) vitalities.

Definition sideOk (left : bool) : bool := forallb (rowOk left) (seq 0 15).

(** The formation has turned [n] times, stands at a float of the game, and
    every alien that is not dead lies within the bound of its vitality at
    both edges. *)
Definition formOk (n : nat) (g : Game) : Prop :=
  descent n g /\ inRange (enemyX g) /\ -100 * UNIT <= sval (enemyX g) <= 150 * UNIT /\
  forall k, (k < ENEMY_COUNT)%nat -> enemyAlive g !!! k <> 0 ->
    forall left, depth left (posOf (enemyX g) k) <= bound left n (enemyAlive g !!! k).

(** What play keeps between two ticks. *)
Definition playOk (g : Game) : Prop :=
  shapeOk g /\ shipOnTrack g /\ shipY g = 50 /\
  (forall j, (j < 20)%nat -> playerSlotOk 49 (playerSlot g j)) /\
  aliveInv g /\
  (forall j, (j < ENEMY_COUNT)%nat -> vitalityOk (enemyAlive g !!! j)).

(** * Properties *)

(** ** Machine arithmetic *)

Lemma u8_small (z : Z) : 0 <= z < 256 -> u8 z = z.
Proof. intros H. unfold u8. apply Z.mod_small. exact H. Qed.

Lemma u8_range (z : Z) : 0 <= u8 z < 256.
Proof. unfold u8. apply Z.mod_pos_bound. lia. Qed.

Lemma byte_high_bits (a n : Z) : 0 <= a < 256 -> 8 <= n -> Z.testbit a n = false.
Proof.
  intros Ha Hn. rewrite <- (Z.mod_small a (2 ^ 8)) by (change (2 ^ 8) with 256; lia).
  apply Z.mod_pow2_bits_high. lia.
Qed.

Lemma lor_bit_byte (a s : Z) :
  0 <= a < 256 -> 0 <= s < 8 -> u8 (Z.lor a (Z.shiftl 1 s)) = Z.lor a (2 ^ s).
Proof.
  intros Ha Hs. rewrite Z.shiftl_1_l. unfold u8. change 256 with (2 ^ 8).
  apply Z.bits_inj'. intros n Hn.
  destruct (Z.lt_ge_cases n 8) as [Hlt | Hge].
  - apply Z.mod_pow2_bits_low. exact Hlt.
  - rewrite Z.mod_pow2_bits_high by lia.
    rewrite Z.lor_spec, (byte_high_bits a n Ha Hge), Z.pow2_bits_eqb by lia.
    symmetry. simpl. apply Z.eqb_neq. lia.
Qed.

(** ** The pixel buffer *)

Section PixelBuffer.

Variable fb : list Z.
Hypothesis fb_bytes : forall k : nat, (k < FRAME_BYTES)%nat -> 0 <= fb !!! k < 256.

Lemma lcdDrawPixel_outside (x y : Z) :
  x > 127 \/ y > 63 -> lcdDrawPixel x y fb = fb.
Proof using Type.
  intros H. unfold lcdDrawPixel.
  destruct (127 <? x) eqn:Hx; [reflexivity|].
  destruct (63 <? y) eqn:Hy; [reflexivity|].
  apply Z.ltb_ge in Hx, Hy. lia.
Qed.

Lemma pixel_index_range (x y : Z) :
  0 <= x <= 127 -> 0 <= y <= 63 ->
  (Z.to_nat ((63 - y) / 8 * 128 + x) < FRAME_BYTES)%nat.
Proof using Type.
  intros Hx Hy. unfold FRAME_BYTES.
  assert (0 <= (63 - y) / 8 < 8).
  { split; [apply Z.div_pos; lia|]. apply Z.div_lt_upper_bound; lia. }
  lia.
Qed.

Lemma lcdDrawPixel_inside (x y : Z) :
  0 <= x <= 127 -> 0 <= y <= 63 ->
  lcdDrawPixel x y fb =
  <[Z.to_nat ((63 - y) / 8 * 128 + x) :=
      Z.lor (fb !!! Z.to_nat ((63 - y) / 8 * 128 + x)) (2 ^ ((63 - y) mod 8))]> fb.
Proof using fb_bytes.
  intros Hx Hy. unfold lcdDrawPixel.
  destruct (127 <? x) eqn:Ex; [apply Z.ltb_lt in Ex; lia|].
  destruct (63 <? y) eqn:Ey; [apply Z.ltb_lt in Ey; lia|].
  cbn [orb]. cbv zeta.
  rewrite (u8_small (63 - y)) by lia.
  rewrite Z.shiftr_div_pow2, Z.shiftl_mul_pow2 by lia.
  change (2 ^ 3) with 8. change (2 ^ 7) with 128.
  change (Z.land (63 - y) 7) with (Z.land (63 - y) (Z.ones 3)). rewrite Z.land_ones by lia. change (2 ^ 3) with 8.
  rewrite lor_bit_byte; [reflexivity | | apply Z.mod_pos_bound; lia].
  apply fb_bytes, pixel_index_range; lia.
Qed.

End PixelBuffer.

(** C6.  [lcdDrawPixel] on [uint8_t] coordinates [(x, y)]: when [x > 127] or
    [y > 63] the buffer is returned as it is; otherwise, with [y' = 63 - y],
    the byte at index [(y' / 8) * 128 + x] becomes its old value OR-ed with
    bit [y' mod 8], so that exactly this bit is set and every other bit of
    the 1024 bytes keeps its value (none is cleared). *)
Theorem lcdDrawPixel_sets_exactly_one_bit (fb : list Z) (x y : Z) :
  length fb = FRAME_BYTES ->
  (forall k : nat, (k < FRAME_BYTES)%nat -> 0 <= fb !!! k < 256) ->
  0 <= x < 256 -> 0 <= y < 256 ->
  (x > 127 \/ y > 63 -> lcdDrawPixel x y fb = fb) /\
  (x <= 127 -> y <= 63 ->
   let y' := 63 - y in
   let idx := Z.to_nat (y' / 8 * 128 + x) in
   (idx < FRAME_BYTES)%nat /\
   length (lcdDrawPixel x y fb) = FRAME_BYTES /\
   lcdDrawPixel x y fb !!! idx = Z.lor (fb !!! idx) (2 ^ (y' mod 8)) /\
   forall (k : nat) (b : Z), (k < FRAME_BYTES)%nat -> 0 <= b ->
     Z.testbit (lcdDrawPixel x y fb !!! k) b =
     if decide (k = idx /\ b = y' mod 8) then true else Z.testbit (fb !!! k) b).
Proof.
  intros Hlen Hbytes Hx Hy. split; [apply lcdDrawPixel_outside|].
  intros Hx' Hy' y' idx.
  assert (Hidx : (idx < FRAME_BYTES)%nat) by (apply pixel_index_range; lia).
  rewrite (lcdDrawPixel_inside fb Hbytes x y) by lia. fold y'. fold idx.
  split; [exact Hidx|]. split; [rewrite length_insert; exact Hlen|].
  split; [apply list_lookup_total_insert_eq; lia|].
  intros k b Hk Hb.
  assert (Hm : 0 <= y' mod 8 < 8) by (apply Z.mod_pos_bound; lia).
  destruct (decide (k = idx)) as [-> | Hne].
  - rewrite list_lookup_total_insert_eq by lia.
    rewrite Z.lor_spec, Z.pow2_bits_eqb by lia.
    destruct (decide (idx = idx /\ b = y' mod 8)) as [[_ ->] | Hn].
    + rewrite Z.eqb_refl. apply orb_true_r.
    + replace (y' mod 8 =? b) with false; [apply orb_false_r|].
      symmetry. apply Z.eqb_neq. intros E. apply Hn. split; [reflexivity | lia].
  - rewrite list_lookup_total_insert_ne by congruence.
    destruct (decide (k = idx /\ b = y' mod 8)) as [[E _] | _]; [contradiction | reflexivity].
Qed.

Lemma lcdDrawPixel_sets_exactly_one_bit_witness :
  lcdDrawPixel 3 10 (replicate FRAME_BYTES 0) !!! Z.to_nat ((63 - 10) / 8 * 128 + 3)
  = Z.lor (replicate FRAME_BYTES 0 !!! Z.to_nat ((63 - 10) / 8 * 128 + 3))
          (2 ^ ((63 - 10) mod 8)).
Proof.
  refine (proj1 (proj2 (proj2 (proj2
    (lcdDrawPixel_sets_exactly_one_bit (replicate FRAME_BYTES 0) 3 10 _ _ _ _) _ _)))).
  - apply length_replicate.
  - intros k Hk. rewrite lookup_total_replicate_2 by exact Hk. lia.
  - lia.
  - lia.
  - lia.
  - lia.
Defined.

(** ** The bullet pools as ring buffers *)

Lemma cursor_step (c : Z) : 0 <= c < 20 -> u8 (c + 1) mod 20 = (c + 1) mod 20.
Proof. intros H. rewrite u8_small by lia. reflexivity. Qed.

Lemma fireShots_cursor (ps : list Z) (g : Game) :
  0 <= currBulletId g < 20 ->
  currBulletId (fireShots ps g) = (currBulletId g + Z.of_nat (length ps)) mod 20.
Proof.
  intros Hc. induction ps as [| p ps IH] using rev_ind.
  - simpl. rewrite Z.add_0_r, Z.mod_small by lia. reflexivity.
  - unfold fireShots in *. rewrite foldl_snoc, length_app. simpl.
    change (Z.of_nat MAX_PLAYER_BULLETS) with 20.
    rewrite IH. rewrite cursor_step by (apply Z.mod_pos_bound; lia).
    rewrite Zplus_mod_idemp_l. f_equal. lia.
Qed.

Lemma fireShots_length (ps : list Z) (g : Game) :
  length (bulletX (fireShots ps g)) = length (bulletX g) /\
  length (bulletY (fireShots ps g)) = length (bulletY g).
Proof.
  induction ps as [| p ps IH] using rev_ind; [split; reflexivity|].
  unfold fireShots in *. rewrite foldl_snoc. simpl.
  rewrite !length_insert. exact IH.
Qed.

Lemma fireShots_shipY (ps : list Z) (g : Game) : shipY (fireShots ps g) = shipY g.
Proof.
  induction ps as [| p ps IH] using rev_ind; [reflexivity|].
  unfold fireShots in *. rewrite foldl_snoc. simpl. exact IH.
Qed.

(** C7.  A shot writes its coordinates into the slot under the pool's write
    cursor, whatever that slot holds, and moves the cursor on by one modulo
    the capacity, for the player's pool and for the enemy pool alike; so
    after capacity + 1 player shots from cursor 0, slot 0 holds the
    coordinates of the last shot instead of those of the first. *)
Theorem shots_write_at_cursor_and_wrap (g : Game) :
  0 <= currBulletId g < 20 -> 0 <= currEnemyBulletId g < 20 ->
  (bulletX (playerFire g)
     = <[Z.to_nat (currBulletId g) := u8 (shipX g + 4)]> (bulletX g) /\
   bulletY (playerFire g) = <[Z.to_nat (currBulletId g) := shipY g]> (bulletY g) /\
   currBulletId (playerFire g) = (currBulletId g + 1) mod Z.of_nat MAX_PLAYER_BULLETS) /\
  (forall x y : Z,
   enemyBulletX (enemyFire x y g)
     = <[Z.to_nat (currEnemyBulletId g) := u8 (x + 4)]> (enemyBulletX g) /\
   enemyBulletY (enemyFire x y g)
     = <[Z.to_nat (currEnemyBulletId g) := u8 (y + 8)]> (enemyBulletY g) /\
   currEnemyBulletId (enemyFire x y g)
     = (currEnemyBulletId g + 1) mod Z.of_nat MAX_ENEMY_BULLETS) /\
  (forall (ps : list Z) (p_first p_last : Z),
   currBulletId g = 0 ->
   length (bulletX g) = MAX_PLAYER_BULLETS -> length (bulletY g) = MAX_PLAYER_BULLETS ->
   length ps = (MAX_PLAYER_BULLETS - 1)%nat ->
   bulletX (fireShots [p_first] g) !!! 0%nat = u8 (p_first + 4) /\
   bulletX (fireShots (p_first :: ps ++ [p_last]) g) !!! 0%nat = u8 (p_last + 4) /\
   bulletY (fireShots (p_first :: ps ++ [p_last]) g) !!! 0%nat = shipY g /\
   currBulletId (fireShots (p_first :: ps ++ [p_last]) g) = 1).
Proof.
  intros Hc Hec. split; [|split].
  - split; [reflexivity|]. split; [reflexivity|]. simpl. apply cursor_step. exact Hc.
  - intros x y. split; [reflexivity|]. split; [reflexivity|]. simpl.
    apply cursor_step. exact Hec.
  - intros ps p_first p_last H0 Hlx Hly Hps.
    unfold MAX_PLAYER_BULLETS in *.
    split.
    { simpl. rewrite H0. simpl. apply list_lookup_total_insert_eq. lia. }
    change (p_first :: ps ++ [p_last]) with ((p_first :: ps) ++ [p_last]).
    assert (Hcur : currBulletId (fireShots (p_first :: ps) g) = 0).
    { rewrite fireShots_cursor by lia. rewrite H0. simpl length. rewrite Hps. reflexivity. }
    destruct (fireShots_length (p_first :: ps) g) as [Lx Ly].
    pose proof (fireShots_shipY (p_first :: ps) g) as Hy.
    unfold fireShots in *. rewrite foldl_snoc.
    set (g20 := foldl _ g (p_first :: ps)) in *.
    simpl. rewrite Hcur. simpl.
    split; [apply list_lookup_total_insert_eq; lia|].
    split; [|reflexivity].
    rewrite list_lookup_total_insert_eq by lia. exact Hy.
Qed.

Lemma shots_write_at_cursor_and_wrap_witness :
  bulletX (fireShots (10 :: replicate 19 30 ++ [50]) start) !!! 0%nat = u8 (50 + 4).
Proof.
  refine (proj1 (proj2 (proj2 (proj2
    (shots_write_at_cursor_and_wrap start _ _)) (replicate 19 30) 10 50 _ _ _ _))).
  - simpl. lia.
  - simpl. lia.
  - reflexivity.
  - reflexivity.
  - reflexivity.
  - reflexivity.
Defined.

(** ** Loops that treat every slot of a pool on its own *)

Section SlotLoop.

Context {T : Type}.
Variable step : Game -> nat -> Game.
Variable view : Game -> nat -> T.
Variable rule : T -> T.
Variable Inv : Game -> Prop.

Hypothesis step_inv : forall g i, Inv g -> Inv (step g i).
Hypothesis step_other : forall g i j, i <> j -> view (step g i) j = view g j.
Hypothesis step_self : forall g i, Inv g -> (i < 20)%nat -> view (step g i) i = rule (view g i).

Lemma slot_loop_prefix (g : Game) (n : nat) :
  Inv g -> (n <= 20)%nat ->
  Inv (foldl step g (seq 0 n)) /\
  forall j, view (foldl step g (seq 0 n)) j
            = if (j <? n)%nat then rule (view g j) else view g j.
Proof using step_inv step_other step_self.
  intros Hg. induction n as [| n IH]; intros Hn.
  - split; [exact Hg | reflexivity].
  - destruct IH as [Hinv Hview]; [lia|].
    rewrite seq_S, foldl_snoc. simpl. split; [apply step_inv, Hinv|].
    intros j. destruct (decide (j = n)) as [-> | Hne].
    + rewrite step_self by (assumption || lia). rewrite Hview.
      replace (n <? n)%nat with false by (symmetry; apply Nat.ltb_ge; lia).
      replace (n <? S n)%nat with true by (symmetry; apply Nat.ltb_lt; lia).
      reflexivity.
    + rewrite step_other by congruence. rewrite Hview.
      destruct (j <? n)%nat eqn:E1, (j <? S n)%nat eqn:E2; try reflexivity.
      * apply Nat.ltb_lt in E1. apply Nat.ltb_ge in E2. lia.
      * apply Nat.ltb_ge in E1. apply Nat.ltb_lt in E2. lia.
Qed.

Lemma slot_loop (g : Game) (j : nat) :
  Inv g -> (j < 20)%nat -> view (foldl step g (seq 0 20)) j = rule (view g j).
Proof using step_inv step_other step_self.
  intros Hg Hj. destruct (slot_loop_prefix g 20 Hg) as [_ H]; [lia|].
  rewrite H. replace (j <? 20)%nat with true by (symmetry; apply Nat.ltb_lt; lia).
  reflexivity.
Qed.

End SlotLoop.

(** ** Player bullets against one alien *)

Lemma hitStep_sized k x y g j : playerPoolSized g -> playerPoolSized (hitStep k x y g j).
Proof.
  unfold playerPoolSized, hitStep. intros [Hx Hy].
  destruct (inBox _ _ _ _ _ _); simpl; rewrite ?length_insert; auto.
Qed.

Lemma hitStep_other k x y g i j :
  i <> j -> playerSlot (hitStep k x y g i) j = playerSlot g j.
Proof.
  intros Hne. unfold playerSlot, hitStep.
  destruct (inBox _ _ _ _ _ _); simpl; [|reflexivity].
  rewrite !list_lookup_total_insert_ne by exact Hne. reflexivity.
Qed.

Lemma hitStep_self k x y g i :
  playerPoolSized g -> (i < 20)%nat ->
  playerSlot (hitStep k x y g i) i = hitRule x y (playerSlot g i).
Proof.
  intros [Hx Hy] Hi. unfold playerSlot, hitStep, hitRule, MAX_PLAYER_BULLETS in *. simpl.
  destruct (inBox _ _ _ _ _ _); simpl; [|reflexivity].
  rewrite !list_lookup_total_insert_eq by lia. reflexivity.
Qed.

Lemma hitScan_slot k x y g j :
  playerPoolSized g -> (j < 20)%nat ->
  playerSlot (hitScan k x y g) j = hitRule x y (playerSlot g j).
Proof.
  intros Hg Hj. unfold hitScan.
  apply (slot_loop (hitStep k x y) playerSlot (hitRule x y) playerPoolSized);
    auto using hitStep_sized, hitStep_other, hitStep_self.
Qed.

Lemma hitScan_sized k x y g : playerPoolSized g -> playerPoolSized (hitScan k x y g).
Proof.
  intros Hg. unfold hitScan.
  apply (slot_loop_prefix (hitStep k x y) playerSlot (hitRule x y) playerPoolSized);
    auto using hitStep_sized, hitStep_other, hitStep_self.
Qed.

Lemma hitScan_alien_prefix k x y g n :
  playerPoolSized g -> (n <= 20)%nat ->
  enemyAlive (foldl (hitStep k x y) g (seq 0 n))
  = if anyHit x y g n then <[k := START_DYING]> (enemyAlive g) else enemyAlive g.
Proof.
  intros Hg. induction n as [| n IH]; intros Hn; [reflexivity|].
  unfold anyHit in *. rewrite seq_S, foldl_snoc, existsb_app. simpl.
  destruct (slot_loop_prefix (hitStep k x y) playerSlot (hitRule x y) playerPoolSized
              (hitStep_sized k x y) (hitStep_other k x y) (hitStep_self k x y) g n Hg)
    as [_ Hv];
    [lia|].
  specialize (Hv n). replace (n <? n)%nat with false in Hv
    by (symmetry; apply Nat.ltb_ge; lia).
  unfold playerSlot in Hv. injection Hv as Hvx Hvy.
  unfold hitStep at 1. rewrite Hvx, Hvy.
  destruct (inBox x y ALIEN_WIDTH ALIEN_HEIGHT (bulletX g !!! n) (bulletY g !!! n)); simpl.
  - rewrite IH by lia. rewrite orb_true_r.
    destruct (existsb _ _); [apply list_insert_insert_eq | reflexivity].
  - rewrite IH by lia. rewrite orb_false_r. reflexivity.
Qed.

(** [hitScan] leaves everything but the player's pool and the alien list. *)
Lemma hitStep_frame k x y g j :
  let g' := hitStep k x y g j in
  (lives g', shipAlive g', shipX g', shipY g', enemyX g', enemyY g', enemyDX g',
   enemyRemaining g', currBulletId g', bulletWait g',
   currEnemyBulletId g', enemyBulletWait g', enemyBulletX g', enemyBulletY g')
  = (lives g, shipAlive g, shipX g, shipY g, enemyX g, enemyY g, enemyDX g,
     enemyRemaining g, currBulletId g, bulletWait g,
     currEnemyBulletId g, enemyBulletWait g, enemyBulletX g, enemyBulletY g).
Proof. unfold hitStep. destruct (inBox _ _ _ _ _ _); reflexivity. Qed.

(** C1 (as amended).  When alien [k], drawn at [(x, y)], is checked against
    the player's pool, every slot whose bullet lies in the alien's box
    (edges included) is set to the sentinel (0,0), every other slot keeps
    its coordinates, and the alien is set to START_DYING = ALIVE - 1 exactly
    when at least one slot matched: the loop has no early exit, so all
    matching bullets are consumed, not only the first. *)
Theorem hitScan_consumes_every_matching_bullet (k : nat) (x y : Z) (g : Game) :
  length (bulletX g) = MAX_PLAYER_BULLETS ->
  length (bulletY g) = MAX_PLAYER_BULLETS ->
  let hit j := inBox x y ALIEN_WIDTH ALIEN_HEIGHT (bulletX g !!! j) (bulletY g !!! j) in
  let g' := hitScan k x y g in
  (forall j : nat, (j < MAX_PLAYER_BULLETS)%nat ->
     (hit j = true -> bulletX g' !!! j = 0 /\ bulletY g' !!! j = 0) /\
     (hit j = false ->
      bulletX g' !!! j = bulletX g !!! j /\ bulletY g' !!! j = bulletY g !!! j)) /\
  ((exists j : nat, (j < MAX_PLAYER_BULLETS)%nat /\ hit j = true) ->
   enemyAlive g' = <[k := ALIVE - 1]> (enemyAlive g)) /\
  ((forall j : nat, (j < MAX_PLAYER_BULLETS)%nat -> hit j = false) ->
   enemyAlive g' = enemyAlive g).
Proof.
  intros Hx Hy hit g'.
  assert (Hg : playerPoolSized g) by (split; assumption).
  assert (Halive : enemyAlive g'
                   = if anyHit x y g 20 then <[k := START_DYING]> (enemyAlive g)
                     else enemyAlive g).
  { apply hitScan_alien_prefix; [exact Hg | lia]. }
  split; [|split].
  - intros j Hj. pose proof (hitScan_slot k x y g j Hg Hj) as Hs.
    unfold playerSlot, hitRule in Hs. simpl in Hs. fold (hit j) in Hs. fold g' in Hs.
    split; intros E; rewrite E in Hs; injection Hs as -> ->; split; reflexivity.
  - intros (j & Hj & E). rewrite Halive.
    replace (anyHit x y g 20) with true; [reflexivity|].
    symmetry. apply existsb_exists. exists j. split; [|exact E].
    apply in_seq. unfold MAX_PLAYER_BULLETS in Hj. lia.
  - intros Hnone. rewrite Halive.
    destruct (anyHit x y g 20) eqn:E; [|reflexivity].
    apply existsb_exists in E. destruct E as (j & Hin & E).
    apply in_seq in Hin. change (hit j = true) in E. rewrite Hnone in E; [discriminate|].
    unfold MAX_PLAYER_BULLETS. lia.
Qed.

Lemma hitScan_consumes_every_matching_bullet_witness :
  bulletX (hitScan 5 57 12 (run twoBulletsTrace)) !!! 1%nat = 0 /\
  bulletY (hitScan 5 57 12 (run twoBulletsTrace)) !!! 1%nat = 0.
Proof.
  refine (proj1 (proj1
    (hitScan_consumes_every_matching_bullet 5 57 12 (run twoBulletsTrace) _ _) 1%nat _) _).
  - vm_compute. reflexivity.
  - vm_compute. reflexivity.
  - unfold MAX_PLAYER_BULLETS. lia.
  - vm_compute. reflexivity.
Defined.

(** C1 as stated fails.  After [twoBulletsTrace] the player's bullets in
    slots 0 and 1 stand at (60,17) and (60,18); in the next tick slot 5 is
    drawn at (57,12) (the formation has just come down by 4), both bullets
    lie in its box, and both slots are cleared: slot 1, which is not the
    first matching slot, does not keep its coordinates. *)
Lemma second_matching_bullet_is_consumed_too :
  playerSlot (run twoBulletsTrace) 0 = (60, 17) /\
  playerSlot (run twoBulletsTrace) 1 = (60, 18) /\
  row2X (run twoBulletsTrace) 0 = 57 /\
  row2Y (bounce (run twoBulletsTrace)) = 12 /\
  inBox 57 12 ALIEN_WIDTH ALIEN_HEIGHT 60 17 = true /\
  inBox 57 12 ALIEN_WIDTH ALIEN_HEIGHT 60 18 = true /\
  playerSlot (hitScan 5 57 12 (run twoBulletsTrace)) 0 = (0, 0) /\
  playerSlot (hitScan 5 57 12 (run twoBulletsTrace)) 1 = (0, 0) /\
  playerSlot (hitScan 5 57 12 (run twoBulletsTrace)) 1 <> playerSlot (run twoBulletsTrace) 1 /\
  playerSlot (gameLoop idle (run twoBulletsTrace)) 1 = (0, 0) /\
  enemyAlive (gameLoop idle (run twoBulletsTrace)) = [7; 7; 7; 7; 7; 5; 7; 7; 7].
Proof. vm_compute. repeat split; discriminate. Qed.

(** ** Bullet advancement *)

Lemma playerBulletStep_sized g i : playerPoolSized g -> playerPoolSized (playerBulletStep g i).
Proof.
  unfold playerPoolSized, playerBulletStep. intros [Hx Hy].
  repeat match goal with |- context [if ?b then _ else _] => destruct b end;
    simpl; rewrite ?length_insert; auto.
Qed.

Lemma playerBulletStep_other g i j :
  i <> j -> playerSlot (playerBulletStep g i) j = playerSlot g j.
Proof.
  intros Hne. unfold playerSlot, playerBulletStep.
  repeat match goal with |- context [if ?b then _ else _] => destruct b end;
    simpl; rewrite ?list_lookup_total_insert_ne by exact Hne; reflexivity.
Qed.

Lemma playerBulletStep_self g i :
  playerPoolSized g -> (i < 20)%nat ->
  playerSlot (playerBulletStep g i) i = playerAdvanceRule (playerSlot g i).
Proof.
  intros [Hx Hy] Hi.
  unfold playerSlot, playerBulletStep, playerAdvanceRule, MAX_PLAYER_BULLETS in *. simpl.
  destruct (negb (bulletX g !!! i =? 0) && negb (bulletY g !!! i =? 0)); [|reflexivity].
  simpl. rewrite list_lookup_total_insert_eq by lia.
  destruct ((u8 (bulletY g !!! i - SHIP_BULL_SPEED) =? 0)
            || (SCREEN_HEIGHT <? u8 (bulletY g !!! i - SHIP_BULL_SPEED))); simpl.
  - rewrite !list_lookup_total_insert_eq by (rewrite ?length_insert; lia). reflexivity.
  - rewrite list_lookup_total_insert_eq by lia. reflexivity.
Qed.

Lemma advancePlayerBullets_slot g i :
  playerPoolSized g -> (i < 20)%nat ->
  playerSlot (advancePlayerBullets g) i = playerAdvanceRule (playerSlot g i).
Proof.
  intros Hg Hi. unfold advancePlayerBullets.
  apply (slot_loop playerBulletStep playerSlot playerAdvanceRule playerPoolSized);
    auto using playerBulletStep_sized, playerBulletStep_other, playerBulletStep_self.
Qed.

Lemma enemyBulletStep_inv sx sy g i :
  enemyLoopInv sx sy g -> enemyLoopInv sx sy (enemyBulletStep g i).
Proof.
  unfold enemyLoopInv, enemyPoolSized, enemyBulletStep. intros [[Hx Hy] [Hsx Hsy]].
  repeat match goal with |- context [if ?b then _ else _] => destruct b end;
    simpl; rewrite ?length_insert; auto.
Qed.

Lemma enemyBulletStep_other g i j :
  i <> j -> enemySlot (enemyBulletStep g i) j = enemySlot g j.
Proof.
  intros Hne. unfold enemySlot, enemyBulletStep.
  repeat match goal with |- context [if ?b then _ else _] => destruct b end;
    simpl; rewrite ?list_lookup_total_insert_ne by exact Hne; reflexivity.
Qed.

Lemma enemyBulletStep_self sx sy g i :
  enemyLoopInv sx sy g -> (i < 20)%nat ->
  enemySlot (enemyBulletStep g i) i = enemyAdvanceRule sx sy (enemySlot g i).
Proof.
  intros [[Hx Hy] [Hsx Hsy]] Hi.
  unfold enemySlot, enemyBulletStep, enemyAdvanceRule, MAX_ENEMY_BULLETS in *. simpl.
  destruct (negb (enemyBulletX g !!! i =? 0) && negb (enemyBulletY g !!! i =? 0));
    [|reflexivity].
  simpl. rewrite list_lookup_total_insert_eq by lia. rewrite Hsx, Hsy.
  destruct (inBox sx sy SHIP_WIDTH SHIP_HEIGHT (enemyBulletX g !!! i)
              (u8 (enemyBulletY g !!! i + ENEMY_BULLET_SPEED))).
  - destruct (shipAlive g =? ALIVE); simpl;
      rewrite !list_lookup_total_insert_eq by (rewrite ?length_insert; lia);
      simpl; rewrite !list_lookup_total_insert_eq by (rewrite ?length_insert; lia);
      reflexivity.
  - simpl. rewrite !list_lookup_total_insert_eq by lia.
    destruct (SCREEN_HEIGHT <=? u8 (enemyBulletY g !!! i + ENEMY_BULLET_SPEED)); simpl.
    + rewrite !list_lookup_total_insert_eq by (rewrite ?length_insert; lia). reflexivity.
    + rewrite list_lookup_total_insert_eq by lia. reflexivity.
Qed.

Lemma advanceEnemyBullets_slot g i :
  enemyPoolSized g -> (i < 20)%nat ->
  enemySlot (advanceEnemyBullets g) i
  = enemyAdvanceRule (shipX g) (shipY g) (enemySlot g i).
Proof.
  intros Hg Hi. unfold advanceEnemyBullets.
  apply (slot_loop enemyBulletStep enemySlot (enemyAdvanceRule (shipX g) (shipY g))
           (enemyLoopInv (shipX g) (shipY g)));
    auto using enemyBulletStep_inv, enemyBulletStep_other, enemyBulletStep_self.
  repeat split; apply Hg.
Qed.

(** C8 (as amended).  A slot with both coordinates non-zero is advanced.
    In the player's pool its y becomes [y' = (y - 1) mod 256], and the slot
    is reset to (0,0) exactly when [y' = 0] or [y' > 64]; otherwise it
    becomes [(x, y')].  In the enemy pool its y becomes
    [y' = (y + 1) mod 256], and the slot is reset to (0,0) exactly when the
    bullet at [(x, y')] lies in the ship's box or [y' >= 64]; otherwise it
    becomes [(x, y')].  The sentinel (0,0) is left as it is in both pools.
    Nothing is said here of a slot with exactly one zero coordinate. *)
Theorem bullets_advance_by_pool (g : Game) (i : nat) :
  length (bulletX g) = MAX_PLAYER_BULLETS -> length (bulletY g) = MAX_PLAYER_BULLETS ->
  length (enemyBulletX g) = MAX_ENEMY_BULLETS ->
  length (enemyBulletY g) = MAX_ENEMY_BULLETS ->
  (i < 20)%nat ->
  (let x := bulletX g !!! i in
   let y := bulletY g !!! i in
   let y' := (y - 1) mod 256 in
   let slot' := playerSlot (advancePlayerBullets g) i in
   (x <> 0 -> y <> 0 ->
    (slot' = (0, 0) <-> y' = 0 \/ y' > SCREEN_HEIGHT) /\
    (y' <> 0 -> y' <= SCREEN_HEIGHT -> slot' = (x, y'))) /\
   (x = 0 -> y = 0 -> slot' = (0, 0))) /\
  (let x := enemyBulletX g !!! i in
   let y := enemyBulletY g !!! i in
   let y' := (y + 1) mod 256 in
   let inShip := inBox (shipX g) (shipY g) SHIP_WIDTH SHIP_HEIGHT x y' in
   let slot' := enemySlot (advanceEnemyBullets g) i in
   (x <> 0 -> y <> 0 ->
    (slot' = (0, 0) <-> inShip = true \/ y' >= SCREEN_HEIGHT) /\
    (inShip = false -> y' < SCREEN_HEIGHT -> slot' = (x, y'))) /\
   (x = 0 -> y = 0 -> slot' = (0, 0))).
Proof.
  intros Hpx Hpy Hex Hey Hi. split.
  - intros x y y' slot'. unfold slot'.
    rewrite advancePlayerBullets_slot by (try split; assumption).
    unfold playerAdvanceRule, playerSlot, u8, SHIP_BULL_SPEED. simpl.
    fold x. fold y. fold y'. split.
    + intros Hx Hy.
      replace (x =? 0) with false by (symmetry; apply Z.eqb_neq; exact Hx).
      replace (y =? 0) with false by (symmetry; apply Z.eqb_neq; exact Hy).
      simpl.
      assert (Keep : y' <> 0 -> y' <= SCREEN_HEIGHT ->
                     (if (y' =? 0) || (SCREEN_HEIGHT <? y') then (0, 0) else (x, y'))
                     = (x, y')).
      { intros E1 E2.
        replace (y' =? 0) with false by (symmetry; apply Z.eqb_neq; exact E1).
        replace (SCREEN_HEIGHT <? y') with false by (symmetry; apply Z.ltb_ge; lia).
        reflexivity. }
      split; [split|exact Keep].
      * intros E. destruct (Z.eq_dec y' 0) as [E0 | E0]; [left; exact E0|].
        destruct (Z_le_gt_dec y' SCREEN_HEIGHT) as [E1 | E1]; [|right; exact E1].
        rewrite (Keep E0 E1) in E. congruence.
      * intros [E | E].
        -- rewrite E. reflexivity.
        -- replace (SCREEN_HEIGHT <? y') with true
             by (symmetry; apply Z.ltb_lt; lia).
           rewrite orb_true_r. reflexivity.
    + intros E1 E2. rewrite E1, E2. reflexivity.
  - intros x y y' inShip slot'. unfold slot'.
    rewrite advanceEnemyBullets_slot by (try split; assumption).
    unfold enemyAdvanceRule, enemySlot, u8, ENEMY_BULLET_SPEED. simpl.
    fold x. fold y. fold y'. fold inShip. split.
    + intros Hx Hy.
      replace (x =? 0) with false by (symmetry; apply Z.eqb_neq; exact Hx).
      replace (y =? 0) with false by (symmetry; apply Z.eqb_neq; exact Hy).
      simpl.
      assert (Keep : inShip = false -> y' < SCREEN_HEIGHT ->
                     (if inShip then (0, 0)
                      else if SCREEN_HEIGHT <=? y' then (0, 0) else (x, y'))
                     = (x, y')).
      { intros E1 E2. rewrite E1.
        replace (SCREEN_HEIGHT <=? y') with false by (symmetry; apply Z.leb_gt; lia).
        reflexivity. }
      split; [split|exact Keep].
      * intros E. destruct inShip eqn:E0; [left; reflexivity|].
        destruct (Z_lt_ge_dec y' SCREEN_HEIGHT) as [E1 | E1]; [|right; exact E1].
        rewrite (Keep eq_refl E1) in E. congruence.
      * intros [E | E].
        -- rewrite E. reflexivity.
        -- replace (SCREEN_HEIGHT <=? y') with true
             by (symmetry; apply Z.leb_le; lia).
           destruct inShip; reflexivity.
    + intros E1 E2. rewrite E1, E2. reflexivity.
Qed.

Lemma bullets_advance_by_pool_witness :
  enemySlot (advanceEnemyBullets (run (replicate 59 idle))) 0 = (0, 0).
Proof.
  refine (proj2 (proj1 (proj1 (proj2
    (bullets_advance_by_pool (run (replicate 59 idle)) 0 _ _ _ _ _)) _ _)) _).
  - vm_compute. reflexivity.
  - vm_compute. reflexivity.
  - vm_compute. reflexivity.
  - vm_compute. reflexivity.
  - lia.
  - vm_compute. discriminate.
  - vm_compute. discriminate.
  - right. vm_compute. discriminate.
Defined.

(** C8 as stated fails for the enemy pool.  After 59 idle ticks the bullet
    that slot 0 fired in tick 5 stands at (16,63), far from the ship at
    (60,50).  The advancement gives it y = 64, which is neither 0 nor above
    the screen height 64, and yet the slot is reset to (0,0). *)
Lemma enemy_bullet_reset_at_screen_height :
  enemySlot (run (replicate 59 idle)) 0 = (16, 63) /\
  (shipX (run (replicate 59 idle)), shipY (run (replicate 59 idle))) = (60, 50) /\
  (63 + ENEMY_BULLET_SPEED) mod 256 = 64 /\
  ~ (64 = 0 \/ 64 > SCREEN_HEIGHT) /\
  enemySlot (advanceEnemyBullets (run (replicate 59 idle))) 0 = (0, 0) /\
  enemySlot (gameLoop idle (run (replicate 59 idle))) 0 = (0, 0).
Proof.
  vm_compute. repeat split; try reflexivity. intros [H | H]; discriminate.
Qed.

(** ** What each piece of the tick leaves alone *)

Lemma pair_eq_inv {A B : Type} (a a' : A) (b b' : B) :
  (a, b) = (a', b') -> a = a' /\ b = b'.
Proof. intros H. split; [exact (f_equal fst H) | exact (f_equal snd H)]. Qed.

(** Splits an equation between tuples into its components, without
    unfolding them. *)
Ltac tuple_eqs H :=
  cbv zeta in H;
  repeat match type of H with
         | (_, _) = (_, _) =>
             let H' := fresh H in
             apply pair_eq_inv in H; destruct H as [H H']
         end.

Lemma foldl_frame {A B : Type} (proj : Game -> A) (f : Game -> B -> Game)
      (l : list B) (g : Game) :
  (forall g j, proj (f g j) = proj g) -> proj (foldl f g l) = proj g.
Proof.
  intros Hf. revert g. induction l as [| j l IH]; intros g; [reflexivity|].
  simpl. rewrite IH. apply Hf.
Qed.

Lemma forFlow_app {S : Type} (body : nat -> S -> flow S) (l1 l2 : list nat) (s : S) :
  forFlow body (l1 ++ l2) s = forFlow body l1 s >>= forFlow body l2.
Proof.
  revert s. induction l1 as [| i l1 IH]; intros s; [reflexivity|].
  simpl. destruct (body i s) as [s1 |]; [apply IH | reflexivity].
Qed.

Lemma forFlow_inv {S : Type} (P : S -> Prop) (body : nat -> S -> flow S)
      (l : list nat) (s s' : S) :
  (forall i s s', In i l -> P s -> body i s = Next s' -> P s') ->
  P s -> forFlow body l s = Next s' -> P s'.
Proof.
  revert s. induction l as [| i l IH]; intros s Hbody Hs Hrun.
  - injection Hrun as <-. exact Hs.
  - simpl in Hrun. destruct (body i s) as [s1 |] eqn:E; [|discriminate].
    apply (IH s1); [| eapply Hbody; [left; reflexivity | exact Hs | exact E] | exact Hrun].
    intros j t t' Hj. apply Hbody. right. exact Hj.
Qed.

Lemma hitScan_frame k x y g :
  let g' := hitScan k x y g in
  (lives g', shipAlive g', shipX g', shipY g', enemyX g', enemyY g', enemyDX g',
   enemyRemaining g', currBulletId g', bulletWait g',
   currEnemyBulletId g', enemyBulletWait g', enemyBulletX g', enemyBulletY g')
  = (lives g, shipAlive g, shipX g, shipY g, enemyX g, enemyY g, enemyDX g,
     enemyRemaining g, currBulletId g, bulletWait g,
     currEnemyBulletId g, enemyBulletWait g, enemyBulletX g, enemyBulletY g).
Proof.
  unfold hitScan.
  apply (foldl_frame (fun g =>
    (lives g, shipAlive g, shipX g, shipY g, enemyX g, enemyY g, enemyDX g,
     enemyRemaining g, currBulletId g, bulletWait g,
     currEnemyBulletId g, enemyBulletWait g, enemyBulletX g, enemyBulletY g))).
  intros g0 j. apply hitStep_frame.
Qed.

Lemma flashAlien_frame k g :
  let g' := flashAlien k g in
  (lives g', shipAlive g', shipX g', shipY g', enemyX g', enemyY g', enemyDX g',
   currBulletId g', bulletWait g', bulletX g', bulletY g',
   currEnemyBulletId g', enemyBulletWait g', enemyBulletX g', enemyBulletY g')
  = (lives g, shipAlive g, shipX g, shipY g, enemyX g, enemyY g, enemyDX g,
     currBulletId g, bulletWait g, bulletX g, bulletY g,
     currEnemyBulletId g, enemyBulletWait g, enemyBulletX g, enemyBulletY g).
Proof.
  unfold flashAlien.
  repeat match goal with |- context [if ?b then _ else _] => destruct b end; reflexivity.
Qed.

Lemma alienBody_sweepFrame k x y st st' :
  alienBody k x y st = Next st' -> sweepFrame (fst st') = sweepFrame (fst st).
Proof.
  destruct st as [g s]. unfold alienBody.
  destruct (SCREEN_HEIGHT <=? y + ALIEN_HEIGHT); [discriminate|].
  intros H. injection H as <-. simpl.
  pose proof (hitScan_frame k x y
    (if touchesEdge x then bounce (if s =? 0 then enemyFire x y g else g)
     else if s =? 0 then enemyFire x y g else g)) as Hf.
  simpl in Hf. unfold sweepFrame.
  injection Hf as -> -> -> -> -> _ _ _ -> -> _ _ _ _.
  destruct (touchesEdge x), (s =? 0); reflexivity.
Qed.

Lemma rowBody_sweepFrame k x y st st' :
  (if (enemyAlive (fst st) !!! k) mod 2 =? 1 then alienBody k x y st else Next st)
  >>= (fun st1 => Next (flashAlien k (fst st1), snd st1)) = Next st' ->
  sweepFrame (fst st') = sweepFrame (fst st).
Proof.
  intros H.
  destruct (if (enemyAlive (fst st) !!! k) mod 2 =? 1 then alienBody k x y st else Next st)
    as [st1 |] eqn:E; [|discriminate].
  simpl in H. injection H as <-. simpl.
  assert (H1 : sweepFrame (fst st1) = sweepFrame (fst st)).
  { destruct (_ =? 1) in E.
    - eapply alienBody_sweepFrame. exact E.
    - injection E as <-. reflexivity. }
  rewrite <- H1. pose proof (flashAlien_frame k (fst st1)) as Hf. simpl in Hf.
  unfold sweepFrame. injection Hf as -> -> -> -> -> _ _ -> -> _ _ _ _ _ _.
  reflexivity.
Qed.

Lemma alienSweep_sweepFrame st st' :
  alienSweep st = Next st' -> sweepFrame (fst st') = sweepFrame (fst st).
Proof.
  unfold alienSweep. intros H.
  destruct (forFlow row1Body (seq 0 ROW1_ENEMY_COUNT) st) as [st1 |] eqn:E1; [|discriminate].
  simpl in H.
  transitivity (sweepFrame (fst st1)).
  - apply (forFlow_inv (fun s => sweepFrame (fst s) = sweepFrame (fst st1))
             row2Body (seq 0 ROW2_ENEMY_COUNT) st1 st'); [|reflexivity | exact H].
    intros i s s' _ Hs Hb. rewrite <- Hs. eapply rowBody_sweepFrame. exact Hb.
  - apply (forFlow_inv (fun s => sweepFrame (fst s) = sweepFrame (fst st))
             row1Body (seq 0 ROW1_ENEMY_COUNT) st st1); [|reflexivity | exact E1].
    intros i s s' _ Hs Hb. rewrite <- Hs. eapply rowBody_sweepFrame. exact Hb.
Qed.

Lemma advancePlayerBullets_frame g :
  let g' := advancePlayerBullets g in
  (lives g', shipAlive g', shipX g', shipY g', enemyX g', enemyY g', enemyDX g',
   enemyAlive g', enemyRemaining g', currBulletId g', bulletWait g',
   currEnemyBulletId g', enemyBulletWait g', enemyBulletX g', enemyBulletY g')
  = (lives g, shipAlive g, shipX g, shipY g, enemyX g, enemyY g, enemyDX g,
     enemyAlive g, enemyRemaining g, currBulletId g, bulletWait g,
     currEnemyBulletId g, enemyBulletWait g, enemyBulletX g, enemyBulletY g).
Proof.
  unfold advancePlayerBullets.
  apply (foldl_frame (fun g =>
    (lives g, shipAlive g, shipX g, shipY g, enemyX g, enemyY g, enemyDX g,
     enemyAlive g, enemyRemaining g, currBulletId g, bulletWait g,
     currEnemyBulletId g, enemyBulletWait g, enemyBulletX g, enemyBulletY g))).
  intros g0 j. unfold playerBulletStep.
  repeat match goal with |- context [if ?b then _ else _] => destruct b end; reflexivity.
Qed.

Lemma advanceEnemyBullets_frame g :
  let g' := advanceEnemyBullets g in
  (lives g', shipX g', shipY g', enemyX g', enemyY g', enemyDX g',
   enemyAlive g', enemyRemaining g', currBulletId g', bulletWait g',
   bulletX g', bulletY g', currEnemyBulletId g', enemyBulletWait g')
  = (lives g, shipX g, shipY g, enemyX g, enemyY g, enemyDX g,
     enemyAlive g, enemyRemaining g, currBulletId g, bulletWait g,
     bulletX g, bulletY g, currEnemyBulletId g, enemyBulletWait g).
Proof.
  unfold advanceEnemyBullets.
  apply (foldl_frame (fun g =>
    (lives g, shipX g, shipY g, enemyX g, enemyY g, enemyDX g,
     enemyAlive g, enemyRemaining g, currBulletId g, bulletWait g,
     bulletX g, bulletY g, currEnemyBulletId g, enemyBulletWait g))).
  intros g0 j. unfold enemyBulletStep.
  repeat match goal with |- context [if ?b then _ else _] => destruct b end; reflexivity.
Qed.

(** ** The whole tick *)

(** How a tick that does not end in [gameOver] is put together. *)
Lemma gameLoopBody_Next inp g g' :
  gameLoopBody inp g = Next g' ->
  exists g1 st,
    shipDemise (beforeDemise inp g) = Next g1 /\
    (enemyRemaining g1 <=? 0) = false /\
    alienSweep (selectFirer inp g1) = Next st /\
    g' = advanceEnemyBullets (advancePlayerBullets (moveFormation (fst st))).
Proof.
  unfold gameLoopBody. fold (beforeDemise inp g). intros H.
  destruct (shipDemise (beforeDemise inp g)) as [g1 |]; [|discriminate].
  simpl in H. destruct (enemyRemaining g1 <=? 0) eqn:E; [discriminate|].
  destruct (alienSweep (selectFirer inp g1)) as [st |] eqn:Es; [|discriminate].
  simpl in H. injection H as <-. exists g1, st. repeat split; assumption || reflexivity.
Qed.

Lemma run_snoc inps inp : run (inps ++ [inp]) = gameLoop inp (run inps).
Proof. unfold run. rewrite foldl_snoc. reflexivity. Qed.

(** Induction over the states the game reaches. *)
Lemma run_ind (P : Game -> Prop) :
  P start -> (forall inp g, P g -> P (gameLoop inp g)) -> forall inps, P (run inps).
Proof.
  intros H0 Hstep inps. induction inps as [| inp inps IH] using rev_ind; [exact H0|].
  rewrite run_snoc. apply Hstep, IH.
Qed.

Lemma gameLoop_cases (P : Game -> Prop) inp g :
  P start -> (forall g', gameLoopBody inp g = Next g' -> P g') -> P (gameLoop inp g).
Proof.
  intros H0 H. unfold gameLoop. destruct (gameLoopBody inp g) as [g' |]; [apply H; reflexivity|].
  exact H0.
Qed.

Lemma beforeDemise_shipX inp g : shipX (beforeDemise inp g) = shipX (moveShip inp g).
Proof.
  unfold beforeDemise, flashShip, playerFire, tickBulletWait.
  repeat match goal with |- context [if ?b then _ else _] => destruct b end; reflexivity.
Qed.

Lemma shipDemise_shipX g g1 : shipDemise g = Next g1 -> shipX g1 = shipX g.
Proof.
  unfold shipDemise, lifeLost.
  repeat match goal with |- context [if ?b then _ else _] => destruct b end;
    intros H; try discriminate; injection H as <-; reflexivity.
Qed.

Lemma selectFirer_frame inp g :
  let g' := fst (selectFirer inp g) in
  (lives g', shipAlive g', shipX g', shipY g', enemyX g', enemyY g', enemyDX g',
   enemyAlive g', enemyRemaining g', currBulletId g', bulletWait g',
   bulletX g', bulletY g', currEnemyBulletId g', enemyBulletX g', enemyBulletY g')
  = (lives g, shipAlive g, shipX g, shipY g, enemyX g, enemyY g, enemyDX g,
     enemyAlive g, enemyRemaining g, currBulletId g, bulletWait g,
     bulletX g, bulletY g, currEnemyBulletId g, enemyBulletX g, enemyBulletY g).
Proof.
  unfold selectFirer.
  repeat match goal with |- context [if ?b then _ else _] => destruct b end; reflexivity.
Qed.

Lemma gameLoopBody_shipX inp g g' :
  gameLoopBody inp g = Next g' -> shipX g' = shipX (moveShip inp g).
Proof.
  intros H. apply gameLoopBody_Next in H. destruct H as (g1 & st & Hd & _ & Hs & ->).
  pose proof (advanceEnemyBullets_frame (advancePlayerBullets (moveFormation (fst st)))) as F1.
  pose proof (advancePlayerBullets_frame (moveFormation (fst st))) as F2.
  pose proof (alienSweep_sweepFrame _ _ Hs) as F3.
  pose proof (selectFirer_frame inp g1) as F4.
  unfold sweepFrame in F3. tuple_eqs F1. tuple_eqs F2. tuple_eqs F3. tuple_eqs F4.
  change (shipX (moveFormation (fst st))) with (shipX (fst st)) in *.
  rewrite <- (beforeDemise_shipX inp g), <- (shipDemise_shipX _ _ Hd). congruence.
Qed.

Lemma moveShip_onTrack inp g : shipOnTrack g -> shipOnTrack (moveShip inp g).
Proof.
  unfold shipOnTrack, moveShip, SCREEN_WIDTH, SHIP_WIDTH, SHIP_X_MOVE, u8.
  intros [Hr Hp].
  destruct (btnLeft inp), (btnRight inp); simpl;
    repeat match goal with
           | |- context [if ?a <? ?b then _ else _] =>
               destruct (Z.ltb_spec a b); simpl in *
           end;
    Z.div_mod_to_equations; lia.
Qed.

Lemma gameLoop_onTrack inp g : shipOnTrack g -> shipOnTrack (gameLoop inp g).
Proof.
  intros Hg. apply gameLoop_cases.
  - unfold shipOnTrack. change (shipX start) with 60.
    unfold SCREEN_WIDTH, SHIP_WIDTH. split; [lia | reflexivity].
  - intros g' H. unfold shipOnTrack. rewrite (gameLoopBody_shipX _ _ _ H).
    apply moveShip_onTrack. exact Hg.
Qed.

(** C9.  In every state reached from [gameReset] by any number of ticks
    with any inputs, the ship's x-position lies in [0, 128 - 8] = [0, 120]:
    it neither wraps below 0 nor passes 120. *)
Theorem shipX_stays_on_screen (inps : list Input) :
  0 <= shipX (run inps) <= SCREEN_WIDTH - SHIP_WIDTH /\
  SCREEN_WIDTH - SHIP_WIDTH = 120 /\ shipX (run []) = 60.
Proof.
  split; [|split; reflexivity].
  apply (run_ind shipOnTrack).
  - unfold shipOnTrack. change (shipX start) with 60.
    unfold SCREEN_WIDTH, SHIP_WIDTH. split; [lia | reflexivity].
  - apply gameLoop_onTrack.
Qed.

(** ** The count of aliens that remain *)

Lemma aliveCount_cons v l :
  aliveCount (v :: l) = (if 0 <? v then 1 else 0) + aliveCount l.
Proof. unfold aliveCount. simpl. destruct (0 <? v); simpl length; lia. Qed.

Lemma aliveCount_range l : 0 <= aliveCount l <= Z.of_nat (length l).
Proof.
  induction l as [| v l IH]; [unfold aliveCount; simpl; lia|].
  rewrite aliveCount_cons. simpl length. destruct (0 <? v); lia.
Qed.

Lemma aliveCount_insert (l : list Z) (k : nat) (w : Z) :
  (k < length l)%nat ->
  aliveCount (<[k := w]> l)
  = aliveCount l - (if 0 <? l !!! k then 1 else 0) + (if 0 <? w then 1 else 0).
Proof.
  revert k. induction l as [| v l IH]; intros k Hk; [simpl in Hk; lia|].
  destruct k as [| k].
  - simpl. rewrite !aliveCount_cons. lia.
  - simpl in Hk. simpl. rewrite !aliveCount_cons, IH by lia.
    change ((v :: l) !!! S k) with (l !!! k). lia.
Qed.

Lemma foldl_inv {B : Type} (P : Game -> Prop) (f : Game -> B -> Game) (l : list B) g :
  (forall g j, P g -> P (f g j)) -> P g -> P (foldl f g l).
Proof.
  intros Hf. revert g. induction l as [| j l IH]; intros g Hg; [exact Hg|].
  simpl. apply IH, Hf, Hg.
Qed.

Lemma lookup_total_Forall (P : Z -> Prop) (l : list Z) (k : nat) :
  Forall P l -> (k < length l)%nat -> P (l !!! k).
Proof.
  intros Hl Hk. destruct (lookup_lt_is_Some_2 l k Hk) as [v Hv].
  rewrite (list_lookup_total_correct l k v Hv).
  eapply Forall_lookup_1; [exact Hl | exact Hv].
Qed.

(** A hit leaves the count as it is: the struck alien was drawn, hence
    alive, and START_DYING is positive. *)
Lemma hitStep_aliveInv k x y g j :
  (k < ENEMY_COUNT)%nat ->
  aliveInv g /\ 0 < enemyAlive g !!! k ->
  aliveInv (hitStep k x y g j) /\ 0 < enemyAlive (hitStep k x y g j) !!! k.
Proof.
  intros Hk [(Hlen & Hpos & Hcnt) Hv]. unfold hitStep.
  destruct (inBox _ _ _ _ _ _); [|repeat split; assumption].
  unfold aliveInv. simpl.
  rewrite length_insert, list_lookup_total_insert_eq by lia.
  split; [split; [|split]|].
  - exact Hlen.
  - apply Forall_insert; [exact Hpos | unfold START_DYING, ALIVE; lia].
  - rewrite aliveCount_insert by lia.
    replace (0 <? enemyAlive g !!! k) with true by (symmetry; apply Z.ltb_lt; exact Hv).
    unfold START_DYING, ALIVE. simpl. lia.
  - unfold START_DYING, ALIVE. lia.
Qed.

Lemma alienBody_aliveInv k x y g s st' :
  (k < ENEMY_COUNT)%nat -> aliveInv g -> 0 < enemyAlive g !!! k ->
  alienBody k x y (g, s) = Next st' -> aliveInv (fst st').
Proof.
  intros Hk Hg Hv. unfold alienBody.
  destruct (SCREEN_HEIGHT <=? y + ALIEN_HEIGHT); [discriminate|].
  intros H. injection H as <-. simpl fst. unfold hitScan.
  apply (foldl_inv (fun g => aliveInv g /\ 0 < enemyAlive g !!! k)).
  - intros g0 j. apply hitStep_aliveInv. exact Hk.
  - destruct (touchesEdge x), (s =? 0); split; assumption.
Qed.

Lemma flashAlien_aliveInv k g :
  (k < ENEMY_COUNT)%nat -> aliveInv g -> aliveInv (flashAlien k g).
Proof.
  intros Hk (Hlen & Hpos & Hcnt). unfold flashAlien.
  destruct (Z.ltb_spec 0 (enemyAlive g !!! k)) as [Hv |]; [|repeat split; assumption].
  destruct (Z.ltb_spec (enemyAlive g !!! k) ALIVE) as [Hv' |]; [|repeat split; assumption].
  unfold ALIVE in Hv'. cbn [andb]. cbv zeta.
  cbn [enemyAlive set_enemyAlive].
  rewrite list_lookup_total_insert_eq by lia.
  rewrite (u8_small (enemyAlive g !!! k - 1)) by lia.
  pose proof (aliveCount_range (enemyAlive g)) as Hr.
  assert (Hc : aliveCount (<[k := enemyAlive g !!! k - 1]> (enemyAlive g))
               = aliveCount (enemyAlive g) - 1
                 + (if 0 <? enemyAlive g !!! k - 1 then 1 else 0)).
  { rewrite aliveCount_insert by lia.
    replace (0 <? enemyAlive g !!! k) with true by (symmetry; apply Z.ltb_lt; exact Hv).
    reflexivity. }
  assert (Hge : 1 <= aliveCount (enemyAlive g)).
  { pose proof (aliveCount_insert (enemyAlive g) k 0) as H0.
    pose proof (aliveCount_range (<[k := 0]> (enemyAlive g))) as H1.
    replace (0 <? enemyAlive g !!! k) with true in H0
      by (symmetry; apply Z.ltb_lt; exact Hv).
    simpl in H0. lia. }
  destruct (Z.eqb_spec (enemyAlive g !!! k - 1) 0) as [E | E].
  - unfold aliveInv. simpl. rewrite length_insert. split; [|split].
    + exact Hlen.
    + apply Forall_insert; [exact Hpos | lia].
    + rewrite Hc, E, Hcnt. simpl. change ENEMY_COUNT with 9%nat in *.
      rewrite u8_small by lia. lia.
  - unfold aliveInv. simpl. rewrite length_insert. split; [|split].
    + exact Hlen.
    + apply Forall_insert; [exact Hpos | lia].
    + rewrite Hc, Hcnt.
      replace (0 <? enemyAlive g !!! k - 1) with true
        by (symmetry; apply Z.ltb_lt; lia).
      lia.
Qed.

Lemma odd_is_alive (l : list Z) (k : nat) :
  Forall (fun v => 0 <= v) l -> (k < length l)%nat ->
  (l !!! k) mod 2 = 1 -> 0 < l !!! k.
Proof.
  intros Hl Hk Hodd. pose proof (lookup_total_Forall _ l k Hl Hk) as H. simpl in H.
  destruct (Z.eq_dec (l !!! k) 0) as [E | E]; [rewrite E in Hodd; discriminate | lia].
Qed.

Lemma rowBody_aliveInv k x y st st' :
  (k < ENEMY_COUNT)%nat -> aliveInv (fst st) ->
  (if (enemyAlive (fst st) !!! k) mod 2 =? 1 then alienBody k x y st else Next st)
  >>= (fun st1 => Next (flashAlien k (fst st1), snd st1)) = Next st' ->
  aliveInv (fst st').
Proof.
  intros Hk Hg H. destruct st as [g s]. simpl fst in *.
  destruct (Z.eqb_spec ((enemyAlive g !!! k) mod 2) 1) as [Hodd | _].
  - destruct (alienBody k x y (g, s)) as [st1 |] eqn:E; [|discriminate].
    simpl in H. injection H as <-. simpl fst.
    apply flashAlien_aliveInv; [exact Hk|].
    eapply alienBody_aliveInv; [exact Hk | exact Hg | | exact E].
    destruct Hg as (Hlen & Hpos & _). apply odd_is_alive; [exact Hpos | lia | exact Hodd].
  - simpl in H. injection H as <-. simpl fst.
    apply flashAlien_aliveInv; assumption.
Qed.

Lemma alienSweep_aliveInv st st' :
  aliveInv (fst st) -> alienSweep st = Next st' -> aliveInv (fst st').
Proof.
  intros Hg. unfold alienSweep. intros H.
  destruct (forFlow row1Body (seq 0 ROW1_ENEMY_COUNT) st) as [st1 |] eqn:E1; [|discriminate].
  simpl in H.
  apply (forFlow_inv (fun s => aliveInv (fst s)) row2Body (seq 0 ROW2_ENEMY_COUNT) st1 st');
    [| | exact H].
  - intros i s s' Hi Hs Hb. apply in_seq in Hi.
    eapply rowBody_aliveInv; [| exact Hs | exact Hb].
    unfold ENEMY_COUNT, ROW1_ENEMY_COUNT, ROW2_ENEMY_COUNT in *. lia.
  - apply (forFlow_inv (fun s => aliveInv (fst s)) row1Body (seq 0 ROW1_ENEMY_COUNT) st st1);
      [| exact Hg | exact E1].
    intros i s s' Hi Hs Hb. apply in_seq in Hi.
    eapply rowBody_aliveInv; [| exact Hs | exact Hb].
    unfold ENEMY_COUNT, ROW1_ENEMY_COUNT, ROW2_ENEMY_COUNT in *. lia.
Qed.

Lemma moveShip_enemySide inp g : enemySide (moveShip inp g) = enemySide g.
Proof.
  unfold moveShip.
  repeat match goal with |- context [if ?b then _ else _] => destruct b end; reflexivity.
Qed.

Lemma tickBulletWait_enemySide g : enemySide (tickBulletWait g) = enemySide g.
Proof. unfold tickBulletWait. destruct (0 <? bulletWait g); reflexivity. Qed.

Lemma flashShip_enemySide g : enemySide (flashShip g) = enemySide g.
Proof. unfold flashShip. destruct (_ && _); reflexivity. Qed.

Lemma beforeDemise_enemySide inp g : enemySide (beforeDemise inp g) = enemySide g.
Proof.
  unfold beforeDemise. rewrite flashShip_enemySide.
  rewrite <- (moveShip_enemySide inp g), <- (tickBulletWait_enemySide (moveShip inp g)).
  destruct (_ && _); reflexivity.
Qed.

Lemma beforeDemise_aliens inp g :
  enemyAlive (beforeDemise inp g) = enemyAlive g /\
  enemyRemaining (beforeDemise inp g) = enemyRemaining g.
Proof.
  pose proof (beforeDemise_enemySide inp g) as H. unfold enemySide in H. tuple_eqs H.
  split; assumption.
Qed.

Lemma shipDemise_aliens g g1 :
  shipDemise g = Next g1 ->
  enemyAlive g1 = enemyAlive g /\ enemyRemaining g1 = enemyRemaining g.
Proof.
  unfold shipDemise, lifeLost.
  repeat match goal with |- context [if ?b then _ else _] => destruct b end;
    intros H; try discriminate; injection H as <-; split; reflexivity.
Qed.

Lemma gameLoop_aliveInv inp g : aliveInv g -> aliveInv (gameLoop inp g).
Proof.
  intros Hg. apply gameLoop_cases.
  - unfold aliveInv. change (enemyAlive start) with (replicate 9%nat 7).
    change (enemyRemaining start) with 9. repeat split.
    repeat constructor; lia.
  - intros g' H. apply gameLoopBody_Next in H. destruct H as (g1 & st & Hd & _ & Hs & ->).
    destruct (beforeDemise_aliens inp g) as [B1 B2].
    destruct (shipDemise_aliens _ _ Hd) as [D1 D2].
    pose proof (selectFirer_frame inp g1) as FS. tuple_eqs FS.
    assert (H1 : aliveInv (fst (selectFirer inp g1))).
    { unfold aliveInv in *. congruence. }
    pose proof (alienSweep_aliveInv (selectFirer inp g1) st H1 Hs) as H2.
    pose proof (advanceEnemyBullets_frame (advancePlayerBullets (moveFormation (fst st)))) as FE.
    pose proof (advancePlayerBullets_frame (moveFormation (fst st))) as FP.
    tuple_eqs FE. tuple_eqs FP.
    change (enemyAlive (moveFormation (fst st))) with (enemyAlive (fst st)) in *.
    change (enemyRemaining (moveFormation (fst st))) with (enemyRemaining (fst st)) in *.
    unfold aliveInv in *. congruence.
Qed.

(** C2.  In every state reached from [gameReset] by any number of ticks
    with any inputs, [enemyRemaining] equals the number of alien slots whose
    vitality is greater than 0. *)
Theorem enemyRemaining_counts_alive (inps : list Input) :
  enemyRemaining (run inps)
  = Z.of_nat (length (List.filter (fun v => 0 <? v) (enemyAlive (run inps)))).
Proof.
  change (enemyRemaining (run inps) = aliveCount (enemyAlive (run inps))).
  apply (run_ind aliveInv).
  - unfold aliveInv. change (enemyAlive start) with (replicate 9%nat 7).
    change (enemyRemaining start) with 9. repeat split.
    repeat constructor; lia.
  - apply gameLoop_aliveInv.
Qed.

(** ** The alien loops, slot by slot *)

Lemma alienSweep_slots st : alienSweep st = forFlow slotBody (seq 0 ENEMY_COUNT) st.
Proof.
  unfold alienSweep.
  change (seq 0 ENEMY_COUNT) with (seq 0 ROW1_ENEMY_COUNT ++ [5; 6; 7; 8]%nat).
  rewrite forFlow_app. reflexivity.
Qed.

Lemma hitScan_alive_other k x y g j :
  j <> k -> enemyAlive (hitScan k x y g) !!! j = enemyAlive g !!! j.
Proof.
  intros Hne. unfold hitScan.
  apply (foldl_frame (fun g => enemyAlive g !!! j)).
  intros g0 i. unfold hitStep. destruct (inBox _ _ _ _ _ _); [|reflexivity].
  simpl. apply list_lookup_total_insert_ne. congruence.
Qed.

Lemma flashAlien_alive_other k g j :
  j <> k -> enemyAlive (flashAlien k g) !!! j = enemyAlive g !!! j.
Proof.
  intros Hne. unfold flashAlien.
  repeat match goal with |- context [if ?b then _ else _] => destruct b end;
    simpl; rewrite ?list_lookup_total_insert_ne by congruence; reflexivity.
Qed.

(** The state between the shot, the bounce and the hit test of one alien. *)
Lemma shot_and_bounce_fields (x y s : Z) (g : Game) :
  let gB := if touchesEdge x then bounce (if s =? 0 then enemyFire x y g else g)
            else if s =? 0 then enemyFire x y g else g in
  enemyX gB = enemyX g /\
  enemyDX gB = (if touchesEdge x then bounceDX (enemyDX g) else enemyDX g) /\
  enemyY gB = (if touchesEdge x then bounceY (enemyY g) else enemyY g) /\
  enemyAlive gB = enemyAlive g /\
  enemyPool gB = (if s =? 0 then enemyPool (enemyFire x y g) else enemyPool g).
Proof. destruct (touchesEdge x), (s =? 0); repeat split; reflexivity. Qed.

Lemma slotBody_step k g s g' s' :
  slotBody k (g, s) = Next (g', s') ->
  s' = (if isDrawn (enemyAlive g) k then s - 1 else s) /\
  enemyX g' = enemyX g /\
  enemyDX g' = (if touches (enemyAlive g) (enemyX g) k
                then bounceDX (enemyDX g) else enemyDX g) /\
  enemyY g' = (if touches (enemyAlive g) (enemyX g) k
               then bounceY (enemyY g) else enemyY g) /\
  (forall j, j <> k -> enemyAlive g' !!! j = enemyAlive g !!! j) /\
  enemyPool g' = (if isDrawn (enemyAlive g) k && (s =? 0)
                  then enemyPool (enemyFire (slotXAt (enemyX g) k) (slotYAt (enemyY g) k) g)
                  else enemyPool g).
Proof.
  unfold slotBody, touches, isDrawn. simpl fst.
  destruct ((enemyAlive g !!! k) mod 2 =? 1).
  - set (x := slotXAt (enemyX g) k). set (y := slotYAt (enemyY g) k).
    unfold alienBody. destruct (SCREEN_HEIGHT <=? y + ALIEN_HEIGHT); [discriminate|].
    simpl. intros H. injection H as <- <-.
    destruct (shot_and_bounce_fields x y s g) as (B1 & B2 & B3 & B4 & B5).
    set (gB := if touchesEdge x then bounce (if s =? 0 then enemyFire x y g else g)
               else if s =? 0 then enemyFire x y g else g) in *.
    pose proof (flashAlien_frame k (hitScan k x y gB)) as FA.
    pose proof (hitScan_frame k x y gB) as FH.
    tuple_eqs FA. tuple_eqs FH. unfold enemyPool in *.
    split; [reflexivity|].
    split; [congruence|]. split; [congruence|]. split; [congruence|].
    split.
    + intros j Hj. rewrite flashAlien_alive_other, hitScan_alive_other by exact Hj.
      rewrite B4. reflexivity.
    + rewrite <- B5. congruence.
  - simpl. intros H. injection H as <- <-.
    pose proof (flashAlien_frame k g) as FA. tuple_eqs FA. unfold enemyPool.
    repeat split; try congruence.
    intros j Hj. apply flashAlien_alive_other. exact Hj.
Qed.

Lemma drawnBefore_S alive n :
  drawnBefore alive (S n)
  = (drawnBefore alive n + (if isDrawn alive n then 1 else 0))%nat.
Proof.
  unfold drawnBefore. rewrite seq_S, List.filter_app, length_app. simpl.
  destruct (isDrawn alive n); reflexivity.
Qed.

Lemma touchingBefore_S alive ex n :
  touchingBefore alive ex (S n)
  = (touchingBefore alive ex n + (if touches alive ex n then 1 else 0))%nat.
Proof.
  unfold touchingBefore. rewrite seq_S, List.filter_app, length_app. simpl.
  destruct (touches alive ex n); reflexivity.
Qed.

Lemma iter_snoc {A : Type} (f : A -> A) (n : nat) (a : A) (b : bool) :
  Nat.iter (n + (if b then 1 else 0)) f a = if b then f (Nat.iter n f a) else Nat.iter n f a.
Proof.
  destruct b; [rewrite Nat.add_1_r | rewrite Nat.add_0_r]; reflexivity.
Qed.

Lemma enemyFire_pool x y g1 g2 :
  enemyPool g1 = enemyPool g2 -> enemyPool (enemyFire x y g1) = enemyPool (enemyFire x y g2).
Proof.
  unfold enemyPool. intros H. tuple_eqs H. simpl. congruence.
Qed.

Lemma sweep_prefix (n : nat) (g : Game) (s : Z) (gn : Game) (sn : Z) :
  forFlow slotBody (seq 0 n) (g, s) = Next (gn, sn) -> sweptTo g s n gn sn.
Proof.
  revert gn sn. induction n as [| n IH]; intros gn sn H.
  - simpl in H. injection H as <- <-. unfold sweptTo, enemyYBefore.
    change (drawnBefore (enemyAlive g) 0) with 0%nat.
    repeat split; try reflexivity; try lia.
    right. split; [lia | reflexivity].
  - rewrite seq_S, forFlow_app in H. simpl in H.
    destruct (forFlow slotBody (seq 0 n) (g, s)) as [[gm sm] |]; [|discriminate].
    specialize (IH gm sm eq_refl). destruct IH as (I1 & I2 & I3 & I4 & I5 & I6).
    simpl in H. destruct (slotBody n (gm, sm)) as [[g1 s1] |] eqn:E; [|discriminate].
    simpl in H. injection H as <- <-.
    apply slotBody_step in E. destruct E as (E1 & E2 & E3 & E4 & E5 & E6).
    assert (Hd : isDrawn (enemyAlive gm) n = isDrawn (enemyAlive g) n).
    { unfold isDrawn. rewrite I5 by lia. reflexivity. }
    assert (Ht : touches (enemyAlive gm) (enemyX gm) n
                 = touches (enemyAlive g) (enemyX g) n).
    { unfold touches. rewrite Hd, I2. reflexivity. }
    rewrite Hd in E1, E6. rewrite Ht in E3, E4. rewrite I2 in E6.
    unfold sweptTo, enemyYBefore in *.
    rewrite drawnBefore_S, touchingBefore_S, !iter_snoc.
    split; [rewrite E1, I1; destruct (isDrawn (enemyAlive g) n); lia|].
    split; [congruence|].
    split; [rewrite E3, I3; reflexivity|].
    split; [rewrite E4, I4; reflexivity|].
    split; [intros j Hj; rewrite E5, I5 by lia; reflexivity|].
    destruct I6 as [(Hs & f & Hf & Df & Cf & Pf) | (Hs & Pm)].
    + left. split; [destruct (isDrawn (enemyAlive g) n); lia|].
      exists f. split; [lia|]. split; [exact Df|]. split; [exact Cf|].
      rewrite E6. replace (sm =? 0) with false by (symmetry; apply Z.eqb_neq; lia).
      rewrite andb_false_r. exact Pf.
    + destruct (isDrawn (enemyAlive g) n) eqn:Dn; simpl in E6.
      * destruct (Z.eqb_spec sm 0) as [Z0 | Z0].
        -- left. split; [lia|]. exists n. split; [lia|]. split; [exact Dn|].
           split; [lia|]. rewrite E6, I4. apply enemyFire_pool. exact Pm.
        -- right. split; [lia|]. rewrite E6. exact Pm.
      * right. split; [lia|]. rewrite E6. exact Pm.
Qed.

Lemma alienSweep_swept g s g' s' :
  alienSweep (g, s) = Next (g', s') -> sweptTo g s ENEMY_COUNT g' s'.
Proof. rewrite alienSweep_slots. apply sweep_prefix. Qed.

(** ** The alien loops inside a tick *)

Lemma shipDemise_formation g g1 :
  shipDemise g = Next g1 ->
  (enemyX g1, enemyY g1, enemyDX g1, currEnemyBulletId g1, enemyBulletX g1, enemyBulletY g1)
  = (enemyX g, enemyY g, enemyDX g, currEnemyBulletId g, enemyBulletX g, enemyBulletY g).
Proof.
  unfold shipDemise, lifeLost.
  repeat match goal with |- context [if ?b then _ else _] => destruct b end;
    intros H; try discriminate; injection H as <-; reflexivity.
Qed.

(** The alien loops inside a tick: they start from the formation and the
    vitalities the tick started with, and what they leave of the formation's
    speed and height is what the tick leaves. *)
Lemma tick_sweep inp g g' :
  gameLoopBody inp g = Next g' ->
  exists gs s gs' s',
    alienSweep (gs, s) = Next (gs', s') /\
    enemyAlive gs = enemyAlive g /\ enemyX gs = enemyX g /\
    enemyY gs = enemyY g /\ enemyDX gs = enemyDX g /\
    enemyDX g' = enemyDX gs' /\ enemyY g' = enemyY gs' /\
    enemyX g' = F32.add (enemyX gs') (enemyDX gs').
Proof.
  intros H. apply gameLoopBody_Next in H. destruct H as (g1 & [gs' s'] & Hd & _ & Hs & ->).
  destruct (selectFirer inp g1) as [gs s] eqn:Esel.
  exists gs, s, gs', s'. split; [exact Hs|].
  pose proof (selectFirer_frame inp g1) as FS. rewrite Esel in FS. simpl fst in FS.
  pose proof (beforeDemise_enemySide inp g) as FB. unfold enemySide in FB.
  pose proof (shipDemise_formation _ _ Hd) as FD.
  destruct (shipDemise_aliens _ _ Hd) as [DA _].
  pose proof (advanceEnemyBullets_frame (advancePlayerBullets (moveFormation gs'))) as FE.
  pose proof (advancePlayerBullets_frame (moveFormation gs')) as FP.
  tuple_eqs FS. tuple_eqs FB. tuple_eqs FD. tuple_eqs FE. tuple_eqs FP.
  simpl fst.
  change (enemyDX (moveFormation gs')) with (enemyDX gs') in *.
  change (enemyY (moveFormation gs')) with (enemyY gs') in *.
  change (enemyX (moveFormation gs')) with (F32.add (enemyX gs') (enemyDX gs')) in *.
  repeat split; congruence.
Qed.

(** ** Which alien fires *)

(** The alien loops as [gameLoop] runs them, right after [selectFirer]. *)
Lemma selected_sweep inp g g' s' :
  alienSweep (selectFirer inp g) = Next (g', s') ->
  let s := snd (selectFirer inp g) in
  (0 <= s < Z.of_nat (drawnBefore (enemyAlive g) ENEMY_COUNT) /\
   exists f, (f < ENEMY_COUNT)%nat /\ isDrawn (enemyAlive g) f = true /\
             Z.of_nat (drawnBefore (enemyAlive g) f) = s /\
             enemyPool g'
             = enemyPool (enemyFire (slotXAt (enemyX g) f)
                                    (slotYAt (enemyYBefore g f) f) g))
  \/ (~ 0 <= s < Z.of_nat (drawnBefore (enemyAlive g) ENEMY_COUNT) /\
      enemyPool g' = enemyPool g).
Proof.
  pose proof (selectFirer_frame inp g) as FS.
  destruct (selectFirer inp g) as [gs s]. simpl fst in FS. simpl snd.
  tuple_eqs FS. intros H. apply alienSweep_swept in H.
  destruct H as (_ & _ & _ & _ & _ & H).
  assert (HP : enemyPool gs = enemyPool g) by (unfold enemyPool; congruence).
  assert (HY : forall f, enemyYBefore gs f = enemyYBefore g f)
    by (intros f; unfold enemyYBefore; congruence).
  assert (HA : enemyAlive gs = enemyAlive g) by congruence.
  assert (HX : enemyX gs = enemyX g) by congruence.
  rewrite HA, HX, HP in H.
  destruct H as [(Hs & f & Hf & Df & Cf & Pf) | (Hs & Pm)].
  - left. split; [exact Hs|]. exists f. repeat split; try assumption.
    rewrite Pf, HY. apply enemyFire_pool. exact HP.
  - right. split; assumption.
Qed.

Lemma drawnBefore_app (l : list Z) (x : Z) (n : nat) :
  (n <= length l)%nat -> drawnBefore (l ++ [x]) n = drawnBefore l n.
Proof.
  induction n as [| n IH]; intros Hn; [reflexivity|].
  rewrite !drawnBefore_S, IH by lia. unfold isDrawn.
  rewrite lookup_total_app_l by lia. reflexivity.
Qed.

Lemma aliveCount_snoc (l : list Z) (x : Z) :
  aliveCount (l ++ [x]) = aliveCount l + (if 0 <? x then 1 else 0).
Proof.
  unfold aliveCount. rewrite List.filter_app, length_app. simpl.
  destruct (0 <? x); simpl; lia.
Qed.

(** When every vitality is zero or odd, the drawn slots are the slots that
    count in [enemyRemaining]. *)
Lemma drawn_are_the_alive (l : list Z) :
  Forall (fun v => 0 <= v) l ->
  (forall k, (k < length l)%nat -> l !!! k = 0 \/ (l !!! k) mod 2 = 1) ->
  Z.of_nat (drawnBefore l (length l)) = aliveCount l.
Proof.
  induction l as [| x l IH] using rev_ind; intros Hpos Hodd; [reflexivity|].
  apply Forall_app in Hpos. destruct Hpos as [Hl Hx].
  apply Forall_inv in Hx.
  rewrite length_app. simpl length. rewrite Nat.add_1_r.
  rewrite drawnBefore_S, drawnBefore_app, aliveCount_snoc by lia.
  rewrite Nat2Z.inj_add, IH; [|exact Hl|].
  - f_equal. unfold isDrawn. rewrite list_lookup_total_middle by reflexivity.
    specialize (Hodd (length l)). rewrite length_app in Hodd. simpl in Hodd.
    rewrite list_lookup_total_middle in Hodd by reflexivity.
    destruct Hodd as [E | E]; [lia | rewrite E; reflexivity | rewrite E].
    simpl. replace (0 <? x) with true; [reflexivity|].
    symmetry. apply Z.ltb_lt. destruct (Z.eq_dec x 0) as [-> |]; [discriminate | lia].
  - intros k Hk. specialize (Hodd k). rewrite length_app in Hodd. simpl in Hodd.
    rewrite lookup_total_app_l in Hodd by lia. apply Hodd. lia.
Qed.

(** C5 (as amended).  When the enemy cooldown reaches 0 with
    [enemyRemaining > 0], the ordinal drawn is [rand() % enemyRemaining], a
    number in [0, enemyRemaining).  In the loops that follow (when no alien
    has landed) the counter goes down once for every drawn slot, that is
    every slot with an odd vitality, in the order 0..8; the alien that fires
    is the drawn slot with exactly [ordinal] drawn slots before it, and the
    bullet is written at the cursor with that alien's coordinates.  When the
    ordinal is not below the number of drawn slots, no alien fires.  When
    no vitality is even and positive (and [enemyRemaining] counts the alive
    aliens, as it does in play), the number of drawn slots is
    [enemyRemaining], and every ordinal has its firer. *)
Theorem firer_is_the_drawn_slot_at_the_ordinal (inp : Input) (g g' : Game) (s' : Z) :
  alienSweep (selectFirer inp g) = Next (g', s') ->
  let s := snd (selectFirer inp g) in
  let drawnCount := Z.of_nat (drawnBefore (enemyAlive g) ENEMY_COUNT) in
  (enemyBulletWait g = 1 -> 0 < enemyRemaining g -> 0 <= randVal inp ->
   s = Z.rem (randVal inp) (enemyRemaining g) /\ 0 <= s < enemyRemaining g) /\
  (0 <= s < drawnCount ->
   exists f : nat,
     (f < ENEMY_COUNT)%nat /\ (enemyAlive g !!! f) mod 2 = 1 /\
     Z.of_nat (drawnBefore (enemyAlive g) f) = s /\
     enemyPool g'
     = enemyPool (enemyFire (slotXAt (enemyX g) f) (slotYAt (enemyYBefore g f) f) g)) /\
  (drawnCount <= s -> enemyPool g' = enemyPool g) /\
  (aliveInv g ->
   (forall k : nat, (k < ENEMY_COUNT)%nat ->
      enemyAlive g !!! k = 0 \/ (enemyAlive g !!! k) mod 2 = 1) ->
   drawnCount = enemyRemaining g).
Proof.
  intros H s drawnCount. split; [|split; [|split]].
  - intros Hw Hr Hrand. subst s. unfold selectFirer. rewrite Hw. simpl.
    replace (0 <? enemyRemaining g) with true by (symmetry; apply Z.ltb_lt; exact Hr).
    simpl. split; [reflexivity|].
    rewrite Z.rem_mod_nonneg by lia. apply Z.mod_pos_bound. exact Hr.
  - intros Hs. destruct (selected_sweep inp g g' s' H) as [(_ & f & Hf & Df & Cf & Pf) | (Hn & _)].
    + exists f. split; [exact Hf|]. split; [|split; assumption].
      unfold isDrawn in Df. apply Z.eqb_eq in Df. exact Df.
    + contradiction.
  - intros Hs. destruct (selected_sweep inp g g' s' H) as [(Hlt & _) | (_ & P)].
    + fold s drawnCount in Hlt. lia.
    + exact P.
  - intros (Hlen & Hpos & Hcnt) Hodd. subst drawnCount. rewrite Hcnt, <- Hlen.
    apply drawn_are_the_alive; [exact Hpos|]. rewrite Hlen. exact Hodd.
Qed.

Lemma firer_is_the_drawn_slot_at_the_ordinal_witness :
  exists f : nat,
    (f < ENEMY_COUNT)%nat /\ (enemyAlive (run (replicate 4 idle)) !!! f) mod 2 = 1 /\
    Z.of_nat (drawnBefore (enemyAlive (run (replicate 4 idle))) f)
    = snd (selectFirer (idleRand 3) (run (replicate 4 idle))) /\
    enemyPool (afterSweep (idleRand 3) (run (replicate 4 idle)))
    = enemyPool (enemyFire (slotXAt (enemyX (run (replicate 4 idle))) f)
                   (slotYAt (enemyYBefore (run (replicate 4 idle)) f) f)
                   (run (replicate 4 idle))).
Proof.
  refine (proj1 (proj2 (firer_is_the_drawn_slot_at_the_ordinal
            (idleRand 3) (run (replicate 4 idle))
            (afterSweep (idleRand 3) (run (replicate 4 idle))) (3 - 9) _)) _).
  - vm_compute. reflexivity.
  - vm_compute. split; [discriminate | reflexivity].
Defined.

(** C5 as stated fails.  After [dyingAlienTrace] the enemy cooldown is 1
    and [enemyRemaining] is 9.  With [rand() = 8] the ordinal drawn is 8,
    which lies in [0, enemyRemaining); only 8 slots are drawn, the counter
    never reaches zero, and no alien fires: the enemy pool and its cursor
    are after the loops, and the cursor after the whole tick, what they
    were. *)
Lemma no_alien_fires_for_the_last_ordinal :
  enemyBulletWait (run dyingAlienTrace) = 1 /\
  enemyRemaining (run dyingAlienTrace) = 9 /\
  enemyAlive (run dyingAlienTrace) = [7; 7; 7; 7; 7; 7; 4; 7; 7] /\
  snd (selectFirer (idleRand 8) (run dyingAlienTrace)) = 8 /\
  drawnBefore (enemyAlive (run dyingAlienTrace)) ENEMY_COUNT = 8%nat /\
  (exists st, alienSweep (selectFirer (idleRand 8) (run dyingAlienTrace)) = Next st /\
              enemyPool (fst st) = enemyPool (run dyingAlienTrace)) /\
  currEnemyBulletId (gameLoop (idleRand 8) (run dyingAlienTrace))
  = currEnemyBulletId (run dyingAlienTrace).
Proof.
  vm_compute.
  split; [reflexivity|]. split; [reflexivity|]. split; [reflexivity|].
  split; [reflexivity|]. split; [reflexivity|]. split; [|reflexivity].
  eexists. split; reflexivity.
Qed.

(** C10.  In the alien loops of a tick at most one enemy bullet is written:
    the enemy pool comes out either untouched or as one shot leaves it.  The
    counter [shipToFire] only goes down, by one for every drawn alien, so it
    passes zero at most once.  It is -1 unless the cooldown has just reached
    0 with [enemyRemaining > 0], and with -1 the pool comes out untouched. *)
Theorem at_most_one_enemy_shot_per_tick (inp : Input) (g g' : Game) (s' : Z) :
  alienSweep (selectFirer inp g) = Next (g', s') ->
  (enemyPool g' = enemyPool g \/
   exists x y : Z, enemyPool g' = enemyPool (enemyFire x y g)) /\
  s' = snd (selectFirer inp g) - Z.of_nat (drawnBefore (enemyAlive g) ENEMY_COUNT) /\
  (snd (selectFirer inp g) = -1 -> enemyPool g' = enemyPool g) /\
  (0 <= enemyBulletWait g < 256 ->
   ~ (enemyBulletWait g = 1 /\ 0 < enemyRemaining g) ->
   snd (selectFirer inp g) = -1 /\ enemyPool g' = enemyPool g).
Proof.
  intros H. pose proof (selected_sweep inp g g' s' H) as Hsel. cbv zeta in Hsel.
  assert (Hminus : snd (selectFirer inp g) = -1 -> enemyPool g' = enemyPool g).
  { intros E. rewrite E in Hsel. destruct Hsel as [(Hs & _) | (_ & P)]; [lia | exact P]. }
  split; [|split; [|split]].
  - destruct Hsel as [(_ & f & _ & _ & _ & Pf) | (_ & P)].
    + right. eexists. eexists. exact Pf.
    + left. exact P.
  - pose proof (selectFirer_frame inp g) as FS.
    destruct (selectFirer inp g) as [gs s]. simpl fst in FS. simpl snd.
    tuple_eqs FS. apply alienSweep_swept in H. destruct H as (Hs' & _).
    rewrite Hs'. f_equal. f_equal. f_equal. congruence.
  - exact Hminus.
  - intros Hw Hno.
    assert (E : snd (selectFirer inp g) = -1).
    { unfold selectFirer.
      destruct (Z.ltb_spec 0 (enemyBulletWait g)) as [Hpos |]; [|reflexivity].
      cbn [enemyBulletWait set_enemyBulletWait].
      rewrite (u8_small (enemyBulletWait g - 1)) by lia.
      destruct (Z.eqb_spec (enemyBulletWait g - 1) 0) as [E1 |]; [|reflexivity].
      cbn [enemyRemaining set_enemyBulletWait].
      destruct (Z.ltb_spec 0 (enemyRemaining g)) as [Hr |]; [|reflexivity].
      exfalso. apply Hno. split; [lia | exact Hr]. }
    split; [exact E | apply Hminus, E].
Qed.

Lemma at_most_one_enemy_shot_per_tick_witness :
  enemyPool (afterSweep idle start) = enemyPool start.
Proof.
  refine (proj1 (proj2 (proj2 (at_most_one_enemy_shot_per_tick
            idle start (afterSweep idle start) (-1 - 9) _))) _).
  - vm_compute. reflexivity.
  - vm_compute. reflexivity.
Defined.

(** ** The flash countdown *)

Lemma enemyBulletStep_shipAlive g i :
  shipAlive g <> ALIVE -> shipAlive (enemyBulletStep g i) = shipAlive g.
Proof.
  intros Hne. unfold enemyBulletStep.
  destruct (Z.eqb_spec (shipAlive g) ALIVE) as [E | _]; [contradiction|].
  cbn [shipAlive set_enemyBulletY].
  destruct (Z.eqb_spec (shipAlive g) ALIVE) as [E | _]; [contradiction|].
  repeat match goal with |- context [if ?b then _ else _] => destruct b end; reflexivity.
Qed.

Lemma advanceEnemyBullets_shipAlive g :
  shipAlive g <> ALIVE -> shipAlive (advanceEnemyBullets g) = shipAlive g.
Proof.
  intros Hne. unfold advanceEnemyBullets.
  apply (foldl_inv (fun g' => shipAlive g' = shipAlive g)); [|reflexivity].
  intros g0 j E. rewrite <- E. apply enemyBulletStep_shipAlive. congruence.
Qed.

Lemma beforeDemise_shipAlive inp g :
  shipAlive (beforeDemise inp g)
  = if (0 <? shipAlive g) && (shipAlive g <? ALIVE) then u8 (shipAlive g - 1)
    else shipAlive g.
Proof.
  unfold beforeDemise, flashShip.
  set (g2 := if btnFire inp && (bulletWait (tickBulletWait (moveShip inp g)) =? 0)
             then playerFire (tickBulletWait (moveShip inp g))
             else tickBulletWait (moveShip inp g)).
  assert (E : shipAlive g2 = shipAlive g).
  { subst g2. unfold playerFire, tickBulletWait, moveShip.
    repeat match goal with |- context [if ?b then _ else _] => destruct b end; reflexivity. }
  rewrite E. destruct ((0 <? shipAlive g) && (shipAlive g <? ALIVE)); [reflexivity | exact E].
Qed.

(** The ship's countdown: a dying ship with more than one count left loses
    exactly one count in a tick that does not end in game over; a ship that
    is hit while dying is not set back (line 643 tests [shipAlive == ALIVE]). *)
Lemma ship_counts_down (inp : Input) (g g' : Game) :
  gameLoopBody inp g = Next g' ->
  1 < shipAlive g < ALIVE -> shipAlive g' = shipAlive g - 1.
Proof.
  intros H Hv. unfold ALIVE in Hv.
  apply gameLoopBody_Next in H. destruct H as (g1 & st & Hd & _ & Hs & ->).
  pose proof (beforeDemise_shipAlive inp g) as HB.
  replace (0 <? shipAlive g) with true in HB by (symmetry; apply Z.ltb_lt; lia).
  replace (shipAlive g <? ALIVE) with true in HB
    by (symmetry; apply Z.ltb_lt; unfold ALIVE; lia).
  simpl in HB. rewrite u8_small in HB by lia.
  assert (H1 : g1 = beforeDemise inp g).
  { unfold shipDemise in Hd. rewrite HB in Hd.
    replace (shipAlive g - 1 =? 0) with false in Hd by (symmetry; apply Z.eqb_neq; lia).
    injection Hd as <-. reflexivity. }
  subst g1.
  pose proof (selectFirer_frame inp (beforeDemise inp g)) as FS.
  pose proof (alienSweep_sweepFrame _ _ Hs) as FW. unfold sweepFrame in FW.
  pose proof (advancePlayerBullets_frame (moveFormation (fst st))) as FP.
  tuple_eqs FS. tuple_eqs FW. tuple_eqs FP.
  change (shipAlive (moveFormation (fst st))) with (shipAlive (fst st)) in *.
  rewrite advanceEnemyBullets_shipAlive; [congruence|].
  unfold ALIVE. lia.
Qed.

(** C3 (the code departs from the claim).  After [secondHitTrace] the alien
    in slot 6 is dying with vitality 3; in the next tick a second bullet
    lies in its box, lines 546-551 set it to START_DYING again with no test
    of its state, and the tick ends with vitality 5 > 3: the countdown has
    gone up without a reset or a lost life. *)
Theorem dying_alien_hit_again_restarts_countdown :
  enemyAlive (run secondHitTrace) !!! 6%nat = 3 /\
  playerSlot (run secondHitTrace) 1 = (66, 15) /\
  (slotXAt (enemyX (run secondHitTrace)) 6, slotYAt (enemyY (run secondHitTrace)) 6) = (59, 8) /\
  lives (run secondHitTrace) = 3 /\
  gameLoopBody idle (run secondHitTrace) = Next (gameLoop idle (run secondHitTrace)) /\
  lives (gameLoop idle (run secondHitTrace)) = 3 /\
  enemyAlive (gameLoop idle (run secondHitTrace)) !!! 6%nat = 5.
Proof. vm_compute. repeat split; reflexivity. Qed.

(** * Further properties *)

(** ** Pixels *)

Lemma pixel_address_injective (x y px py : Z) :
  0 <= x <= 127 -> 0 <= y <= 63 -> 0 <= px <= 127 -> 0 <= py <= 63 ->
  pixelIndex x y = pixelIndex px py -> pixelBit y = pixelBit py -> x = px /\ y = py.
Proof.
  unfold pixelIndex, pixelBit. intros Hx Hy Hpx Hpy Hi Hb.
  assert (0 <= (63 - y) / 8 < 8)
    by (split; [apply Z.div_pos; lia | apply Z.div_lt_upper_bound; lia]).
  assert (0 <= (63 - py) / 8 < 8)
    by (split; [apply Z.div_pos; lia | apply Z.div_lt_upper_bound; lia]).
  apply Z2Nat.inj in Hi; [|lia|lia].
  pose proof (Z.div_mod (63 - y) 8). pose proof (Z.div_mod (63 - py) 8). lia.
Qed.

Lemma lcdDrawPixel_frameOk (x y : Z) (fb : list Z) :
  frameOk fb -> frameOk (lcdDrawPixel x y fb).
Proof.
  intros [Hlen Hb]. unfold lcdDrawPixel.
  destruct ((127 <? x) || (63 <? y)); [split; assumption|].
  cbv zeta. split; [rewrite length_insert; exact Hlen|].
  intros k Hk. rewrite list_lookup_total_insert.
  destruct (decide _); [apply u8_range | apply Hb, Hk].
Qed.

Lemma lcdDrawPixel_lit (fb : list Z) (x y px py : Z) :
  frameOk fb -> 0 <= x < 256 -> 0 <= y < 256 ->
  0 <= px <= 127 -> 0 <= py <= 63 ->
  pixelAt (lcdDrawPixel x y fb) px py = pixelAt fb px py || ((x =? px) && (y =? py)).
Proof.
  intros [Hlen Hb] Hx Hy Hpx Hpy.
  destruct (Z_le_gt_dec x 127) as [Hx1 |]; [destruct (Z_le_gt_dec y 63) as [Hy1 |]|].
  - rewrite (lcdDrawPixel_inside fb Hb x y) by lia. unfold pixelAt.
    fold (pixelIndex x y). fold (pixelBit y).
    assert (Hm : 0 <= pixelBit y < 8) by (apply Z.mod_pos_bound; lia).
    assert (Hm' : 0 <= pixelBit py < 8) by (apply Z.mod_pos_bound; lia).
    assert (Hi : (pixelIndex x y < length fb)%nat)
      by (rewrite Hlen; apply pixel_index_range; lia).
    destruct (decide (pixelIndex x y = pixelIndex px py)) as [E | E].
    + rewrite <- E, list_lookup_total_insert_eq by exact Hi.
      rewrite Z.lor_spec, Z.pow2_bits_eqb by lia. f_equal.
      destruct (Z.eqb_spec (pixelBit y) (pixelBit py)) as [Eb | Eb].
      * destruct (pixel_address_injective x y px py) as [-> ->]; try assumption; try lia.
      * symmetry. apply andb_false_iff. right. apply Z.eqb_neq. congruence.
    + rewrite list_lookup_total_insert_ne by exact E.
      replace ((x =? px) && (y =? py)) with false; [rewrite orb_false_r; reflexivity|].
      symmetry. apply andb_false_iff.
      destruct (Z.eqb_spec x px) as [-> |]; [|left; reflexivity].
      right. apply Z.eqb_neq. congruence.
  - rewrite lcdDrawPixel_outside by lia.
    replace (y =? py) with false by (symmetry; apply Z.eqb_neq; lia).
    rewrite andb_false_r, orb_false_r. reflexivity.
  - rewrite lcdDrawPixel_outside by lia.
    replace (x =? px) with false by (symmetry; apply Z.eqb_neq; lia).
    rewrite orb_false_r. reflexivity.
Qed.

Lemma blank_frameOk : frameOk (replicate FRAME_BYTES 0).
Proof.
  split; [apply length_replicate|].
  intros k Hk. rewrite lookup_total_replicate_2 by exact Hk. lia.
Qed.

Lemma blank_dark (px py : Z) :
  0 <= px <= 127 -> 0 <= py <= 63 -> pixelAt (replicate FRAME_BYTES 0) px py = false.
Proof.
  intros Hx Hy. unfold pixelAt.
  rewrite lookup_total_replicate_2 by (apply pixel_index_range; lia).
  apply Z.testbit_0_l.
Qed.

(** X1.  Reading back a pixel of the screen after [lcdDrawPixel x y]: the
    pixel [(px, py)] is lit exactly when it was lit before or it is the
    pixel drawn; no other pixel changes, arguments off the screen change
    nothing, and the buffer keeps its 1024 bytes. *)
Theorem lcdDrawPixel_pixelAt (fb : list Z) (x y px py : Z) :
  frameOk fb -> 0 <= x < 256 -> 0 <= y < 256 ->
  0 <= px <= 127 -> 0 <= py <= 63 ->
  frameOk (lcdDrawPixel x y fb) /\
  pixelAt (lcdDrawPixel x y fb) px py = pixelAt fb px py || ((x =? px) && (y =? py)).
Proof.
  intros Hf Hx Hy Hpx Hpy.
  split; [apply lcdDrawPixel_frameOk, Hf | apply lcdDrawPixel_lit; assumption].
Qed.

Lemma lcdDrawPixel_pixelAt_witness :
  frameOk (lcdDrawPixel 3 60 (replicate FRAME_BYTES 0)) /\
  pixelAt (lcdDrawPixel 3 60 (replicate FRAME_BYTES 0)) 3 60
  = pixelAt (replicate FRAME_BYTES 0) 3 60 || ((3 =? 3) && (60 =? 60)).
Proof.
  apply (lcdDrawPixel_pixelAt (replicate FRAME_BYTES 0) 3 60 3 60 blank_frameOk); lia.
Defined.

Lemma lcdClear_prefix (fb : list Z) (n : nat) :
  (n <= length fb)%nat ->
  foldl (fun fb i => <[i := 0]> fb) fb (seq 0 n) = replicate n 0 ++ drop n fb.
Proof.
  induction n as [| n IH]; intros Hn; [reflexivity|].
  rewrite seq_S, foldl_snoc, IH by lia. cbn beta. change (0 + n)%nat with n.
  destruct (lookup_lt_is_Some_2 fb n) as [v Hv]; [lia|].
  rewrite (drop_S fb v n Hv).
  rewrite insert_app_r_alt by (rewrite length_replicate; lia).
  rewrite length_replicate, Nat.sub_diag.
  change (<[0%nat := 0]> (v :: drop (S n) fb)) with ([0] ++ drop (S n) fb).
  rewrite replicate_S_end, <- app_assoc. reflexivity.
Qed.

Lemma lcdClear_eq (fb : list Z) :
  length fb = FRAME_BYTES -> lcdClear fb = replicate FRAME_BYTES 0.
Proof.
  intros Hlen. unfold lcdClear. rewrite lcdClear_prefix by lia.
  rewrite <- Hlen, drop_all, app_nil_r. reflexivity.
Qed.

(** X2.  [lcdClear] turns any 1024-byte buffer into the all-zero buffer:
    every pixel of the screen is off afterwards. *)
Theorem lcdClear_blank (fb : list Z) :
  length fb = FRAME_BYTES ->
  lcdClear fb = replicate FRAME_BYTES 0 /\
  frameOk (lcdClear fb) /\
  forall px py : Z, 0 <= px <= 127 -> 0 <= py <= 63 -> pixelAt (lcdClear fb) px py = false.
Proof.
  intros Hlen. rewrite (lcdClear_eq fb Hlen).
  split; [reflexivity | split; [exact blank_frameOk | exact blank_dark]].
Qed.

Lemma lcdClear_blank_witness :
  lcdClear (replicate FRAME_BYTES 255) = replicate FRAME_BYTES 0.
Proof.
  refine (proj1 (lcdClear_blank (replicate FRAME_BYTES 255) _)).
  apply length_replicate.
Defined.

(** X3.  Pixels may be drawn in any order, and drawing a pixel again
    changes nothing: [lcdDrawPixel] only ORs bits in. *)
Theorem lcdDrawPixel_commutes (fb : list Z) (x1 y1 x2 y2 : Z) :
  lcdDrawPixel x1 y1 (lcdDrawPixel x2 y2 fb) = lcdDrawPixel x2 y2 (lcdDrawPixel x1 y1 fb) /\
  lcdDrawPixel x1 y1 (lcdDrawPixel x1 y1 fb) = lcdDrawPixel x1 y1 fb.
Proof.
  assert (Hraw : forall x y f,
    lcdDrawPixel x y f = if (127 <? x) || (63 <? y) then f
                         else <[Z.to_nat (Z.shiftl (Z.shiftr (u8 (63 - y)) 3) 7 + x) :=
                                  u8 (Z.lor (f !!! Z.to_nat (Z.shiftl (Z.shiftr (u8 (63 - y)) 3) 7 + x))
                                            (Z.shiftl 1 (Z.land (u8 (63 - y)) 7)))]> f)
    by reflexivity.
  split.
  - rewrite !Hraw.
    destruct ((127 <? x1) || (63 <? y1)), ((127 <? x2) || (63 <? y2)); try reflexivity.
    set (i1 := Z.to_nat _). set (i2 := Z.to_nat (Z.shiftl (Z.shiftr (u8 (63 - y2)) 3) 7 + x2)).
    set (m1 := Z.shiftl 1 (Z.land (u8 (63 - y1)) 7)).
    set (m2 := Z.shiftl 1 (Z.land (u8 (63 - y2)) 7)).
    destruct (decide (i1 = i2)) as [E | E].
    + rewrite <- E. destruct (decide (i1 < length fb)%nat) as [Hl | Hl].
      * rewrite !list_lookup_total_insert_eq by lia. rewrite !list_insert_insert_eq.
        f_equal. unfold u8. change 256 with (2 ^ 8).
        rewrite <- !Z.land_ones by lia.
        apply Z.bits_inj'. intros n Hn.
        rewrite !Z.land_spec, !Z.lor_spec, !Z.land_spec, !Z.lor_spec.
        destruct (Z.testbit (fb !!! i1) n), (Z.testbit m1 n), (Z.testbit m2 n),
                 (Z.testbit (Z.ones 8) n); reflexivity.
      * rewrite !(list_insert_ge fb) by lia.
        reflexivity.
    + rewrite !list_lookup_total_insert_ne by congruence.
      apply list_insert_insert_ne. congruence.
  - rewrite !Hraw. destruct ((127 <? x1) || (63 <? y1)); [reflexivity|].
    set (i1 := Z.to_nat _). set (m1 := Z.shiftl 1 (Z.land (u8 (63 - y1)) 7)).
    destruct (decide (i1 < length fb)%nat) as [Hl | Hl].
    + rewrite list_lookup_total_insert_eq by lia. rewrite list_insert_insert_eq.
      f_equal. unfold u8. change 256 with (2 ^ 8).
      rewrite <- !Z.land_ones by lia.
      apply Z.bits_inj'. intros n Hn.
      rewrite !Z.land_spec, !Z.lor_spec, !Z.land_spec, !Z.lor_spec.
      destruct (Z.testbit (fb !!! i1) n), (Z.testbit m1 n), (Z.testbit (Z.ones 8) n);
        reflexivity.
    + rewrite !(list_insert_ge fb) by lia.
      reflexivity.
Qed.

(** ** Loops that plot *)

Section PlotLoop.

Context {A : Type}.
Variable step : list Z -> A -> list Z.
Variable lit : A -> Z -> Z -> bool.

Hypothesis step_ok : forall fb a, frameOk fb -> frameOk (step fb a).
Hypothesis step_lit : forall fb a px py,
  frameOk fb -> 0 <= px <= 127 -> 0 <= py <= 63 ->
  pixelAt (step fb a) px py = pixelAt fb px py || lit a px py.

Lemma plot_loop (l : list A) (fb : list Z) :
  frameOk fb ->
  frameOk (foldl step fb l) /\
  forall px py, 0 <= px <= 127 -> 0 <= py <= 63 ->
    pixelAt (foldl step fb l) px py = pixelAt fb px py || existsb (fun a => lit a px py) l.
Proof using step_ok step_lit.
  revert fb. induction l as [| a l IH]; intros fb Hfb.
  - split; [exact Hfb|]. intros px py _ _. simpl. rewrite orb_false_r. reflexivity.
  - simpl. destruct (IH (step fb a) (step_ok fb a Hfb)) as [Hok Hpx].
    split; [exact Hok|]. intros px py Hx Hy.
    rewrite Hpx, step_lit by assumption. rewrite orb_assoc. reflexivity.
Qed.

End PlotLoop.

Lemma draw8by8_row (bitmap : list Z) (x y : Z) (j : nat) (fb : list Z) :
  frameOk fb ->
  let row := foldl (fun fb i =>
               if Z.testbit (bitmap !!! j) (Z.of_nat i)
               then lcdDrawPixel (u8 (x + Z.of_nat i)) (u8 (y + Z.of_nat j)) fb
               else fb) fb (seq 0 8) in
  frameOk row /\
  forall px py, 0 <= px <= 127 -> 0 <= py <= 63 ->
    pixelAt row px py
    = pixelAt fb px py || existsb (fun i => plotsAt bitmap x y j i px py) (seq 0 8).
Proof.
  intros Hfb. apply (plot_loop _ (fun i => plotsAt bitmap x y j i)); [| |exact Hfb].
  - intros f i Hf. destruct (Z.testbit _ _); [apply lcdDrawPixel_frameOk|]; exact Hf.
  - intros f i px py Hf Hx Hy. unfold plotsAt.
    destruct (Z.testbit (bitmap !!! j) (Z.of_nat i)).
    + rewrite lcdDrawPixel_lit by (try apply u8_range; assumption). reflexivity.
    + rewrite orb_false_r. reflexivity.
Qed.

Lemma draw8by8_pixels (bitmap : list Z) (x y : Z) (fb : list Z) :
  frameOk fb ->
  frameOk (draw8by8 bitmap x y fb) /\
  forall px py, 0 <= px <= 127 -> 0 <= py <= 63 ->
    pixelAt (draw8by8 bitmap x y fb) px py
    = pixelAt fb px py
      || existsb (fun j => existsb (fun i => plotsAt bitmap x y j i px py) (seq 0 8)) (seq 0 8).
Proof.
  intros Hfb. unfold draw8by8.
  apply (plot_loop _ (fun j px py => existsb (fun i => plotsAt bitmap x y j i px py) (seq 0 8)));
    [| |exact Hfb].
  - intros f j Hf. apply (draw8by8_row bitmap x y j f Hf).
  - intros f j px py Hf. apply (draw8by8_row bitmap x y j f Hf).
Qed.

Lemma plotsAt_spritePlots (bitmap : list Z) (x y px py : Z) :
  existsb (fun j => existsb (fun i => plotsAt bitmap x y j i px py) (seq 0 8)) (seq 0 8) = true
  <-> spritePlots bitmap x y px py.
Proof.
  unfold spritePlots, plotsAt. rewrite existsb_exists. split.
  - intros (j & Hj & H). apply existsb_exists in H. destruct H as (i & Hi & H).
    apply in_seq in Hj, Hi. apply andb_prop in H. destruct H as [H Hy].
    apply andb_prop in H. destruct H as [Hb Hx].
    exists i, j. split; [lia|]. split; [lia|]. split; [exact Hb|].
    split; [apply Z.eqb_eq, Hx | apply Z.eqb_eq, Hy].
  - intros (i & j & Hi & Hj & Hb & Hx & Hy). exists j. split; [apply in_seq; lia|].
    apply existsb_exists. exists i. split; [apply in_seq; lia|].
    rewrite Hb, Hx, Hy, !Z.eqb_refl. reflexivity.
Qed.

(** X4.  What [draw8by8] shows: a pixel of the screen is lit afterwards
    exactly when it was lit before or the sprite plots it, that is when a
    set bit [i] of row [j] has [(x + i) mod 256 = px] and
    [(y + j) mod 256 = py].  Plots that fall off the screen are dropped.
    For a sprite that lies on the screen the plotted pixels are the set
    bits of the bitmap, moved to [(x, y)]. *)
Theorem draw8by8_shows_the_sprite (bitmap : list Z) (x y : Z) (fb : list Z) (px py : Z) :
  frameOk fb -> 0 <= px <= 127 -> 0 <= py <= 63 ->
  frameOk (draw8by8 bitmap x y fb) /\
  (pixelAt (draw8by8 bitmap x y fb) px py = true
   <-> pixelAt fb px py = true \/ spritePlots bitmap x y px py) /\
  (0 <= x <= 120 -> 0 <= y <= 56 ->
   (spritePlots bitmap x y px py
    <-> x <= px < x + 8 /\ y <= py < y + 8 /\
        Z.testbit (bitmap !!! Z.to_nat (py - y)) (px - x) = true)).
Proof.
  intros Hfb Hx Hy. destruct (draw8by8_pixels bitmap x y fb Hfb) as [Hok Hpx].
  split; [exact Hok|]. split.
  - rewrite Hpx by assumption. rewrite orb_true_iff, plotsAt_spritePlots. reflexivity.
  - intros Hsx Hsy. unfold spritePlots. split.
    + intros (i & j & Hi & Hj & Hb & Ex & Ey).
      rewrite u8_small in Ex, Ey by lia.
      replace (Z.to_nat (py - y)) with j by lia.
      replace (px - x) with (Z.of_nat i) by lia.
      repeat split; try lia. exact Hb.
    + intros (Hpx1 & Hpy1 & Hb).
      exists (Z.to_nat (px - x)), (Z.to_nat (py - y)).
      rewrite !Z2Nat.id by lia. rewrite !u8_small by lia.
      repeat split; try lia. exact Hb.
Qed.

Lemma draw8by8_shows_the_sprite_witness :
  pixelAt (draw8by8 ship8 60 50 (replicate FRAME_BYTES 0)) 63 51 = true
  <-> pixelAt (replicate FRAME_BYTES 0) 63 51 = true \/ spritePlots ship8 60 50 63 51.
Proof.
  refine (proj1 (proj2 (draw8by8_shows_the_sprite ship8 60 50
                          (replicate FRAME_BYTES 0) 63 51 _ _ _))).
  - split; [apply length_replicate|].
    intros k Hk. rewrite lookup_total_replicate_2 by exact Hk. lia.
  - lia.
  - lia.
Defined.

(** ** Text *)

(** Case analysis on the integer comparisons of the goal. *)
Ltac zcases :=
  repeat match goal with
         | |- context [Z.ltb ?a ?b] => destruct (Z.ltb_spec a b)
         | |- context [Z.leb ?a ?b] => destruct (Z.leb_spec a b)
         | |- context [Z.eqb ?a ?b] => destruct (Z.eqb_spec a b)
         end.

Lemma printChar_prefix (TEXT : list Z) (c : Z) (base : Z) (m : nat) (fb : list Z) :
  Z.of_nat m - 1 <= base < Z.of_nat (length fb) ->
  let fb' := foldl (fun fb i => <[Z.to_nat (base - Z.of_nat i) := glyphByte TEXT c i]> fb)
                   fb (seq 0 m) in
  length fb' = length fb /\
  forall k : nat,
    fb' !!! k = if (base - Z.of_nat m <? Z.of_nat k) && (Z.of_nat k <=? base)
                then glyphByte TEXT c (Z.to_nat (base - Z.of_nat k))
                else fb !!! k.
Proof.
  induction m as [| m IH]; intros Hb.
  - split; [reflexivity|]. intros k. cbn [foldl seq].
    zcases; simpl; try reflexivity; lia.
  - cbv zeta. rewrite seq_S, foldl_snoc. cbn beta. change (0 + m)%nat with m.
    destruct IH as [Hlen Hk]; [lia|].
    split; [rewrite length_insert; exact Hlen|].
    intros k. destruct (decide (k = Z.to_nat (base - Z.of_nat m))) as [-> | Hne].
    + rewrite list_lookup_total_insert_eq by lia.
      rewrite !Z2Nat.id by lia.
      replace (base - Z.of_nat (S m) <? base - Z.of_nat m) with true
        by (symmetry; apply Z.ltb_lt; lia).
      replace (base - Z.of_nat m <=? base) with true by (symmetry; apply Z.leb_le; lia).
      simpl. f_equal. lia.
    + rewrite list_lookup_total_insert_ne by congruence. rewrite Hk.
      zcases; simpl; try reflexivity; lia.
Qed.

Lemma printText_prefix (TEXT text : list Z) (line : Z) (n : nat) (fb : list Z) :
  0 <= line <= 7 -> (n <= 16)%nat -> length fb = FRAME_BYTES ->
  let fb' := foldl (fun fb j =>
               foldl (fun fb i =>
                 <[Z.to_nat (1023 - Z.shiftl line 7 - Z.of_nat j * TEXT_WIDTH - Z.of_nat i) :=
                     glyphByte TEXT (text !!! j) i]> fb) fb (seq 0 8))
               fb (seq 0 n) in
  length fb' = FRAME_BYTES /\
  forall k : nat,
    fb' !!! k = if (1023 - 128 * line - 8 * Z.of_nat n <? Z.of_nat k)
                   && (Z.of_nat k <=? 1023 - 128 * line)
                then glyphByte TEXT (text !!! Z.to_nat ((1023 - 128 * line - Z.of_nat k) / 8))
                               (Z.to_nat ((1023 - 128 * line - Z.of_nat k) mod 8))
                else fb !!! k.
Proof.
  intros Hline. unfold FRAME_BYTES, TEXT_WIDTH. rewrite Z.shiftl_mul_pow2 by lia.
  change (2 ^ 7) with 128.
  induction n as [| n IH]; intros Hn Hlen.
  - split; [exact Hlen|]. intros k. cbn [foldl seq].
    zcases; simpl; try reflexivity; lia.
  - cbv zeta. rewrite (seq_S n 0), foldl_snoc. cbn beta. change (0 + n)%nat with n.
    destruct IH as [Hl Hk]; [lia | exact Hlen|].
    set (prev := foldl _ fb (seq 0 n)) in *.
    pose proof (printChar_prefix TEXT (text !!! n) (1023 - line * 128 - Z.of_nat n * 8) 8 prev)
      as Hc.
    cbv zeta in Hc. destruct Hc as [Hcl Hck]; [rewrite Hl; lia|].
    split; [rewrite Hcl; exact Hl|].
    intros k. rewrite Hck, Hk. clear Hck Hk.
    zcases; cbn [andb]; try reflexivity; try lia.
    assert (E1 : (1023 - 128 * line - Z.of_nat k) / 8 = Z.of_nat n)
      by (symmetry; apply (Z.div_unique _ 8 _ (1023 - 128 * line - Z.of_nat k - 8 * Z.of_nat n));
          lia).
    assert (E2 : (1023 - 128 * line - Z.of_nat k) mod 8
                 = 1023 - line * 128 - Z.of_nat n * 8 - Z.of_nat k)
      by (symmetry; apply (Z.mod_unique _ 8 (Z.of_nat n)); lia).
    rewrite E1, E2, Nat2Z.id. reflexivity.
Qed.

(** X5.  [lcdPrintText] writes whole bytes into the page of its line and
    nowhere else.  For a line above 7 or a text of more than 16 characters
    it does nothing.  Otherwise byte [i] of the glyph of character [j] is
    stored (not OR-ed) at index [1023 - 128*line - 8*j - i], whatever was
    there; these indices lie in [896 - 128*line, 1023 - 128*line], inside
    the buffer, and every byte outside the [8 * length] bytes written keeps
    its value. *)
Theorem lcdPrintText_footprint (TEXT text : list Z) (line : Z) (fb : list Z) :
  0 <= line -> length fb = FRAME_BYTES ->
  (7 < line \/ (16 < length text)%nat -> lcdPrintText TEXT text line fb = fb) /\
  (line <= 7 -> (length text <= 16)%nat ->
   length (lcdPrintText TEXT text line fb) = FRAME_BYTES /\
   (forall j i : nat, (j < length text)%nat -> (i < 8)%nat ->
      896 - 128 * line <= 1023 - 128 * line - 8 * Z.of_nat j - Z.of_nat i
                       <= 1023 - 128 * line /\
      lcdPrintText TEXT text line fb
        !!! Z.to_nat (1023 - 128 * line - 8 * Z.of_nat j - Z.of_nat i)
      = glyphByte TEXT (text !!! j) i) /\
   (forall k : nat,
      Z.of_nat k <= 1023 - 128 * line - 8 * Z.of_nat (length text)
      \/ 1023 - 128 * line < Z.of_nat k ->
      lcdPrintText TEXT text line fb !!! k = fb !!! k)).
Proof.
  intros Hl0 Hlen. split.
  - intros [H | H]; unfold lcdPrintText.
    + replace (7 <? line) with true by (symmetry; apply Z.ltb_lt; exact H). reflexivity.
    + destruct (7 <? line); [reflexivity|].
      replace (16 <? Z.of_nat (length text)) with true by (symmetry; apply Z.ltb_lt; lia).
      reflexivity.
  - intros Hl7 Ht. unfold lcdPrintText.
    replace (7 <? line) with false by (symmetry; apply Z.ltb_ge; lia).
    replace (16 <? Z.of_nat (length text)) with false by (symmetry; apply Z.ltb_ge; lia).
    destruct (printText_prefix TEXT text line (length text) fb) as [Hlen' Hk];
      [lia | exact Ht | exact Hlen|].
    split; [exact Hlen'|]. split.
    + intros j i Hj Hi. split; [lia|]. rewrite Hk.
      rewrite Z2Nat.id by lia.
      replace (1023 - 128 * line - 8 * Z.of_nat (length text)
               <? 1023 - 128 * line - 8 * Z.of_nat j - Z.of_nat i) with true
        by (symmetry; apply Z.ltb_lt; lia).
      replace (1023 - 128 * line - 8 * Z.of_nat j - Z.of_nat i <=? 1023 - 128 * line)
        with true by (symmetry; apply Z.leb_le; lia).
      cbn [andb].
      replace (1023 - 128 * line - (1023 - 128 * line - 8 * Z.of_nat j - Z.of_nat i))
        with (8 * Z.of_nat j + Z.of_nat i) by lia.
      assert (E1 : (8 * Z.of_nat j + Z.of_nat i) / 8 = Z.of_nat j)
        by (symmetry; apply (Z.div_unique _ 8 _ (Z.of_nat i)); lia).
      assert (E2 : (8 * Z.of_nat j + Z.of_nat i) mod 8 = Z.of_nat i)
        by (symmetry; apply (Z.mod_unique _ 8 (Z.of_nat j)); lia).
      rewrite E1, E2, !Nat2Z.id. reflexivity.
    + intros k Hout. rewrite Hk. zcases; cbn [andb]; try reflexivity; lia.
Qed.

Lemma lcdPrintText_footprint_witness :
  lcdPrintText (replicate 424 255) [71; 111] 1 (replicate FRAME_BYTES 3)
    !!! Z.to_nat (1023 - 128 * 1 - 8 * Z.of_nat 1 - Z.of_nat 2)
  = glyphByte (replicate 424 255) ([71; 111] !!! 1%nat) 2.
Proof.
  refine (proj2 (proj1 (proj2 (proj2
    (lcdPrintText_footprint (replicate 424 255) [71; 111] 1 (replicate FRAME_BYTES 3) _ _)
    _ _)) 1%nat 2%nat _ _)).
  - lia.
  - apply length_replicate.
  - lia.
  - simpl. lia.
  - simpl. lia.
  - lia.
Defined.

(** X6.  Which characters have a glyph, and where.  [lcdPrintText] reads
    byte [i] of an upper-case letter at offset [8 * (c - 65) + i] of [TEXT],
    of a lower-case letter at [208 + 8 * (c - 97) + i] and of the dot at
    [416 + i]; for every other character it reads nothing and the byte it
    prints is 0, a blank column.  For [i < 8] the offset read lies in the
    first 53 * 8 = 424 bytes of [TEXT], the byte printed is the table's byte
    at that offset, and two reads of the same offset are reads of the same
    byte of the same character. *)
Theorem glyph_addresses_apart (c : Z) (i : nat) :
  (65 <= c <= 90 -> glyphOffset c i = Some (8 * (c - 65) + Z.of_nat i)) /\
  (97 <= c <= 122 -> glyphOffset c i = Some (208 + 8 * (c - 97) + Z.of_nat i)) /\
  (c = 46 -> glyphOffset c i = Some (416 + Z.of_nat i)) /\
  (~ 65 <= c <= 90 -> ~ 97 <= c <= 122 -> c <> 46 ->
   glyphOffset c i = None /\ forall TEXT, glyphByte TEXT c i = 0) /\
  (forall o, (i < 8)%nat -> glyphOffset c i = Some o ->
   0 <= o < 424 /\
   (forall TEXT, glyphByte TEXT c i = u8 (TEXT !!! Z.to_nat o)) /\
   forall c' i', (i' < 8)%nat -> glyphOffset c' i' = Some o -> c = c' /\ i = i').
Proof.
  repeat split.
  - intros H. unfold glyphOffset, BYTES_PER_CHARACTER.
    destruct (Z.leb_spec 65 c), (Z.leb_spec c 90); try lia. cbn [andb].
    f_equal. lia.
  - intros H. unfold glyphOffset, BYTES_PER_CHARACTER, UPPER_CASE_ALPHA_LENGTH.
    destruct (Z.leb_spec 65 c), (Z.leb_spec c 90); try lia; cbn [andb];
      destruct (Z.leb_spec 97 c), (Z.leb_spec c 122); try lia; cbn [andb];
      f_equal; lia.
  - intros ->. reflexivity.
  - unfold glyphOffset.
    destruct (Z.leb_spec 65 c), (Z.leb_spec c 90); cbn [andb]; try lia;
      destruct (Z.leb_spec 97 c), (Z.leb_spec c 122); cbn [andb]; try lia;
      destruct (Z.eqb_spec c 46); try lia; reflexivity.
  - intros TEXT. unfold glyphByte, glyphOffset.
    destruct (Z.leb_spec 65 c), (Z.leb_spec c 90); cbn [andb]; try lia;
      destruct (Z.leb_spec 97 c), (Z.leb_spec c 122); cbn [andb]; try lia;
      destruct (Z.eqb_spec c 46); try lia; reflexivity.
  - revert H0. unfold glyphOffset, BYTES_PER_CHARACTER, UPPER_CASE_ALPHA_LENGTH.
    destruct (Z.leb_spec 65 c), (Z.leb_spec c 90); cbn [andb];
      destruct (Z.leb_spec 97 c), (Z.leb_spec c 122); cbn [andb];
      destruct (Z.eqb_spec c 46); intros G; try discriminate; injection G as <-; lia.
  - revert H0. unfold glyphOffset, BYTES_PER_CHARACTER, UPPER_CASE_ALPHA_LENGTH.
    destruct (Z.leb_spec 65 c), (Z.leb_spec c 90); cbn [andb];
      destruct (Z.leb_spec 97 c), (Z.leb_spec c 122); cbn [andb];
      destruct (Z.eqb_spec c 46); intros G; try discriminate; injection G as <-; lia.
  - intros TEXT. unfold glyphByte. rewrite H0. reflexivity.
  - revert H0 H2. unfold glyphOffset, BYTES_PER_CHARACTER, UPPER_CASE_ALPHA_LENGTH.
    destruct (Z.leb_spec 65 c), (Z.leb_spec c 90); cbn [andb];
      destruct (Z.leb_spec 97 c), (Z.leb_spec c 122); cbn [andb];
      destruct (Z.eqb_spec c 46); intros G; try discriminate; injection G as <-;
      destruct (Z.leb_spec 65 c'), (Z.leb_spec c' 90); cbn [andb];
      destruct (Z.leb_spec 97 c'), (Z.leb_spec c' 122); cbn [andb];
      destruct (Z.eqb_spec c' 46); intros G'; try discriminate; injection G' as G';
      lia.
  - revert H0 H2. unfold glyphOffset, BYTES_PER_CHARACTER, UPPER_CASE_ALPHA_LENGTH.
    destruct (Z.leb_spec 65 c), (Z.leb_spec c 90); cbn [andb];
      destruct (Z.leb_spec 97 c), (Z.leb_spec c 122); cbn [andb];
      destruct (Z.eqb_spec c 46); intros G; try discriminate; injection G as <-;
      destruct (Z.leb_spec 65 c'), (Z.leb_spec c' 90); cbn [andb];
      destruct (Z.leb_spec 97 c'), (Z.leb_spec c' 122); cbn [andb];
      destruct (Z.eqb_spec c' 46); intros G'; try discriminate; injection G' as G';
      lia.
Qed.

Lemma glyph_addresses_apart_witness :
  glyphOffset 97 1 = Some 209 /\
  (glyphOffset 32 1 = None /\ forall TEXT, glyphByte TEXT 32 1 = 0) /\
  (0 <= 209 < 424 /\
   (forall TEXT, glyphByte TEXT 97 1 = u8 (TEXT !!! Z.to_nat 209)) /\
   forall c' i', (i' < 8)%nat -> glyphOffset c' i' = Some 209 -> 97 = c' /\ 1%nat = i').
Proof.
  split; [| split].
  - refine (proj1 (proj2 (glyph_addresses_apart 97 1)) _). lia.
  - refine (proj1 (proj2 (proj2 (proj2 (glyph_addresses_apart 32 1)))) _ _ _); lia.
  - refine (proj2 (proj2 (proj2 (proj2 (glyph_addresses_apart 97 1)))) 209 _ _).
    + lia.
    + reflexivity.
Defined.

(** ** Buttons *)

Lemma land_pow2 (p k : Z) :
  0 <= k -> Z.land p (2 ^ k) = if Z.testbit p k then 2 ^ k else 0.
Proof.
  intros Hk. apply Z.bits_inj'. intros n Hn.
  rewrite Z.land_spec, Z.pow2_bits_eqb by lia.
  destruct (Z.eqb_spec k n) as [<- |].
  - destruct (Z.testbit p k); [rewrite Z.pow2_bits_true by lia | rewrite Z.bits_0];
      reflexivity.
  - rewrite andb_false_r.
    destruct (Z.testbit p k); [rewrite Z.pow2_bits_false by lia | rewrite Z.bits_0];
      reflexivity.
Qed.

Lemma land_56 (p : Z) :
  Z.land p 56
  = Z.lor (Z.lor (if Z.testbit p 3 then 8 else 0) (if Z.testbit p 4 then 16 else 0))
          (if Z.testbit p 5 then 32 else 0).
Proof.
  change 56 with (Z.lor (Z.lor (2 ^ 3) (2 ^ 4)) (2 ^ 5)).
  rewrite !Z.land_lor_distr_r, !land_pow2 by lia. reflexivity.
Qed.

(** X7.  The buttons are active low.  For the ids 0..3, [isButtonDown] is 1
    exactly when pin 3 + id of port C reads 0, and it is 0 for every id
    above 3; [isAnyKeyDown] is 1 exactly when one of the three buttons 0, 1
    and 2 is down, whatever the other pins read.  (The id 3 passes the
    range test and reads pin 6.) *)
Theorem any_key_is_one_of_the_three (PINC : Z) :
  (forall id : Z, 0 <= id <= 3 ->
     (isButtonDown PINC id = 1 <-> Z.testbit PINC (3 + id) = false) /\
     (isButtonDown PINC id = 0 <-> Z.testbit PINC (3 + id) = true)) /\
  (forall id : Z, 3 < id -> isButtonDown PINC id = 0) /\
  (isAnyKeyDown PINC = 1
   <-> isButtonDown PINC 0 = 1 \/ isButtonDown PINC 1 = 1 \/ isButtonDown PINC 2 = 1) /\
  (isAnyKeyDown PINC = 0
   <-> isButtonDown PINC 0 = 0 /\ isButtonDown PINC 1 = 0 /\ isButtonDown PINC 2 = 0).
Proof.
  assert (Hb : forall id, 0 <= id <= 3 ->
            isButtonDown PINC id = if Z.testbit PINC (3 + id) then 0 else 1).
  { intros id Hid. unfold isButtonDown.
    replace (3 <? id) with false by (symmetry; apply Z.ltb_ge; lia).
    rewrite Z.shiftl_1_l, land_pow2 by lia.
    destruct (Z.testbit PINC (3 + id)); [|reflexivity].
    replace (2 ^ (3 + id) =? 0) with false; [reflexivity|].
    symmetry. apply Z.eqb_neq. apply Z.pow_nonzero; lia. }
  pose proof (Hb 0 ltac:(lia)) as H0. pose proof (Hb 1 ltac:(lia)) as H1.
  pose proof (Hb 2 ltac:(lia)) as H2.
  change (3 + 0) with 3 in H0. change (3 + 1) with 4 in H1. change (3 + 2) with 5 in H2.
  split; [|split; [|split]].
  - intros id Hid. rewrite (Hb id Hid).
    destruct (Z.testbit PINC (3 + id)); split; split; intros H;
      try reflexivity; discriminate.
  - intros id Hid. unfold isButtonDown.
    replace (3 <? id) with true by (symmetry; apply Z.ltb_lt; lia). reflexivity.
  - unfold isAnyKeyDown. rewrite land_56, H0, H1, H2.
    destruct (Z.testbit PINC 3), (Z.testbit PINC 4), (Z.testbit PINC 5); simpl; lia.
  - unfold isAnyKeyDown. rewrite land_56, H0, H1, H2.
    destruct (Z.testbit PINC 3), (Z.testbit PINC 4), (Z.testbit PINC 5); simpl; lia.
Qed.

(** X8.  [initButtons] makes the pins 3, 4 and 5 of port C inputs and
    leaves the direction of every other pin as it was; it is the
    assignment [DDRC &= 0xC7] the comment in the source mentions. *)
Theorem initButtons_clears_three_bits (DDRC : Z) :
  0 <= DDRC < 256 ->
  initButtons DDRC = Z.land DDRC 199 /\
  forall n : Z, 0 <= n ->
    Z.testbit (initButtons DDRC) n
    = Z.testbit DDRC n && negb ((n =? 3) || (n =? 4) || (n =? 5)).
Proof.
  intros Hd.
  assert (Hbits : forall n, 0 <= n ->
            Z.testbit (initButtons DDRC) n
            = Z.testbit DDRC n && negb ((n =? 3) || (n =? 4) || (n =? 5))).
  { intros n Hn. unfold initButtons, u8. change 256 with (2 ^ 8).
    rewrite !Z.shiftl_1_l.
    destruct (Z.lt_ge_cases n 8) as [Hlt | Hge].
    - rewrite Z.mod_pow2_bits_low by lia.
      rewrite Z.land_spec, Z.lnot_spec, !Z.lor_spec, !Z.pow2_bits_eqb by lia.
      rewrite !(Z.eqb_sym n). reflexivity.
    - rewrite Z.mod_pow2_bits_high by lia.
      rewrite (byte_high_bits DDRC n Hd Hge). reflexivity. }
  split; [|exact Hbits].
  apply Z.bits_inj'. intros n Hn. rewrite Hbits by exact Hn.
  rewrite Z.land_spec.
  change 199 with (Z.lnot 56 mod 2 ^ 8).
  destruct (Z.lt_ge_cases n 8) as [Hlt | Hge].
  - rewrite Z.mod_pow2_bits_low by lia. rewrite Z.lnot_spec by lia.
    change 56 with (Z.lor (Z.lor (2 ^ 3) (2 ^ 4)) (2 ^ 5)).
    rewrite !Z.lor_spec, !Z.pow2_bits_eqb by lia. rewrite !(Z.eqb_sym n). reflexivity.
  - rewrite (byte_high_bits DDRC n Hd Hge). reflexivity.
Qed.

Lemma initButtons_clears_three_bits_witness :
  initButtons 255 = Z.land 255 199.
Proof.
  refine (proj1 (initButtons_clears_three_bits 255 _)). lia.
Defined.

(** ** The shape of the tables *)

Lemma playerFire_shapeOk g : shapeOk g -> shapeOk (playerFire g).
Proof.
  unfold shapeOk, playerPoolSized, enemyPoolSized, MAX_PLAYER_BULLETS.
  intros (Ha & [Hx Hy] & He & Hc & Hec). cbn -[Z.modulo Z.of_nat u8 Z.div].
  rewrite !length_insert.
  split; [exact Ha | split; [split; assumption | split; [exact He | split; [| exact Hec]]]].
  apply Z.mod_pos_bound. lia.
Qed.

Lemma enemyFire_shapeOk x y g : shapeOk g -> shapeOk (enemyFire x y g).
Proof.
  unfold shapeOk, playerPoolSized, enemyPoolSized, MAX_ENEMY_BULLETS.
  intros (Ha & Hp & [Hx Hy] & Hc & Hec). cbn -[Z.modulo Z.of_nat u8 Z.div].
  rewrite !length_insert.
  split; [exact Ha | split; [exact Hp | split; [split; assumption | split; [exact Hc |]]]].
  apply Z.mod_pos_bound. lia.
Qed.

Lemma beforeDemise_shapeOk inp g : shapeOk g -> shapeOk (beforeDemise inp g).
Proof.
  intros Hg. unfold beforeDemise.
  assert (H1 : shapeOk (tickBulletWait (moveShip inp g))).
  { unfold tickBulletWait, moveShip.
    repeat match goal with |- context [if ?b then _ else _] => destruct b end; exact Hg. }
  assert (H2 : shapeOk (if btnFire inp && (bulletWait (tickBulletWait (moveShip inp g)) =? 0)
                        then playerFire (tickBulletWait (moveShip inp g))
                        else tickBulletWait (moveShip inp g))).
  { destruct (btnFire inp && _); [apply playerFire_shapeOk|]; exact H1. }
  revert H2. generalize (if btnFire inp && (bulletWait (tickBulletWait (moveShip inp g)) =? 0)
                        then playerFire (tickBulletWait (moveShip inp g))
                        else tickBulletWait (moveShip inp g)).
  intros g2 H2. unfold flashShip. destruct (_ && _); exact H2.
Qed.

Lemma shipDemise_shapeOk g g1 : shipDemise g = Next g1 -> shapeOk g -> shapeOk g1.
Proof.
  unfold shipDemise, lifeLost.
  repeat match goal with |- context [if ?b then _ else _] => destruct b end;
    intros H; try discriminate; injection H as <-; intros Hg; exact Hg.
Qed.

Lemma hitStep_shapeOk k x y g j : shapeOk g -> shapeOk (hitStep k x y g j).
Proof.
  unfold shapeOk, playerPoolSized, enemyPoolSized, hitStep.
  intros (Ha & [Hx Hy] & [Hex Hey] & [Hc1 Hc2] & [He1 He2]).
  destruct (inBox _ _ _ _ _ _); simpl; rewrite ?length_insert; repeat split; assumption.
Qed.

Lemma flashAlien_shapeOk k g : shapeOk g -> shapeOk (flashAlien k g).
Proof.
  unfold shapeOk, playerPoolSized, enemyPoolSized, flashAlien.
  intros (Ha & [Hx Hy] & [Hex Hey] & [Hc1 Hc2] & [He1 He2]).
  repeat match goal with |- context [if ?b then _ else _] => destruct b end;
    simpl; rewrite ?length_insert; repeat split; assumption.
Qed.

Lemma alienBody_shapeOk k x y g s st1 :
  shapeOk g -> alienBody k x y (g, s) = Next st1 -> shapeOk (fst st1).
Proof.
  intros Hg. unfold alienBody. destruct (SCREEN_HEIGHT <=? y + ALIEN_HEIGHT); [discriminate|].
  intros E. injection E as <-. simpl fst. unfold hitScan.
  apply foldl_inv; [intros g0 j; apply hitStep_shapeOk|].
  assert (HF : shapeOk (if s =? 0 then enemyFire x y g else g))
    by (destruct (s =? 0); [apply enemyFire_shapeOk|]; exact Hg).
  destruct (touchesEdge x); exact HF.
Qed.

Lemma rowBody_shapeOk k x y st st' :
  shapeOk (fst st) ->
  (if (enemyAlive (fst st) !!! k) mod 2 =? 1 then alienBody k x y st else Next st)
  >>= (fun st1 => Next (flashAlien k (fst st1), snd st1)) = Next st' ->
  shapeOk (fst st').
Proof.
  intros Hg H. destruct st as [g s]. simpl fst in *.
  assert (H1 : forall st1,
            (if (enemyAlive g !!! k) mod 2 =? 1 then alienBody k x y (g, s) else Next (g, s))
            = Next st1 -> shapeOk (fst st1)).
  { intros st1. destruct (_ =? 1).
    - apply alienBody_shapeOk, Hg.
    - intros E. injection E as <-. exact Hg. }
  destruct (if (enemyAlive g !!! k) mod 2 =? 1 then alienBody k x y (g, s) else Next (g, s))
    as [st1 |]; [|discriminate].
  simpl in H. injection H as <-. simpl fst. apply flashAlien_shapeOk, H1. reflexivity.
Qed.

(** An invariant of the turns of both loops is an invariant of the loops. *)
Lemma alienSweep_inv (P : Game -> Prop) st st' :
  (forall k x y st st', (k < ENEMY_COUNT)%nat -> P (fst st) ->
     (if (enemyAlive (fst st) !!! k) mod 2 =? 1 then alienBody k x y st else Next st)
     >>= (fun st1 => Next (flashAlien k (fst st1), snd st1)) = Next st' ->
     P (fst st')) ->
  P (fst st) -> alienSweep st = Next st' -> P (fst st').
Proof.
  intros Hbody Hg. unfold alienSweep. intros H.
  destruct (forFlow row1Body (seq 0 ROW1_ENEMY_COUNT) st) as [st1 |] eqn:E1; [|discriminate].
  simpl in H.
  apply (forFlow_inv (fun s => P (fst s)) row2Body (seq 0 ROW2_ENEMY_COUNT) st1 st');
    [| | exact H].
  - intros i s s' Hi Hs Hb. apply in_seq in Hi.
    eapply Hbody; [| exact Hs | exact Hb].
    unfold ENEMY_COUNT, ROW1_ENEMY_COUNT, ROW2_ENEMY_COUNT in *. lia.
  - apply (forFlow_inv (fun s => P (fst s)) row1Body (seq 0 ROW1_ENEMY_COUNT) st st1);
      [| exact Hg | exact E1].
    intros i s s' Hi Hs Hb. apply in_seq in Hi.
    eapply Hbody; [| exact Hs | exact Hb].
    unfold ENEMY_COUNT, ROW1_ENEMY_COUNT, ROW2_ENEMY_COUNT in *. lia.
Qed.

Lemma advancePlayerBullets_shapeOk g : shapeOk g -> shapeOk (advancePlayerBullets g).
Proof.
  unfold advancePlayerBullets. apply foldl_inv. clear g. intros g j.
  unfold shapeOk, playerPoolSized, enemyPoolSized, playerBulletStep.
  intros (Ha & [Hx Hy] & [Hex Hey] & [Hc1 Hc2] & [He1 He2]).
  repeat match goal with |- context [if ?b then _ else _] => destruct b end;
    simpl; rewrite ?length_insert; repeat split; assumption.
Qed.

Lemma advanceEnemyBullets_shapeOk g : shapeOk g -> shapeOk (advanceEnemyBullets g).
Proof.
  unfold advanceEnemyBullets. apply foldl_inv. clear g. intros g j.
  unfold shapeOk, playerPoolSized, enemyPoolSized, enemyBulletStep.
  intros (Ha & [Hx Hy] & [Hex Hey] & [Hc1 Hc2] & [He1 He2]).
  repeat match goal with |- context [if ?b then _ else _] => destruct b end;
    simpl; rewrite ?length_insert; repeat split; assumption.
Qed.

Lemma start_shapeOk : shapeOk start.
Proof.
  unfold shapeOk, playerPoolSized, enemyPoolSized.
  change (enemyAlive start) with (replicate 9%nat 7).
  change (bulletX start) with (replicate 20%nat 0).
  change (bulletY start) with (replicate 20%nat 0).
  change (enemyBulletX start) with (replicate 20%nat 0).
  change (enemyBulletY start) with (replicate 20%nat 0).
  change (currBulletId start) with 0. change (currEnemyBulletId start) with 0.
  unfold MAX_PLAYER_BULLETS, MAX_ENEMY_BULLETS. repeat split; try reflexivity; lia.
Qed.

Lemma gameLoop_shapeOk inp g : shapeOk g -> shapeOk (gameLoop inp g).
Proof.
  intros Hg. apply gameLoop_cases; [exact start_shapeOk|].
  intros g' H. apply gameLoopBody_Next in H. destruct H as (g1 & st & Hd & _ & Hs & ->).
  apply advanceEnemyBullets_shapeOk, advancePlayerBullets_shapeOk.
  change (shapeOk (fst st)).
  apply (alienSweep_inv shapeOk (selectFirer inp g1) st); [| | exact Hs].
  - intros k x y s s' _. apply rowBody_shapeOk.
  - assert (H1 : shapeOk g1) by (eapply shipDemise_shapeOk; [exact Hd|];
                                 apply beforeDemise_shapeOk, Hg).
    unfold selectFirer.
    repeat match goal with |- context [if ?b then _ else _] => destruct b end; exact H1.
Qed.

Lemma run_shapeOk inps : shapeOk (run inps).
Proof. apply (run_ind shapeOk); [exact start_shapeOk | apply gameLoop_shapeOk]. Qed.

(** X9.  In every state reached from [gameReset] the alien table has its 9
    entries, the four coordinate arrays have their 20, and both write
    cursors lie in [0, 20): every array access of [gameLoop] through a
    cursor or a loop counter is within bounds. *)
Theorem tables_and_cursors_in_bounds (inps : list Input) :
  length (enemyAlive (run inps)) = ENEMY_COUNT /\
  length (bulletX (run inps)) = MAX_PLAYER_BULLETS /\
  length (bulletY (run inps)) = MAX_PLAYER_BULLETS /\
  length (enemyBulletX (run inps)) = MAX_ENEMY_BULLETS /\
  length (enemyBulletY (run inps)) = MAX_ENEMY_BULLETS /\
  0 <= currBulletId (run inps) < Z.of_nat MAX_PLAYER_BULLETS /\
  0 <= currEnemyBulletId (run inps) < Z.of_nat MAX_ENEMY_BULLETS.
Proof.
  destruct (run_shapeOk inps) as (Ha & [Hx Hy] & [Hex Hey] & Hc & Hec). repeat split; assumption || apply Hc || apply Hec.
Qed.

(** ** The ranges of the counters *)

Lemma beforeDemise_counters inp g :
  countersOk g ->
  lives (beforeDemise inp g) = lives g /\
  0 <= shipAlive (beforeDemise inp g) <= ALIVE /\
  0 <= bulletWait (beforeDemise inp g) <= PLAYER_WAIT_BETWEEN_FIRE /\
  enemyBulletWait (beforeDemise inp g) = enemyBulletWait g.
Proof.
  unfold countersOk, ALIVE, PLAYER_WAIT_BETWEEN_FIRE, beforeDemise.
  intros (Hl & Hs & Hw & He).
  assert (H1 : lives (moveShip inp g) = lives g /\ shipAlive (moveShip inp g) = shipAlive g /\
               bulletWait (moveShip inp g) = bulletWait g /\
               enemyBulletWait (moveShip inp g) = enemyBulletWait g).
  { unfold moveShip.
    repeat match goal with |- context [if ?b then _ else _] => destruct b end;
      repeat split; reflexivity. }
  revert H1. generalize (moveShip inp g). intros g1 (E1 & E2 & E3 & E4).
  assert (H2 : lives (tickBulletWait g1) = lives g /\ shipAlive (tickBulletWait g1) = shipAlive g /\
               0 <= bulletWait (tickBulletWait g1) <= 10 /\
               enemyBulletWait (tickBulletWait g1) = enemyBulletWait g).
  { unfold tickBulletWait. destruct (Z.ltb_spec 0 (bulletWait g1)); simpl.
    - rewrite u8_small by lia. repeat split; try assumption; lia.
    - repeat split; try assumption; lia. }
  revert H2. generalize (tickBulletWait g1). clear g1 E1 E2 E3 E4. intros g2 H2.
  assert (H3 : let g3 := if btnFire inp && (bulletWait g2 =? 0) then playerFire g2 else g2 in
               lives g3 = lives g /\ shipAlive g3 = shipAlive g /\
               0 <= bulletWait g3 <= 10 /\ enemyBulletWait g3 = enemyBulletWait g).
  { destruct H2 as (E1 & E2 & E3 & E4).
    destruct (btnFire inp && _); simpl; unfold PLAYER_WAIT_BETWEEN_FIRE;
      repeat split; try assumption; lia. }
  revert H3. cbv zeta.
  generalize (if btnFire inp && (bulletWait g2 =? 0) then playerFire g2 else g2).
  clear g2 H2. intros g3 (E1 & E2 & E3 & E4).
  unfold flashShip.
  destruct (Z.ltb_spec 0 (shipAlive g3)), (Z.ltb_spec (shipAlive g3) ALIVE);
    unfold ALIVE in *; cbn -[u8]; rewrite ?u8_small by lia. all: repeat split; try assumption; lia.
Qed.

Lemma shipDemise_counters g g1 :
  shipDemise g = Next g1 ->
  1 <= lives g <= 3 -> 0 <= shipAlive g <= ALIVE ->
  0 <= bulletWait g <= PLAYER_WAIT_BETWEEN_FIRE ->
  1 <= enemyBulletWait g <= ENEMY_WAIT_BETWEEN_FIRE ->
  countersOk g1.
Proof.
  unfold shipDemise, countersOk, ALIVE, PLAYER_WAIT_BETWEEN_FIRE, ENEMY_WAIT_BETWEEN_FIRE.
  intros H Hl Hs Hw He.
  destruct (Z.eqb_spec (shipAlive g) 0).
  - destruct (Z.ltb_spec 1 (lives g)); [|discriminate].
    injection H as <-. unfold lifeLost, ALIVE, ENEMY_WAIT_BETWEEN_FIRE. simpl.
    rewrite u8_small by lia. lia.
  - injection H as <-. lia.
Qed.

Lemma selectFirer_counters inp g :
  countersOk g -> 0 < enemyRemaining g -> countersOk (fst (selectFirer inp g)).
Proof.
  intros (Hl & Hs & Hw & He) Hr. pose proof (selectFirer_frame inp g) as HF.
  unfold countersOk.
  assert (E : lives (fst (selectFirer inp g)) = lives g /\
              shipAlive (fst (selectFirer inp g)) = shipAlive g /\
              bulletWait (fst (selectFirer inp g)) = bulletWait g)
    by (tuple_eqs HF; repeat split; congruence).
  destruct E as (-> & -> & ->). clear HF.
  split; [exact Hl | split; [exact Hs | split; [exact Hw |]]].
  unfold ENEMY_WAIT_BETWEEN_FIRE in *. unfold selectFirer.
  destruct (Z.ltb_spec 0 (enemyBulletWait g)); [|lia].
  cbn [enemyBulletWait set_enemyBulletWait enemyRemaining].
  rewrite u8_small by lia.
  destruct (Z.eqb_spec (enemyBulletWait g - 1) 0); cbn -[u8].
  - destruct (Z.ltb_spec 0 (enemyRemaining g)); [|lia]. cbn -[u8].
    unfold ENEMY_WAIT_BETWEEN_FIRE. lia.
  - rewrite ?u8_small by lia. lia.
Qed.

Lemma rowBody_enemyBulletWait k x y st st' :
  1 <= enemyBulletWait (fst st) <= ENEMY_WAIT_BETWEEN_FIRE ->
  (if (enemyAlive (fst st) !!! k) mod 2 =? 1 then alienBody k x y st else Next st)
  >>= (fun st1 => Next (flashAlien k (fst st1), snd st1)) = Next st' ->
  1 <= enemyBulletWait (fst st') <= ENEMY_WAIT_BETWEEN_FIRE.
Proof.
  intros Hg H. destruct st as [g s]. simpl fst in *.
  assert (H1 : forall st1,
            (if (enemyAlive g !!! k) mod 2 =? 1 then alienBody k x y (g, s) else Next (g, s))
            = Next st1 -> 1 <= enemyBulletWait (fst st1) <= ENEMY_WAIT_BETWEEN_FIRE).
  { intros st1. destruct (_ =? 1).
    - unfold alienBody. destruct (SCREEN_HEIGHT <=? y + ALIEN_HEIGHT); [discriminate|].
      intros E. injection E as <-. simpl fst.
      pose proof (hitScan_frame k x y
                    (if touchesEdge x then bounce (if s =? 0 then enemyFire x y g else g)
                     else if s =? 0 then enemyFire x y g else g)) as HF.
      assert (E : enemyBulletWait
                    (hitScan k x y
                       (if touchesEdge x then bounce (if s =? 0 then enemyFire x y g else g)
                        else if s =? 0 then enemyFire x y g else g))
                  = enemyBulletWait (if s =? 0 then enemyFire x y g else g)).
      { tuple_eqs HF. destruct (touchesEdge x); [|congruence].
        transitivity (enemyBulletWait (bounce (if s =? 0 then enemyFire x y g else g)));
          [congruence | reflexivity]. }
      rewrite E. destruct (s =? 0); [|exact Hg].
      unfold enemyFire, ENEMY_WAIT_BETWEEN_FIRE. simpl. lia.
    - intros E. injection E as <-. exact Hg. }
  destruct (if (enemyAlive g !!! k) mod 2 =? 1 then alienBody k x y (g, s) else Next (g, s))
    as [st1 |]; [|discriminate].
  simpl in H. injection H as <-. simpl fst.
  pose proof (flashAlien_frame k (fst st1)) as HF.
  assert (E : enemyBulletWait (flashAlien k (fst st1)) = enemyBulletWait (fst st1))
    by (tuple_eqs HF; congruence).
  rewrite E. apply H1. reflexivity.
Qed.

Lemma enemyBulletStep_shipRange g i :
  1 <= shipAlive g <= ALIVE -> 1 <= shipAlive (enemyBulletStep g i) <= ALIVE.
Proof.
  intros H. destruct (Z.eq_dec (shipAlive g) ALIVE) as [E | E].
  - unfold enemyBulletStep, START_DYING, ALIVE in *.
    repeat match goal with |- context [if ?b then _ else _] => destruct b end;
      cbn -[u8]; lia.
  - rewrite enemyBulletStep_shipAlive by exact E. exact H.
Qed.

Lemma gameLoop_countersOk inp g : countersOk g -> countersOk (gameLoop inp g).
Proof.
  intros Hg. apply gameLoop_cases.
  - unfold countersOk, ALIVE, PLAYER_WAIT_BETWEEN_FIRE, ENEMY_WAIT_BETWEEN_FIRE.
    change (lives start) with 3. change (shipAlive start) with 7.
    change (bulletWait start) with 0. change (enemyBulletWait start) with 5. lia.
  - intros g' H. apply gameLoopBody_Next in H. destruct H as (g1 & st & Hd & Hr & Hs & ->).
    destruct (beforeDemise_counters inp g Hg) as (B1 & B2 & B3 & B4).
    assert (H1 : countersOk g1).
    { apply (shipDemise_counters _ _ Hd); try assumption.
      - rewrite B1. apply Hg.
      - rewrite B4. apply Hg. }
    apply Z.leb_gt in Hr.
    pose proof (selectFirer_counters inp g1 H1 Hr) as (S1 & S2 & S3 & S4).
    pose proof (alienSweep_sweepFrame _ _ Hs) as HF. unfold sweepFrame in HF.
    assert (W : 1 <= enemyBulletWait (fst st) <= ENEMY_WAIT_BETWEEN_FIRE).
    { apply (alienSweep_inv (fun g => 1 <= enemyBulletWait g <= ENEMY_WAIT_BETWEEN_FIRE)
                            (selectFirer inp g1) st); [| exact S4 | exact Hs].
      intros k x y s s' _. apply rowBody_enemyBulletWait. }
    pose proof (advancePlayerBullets_frame (moveFormation (fst st))) as HP.
    pose proof (advanceEnemyBullets_frame (advancePlayerBullets (moveFormation (fst st)))) as HE.
    assert (E : lives (advanceEnemyBullets (advancePlayerBullets (moveFormation (fst st))))
                = lives (fst (selectFirer inp g1)) /\
                bulletWait (advanceEnemyBullets (advancePlayerBullets (moveFormation (fst st))))
                = bulletWait (fst (selectFirer inp g1)) /\
                enemyBulletWait (advanceEnemyBullets (advancePlayerBullets (moveFormation (fst st))))
                = enemyBulletWait (fst st) /\
                shipAlive (advancePlayerBullets (moveFormation (fst st)))
                = shipAlive (fst (selectFirer inp g1))).
    { tuple_eqs HF. tuple_eqs HP. tuple_eqs HE.
      change (lives (moveFormation (fst st))) with (lives (fst st)) in *.
      change (bulletWait (moveFormation (fst st))) with (bulletWait (fst st)) in *.
      change (enemyBulletWait (moveFormation (fst st))) with (enemyBulletWait (fst st)) in *.
      change (shipAlive (moveFormation (fst st))) with (shipAlive (fst st)) in *.
      repeat split; congruence. }
    destruct E as (E1 & E2 & E3 & E4). unfold countersOk. rewrite E1, E2, E3.
    split; [exact S1 | split; [| split; [exact S3 | exact W]]].
    unfold advanceEnemyBullets.
    apply (foldl_inv (fun g => 1 <= shipAlive g <= ALIVE)); [apply enemyBulletStep_shipRange|].
    rewrite E4. exact S2.
Qed.

Lemma gameLoop_shipY inp g : shipY g = 50 -> shipY (gameLoop inp g) = 50.
Proof.
  intros Hg. apply gameLoop_cases; [reflexivity|].
  intros g' H. apply gameLoopBody_Next in H. destruct H as (g1 & st & Hd & Hr & Hs & ->).
  assert (B : shipY (beforeDemise inp g) = shipY g).
  { unfold beforeDemise, flashShip, tickBulletWait, moveShip.
    repeat match goal with |- context [if ?b then _ else _] => destruct b end; reflexivity. }
  assert (D : shipY g1 = shipY (beforeDemise inp g)).
  { revert Hd. unfold shipDemise.
    repeat match goal with |- context [if ?b then _ else _] => destruct b end;
      intros H; try discriminate; injection H as <-; reflexivity. }
  pose proof (selectFirer_frame inp g1) as HS.
  pose proof (alienSweep_sweepFrame _ _ Hs) as HF. unfold sweepFrame in HF.
  pose proof (advancePlayerBullets_frame (moveFormation (fst st))) as HP.
  pose proof (advanceEnemyBullets_frame (advancePlayerBullets (moveFormation (fst st)))) as HE.
  tuple_eqs HS. tuple_eqs HF. tuple_eqs HP. tuple_eqs HE.
  change (shipY (moveFormation (fst st))) with (shipY (fst st)) in *. congruence.
Qed.

Lemma run_countersOk inps : countersOk (run inps).
Proof.
  apply (run_ind countersOk); [| apply gameLoop_countersOk].
  unfold countersOk, ALIVE, PLAYER_WAIT_BETWEEN_FIRE, ENEMY_WAIT_BETWEEN_FIRE.
  change (lives start) with 3. change (shipAlive start) with 7.
  change (bulletWait start) with 0. change (enemyBulletWait start) with 5. lia.
Qed.

(** X10.  In every state reached from [gameReset]: [lives] is 1, 2 or 3,
    [shipAlive] is between 1 and [ALIVE], the player's cooldown is between
    0 and 10, the aliens' cooldown between 1 and 5, and the ship stays on
    the row y = 50.  No [uint8_t] counter of the ship wraps round. *)
Theorem counters_stay_in_range (inps : list Input) :
  1 <= lives (run inps) <= 3 /\
  1 <= shipAlive (run inps) <= ALIVE /\
  0 <= bulletWait (run inps) <= PLAYER_WAIT_BETWEEN_FIRE /\
  1 <= enemyBulletWait (run inps) <= ENEMY_WAIT_BETWEEN_FIRE /\
  shipY (run inps) = 50.
Proof.
  destruct (run_countersOk inps) as (H1 & H2 & H3 & H4).
  split; [exact H1 | split; [exact H2 | split; [exact H3 | split; [exact H4 |]]]].
  apply (run_ind (fun g => shipY g = 50)); [reflexivity | apply gameLoop_shipY].
Qed.

(** ** The vitalities between two ticks *)

Lemma flashAlien_alive_same k g :
  (k < length (enemyAlive g))%nat ->
  enemyAlive (flashAlien k g) !!! k
  = if (0 <? enemyAlive g !!! k) && (enemyAlive g !!! k <? ALIVE)
    then u8 (enemyAlive g !!! k - 1) else enemyAlive g !!! k.
Proof.
  intros Hk. unfold flashAlien.
  destruct ((0 <? enemyAlive g !!! k) && (enemyAlive g !!! k <? ALIVE)); [|reflexivity].
  cbn -[u8]. rewrite list_lookup_total_insert_eq by exact Hk.
  destruct (_ =? 0); cbn -[u8]; rewrite list_lookup_total_insert_eq by exact Hk; reflexivity.
Qed.

Lemma alienBody_alive_same k x y g s st1 :
  shapeOk g -> (k < ENEMY_COUNT)%nat -> alienBody k x y (g, s) = Next st1 ->
  enemyAlive (fst st1) !!! k = enemyAlive g !!! k \/ enemyAlive (fst st1) !!! k = START_DYING.
Proof.
  intros Hg Hk. unfold alienBody.
  destruct (SCREEN_HEIGHT <=? y + ALIEN_HEIGHT); [discriminate|].
  intros E. injection E as <-. simpl fst.
  destruct (shot_and_bounce_fields x y s g) as (_ & _ & _ & Ea & _). cbv zeta in Ea.
  assert (Hp : playerPoolSized
                 (if touchesEdge x then bounce (if s =? 0 then enemyFire x y g else g)
                  else if s =? 0 then enemyFire x y g else g)).
  { destruct Hg as (_ & Hp & _). destruct (touchesEdge x), (s =? 0); exact Hp. }
  unfold hitScan. change MAX_PLAYER_BULLETS with 20%nat.
  rewrite (hitScan_alien_prefix k x y _ 20 Hp) by lia. rewrite Ea.
  destruct (anyHit _ _ _ _); [right | left; reflexivity].
  apply list_lookup_total_insert_eq. destruct Hg as (Ha & _). rewrite Ha. exact Hk.
Qed.

Lemma flash_vitalityOk v :
  vitalityOk v \/ v = START_DYING ->
  vitalityOk (if (0 <? v) && (v <? ALIVE) then u8 (v - 1) else v).
Proof.
  unfold vitalityOk, START_DYING, ALIVE. intros H.
  destruct (Z.ltb_spec 0 v), (Z.ltb_spec v 7); cbn -[u8]; rewrite ?u8_small by lia; lia.
Qed.

Lemma rowBody_vitalityOk k x y st st' :
  (k < ENEMY_COUNT)%nat ->
  shapeOk (fst st) /\ (forall j, (j < ENEMY_COUNT)%nat -> vitalityOk (enemyAlive (fst st) !!! j)) ->
  (if (enemyAlive (fst st) !!! k) mod 2 =? 1 then alienBody k x y st else Next st)
  >>= (fun st1 => Next (flashAlien k (fst st1), snd st1)) = Next st' ->
  shapeOk (fst st') /\ (forall j, (j < ENEMY_COUNT)%nat -> vitalityOk (enemyAlive (fst st') !!! j)).
Proof.
  intros Hk [Hg Hv] H. split; [exact (rowBody_shapeOk k x y st st' Hg H)|].
  destruct st as [g s]. simpl fst in *.
  assert (H1 : forall st1,
            (if (enemyAlive g !!! k) mod 2 =? 1 then alienBody k x y (g, s) else Next (g, s))
            = Next st1 ->
            length (enemyAlive (fst st1)) = ENEMY_COUNT /\
            (forall j, j <> k -> enemyAlive (fst st1) !!! j = enemyAlive g !!! j) /\
            (enemyAlive (fst st1) !!! k = enemyAlive g !!! k \/
             enemyAlive (fst st1) !!! k = START_DYING)).
  { intros st1. destruct (_ =? 1).
    - intros E. split; [exact (proj1 (alienBody_shapeOk k x y g s st1 Hg E))|].
      split; [| exact (alienBody_alive_same k x y g s st1 Hg Hk E)].
      intros j Hj. revert E. unfold alienBody.
      destruct (SCREEN_HEIGHT <=? y + ALIEN_HEIGHT); [discriminate|].
      intros E. injection E as <-. simpl fst.
      rewrite hitScan_alive_other by exact Hj.
      destruct (shot_and_bounce_fields x y s g) as (_ & _ & _ & Ea & _). cbv zeta in Ea.
      rewrite Ea. reflexivity.
    - intros E. injection E as <-. simpl fst.
      split; [exact (proj1 Hg) | split; [reflexivity | left; reflexivity]]. }
  destruct (if (enemyAlive g !!! k) mod 2 =? 1 then alienBody k x y (g, s) else Next (g, s))
    as [st1 |]; [|discriminate].
  simpl in H. injection H as <-. simpl fst.
  destruct (H1 st1 eq_refl) as (Hl & Ho & Hs). intros j Hj.
  destruct (Nat.eq_dec j k) as [-> | Hne].
  - rewrite flashAlien_alive_same by (rewrite Hl; exact Hk).
    apply flash_vitalityOk. destruct Hs as [-> | ->]; [left; apply Hv, Hk | right; reflexivity].
  - rewrite flashAlien_alive_other by exact Hne. rewrite Ho by exact Hne. apply Hv, Hj.
Qed.

Lemma gameLoop_vitalityOk inp g :
  shapeOk g /\ (forall j, (j < ENEMY_COUNT)%nat -> vitalityOk (enemyAlive g !!! j)) ->
  shapeOk (gameLoop inp g) /\
  (forall j, (j < ENEMY_COUNT)%nat -> vitalityOk (enemyAlive (gameLoop inp g) !!! j)).
Proof.
  intros [Hg Hv]. split; [apply gameLoop_shapeOk, Hg|].
  apply gameLoop_cases.
  - intros j Hj. change (enemyAlive start) with (replicate ENEMY_COUNT ALIVE).
    rewrite lookup_total_replicate_2 by exact Hj. right. reflexivity.
  - intros g' H. apply gameLoopBody_Next in H. destruct H as (g1 & st & Hd & Hr & Hs & ->).
    destruct (beforeDemise_aliens inp g) as [B _].
    destruct (shipDemise_aliens _ _ Hd) as [D _].
    pose proof (selectFirer_frame inp g1) as HS.
    pose proof (advancePlayerBullets_frame (moveFormation (fst st))) as HP.
    pose proof (advanceEnemyBullets_frame (advancePlayerBullets (moveFormation (fst st)))) as HE.
    assert (E : enemyAlive (advanceEnemyBullets (advancePlayerBullets (moveFormation (fst st))))
                = enemyAlive (fst st) /\
                enemyAlive (fst (selectFirer inp g1)) = enemyAlive g).
    { tuple_eqs HS. tuple_eqs HP. tuple_eqs HE.
      change (enemyAlive (moveFormation (fst st))) with (enemyAlive (fst st)) in *.
      split; congruence. }
    destruct E as [E1 E2]. rewrite E1.
    apply (alienSweep_inv
             (fun g => shapeOk g /\
                       forall j, (j < ENEMY_COUNT)%nat -> vitalityOk (enemyAlive g !!! j))
             (selectFirer inp g1) st); [| | exact Hs].
    + intros k x y s s' Hk. apply rowBody_vitalityOk, Hk.
    + split; [| rewrite E2; exact Hv].
      assert (H1 : shapeOk g1) by (eapply shipDemise_shapeOk; [exact Hd|];
                                   apply beforeDemise_shapeOk, Hg).
      unfold selectFirer.
      repeat match goal with |- context [if ?b then _ else _] => destruct b end; exact H1.
Qed.

(** X11.  In every state reached from [gameReset] each alien's vitality is
    0 (dead), 1..5 (flashing) or 7 ([ALIVE]).  The value 6 ([START_DYING])
    written by a hit is never left at the end of a tick: the countdown of
    the same loop turn has already brought it to 5. *)
Theorem vitality_between_ticks (inps : list Input) (k : nat) :
  (k < ENEMY_COUNT)%nat ->
  0 <= enemyAlive (run inps) !!! k <= 5 \/ enemyAlive (run inps) !!! k = ALIVE.
Proof.
  intros Hk.
  assert (H : shapeOk (run inps) /\
              forall j, (j < ENEMY_COUNT)%nat -> vitalityOk (enemyAlive (run inps) !!! j)).
  { apply (run_ind (fun g => shapeOk g /\
                     forall j, (j < ENEMY_COUNT)%nat -> vitalityOk (enemyAlive g !!! j)));
      [| intros inp g; apply gameLoop_vitalityOk].
    split; [exact start_shapeOk|].
    intros j Hj. change (enemyAlive start) with (replicate ENEMY_COUNT ALIVE).
    rewrite lookup_total_replicate_2 by exact Hj. right. reflexivity. }
  exact (proj2 H k Hk).
Qed.

Lemma vitality_between_ticks_witness :
  0 <= enemyAlive (run dyingAlienTrace) !!! 6%nat <= 5 \/
  enemyAlive (run dyingAlienTrace) !!! 6%nat = ALIVE.
Proof.
  apply (vitality_between_ticks dyingAlienTrace 6).
  unfold ENEMY_COUNT, ROW1_ENEMY_COUNT, ROW2_ENEMY_COUNT. lia.
Defined.

(** ** The player's bullets between two ticks *)

Lemma playerSlotOk_weaken top top' b : top <= top' -> playerSlotOk top b -> playerSlotOk top' b.
Proof. unfold playerSlotOk. intros Ht [-> | H]; [left; reflexivity | right; lia]. Qed.

Lemma beforeDemise_slots inp g :
  shapeOk g -> shipOnTrack g -> shipY g = 50 ->
  (forall j, (j < 20)%nat -> playerSlotOk 49 (playerSlot g j)) ->
  forall j, (j < 20)%nat -> playerSlotOk 50 (playerSlot (beforeDemise inp g) j).
Proof.
  intros Hg Ht Hy Hb. unfold beforeDemise.
  assert (H1 : shapeOk (tickBulletWait (moveShip inp g)) /\
               shipOnTrack (tickBulletWait (moveShip inp g)) /\
               shipY (tickBulletWait (moveShip inp g)) = 50 /\
               forall j, (j < 20)%nat ->
                 playerSlotOk 49 (playerSlot (tickBulletWait (moveShip inp g)) j)).
  { apply moveShip_onTrack with (inp := inp) in Ht. revert Ht.
    unfold tickBulletWait, moveShip, shipOnTrack.
    repeat match goal with |- context [if ?b then _ else _] => destruct b end;
      intros Ht; (split; [exact Hg | split; [exact Ht | split; [exact Hy | exact Hb]]]). }
  revert H1. generalize (tickBulletWait (moveShip inp g)). clear g Hg Ht Hy Hb.
  intros g (Hg & Ht & Hy & Hb).
  assert (H2 : forall j, (j < 20)%nat ->
                 playerSlotOk 50 (playerSlot (if btnFire inp && (bulletWait g =? 0)
                                              then playerFire g else g) j)).
  { intros j Hj. destruct (btnFire inp && _).
    - destruct Hg as (_ & [Hx Hl] & _ & Hc & _). unfold MAX_PLAYER_BULLETS in *.
      unfold playerFire, playerSlot. cbn -[u8 Z.modulo Z.of_nat Z.div].
      destruct (Nat.eq_dec j (Z.to_nat (currBulletId g))) as [-> | Hne].
      + rewrite !list_lookup_total_insert_eq by lia. right.
        destruct Ht as [Hr _]. unfold SCREEN_WIDTH, SHIP_WIDTH in *.
        change (8 / 2) with 4. rewrite u8_small by lia. cbn [fst snd]. lia.
      + rewrite !list_lookup_total_insert_ne by congruence.
        apply (playerSlotOk_weaken 49); [lia | apply Hb, Hj].
    - apply (playerSlotOk_weaken 49); [lia | apply Hb, Hj]. }
  revert H2. generalize (if btnFire inp && (bulletWait g =? 0) then playerFire g else g).
  intros g3 H3. unfold flashShip. destruct (_ && _); exact H3.
Qed.

Lemma hitRule_slotOk top x y b : playerSlotOk top b -> playerSlotOk top (hitRule x y b).
Proof.
  unfold hitRule. intros H. destruct (inBox _ _ _ _ _ _); [left; reflexivity | exact H].
Qed.

Lemma playerAdvanceRule_slotOk b : playerSlotOk 50 b -> playerSlotOk 49 (playerAdvanceRule b).
Proof.
  unfold playerSlotOk, playerAdvanceRule, SHIP_BULL_SPEED, SCREEN_HEIGHT.
  intros [-> | [Hx Hy]]; [left; reflexivity|].
  destruct b as [bx by_]. cbn [fst snd] in *. rewrite u8_small by lia.
  destruct (Z.eqb_spec bx 0); [lia|]. destruct (Z.eqb_spec by_ 0); [lia|].
  cbn [negb andb]. destruct (Z.eqb_spec (by_ - 1) 0); cbn [orb]; [left; reflexivity|].
  destruct (Z.ltb_spec 64 (by_ - 1)); [lia|]. right. cbn [fst snd]. lia.
Qed.

Lemma rowBody_slots k x y st st' :
  shapeOk (fst st) /\ (forall j, (j < 20)%nat -> playerSlotOk 50 (playerSlot (fst st) j)) ->
  (if (enemyAlive (fst st) !!! k) mod 2 =? 1 then alienBody k x y st else Next st)
  >>= (fun st1 => Next (flashAlien k (fst st1), snd st1)) = Next st' ->
  shapeOk (fst st') /\ (forall j, (j < 20)%nat -> playerSlotOk 50 (playerSlot (fst st') j)).
Proof.
  intros [Hg Hb] H. split; [exact (rowBody_shapeOk k x y st st' Hg H)|].
  destruct st as [g s]. simpl fst in *.
  assert (H1 : forall st1,
            (if (enemyAlive g !!! k) mod 2 =? 1 then alienBody k x y (g, s) else Next (g, s))
            = Next st1 -> forall j, (j < 20)%nat -> playerSlotOk 50 (playerSlot (fst st1) j)).
  { intros st1. destruct (_ =? 1).
    - unfold alienBody. destruct (SCREEN_HEIGHT <=? y + ALIEN_HEIGHT); [discriminate|].
      intros E. injection E as <-. simpl fst. intros j Hj.
      rewrite hitScan_slot; [| | exact Hj].
      + apply hitRule_slotOk. destruct (touchesEdge x), (s =? 0); apply Hb, Hj.
      + destruct Hg as (_ & Hp & _). destruct (touchesEdge x), (s =? 0); exact Hp.
    - intros E. injection E as <-. exact Hb. }
  destruct (if (enemyAlive g !!! k) mod 2 =? 1 then alienBody k x y (g, s) else Next (g, s))
    as [st1 |]; [|discriminate].
  simpl in H. injection H as <-. simpl fst. intros j Hj.
  pose proof (flashAlien_frame k (fst st1)) as HF.
  assert (E : playerSlot (flashAlien k (fst st1)) j = playerSlot (fst st1) j)
    by (unfold playerSlot; tuple_eqs HF; congruence).
  rewrite E. apply (H1 st1 eq_refl), Hj.
Qed.

Lemma gameLoop_slots inp g :
  shapeOk g -> shipOnTrack g -> shipY g = 50 ->
  (forall j, (j < 20)%nat -> playerSlotOk 49 (playerSlot g j)) ->
  forall j, (j < 20)%nat -> playerSlotOk 49 (playerSlot (gameLoop inp g) j).
Proof.
  intros Hg Ht Hy Hb. apply gameLoop_cases.
  - intros j Hj. left. unfold playerSlot.
    change (bulletX start) with (replicate 20%nat 0).
    change (bulletY start) with (replicate 20%nat 0).
    rewrite !lookup_total_replicate_2 by exact Hj. reflexivity.
  - intros g' H. apply gameLoopBody_Next in H. destruct H as (g1 & st & Hd & Hr & Hs & ->).
    pose proof (beforeDemise_slots inp g Hg Ht Hy Hb) as B.
    assert (H1 : shapeOk g1) by (eapply shipDemise_shapeOk; [exact Hd|];
                                 apply beforeDemise_shapeOk, Hg).
    assert (D : bulletX g1 = bulletX (beforeDemise inp g) /\
                bulletY g1 = bulletY (beforeDemise inp g)).
    { revert Hd. unfold shipDemise.
      repeat match goal with |- context [if ?b then _ else _] => destruct b end;
        intros H; try discriminate; injection H as <-; split; reflexivity. }
    pose proof (selectFirer_frame inp g1) as HS.
    assert (S1 : shapeOk (fst (selectFirer inp g1))).
    { unfold selectFirer.
      repeat match goal with |- context [if ?b then _ else _] => destruct b end; exact H1. }
    assert (S2 : forall j, (j < 20)%nat ->
                   playerSlotOk 50 (playerSlot (fst (selectFirer inp g1)) j)).
    { intros j Hj. specialize (B j Hj). unfold playerSlot in *.
      tuple_eqs HS. destruct D as [D1 D2]. congruence. }
    destruct (alienSweep_inv
                (fun g => shapeOk g /\
                          forall j, (j < 20)%nat -> playerSlotOk 50 (playerSlot g j))
                (selectFirer inp g1) st) as [W1 W2]; [| split; assumption | exact Hs |].
    { intros k x y s s' _. apply rowBody_slots. }
    intros j Hj.
    pose proof (advanceEnemyBullets_frame (advancePlayerBullets (moveFormation (fst st)))) as HE.
    assert (E : playerSlot (advanceEnemyBullets (advancePlayerBullets (moveFormation (fst st)))) j
                = playerSlot (advancePlayerBullets (moveFormation (fst st))) j)
      by (unfold playerSlot; tuple_eqs HE; congruence).
    rewrite E, advancePlayerBullets_slot; [| apply W1 | exact Hj].
    apply playerAdvanceRule_slotOk. exact (W2 j Hj).
Qed.

(** X12.  In every state reached from [gameReset] each slot of the player's
    pool is free, (0,0), or holds a bullet with 4 <= x <= 124 and
    1 <= y <= 49: on the screen, above the ship's row, and never mistaken
    for a free slot. *)
Theorem player_bullets_on_screen (inps : list Input) (j : nat) :
  (j < MAX_PLAYER_BULLETS)%nat ->
  playerSlot (run inps) j = (0, 0) \/
  (4 <= bulletX (run inps) !!! j <= 124 /\ 1 <= bulletY (run inps) !!! j <= 49).
Proof.
  intros Hj.
  assert (H : (shapeOk (run inps) /\ shipOnTrack (run inps) /\ shipY (run inps) = 50) /\
              forall j, (j < 20)%nat -> playerSlotOk 49 (playerSlot (run inps) j)).
  { apply (run_ind (fun g => (shapeOk g /\ shipOnTrack g /\ shipY g = 50) /\
                     forall j, (j < 20)%nat -> playerSlotOk 49 (playerSlot g j))).
    - split; [split; [exact start_shapeOk | split; [| reflexivity]]|].
      + unfold shipOnTrack. change (shipX start) with 60.
        unfold SCREEN_WIDTH, SHIP_WIDTH. split; [lia | reflexivity].
      + intros i Hi. left. unfold playerSlot.
        change (bulletX start) with (replicate 20%nat 0).
        change (bulletY start) with (replicate 20%nat 0).
        rewrite !lookup_total_replicate_2 by exact Hi. reflexivity.
    - intros inp g [(Hg & Ht & Hy) Hb]. split; [split; [| split]|].
      + apply gameLoop_shapeOk, Hg.
      + apply gameLoop_onTrack, Ht.
      + apply gameLoop_shipY, Hy.
      + apply gameLoop_slots; assumption. }
  exact (proj2 H j Hj).
Qed.

Lemma player_bullets_on_screen_witness :
  playerSlot (run secondHitTrace) 1%nat = (0, 0) \/
  (4 <= bulletX (run secondHitTrace) !!! 1%nat <= 124 /\
   1 <= bulletY (run secondHitTrace) !!! 1%nat <= 49).
Proof.
  apply (player_bullets_on_screen secondHitTrace 1). unfold MAX_PLAYER_BULLETS. lia.
Defined.

(** ** The cooldowns and the lives in one tick *)

Lemma beforeDemise_fire inp g :
  0 <= bulletWait g <= PLAYER_WAIT_BETWEEN_FIRE -> 0 <= currBulletId g < 20 ->
  currBulletId (beforeDemise inp g)
  = (if btnFire inp && (bulletWait g <=? 1) then (currBulletId g + 1) mod 20
     else currBulletId g) /\
  bulletWait (beforeDemise inp g)
  = (if btnFire inp && (bulletWait g <=? 1) then PLAYER_WAIT_BETWEEN_FIRE
     else Z.max 0 (bulletWait g - 1)).
Proof.
  unfold PLAYER_WAIT_BETWEEN_FIRE, beforeDemise. intros Hw Hc.
  assert (H1 : bulletWait (moveShip inp g) = bulletWait g /\
               currBulletId (moveShip inp g) = currBulletId g).
  { unfold moveShip.
    repeat match goal with |- context [if ?b then _ else _] => destruct b end;
      split; reflexivity. }
  revert H1. generalize (moveShip inp g). intros g1 [E1 E2].
  assert (H2 : bulletWait (tickBulletWait g1) = Z.max 0 (bulletWait g - 1) /\
               currBulletId (tickBulletWait g1) = currBulletId g).
  { unfold tickBulletWait. destruct (Z.ltb_spec 0 (bulletWait g1)); cbn -[u8 Z.max].
    - rewrite u8_small by lia. split; [lia | exact E2].
    - split; [lia | exact E2]. }
  revert H2. generalize (tickBulletWait g1). clear g1 E1 E2. intros g2 [E1 E2].
  assert (H3 : let g3 := if btnFire inp && (bulletWait g2 =? 0) then playerFire g2 else g2 in
               currBulletId g3
               = (if btnFire inp && (bulletWait g <=? 1) then (currBulletId g + 1) mod 20
                  else currBulletId g) /\
               bulletWait g3
               = (if btnFire inp && (bulletWait g <=? 1) then 10
                  else Z.max 0 (bulletWait g - 1))).
  { cbv zeta. rewrite E1.
    assert (Eb : (Z.max 0 (bulletWait g - 1) =? 0) = (bulletWait g <=? 1)).
    { destruct (Z.eqb_spec (Z.max 0 (bulletWait g - 1)) 0), (Z.leb_spec (bulletWait g) 1);
        try reflexivity; lia. }
    rewrite Eb. destruct (btnFire inp && _).
    - unfold playerFire, MAX_PLAYER_BULLETS, PLAYER_WAIT_BETWEEN_FIRE.
      cbn -[u8 Z.modulo Z.max]. rewrite E2. change (Z.of_nat 20) with 20.
      rewrite cursor_step by exact Hc. split; reflexivity.
    - split; assumption. }
  revert H3. cbv zeta.
  generalize (if btnFire inp && (bulletWait g2 =? 0) then playerFire g2 else g2).
  intros g3 H3. unfold flashShip. destruct ((0 <? shipAlive g3) && _); exact H3.
Qed.

Lemma shipDemise_fields g g1 :
  shipDemise g = Next g1 ->
  currBulletId g1 = currBulletId g /\
  lives g1 = (if shipAlive g =? 0 then u8 (lives g - 1) else lives g) /\
  bulletWait g1 = (if shipAlive g =? 0 then 0 else bulletWait g) /\
  enemyBulletWait g1
  = (if shipAlive g =? 0 then ENEMY_WAIT_BETWEEN_FIRE else enemyBulletWait g).
Proof.
  unfold shipDemise. destruct (shipAlive g =? 0).
  - destruct (1 <? lives g); [|discriminate]. intros H. injection H as <-.
    repeat split; reflexivity.
  - intros H. injection H as <-. repeat split; reflexivity.
Qed.

Lemma demise_when_one inp g :
  1 <= shipAlive g <= ALIVE ->
  (shipAlive (beforeDemise inp g) =? 0) = (shipAlive g =? 1).
Proof.
  unfold ALIVE. intros H. rewrite beforeDemise_shipAlive. unfold ALIVE.
  destruct (Z.ltb_spec 0 (shipAlive g)), (Z.ltb_spec (shipAlive g) 7); cbn -[u8];
    rewrite ?u8_small by lia;
    destruct (Z.eqb_spec (shipAlive g - 1) 0), (Z.eqb_spec (shipAlive g) 1);
    try reflexivity; try lia.
  all: destruct (Z.eqb_spec (shipAlive g) 0); try reflexivity; lia.
Qed.

(** The fields the second half of a tick leaves as the first half set
    them. *)
Lemma after_demise_frame inp g1 st :
  alienSweep (selectFirer inp g1) = Next st ->
  let g' := advanceEnemyBullets (advancePlayerBullets (moveFormation (fst st))) in
  lives g' = lives g1 /\ currBulletId g' = currBulletId g1 /\ bulletWait g' = bulletWait g1 /\
  enemyBulletWait g' = enemyBulletWait (fst st) /\
  currEnemyBulletId g' = currEnemyBulletId (fst st).
Proof.
  intros Hs. cbv zeta.
  pose proof (selectFirer_frame inp g1) as HS.
  pose proof (alienSweep_sweepFrame _ _ Hs) as HF. unfold sweepFrame in HF.
  pose proof (advancePlayerBullets_frame (moveFormation (fst st))) as HP.
  pose proof (advanceEnemyBullets_frame (advancePlayerBullets (moveFormation (fst st)))) as HE.
  tuple_eqs HS. tuple_eqs HF. tuple_eqs HP. tuple_eqs HE.
  change (lives (moveFormation (fst st))) with (lives (fst st)) in *.
  change (currBulletId (moveFormation (fst st))) with (currBulletId (fst st)) in *.
  change (bulletWait (moveFormation (fst st))) with (bulletWait (fst st)) in *.
  change (enemyBulletWait (moveFormation (fst st))) with (enemyBulletWait (fst st)) in *.
  change (currEnemyBulletId (moveFormation (fst st))) with (currEnemyBulletId (fst st)) in *.
  repeat split; congruence.
Qed.

(** X13.  In a tick that does not end the game, started in a reachable
    state, the player's shot is taken exactly when the fire button is down
    and the cooldown is at most 1: the cursor then advances by one modulo
    20 and the cooldown is set to 10; otherwise the cursor stays and the
    cooldown counts down to 0.  A tick that costs a life clears the
    cooldown. *)
Theorem player_shot_needs_the_cooldown (inps : list Input) (inp : Input) (g' : Game) :
  gameLoopBody inp (run inps) = Next g' ->
  let g := run inps in
  let fired := btnFire inp && (bulletWait g <=? 1) in
  currBulletId g' = (if fired then (currBulletId g + 1) mod 20 else currBulletId g) /\
  bulletWait g'
  = (if shipAlive g =? 1 then 0
     else if fired then PLAYER_WAIT_BETWEEN_FIRE else Z.max 0 (bulletWait g - 1)).
Proof.
  intros H. cbv zeta.
  destruct (run_shapeOk inps) as (_ & _ & _ & Hc & _).
  destruct (run_countersOk inps) as (_ & Hs & Hw & _).
  revert H Hc Hs Hw. generalize (run inps). intros g H Hc Hs Hw.
  apply gameLoopBody_Next in H. destruct H as (g1 & st & Hd & Hr & Hsw & ->).
  destruct (beforeDemise_fire inp g Hw Hc) as [B1 B2].
  destruct (shipDemise_fields _ _ Hd) as (D1 & _ & D2 & _).
  rewrite (demise_when_one inp g Hs) in D2.
  destruct (after_demise_frame inp g1 st Hsw) as (_ & F1 & F2 & _).
  rewrite F1, F2, D1, D2, B1, B2. split; reflexivity.
Qed.

Lemma player_shot_needs_the_cooldown_witness :
  let g := run [] in
  let fired := btnFire (press false false true) && (bulletWait g <=? 1) in
  currBulletId (run [press false false true])
  = (if fired then (currBulletId g + 1) mod 20 else currBulletId g) /\
  bulletWait (run [press false false true])
  = (if shipAlive g =? 1 then 0
     else if fired then PLAYER_WAIT_BETWEEN_FIRE else Z.max 0 (bulletWait g - 1)).
Proof.
  apply (player_shot_needs_the_cooldown [] (press false false true)).
  vm_compute. reflexivity.
Defined.

(** ** When a tick ends the game *)

Lemma slotBody_over k g s :
  slotBody k (g, s) = Over <->
  isDrawn (enemyAlive g) k = true /\
  SCREEN_HEIGHT <= slotYAt (enemyY g) k + ALIEN_HEIGHT.
Proof.
  unfold slotBody, isDrawn. simpl fst.
  destruct ((enemyAlive g !!! k) mod 2 =? 1).
  - unfold alienBody.
    destruct (Z.leb_spec SCREEN_HEIGHT (slotYAt (enemyY g) k + ALIEN_HEIGHT)); simpl.
    + split; [intros _; split; [reflexivity | assumption] | reflexivity].
    + split; [discriminate | intros [_ H']; lia].
  - simpl. split; [discriminate | intros [H' _]; discriminate].
Qed.

Lemma forFlow_single {S : Type} (body : nat -> S -> flow S) (i : nat) (s : S) :
  forFlow body [i] s = body i s.
Proof. simpl. destruct (body i s); reflexivity. Qed.

Lemma sweep_over_iff n g s :
  forFlow slotBody (seq 0 n) (g, s) = Over <->
  exists k, (k < n)%nat /\ isDrawn (enemyAlive g) k = true /\
            SCREEN_HEIGHT <= slotYAt (enemyYBefore g k) k + ALIEN_HEIGHT.
Proof.
  induction n as [| n IH].
  - simpl. split; [discriminate | intros (k & Hk & _); lia].
  - rewrite seq_S, forFlow_app. change (0 + n)%nat with n.
    destruct (forFlow slotBody (seq 0 n) (g, s)) as [[gn sn] |] eqn:E.
    + change (Next (gn, sn) >>= forFlow slotBody [n]) with (forFlow slotBody [n] (gn, sn)).
      rewrite forFlow_single.
      destruct (sweep_prefix n g s gn sn E) as (_ & _ & _ & Ey & Ea & _).
      rewrite slotBody_over. unfold isDrawn at 1. rewrite Ea by lia. rewrite Ey.
      fold (isDrawn (enemyAlive g) n). split.
      * intros H. exists n. split; [lia | exact H].
      * intros (k & Hk & Hd & Hy). destruct (Nat.eq_dec k n) as [-> | Hne]; [split; assumption|].
        assert (C : @Next (Game * Z) (gn, sn) = Over)
          by (apply IH; exists k; split; [lia | split; assumption]).
        discriminate.
    + simpl. split; [| reflexivity]. intros _.
      destruct (proj1 IH eq_refl) as (k & Hk & H). exists k. split; [lia | exact H].
Qed.

Lemma enemyYBefore_ext g1 g2 k :
  enemyAlive g1 = enemyAlive g2 -> enemyX g1 = enemyX g2 -> enemyY g1 = enemyY g2 ->
  enemyYBefore g1 k = enemyYBefore g2 k.
Proof. unfold enemyYBefore. intros -> -> ->. reflexivity. Qed.

(** X14.  A tick ends the game, and [gameLoop] returns the reset game,
    exactly in three cases: the ship's flash countdown runs out on the last
    life; no alien is left; or a drawn alien's box reaches the bottom of
    the screen, its height taken after the bounces of the slots drawn
    before it. *)
Theorem game_over_exactly_when (inp : Input) (g : Game) :
  1 <= shipAlive g <= ALIVE ->
  (gameLoopBody inp g = Over <->
   (shipAlive g = 1 /\ lives g <= 1) \/
   enemyRemaining g <= 0 \/
   exists k, (k < ENEMY_COUNT)%nat /\ isDrawn (enemyAlive g) k = true /\
             SCREEN_HEIGHT <= slotYAt (enemyYBefore g k) k + ALIEN_HEIGHT) /\
  (gameLoopBody inp g = Over -> gameLoop inp g = gameReset g).
Proof.
  intros Hs. split; [| intros H; unfold gameLoop; rewrite H; reflexivity].
  change (gameLoopBody inp g)
    with (shipDemise (beforeDemise inp g) >>= fun g1 =>
          if enemyRemaining g1 <=? 0 then Over else
          alienSweep (selectFirer inp g1) >>= fun st =>
          Next (advanceEnemyBullets (advancePlayerBullets (moveFormation (fst st))))).
  pose proof (demise_when_one inp g Hs) as Hd.
  destruct (beforeDemise_aliens inp g) as [Ba Br].
  pose proof (beforeDemise_enemySide inp g) as Bs. unfold enemySide in Bs.
  destruct (shipDemise (beforeDemise inp g)) as [g1 |] eqn:D.
  - destruct (shipDemise_aliens _ _ D) as [Da Dr].
    pose proof (shipDemise_formation _ _ D) as Df.
    assert (Hnot : ~ (shipAlive g = 1 /\ lives g <= 1)).
    { intros [H1 H2]. revert D. unfold shipDemise. rewrite Hd.
      destruct (Z.eqb_spec (shipAlive g) 1); [|contradiction].
      assert (El : lives (beforeDemise inp g) = lives g).
      { unfold beforeDemise, flashShip, tickBulletWait, moveShip.
        repeat match goal with |- context [if ?b then _ else _] => destruct b end;
          reflexivity. }
      rewrite El. destruct (Z.ltb_spec 1 (lives g)); [lia | discriminate]. }
    simpl. rewrite Dr, Br.
    destruct (Z.leb_spec (enemyRemaining g) 0) as [Hr | Hr].
    + split; [intros _; right; left; exact Hr | reflexivity].
    + pose proof (selectFirer_frame inp g1) as HS.
      assert (E : enemyAlive (fst (selectFirer inp g1)) = enemyAlive g /\
                  enemyX (fst (selectFirer inp g1)) = enemyX g /\
                  enemyY (fst (selectFirer inp g1)) = enemyY g).
      { tuple_eqs HS. tuple_eqs Df. tuple_eqs Bs. repeat split; congruence. }
      destruct E as (Ea & Ex & Ey).
      destruct (selectFirer inp g1) as [gs s] eqn:ES. simpl fst in *.
      assert (W : alienSweep (gs, s) = Over <->
                  exists k, (k < ENEMY_COUNT)%nat /\ isDrawn (enemyAlive g) k = true /\
                    SCREEN_HEIGHT <= slotYAt (enemyYBefore g k) k + ALIEN_HEIGHT).
      { rewrite alienSweep_slots, sweep_over_iff. rewrite Ea.
        split; intros (k & Hk & Hdr & Hy); exists k; (split; [exact Hk | split; [exact Hdr|]]).
        - rewrite <- (enemyYBefore_ext gs g k Ea Ex Ey). exact Hy.
        - rewrite (enemyYBefore_ext gs g k Ea Ex Ey). exact Hy. }
      destruct (alienSweep (gs, s)) as [st |]; simpl.
      * split; [discriminate|]. intros [H | [H | H]]; [contradiction | lia |].
        apply W in H. discriminate.
      * split; [| reflexivity]. intros _. right. right. apply W. reflexivity.
  - simpl. split; [| reflexivity]. intros _. left.
    revert D. unfold shipDemise. rewrite Hd.
    assert (El : lives (beforeDemise inp g) = lives g).
    { unfold beforeDemise, flashShip, tickBulletWait, moveShip.
      repeat match goal with |- context [if ?b then _ else _] => destruct b end;
        reflexivity. }
    rewrite El. destruct (Z.eqb_spec (shipAlive g) 1); [| discriminate].
    destruct (Z.ltb_spec 1 (lives g)); [discriminate|]. intros _. split; [assumption | lia].
Qed.

Lemma game_over_exactly_when_witness :
  gameLoop idle (set_lives 1 (set_shipAlive 1 start))
  = gameReset (set_lives 1 (set_shipAlive 1 start)).
Proof.
  refine (proj2 (game_over_exactly_when idle (set_lives 1 (set_shipAlive 1 start)) _) _).
  - unfold ALIVE. simpl. lia.
  - vm_compute. reflexivity.
Defined.

Lemma enemyBulletStep_freshShip g i :
  ALIVE - 1 <= shipAlive g <= ALIVE -> ALIVE - 1 <= shipAlive (enemyBulletStep g i) <= ALIVE.
Proof.
  intros H. destruct (Z.eq_dec (shipAlive g) ALIVE) as [E | E].
  - unfold enemyBulletStep, START_DYING, ALIVE in *.
    repeat match goal with |- context [if ?b then _ else _] => destruct b end;
      cbn -[u8]; lia.
  - rewrite enemyBulletStep_shipAlive by exact E. exact H.
Qed.

(** X15.  In a tick that does not end the game, started in a reachable
    state, a life is lost exactly when the ship's flash countdown stands at
    1: [lives] then drops by one and the ship is [ALIVE] again (or already
    hit again, at [ALIVE - 1]); otherwise [lives] is unchanged. *)
Theorem life_lost_when_the_countdown_ends (inps : list Input) (inp : Input) (g' : Game) :
  gameLoopBody inp (run inps) = Next g' ->
  let g := run inps in
  lives g' = (if shipAlive g =? 1 then lives g - 1 else lives g) /\
  (shipAlive g = 1 -> ALIVE - 1 <= shipAlive g' <= ALIVE).
Proof.
  intros H. cbv zeta.
  pose proof (run_countersOk inps) as C.
  revert H C. generalize (run inps). intros g H C.
  pose proof C as (Hl & Hs & _).
  apply gameLoopBody_Next in H. destruct H as (g1 & st & Hd & Hr & Hsw & ->).
  destruct (shipDemise_fields _ _ Hd) as (_ & D1 & _).
  rewrite (demise_when_one inp g Hs) in D1.
  destruct (beforeDemise_counters inp g C) as (B1 & _).
  destruct (after_demise_frame inp g1 st Hsw) as (F1 & _).
  split.
  - rewrite F1, D1, B1. destruct (shipAlive g =? 1); [| reflexivity].
    apply u8_small. lia.
  - intros E1. unfold advanceEnemyBullets.
    apply (foldl_inv (fun g => ALIVE - 1 <= shipAlive g <= ALIVE));
      [apply enemyBulletStep_freshShip|].
    pose proof (selectFirer_frame inp g1) as HS.
    pose proof (alienSweep_sweepFrame _ _ Hsw) as HF. unfold sweepFrame in HF.
    pose proof (advancePlayerBullets_frame (moveFormation (fst st))) as HP.
    assert (E : shipAlive (advancePlayerBullets (moveFormation (fst st))) = shipAlive g1).
    { tuple_eqs HS. tuple_eqs HF. tuple_eqs HP.
      change (shipAlive (moveFormation (fst st))) with (shipAlive (fst st)) in *. congruence. }
    rewrite E. revert Hd. unfold shipDemise. rewrite (demise_when_one inp g Hs), E1.
    change (1 =? 1) with true. cbv iota.
    destruct (1 <? lives (beforeDemise inp g)); [| discriminate].
    intros Hd. injection Hd as <-. unfold lifeLost, ALIVE. simpl. lia.
Qed.

Lemma life_lost_when_the_countdown_ends_witness :
  let g := run (removelast twoBulletsTrace) in
  lives (run twoBulletsTrace) = (if shipAlive g =? 1 then lives g - 1 else lives g) /\
  (shipAlive g = 1 -> ALIVE - 1 <= shipAlive (run twoBulletsTrace) <= ALIVE).
Proof.
  apply (life_lost_when_the_countdown_ends (removelast twoBulletsTrace) idle).
  vm_compute. reflexivity.
Defined.

Lemma alienSweep_inv_st (P : Game * Z -> Prop) st st' :
  (forall k x y st st', (k < ENEMY_COUNT)%nat -> P st ->
     (if (enemyAlive (fst st) !!! k) mod 2 =? 1 then alienBody k x y st else Next st)
     >>= (fun st1 => Next (flashAlien k (fst st1), snd st1)) = Next st' ->
     P st') ->
  P st -> alienSweep st = Next st' -> P st'.
Proof.
  intros Hbody Hg. unfold alienSweep. intros H.
  destruct (forFlow row1Body (seq 0 ROW1_ENEMY_COUNT) st) as [st1 |] eqn:E1; [|discriminate].
  simpl in H.
  apply (forFlow_inv P row2Body (seq 0 ROW2_ENEMY_COUNT) st1 st'); [| | exact H].
  - intros i s s' Hi Hs Hb. apply in_seq in Hi.
    eapply Hbody; [| exact Hs | exact Hb].
    unfold ENEMY_COUNT, ROW1_ENEMY_COUNT, ROW2_ENEMY_COUNT in *. lia.
  - apply (forFlow_inv P row1Body (seq 0 ROW1_ENEMY_COUNT) st st1); [| exact Hg | exact E1].
    intros i s s' Hi Hs Hb. apply in_seq in Hi.
    eapply Hbody; [| exact Hs | exact Hb].
    unfold ENEMY_COUNT, ROW1_ENEMY_COUNT, ROW2_ENEMY_COUNT in *. lia.
Qed.

(** The loops write the aliens' cooldown only with the value it already
    has, and leave the cursor alone when no ordinal was drawn. *)
Lemma rowBody_cooldown (quiet : Prop) w c k x y st st' :
  (enemyBulletWait (fst st) = w /\ (0 <= snd st -> w = ENEMY_WAIT_BETWEEN_FIRE)) /\
  (quiet -> snd st < 0 /\ currEnemyBulletId (fst st) = c) ->
  (if (enemyAlive (fst st) !!! k) mod 2 =? 1 then alienBody k x y st else Next st)
  >>= (fun st1 => Next (flashAlien k (fst st1), snd st1)) = Next st' ->
  (enemyBulletWait (fst st') = w /\ (0 <= snd st' -> w = ENEMY_WAIT_BETWEEN_FIRE)) /\
  (quiet -> snd st' < 0 /\ currEnemyBulletId (fst st') = c).
Proof.
  intros Hg H. destruct st as [g s]. simpl fst in *. simpl snd in *.
  assert (H1 : forall st1,
            (if (enemyAlive g !!! k) mod 2 =? 1 then alienBody k x y (g, s) else Next (g, s))
            = Next st1 ->
            (enemyBulletWait (fst st1) = w /\ (0 <= snd st1 -> w = ENEMY_WAIT_BETWEEN_FIRE)) /\
            (quiet -> snd st1 < 0 /\ currEnemyBulletId (fst st1) = c)).
  { intros st1. destruct (_ =? 1).
    - unfold alienBody. destruct (SCREEN_HEIGHT <=? y + ALIEN_HEIGHT); [discriminate|].
      intros E. injection E as <-. simpl fst. simpl snd.
      pose proof (hitScan_frame k x y
                    (if touchesEdge x then bounce (if s =? 0 then enemyFire x y g else g)
                     else if s =? 0 then enemyFire x y g else g)) as HF.
      assert (E : enemyBulletWait
                    (hitScan k x y
                       (if touchesEdge x then bounce (if s =? 0 then enemyFire x y g else g)
                        else if s =? 0 then enemyFire x y g else g))
                  = enemyBulletWait (if s =? 0 then enemyFire x y g else g) /\
                  currEnemyBulletId
                    (hitScan k x y
                       (if touchesEdge x then bounce (if s =? 0 then enemyFire x y g else g)
                        else if s =? 0 then enemyFire x y g else g))
                  = currEnemyBulletId (if s =? 0 then enemyFire x y g else g)).
      { tuple_eqs HF. destruct (touchesEdge x); [| split; congruence].
        split.
        - transitivity (enemyBulletWait (bounce (if s =? 0 then enemyFire x y g else g)));
            [congruence | reflexivity].
        - transitivity (currEnemyBulletId (bounce (if s =? 0 then enemyFire x y g else g)));
            [congruence | reflexivity]. }
      destruct E as [-> ->]. destruct Hg as [[Hw H5] Hc].
      destruct (Z.eqb_spec s 0) as [-> | Hne].
      + split; [split|].
        * rewrite (H5 ltac:(lia)). reflexivity.
        * intros _. apply H5. lia.
        * intros Hq. destruct (Hc Hq) as [Hlt _]. lia.
      + split; [split; [exact Hw | intros; apply H5; lia]|].
        intros Hq. destruct (Hc Hq) as [Hlt Ec]. split; [lia | exact Ec].
    - intros E. injection E as <-. exact Hg. }
  destruct (if (enemyAlive g !!! k) mod 2 =? 1 then alienBody k x y (g, s) else Next (g, s))
    as [st1 |]; [|discriminate].
  simpl in H. injection H as <-. simpl fst. simpl snd.
  pose proof (flashAlien_frame k (fst st1)) as HF.
  assert (E : enemyBulletWait (flashAlien k (fst st1)) = enemyBulletWait (fst st1) /\
              currEnemyBulletId (flashAlien k (fst st1)) = currEnemyBulletId (fst st1))
    by (tuple_eqs HF; split; congruence).
  destruct E as [-> ->]. apply H1. reflexivity.
Qed.

Lemma selectFirer_cooldown inp g :
  1 <= enemyBulletWait g <= ENEMY_WAIT_BETWEEN_FIRE -> 0 < enemyRemaining g ->
  enemyBulletWait (fst (selectFirer inp g))
  = (if enemyBulletWait g =? 1 then ENEMY_WAIT_BETWEEN_FIRE else enemyBulletWait g - 1) /\
  (0 <= snd (selectFirer inp g) -> enemyBulletWait g = 1) /\
  (enemyBulletWait g <> 1 -> snd (selectFirer inp g) < 0).
Proof.
  unfold ENEMY_WAIT_BETWEEN_FIRE. intros Hw Hr. unfold selectFirer.
  destruct (Z.ltb_spec 0 (enemyBulletWait g)); [|lia].
  cbn [enemyBulletWait set_enemyBulletWait enemyRemaining].
  rewrite u8_small by lia.
  destruct (Z.eqb_spec (enemyBulletWait g - 1) 0), (Z.eqb_spec (enemyBulletWait g) 1);
    try lia.
  - destruct (Z.ltb_spec 0 (enemyRemaining g)); [|lia]. cbn -[u8 Z.rem].
    unfold ENEMY_WAIT_BETWEEN_FIRE. repeat split; try reflexivity; lia.
  - cbn -[u8 Z.rem]. rewrite ?u8_small by lia. repeat split; try reflexivity; lia.
Qed.

(** X16.  In a tick that does not end the game, started in a reachable
    state, the aliens' cooldown counts 5, 4, 3, 2, 1 and starts again at 5;
    the tick that loses a life restarts it, leaving 4.  The cursor of the
    enemy pool moves only in a tick that starts with the cooldown at 1 and
    loses no life: two enemy shots are at least five ticks apart. *)
Theorem enemy_shot_needs_the_cooldown (inps : list Input) (inp : Input) (g' : Game) :
  gameLoopBody inp (run inps) = Next g' ->
  let g := run inps in
  enemyBulletWait g'
  = (if shipAlive g =? 1 then ENEMY_WAIT_BETWEEN_FIRE - 1
     else if enemyBulletWait g =? 1 then ENEMY_WAIT_BETWEEN_FIRE
          else enemyBulletWait g - 1) /\
  (shipAlive g = 1 \/ enemyBulletWait g <> 1 ->
   currEnemyBulletId g' = currEnemyBulletId g).
Proof.
  intros H. cbv zeta.
  pose proof (run_countersOk inps) as C.
  revert H C. generalize (run inps). intros g H C.
  pose proof C as (Hl & Hs & _ & Hw).
  apply gameLoopBody_Next in H. destruct H as (g1 & st & Hd & Hr & Hsw & ->).
  apply Z.leb_gt in Hr.
  destruct (shipDemise_fields _ _ Hd) as (_ & _ & _ & D1).
  rewrite (demise_when_one inp g Hs) in D1.
  destruct (beforeDemise_counters inp g C) as (_ & _ & _ & B1).
  pose proof (shipDemise_formation _ _ Hd) as Df.
  pose proof (beforeDemise_enemySide inp g) as Bs. unfold enemySide in Bs.
  pose proof (selectFirer_frame inp g1) as HS.
  assert (Ec : currEnemyBulletId (fst (selectFirer inp g1)) = currEnemyBulletId g)
    by (tuple_eqs Df; tuple_eqs Bs; tuple_eqs HS; congruence).
  assert (W1 : 1 <= enemyBulletWait g1 <= ENEMY_WAIT_BETWEEN_FIRE).
  { rewrite D1, B1. destruct (shipAlive g =? 1); [unfold ENEMY_WAIT_BETWEEN_FIRE; lia | exact Hw]. }
  destruct (after_demise_frame inp g1 st Hsw) as (_ & _ & _ & F1 & F2).
  rewrite F1, F2.
  destruct (selectFirer_cooldown inp g1 W1 Hr) as (S1 & S2 & S3).
  destruct (alienSweep_inv_st
              (fun st => (enemyBulletWait (fst st) = enemyBulletWait (fst (selectFirer inp g1)) /\
                          (0 <= snd st ->
                           enemyBulletWait (fst (selectFirer inp g1)) = ENEMY_WAIT_BETWEEN_FIRE)) /\
                         (enemyBulletWait g1 <> 1 ->
                          snd st < 0 /\ currEnemyBulletId (fst st) = currEnemyBulletId g))
              (selectFirer inp g1) st) as [[I1 _] I2]; [| | exact Hsw |].
  - intros k x y s s' _. apply rowBody_cooldown.
  - split; [split; [reflexivity|] | intros Hq; split; [exact (S3 Hq) | exact Ec]].
    intros H0. rewrite S1, (S2 H0). reflexivity.
  - rewrite I1, S1, D1, B1. unfold ENEMY_WAIT_BETWEEN_FIRE in *.
    destruct (Z.eqb_spec (shipAlive g) 1) as [E1 | E1].
    + split; [reflexivity|]. intros _. apply I2. rewrite D1.
      destruct (Z.eqb_spec (shipAlive g) 1); lia.
    + split; [reflexivity|]. intros [H1 | H1]; [contradiction|].
      apply I2. rewrite D1, B1. destruct (Z.eqb_spec (shipAlive g) 1); [contradiction | exact H1].
Qed.

Lemma enemy_shot_needs_the_cooldown_witness :
  let g := run [idle; idle; idle; idle] in
  enemyBulletWait (run [idle; idle; idle; idle; idleRand 7])
  = (if shipAlive g =? 1 then ENEMY_WAIT_BETWEEN_FIRE - 1
     else if enemyBulletWait g =? 1 then ENEMY_WAIT_BETWEEN_FIRE
          else enemyBulletWait g - 1) /\
  (shipAlive g = 1 \/ enemyBulletWait g <> 1 ->
   currEnemyBulletId (run [idle; idle; idle; idle; idleRand 7]) = currEnemyBulletId g).
Proof.
  apply (enemy_shot_needs_the_cooldown [idle; idle; idle; idle] (idleRand 7)).
  vm_compute. reflexivity.
Defined.

(** ** The display's wires *)

Lemma u8_testbit (z n : Z) : 0 <= n -> Z.testbit (u8 z) n = (n <? 8) && Z.testbit z n.
Proof.
  intros Hn. unfold u8. change 256 with (2 ^ 8).
  destruct (Z.ltb_spec n 8).
  - rewrite Z.mod_pow2_bits_low by lia. reflexivity.
  - rewrite Z.mod_pow2_bits_high by lia. reflexivity.
Qed.

Lemma testbit_set (p k n : Z) :
  0 <= k -> 0 <= n ->
  Z.testbit (u8 (Z.lor p (Z.shiftl 1 k))) n = (n <? 8) && (Z.testbit p n || (k =? n)).
Proof.
  intros Hk Hn. rewrite u8_testbit, Z.lor_spec, Z.shiftl_1_l, Z.pow2_bits_eqb by lia.
  reflexivity.
Qed.

Lemma testbit_clr (p k n : Z) :
  0 <= k -> 0 <= n ->
  Z.testbit (u8 (Z.land p (Z.lnot (Z.shiftl 1 k)))) n
  = (n <? 8) && (Z.testbit p n && negb (k =? n)).
Proof.
  intros Hk Hn.
  rewrite u8_testbit, Z.land_spec, Z.lnot_spec, Z.shiftl_1_l, Z.pow2_bits_eqb by lia.
  reflexivity.
Qed.

Lemma land_3 (p : Z) :
  Z.land p 3 = Z.lor (if Z.testbit p 0 then 1 else 0) (if Z.testbit p 1 then 2 else 0).
Proof.
  change 3 with (Z.lor (2 ^ 0) (2 ^ 1)).
  rewrite Z.land_lor_distr_r, !land_pow2 by lia. reflexivity.
Qed.

Lemma land_252_ext (p q : Z) :
  (forall n, 2 <= n < 8 -> Z.testbit p n = Z.testbit q n) -> Z.land p 252 = Z.land q 252.
Proof.
  intros H. apply Z.bits_inj'. intros n Hn. rewrite !Z.land_spec.
  destruct (Z.lt_ge_cases n 2) as [H2 | H2].
  - assert (E : n = 0 \/ n = 1) by lia. destruct E as [-> | ->]; simpl; rewrite !andb_false_r;
      reflexivity.
  - destruct (Z.lt_ge_cases n 8) as [H8 | H8].
    + rewrite (H n) by lia. reflexivity.
    + rewrite (byte_high_bits 252 n) by lia. rewrite !andb_false_r. reflexivity.
Qed.

Lemma testbit_set_raw (p k n : Z) :
  0 <= k -> 0 <= n -> Z.testbit (Z.lor p (Z.shiftl 1 k)) n = Z.testbit p n || (k =? n).
Proof.
  intros Hk Hn. rewrite Z.lor_spec, Z.shiftl_1_l, Z.pow2_bits_eqb by lia. reflexivity.
Qed.

Lemma testbit_clr_raw (p k n : Z) :
  0 <= k -> 0 <= n ->
  Z.testbit (Z.land p (Z.lnot (Z.shiftl 1 k))) n = Z.testbit p n && negb (k =? n).
Proof.
  intros Hk Hn. rewrite Z.land_spec, Z.lnot_spec, Z.shiftl_1_l, Z.pow2_bits_eqb by lia.
  reflexivity.
Qed.

Ltac bit_at :=
  repeat first [rewrite u8_testbit by lia | rewrite testbit_set_raw by lia
               | rewrite testbit_clr_raw by lia].

Ltac high_pin :=
  bit_at;
  repeat match goal with
         | |- context [?a <? ?b] => destruct (Z.ltb_spec a b); [| lia]
         | |- context [?a =? ?b] => destruct (Z.eqb_spec a b); [lia |]
         end;
  cbn [andb orb negb]; rewrite ?orb_false_r, ?andb_true_r; reflexivity.

Lemma otherPins_eq m m' :
  DDRB m' = DDRB m -> DDRC m' = DDRC m -> DDRD m' = DDRD m ->
  (forall n, 2 <= n < 8 -> Z.testbit (PORTB m') n = Z.testbit (PORTB m) n) ->
  (forall n, 2 <= n < 8 -> Z.testbit (PORTC m') n = Z.testbit (PORTC m) n) ->
  otherPins m' = otherPins m.
Proof.
  intros E1 E2 E3 HB HC. unfold otherPins.
  rewrite E1, E2, E3, (land_252_ext _ _ HB), (land_252_ext _ _ HC). reflexivity.
Qed.

Ltac other_pins :=
  apply otherPins_eq; cbn [strobes PORTB PORTC PORTD DDRB DDRC DDRD];
  try reflexivity; let n := fresh "n" in let Hn := fresh "Hn" in intros n Hn; high_pin.

Lemma lines_inv m cs rs e :
  lines m = (cs, rs, e) ->
  Z.land (PORTC m) 3 = cs /\ Z.testbit (PORTB m) 0 = rs /\ Z.testbit (PORTB m) 1 = e.
Proof.
  unfold lines. intros H. apply pair_eq_inv in H. destruct H as [H He].
  apply pair_eq_inv in H. destruct H as [Hc Hr]. repeat split; assumption.
Qed.

Lemma wired_trans m m1 m2 l1 l2 cs1 rs1 e1 cs rs e :
  wired m m1 l1 cs1 rs1 e1 -> wired m1 m2 l2 cs rs e -> wired m m2 (l1 ++ l2) cs rs e.
Proof.
  intros (S1 & _ & O1) (S2 & L2 & O2). split; [| split; [exact L2 | congruence]].
  rewrite S2, S1, app_assoc. reflexivity.
Qed.

Lemma wired_refl m cs rs e : lines m = (cs, rs, e) -> wired m m [] cs rs e.
Proof. intros H. split; [rewrite app_nil_r; reflexivity | split; [exact H | reflexivity]]. Qed.

Lemma select_wired m cs rs e :
  lines m = (cs, rs, e) ->
  wired m (ICOFF m) [] 3 rs e /\ wired m (IC1 m) [] 1 rs e /\ wired m (IC2 m) [] 2 rs e.
Proof.
  intros H. apply lines_inv in H. destruct H as (_ & Hr & He).
  unfold wired, lines, ICOFF, IC1, IC2, set_PORTC.
  cbn [strobes PORTB PORTC DDRB DDRC DDRD]. rewrite !app_nil_r, Hr, He, !land_3.
  bit_at. cbn -[Z.testbit Z.land u8 Z.lor Z.lnot Z.shiftl].
  repeat split; try other_pins;
    destruct (Z.testbit (PORTC m) 0), (Z.testbit (PORTC m) 1); reflexivity.
Qed.

Lemma register_wired m cs rs e :
  lines m = (cs, rs, e) ->
  wired m (LCD_REGISTER_CMD m) [] cs false e /\ wired m (LCD_PIXEL_CMD m) [] cs true e.
Proof.
  intros H. apply lines_inv in H. destruct H as (Hc & Hr & He).
  unfold wired, lines, LCD_REGISTER_CMD, LCD_PIXEL_CMD, set_PORTB.
  cbn [strobes PORTB PORTC DDRB DDRC DDRD]. rewrite Hc.
  bit_at. cbn -[Z.testbit Z.land u8 Z.lor Z.lnot Z.shiftl].
  rewrite ?andb_true_r, ?orb_false_r, ?andb_false_r, ?orb_true_r, He, ?andb_negb_r, ?app_nil_r.
  repeat split; other_pins.
Qed.

Lemma enable_wired m cs rs e :
  lines m = (cs, rs, e) ->
  wired m (ENABLE_HIGH m) [] cs rs true /\
  wired m (ENABLE_LOW m) (if e then [(cs, rs, PORTD m)] else []) cs rs false.
Proof.
  intros H. apply lines_inv in H. destruct H as (Hc & Hr & He).
  unfold wired, lines, ENABLE_HIGH, ENABLE_LOW, set_PORTB.
  cbn [strobes PORTB PORTC DDRB DDRC DDRD]. rewrite Hc.
  bit_at. cbn -[Z.testbit Z.land u8 Z.lor Z.lnot Z.shiftl].
  rewrite ?andb_true_r, ?orb_false_r, ?andb_false_r, ?orb_true_r, Hr, He, ?app_nil_r.
  destruct e; cbn [andb negb]; rewrite ?app_nil_r; repeat split; other_pins.
Qed.

(** One byte on the bus and one pulse of the enable line. *)
Lemma strobe_wired d m cs rs e :
  lines m = (cs, rs, e) ->
  wired m (lcdEnable (lcdWrite d m)) [(cs, rs, u8 d)] cs rs false /\
  wired m (lcdEnableSlow (lcdWrite d m)) [(cs, rs, u8 d)] cs rs false.
Proof.
  intros H.
  assert (W : wired m (lcdWrite d m) [] cs rs e).
  { split; [cbn; rewrite app_nil_r; reflexivity | split; [exact H | reflexivity]]. }
  assert (G : wired m (ENABLE_LOW (ENABLE_HIGH (lcdWrite d m))) [(cs, rs, u8 d)] cs rs false).
  { destruct (enable_wired (lcdWrite d m) cs rs e H) as [W1 _].
    destruct (enable_wired (ENABLE_HIGH (lcdWrite d m)) cs rs true (proj1 (proj2 W1)))
      as [_ W2].
    exact (wired_trans _ _ _ _ _ _ _ _ _ _ _ W (wired_trans _ _ _ _ _ _ _ _ _ _ _ W1 W2)). }
  split; exact G.
Qed.

Lemma blit_wired (f : nat -> Z) (n : nat) m cs rs :
  lines m = (cs, rs, false) ->
  wired m (foldl (fun m i => lcdEnable (lcdWrite (f i) m)) m (seq 0 n))
        (map (fun i => (cs, rs, u8 (f i))) (seq 0 n)) cs rs false.
Proof.
  intros H. induction n as [| n IH].
  - apply wired_refl, H.
  - rewrite seq_S, foldl_app, map_app. change (0 + n)%nat with n. cbn [foldl map].
    apply (wired_trans _ _ _ _ _ _ _ _ _ _ _ IH).
    apply strobe_wired with (e := false). exact (proj1 (proj2 IH)).
Qed.

Lemma LCD_GOTO_ROW_value (j : nat) : (j < 8)%nat -> u8 (LCD_GOTO_ROW (Z.of_nat j)) = 184 + Z.of_nat j.
Proof.
  intros H.
  assert (E : (j = 0 \/ j = 1 \/ j = 2 \/ j = 3 \/ j = 4 \/ j = 5 \/ j = 6 \/ j = 7)%nat)
    by lia.
  destruct E as [-> | [-> | [-> | [-> | [-> | [-> | [-> | ->]]]]]]]; reflexivity.
Qed.

Lemma repaintPage_wired fb off m j cs rs e :
  (j < 8)%nat -> lines m = (cs, rs, e) ->
  wired m (repaintPage fb off m j) (pageStrobes fb cs off j) cs true false.
Proof.
  intros Hj H. unfold repaintPage, pageStrobes.
  destruct (register_wired m cs rs e H) as [W1 _].
  destruct (strobe_wired (LCD_GOTO_ROW (Z.of_nat j)) _ cs false e (proj1 (proj2 W1))) as [W2 _].
  rewrite LCD_GOTO_ROW_value in W2 by exact Hj.
  destruct (strobe_wired LCD_GOTO_ORG _ cs false false (proj1 (proj2 W2))) as [W3 _].
  destruct (register_wired _ cs false false (proj1 (proj2 W3))) as [_ W4].
  pose proof (blit_wired (fun i => fb !!! (128 * j + off + i)%nat) 64 _ cs true
                (proj1 (proj2 W4))) as W5.
  pose proof (wired_trans _ _ _ _ _ _ _ _ _ _ _ W1
               (wired_trans _ _ _ _ _ _ _ _ _ _ _ W2
                 (wired_trans _ _ _ _ _ _ _ _ _ _ _ W3
                   (wired_trans _ _ _ _ _ _ _ _ _ _ _ W4 W5)))) as W.
  exact W.
Qed.

Lemma pages_wired fb off (n : nat) m cs rs e :
  (n < 8)%nat -> lines m = (cs, rs, e) ->
  wired m (foldl (repaintPage fb off) m (seq 0 (S n)))
        (flat_map (pageStrobes fb cs off) (seq 0 (S n))) cs true false.
Proof.
  intros Hn H. induction n as [| n IH].
  - cbn [seq foldl flat_map]. rewrite app_nil_r. apply (repaintPage_wired _ _ _ _ _ rs e); [lia | exact H].
  - rewrite (seq_S (S n)), foldl_app, flat_map_app. change (0 + S n)%nat with (S n).
    cbn [foldl flat_map]. rewrite app_nil_r.
    specialize (IH ltac:(lia)).
    apply (wired_trans _ _ _ _ _ _ _ _ _ _ _ IH).
    apply (repaintPage_wired _ _ _ _ _ true false); [lia | exact (proj1 (proj2 IH))].
Qed.

Lemma lcdRepaint_wired (fb : list Z) (m : Mcu) :
  wired m (lcdRepaint fb m) (frameStrobes fb) 2 true false.
Proof.
  assert (L : lines m = (Z.land (PORTC m) 3, Z.testbit (PORTB m) 0, Z.testbit (PORTB m) 1))
    by reflexivity.
  destruct (select_wired m _ _ _ L) as (_ & W1 & _).
  pose proof (pages_wired fb 0 7 _ 1 _ _ ltac:(lia) (proj1 (proj2 W1))) as W2.
  destruct (select_wired _ _ _ _ (proj1 (proj2 W2))) as (_ & _ & W3).
  pose proof (pages_wired fb 64 7 _ 2 _ _ ltac:(lia) (proj1 (proj2 W3))) as W4.
  exact (wired_trans _ _ _ _ _ _ _ _ _ _ _ W1
           (wired_trans _ _ _ _ _ _ _ _ _ _ _ W2
             (wired_trans _ _ _ _ _ _ _ _ _ _ _ W3 W4))).
Qed.

(** X17.  [lcdRepaint] strobes 1056 bytes into the display: for the first
    controller and then for the second, for each of the pages 0..7, the
    page command 0xB8 + page and the column command 0x40 with the register
    line low, then with the line high the 64 bytes of the frame buffer
    from index 128 * page (+ 64 for the second controller) on.  It leaves
    the second controller selected and the enable line low, and touches
    no direction register and none of the pins 2..7 of the ports B and
    C. *)
Theorem lcdRepaint_sends_the_frame (fb : list Z) (m : Mcu) :
  strobes (lcdRepaint fb m) = strobes m ++ frameStrobes fb /\
  length (frameStrobes fb) = 1056%nat /\
  lines (lcdRepaint fb m) = (2, true, false) /\
  otherPins (lcdRepaint fb m) = otherPins m.
Proof.
  destruct (lcdRepaint_wired fb m) as (S & Ln & O).
  split; [exact S | split; [| split; [exact Ln | exact O]]].
  unfold frameStrobes. rewrite length_app.
  assert (P : forall cs off l, length (flat_map (pageStrobes fb cs off) l) = (66 * length l)%nat).
  { intros cs off l. induction l as [| j l IH]; [reflexivity|].
    cbn [flat_map]. rewrite length_app, IH. unfold pageStrobes.
    rewrite length_app, length_map, length_seq. cbn [length]. lia. }
  rewrite !P, !length_seq. reflexivity.
Qed.

Lemma initLcdScreen_wired (m : Mcu) (fb : list Z) :
  wired (SETUP_LCD_PINS m) (fst (initLcdScreen (m, fb)))
        ((if Z.testbit (PORTB m) 1 then [(Z.land (PORTC m) 3, true, PORTD m)] else [])
         ++ [(1, false, 63); (2, false, 63)]) 3 false true.
Proof.
  unfold initLcdScreen. cbn [fst snd].
  set (m0 := SETUP_LCD_PINS m).
  assert (L0 : lines m0 = (Z.land (PORTC m) 3, Z.testbit (PORTB m) 0, Z.testbit (PORTB m) 1))
    by reflexivity.
  destruct (register_wired m0 _ _ _ L0) as [_ W1].
  destruct (enable_wired _ _ _ _ (proj1 (proj2 W1))) as [_ W2].
  destruct (select_wired _ _ _ _ (proj1 (proj2 W2))) as (W3 & _ & _).
  destruct (register_wired _ _ _ _ (proj1 (proj2 W3))) as [W4 _].
  destruct (select_wired _ _ _ _ (proj1 (proj2 W4))) as (_ & W5 & _).
  destruct (strobe_wired (LCD_TURN_ONOFF_CMD ON) _ _ _ _ (proj1 (proj2 W5))) as [_ W6].
  destruct (select_wired _ _ _ _ (proj1 (proj2 W6))) as (_ & _ & W7).
  destruct (strobe_wired (LCD_TURN_ONOFF_CMD ON) _ _ _ _ (proj1 (proj2 W7))) as [_ W8].
  destruct (select_wired _ _ _ _ (proj1 (proj2 W8))) as (W9 & _ & _).
  destruct (enable_wired _ _ _ _ (proj1 (proj2 W9))) as [W10 _].
  pose proof (wired_trans _ _ _ _ _ _ _ _ _ _ _ W1
               (wired_trans _ _ _ _ _ _ _ _ _ _ _ W2
                 (wired_trans _ _ _ _ _ _ _ _ _ _ _ W3
                   (wired_trans _ _ _ _ _ _ _ _ _ _ _ W4
                     (wired_trans _ _ _ _ _ _ _ _ _ _ _ W5
                       (wired_trans _ _ _ _ _ _ _ _ _ _ _ W6
                         (wired_trans _ _ _ _ _ _ _ _ _ _ _ W7
                           (wired_trans _ _ _ _ _ _ _ _ _ _ _ W8
                             (wired_trans _ _ _ _ _ _ _ _ _ _ _ W9 W10)))))))))
    as (S & Ln & O).
  split; [| split; [exact Ln | exact O]].
  rewrite S. change (PORTD (LCD_PIXEL_CMD m0)) with (PORTD m).
  cbn [app]. destruct (Z.testbit (PORTB m) 1); reflexivity.
Qed.

Lemma SETUP_LCD_PINS_fields (m : Mcu) :
  strobes (SETUP_LCD_PINS m) = strobes m /\
  otherPins (SETUP_LCD_PINS m)
  = (u8 (Z.lor (DDRB m) 3), u8 (Z.lor (DDRC m) 3), 255,
     Z.land (PORTB m) 252, Z.land (PORTC m) 252).
Proof. split; reflexivity. Qed.

(** X18.  [initLcdScreen] makes port D and the pins 0 and 1 of the ports B
    and C outputs, sends the display-on command 0x3F to the first and to
    the second controller with the register line low, and leaves both
    controllers deselected, the enable line high and the frame buffer
    cleared.  If the enable line was high on entry, its first lowering is
    one more strobe, with the register line high and whatever the data bus
    held.  The pins 2..7 of the ports B and C keep their values. *)
Theorem initLcdScreen_turns_both_on (m : Mcu) (fb : list Z) :
  let m' := fst (initLcdScreen (m, fb)) in
  strobes m'
  = strobes m
    ++ (if Z.testbit (PORTB m) 1 then [(Z.land (PORTC m) 3, true, PORTD m)] else [])
    ++ [(1, false, 63); (2, false, 63)] /\
  lines m' = (3, false, true) /\
  DDRD m' = 255 /\ DDRB m' = u8 (Z.lor (DDRB m) 3) /\ DDRC m' = u8 (Z.lor (DDRC m) 3) /\
  Z.land (PORTB m') 252 = Z.land (PORTB m) 252 /\
  Z.land (PORTC m') 252 = Z.land (PORTC m) 252 /\
  snd (initLcdScreen (m, fb)) = lcdClear fb.
Proof.
  cbv zeta. destruct (initLcdScreen_wired m fb) as (S & Ln & O).
  destruct (SETUP_LCD_PINS_fields m) as [S0 O0]. rewrite S0 in S. rewrite O0 in O.
  split; [exact S | split; [exact Ln |]].
  unfold otherPins in O. tuple_eqs O. repeat split; assumption.
Qed.


(** ** What a frame shows *)

Lemma shows_refl fb : frameOk fb -> shows fb fb (fun _ _ => False).
Proof. intros H. split; [exact H|]. intros px py _ _. tauto. Qed.

Lemma shows_trans fb1 fb2 fb3 (S1 S2 : Z -> Z -> Prop) :
  shows fb1 fb2 S1 -> shows fb2 fb3 S2 ->
  shows fb1 fb3 (fun px py => S1 px py \/ S2 px py).
Proof.
  intros [_ H1] [Hok H2]. split; [exact Hok|].
  intros px py Hx Hy. rewrite (H2 px py Hx Hy), (H1 px py Hx Hy). tauto.
Qed.

Lemma shows_iff fb fb' (S S' : Z -> Z -> Prop) :
  (forall px py, S px py <-> S' px py) -> shows fb fb' S -> shows fb fb' S'.
Proof.
  intros E [Hok H]. split; [exact Hok|].
  intros px py Hx Hy. rewrite (H px py Hx Hy), (E px py). tauto.
Qed.

Lemma draw8by8_shows bitmap x y fb :
  frameOk fb -> shows fb (draw8by8 bitmap x y fb) (spritePlots bitmap x y).
Proof.
  intros Hfb. destruct (draw8by8_pixels bitmap x y fb Hfb) as [Hok Hpx].
  split; [exact Hok|]. intros px py Hx Hy.
  rewrite Hpx by assumption. rewrite orb_true_iff, plotsAt_spritePlots. reflexivity.
Qed.

Lemma drawBullet_shows x y fb :
  frameOk fb ->
  shows fb (drawBullet x y fb) (fun px py => px = u8 x /\ (py = u8 y \/ py = u8 (y + 1))).
Proof.
  intros Hfb. unfold drawBullet. split; [apply lcdDrawPixel_frameOk, lcdDrawPixel_frameOk, Hfb|].
  intros px py Hx Hy.
  rewrite lcdDrawPixel_lit;
    [| apply lcdDrawPixel_frameOk, Hfb | apply u8_range | apply u8_range | exact Hx | exact Hy].
  rewrite lcdDrawPixel_lit; [| exact Hfb | apply u8_range | apply u8_range | exact Hx | exact Hy].
  rewrite !orb_true_iff, !andb_true_iff, !Z.eqb_eq. intuition congruence.
Qed.

Lemma shipFrame_shows g fb : frameOk fb -> shows fb (shipFrame g fb) (shipLit g).
Proof.
  intros Hfb. unfold shipFrame, shipLit.
  destruct (Z.eqb_spec (shipAlive g mod 2) 1) as [E | E].
  - apply (shows_iff _ _ (spritePlots ship8 (shipX g) (shipY g)));
      [intros; tauto | apply draw8by8_shows, Hfb].
  - apply (shows_iff _ _ (fun _ _ => False)); [intros; tauto | apply shows_refl, Hfb].
Qed.

Lemma alienSweepD_slots st : alienSweepD st = forFlow slotBodyD (seq 0 ENEMY_COUNT) st.
Proof.
  unfold alienSweepD.
  change (seq 0 ENEMY_COUNT) with (seq 0 ROW1_ENEMY_COUNT ++ [5; 6; 7; 8]%nat).
  rewrite forFlow_app. reflexivity.
Qed.

(** The drawing changes nothing of the game. *)
Lemma sweepD_game (l : list nat) st :
  forFlow slotBody l (fst st)
  = match forFlow slotBodyD l st with Next st' => Next (fst st') | Over => Over end.
Proof.
  revert st. induction l as [| k l IH]; intros st; [reflexivity|].
  cbn [forFlow]. unfold slotBodyD at 1. cbv zeta.
  destruct (slotBody k (fst st)) as [gs |]; [| reflexivity].
  cbn [flow_bind]. rewrite <- IH. reflexivity.
Qed.

Lemma sweepD_prefix (n : nat) g s fb gn sn fbn :
  frameOk fb ->
  forFlow slotBodyD (seq 0 n) (g, s, fb) = Next (gn, sn, fbn) ->
  shows fb fbn (fun px py => exists k, (k < n)%nat /\ alienLit g k px py).
Proof.
  intros Hfb. revert gn sn fbn. induction n as [| n IH]; intros gn sn fbn H.
  - cbn in H. injection H as <- <- <-.
    apply (shows_iff _ _ (fun _ _ => False)); [| apply shows_refl, Hfb].
    intros px py. split; [tauto | intros (k & Hk & _); lia].
  - rewrite seq_S, forFlow_app in H. change (0 + n)%nat with n in H.
    pose proof (sweepD_game (seq 0 n) (g, s, fb)) as G. cbn [fst] in G.
    destruct (forFlow slotBodyD (seq 0 n) (g, s, fb)) as [[[gm sm] fbm] |] eqn:E;
      [| discriminate].
    cbn [fst] in G. specialize (IH gm sm fbm eq_refl).
    destruct (sweep_prefix n g s gm sm G) as (_ & Ex & _ & Ey & Ea & _).
    change (Next (gm, sm, fbm) >>= forFlow slotBodyD [n])
      with (forFlow slotBodyD [n] (gm, sm, fbm)) in H.
    rewrite forFlow_single in H. unfold slotBodyD in H. cbn [fst snd] in H.
    destruct (slotBody n (gm, sm)) as [[g' s'] |]; [| discriminate].
    cbn [flow_bind] in H. injection H as <- <- <-.
    rewrite Ea, Ex, Ey by lia. fold (isDrawn (enemyAlive g) n).
    assert (W : shows fbm
                  (if isDrawn (enemyAlive g) n
                   then draw8by8 alien8 (u8 (slotXAt (enemyX g) n))
                          (u8 (slotYAt (enemyYBefore g n) n)) fbm
                   else fbm)
                  (alienLit g n)).
    { unfold alienLit. destruct (isDrawn (enemyAlive g) n).
      - eapply shows_iff; [| apply draw8by8_shows, IH]. intros; cbv beta; tauto.
      - apply (shows_iff _ _ (fun _ _ => False)); [| apply shows_refl, IH].
        intros; split; [tauto | intros [C _]; discriminate]. }
    eapply shows_iff; [| exact (shows_trans _ _ _ _ _ IH W)].
    intros px py. cbv beta. split.
    + intros [(k & Hk & Hl) | Hl]; [exists k; split; [lia | exact Hl] | exists n; split; [lia | exact Hl]].
    + intros (k & Hk & Hl). destruct (Nat.eq_dec k n) as [-> | Hne]; [right; exact Hl|].
      left. exists k. split; [lia | exact Hl].
Qed.

Section BulletLoop.

Variable step : Game -> nat -> Game.
Variable view : Game -> nat -> Z * Z.
Variable stepD : Game * list Z -> nat -> Game * list Z.

Hypothesis step_other : forall g i j, i <> j -> view (step g i) j = view g j.
Hypothesis stepD_eq : forall st i,
  stepD st i
  = (step (fst st) i,
     if negb (fst (view (fst st) i) =? 0) && negb (snd (view (fst st) i) =? 0)
     then drawBullet (fst (view (fst st) i)) (snd (view (fst st) i)) (snd st)
     else snd st).

Lemma bullet_loop_untouched (g : Game) (n j : nat) :
  (n <= j)%nat -> view (foldl step g (seq 0 n)) j = view g j.
Proof using step_other.
  intros Hj. induction n as [| n IH]; [reflexivity|].
  rewrite seq_S, foldl_app. cbn [foldl]. change (0 + n)%nat with n.
  rewrite step_other by lia. apply IH. lia.
Qed.

Lemma bullet_loop_shows (g : Game) (fb : list Z) (n : nat) :
  frameOk fb ->
  fst (foldl stepD (g, fb) (seq 0 n)) = foldl step g (seq 0 n) /\
  shows fb (snd (foldl stepD (g, fb) (seq 0 n)))
        (fun px py => exists j, (j < n)%nat /\ bulletLit (view g j) px py).
Proof using step_other stepD_eq.
  intros Hfb. induction n as [| n [IH1 IH2]].
  - split; [reflexivity|].
    apply (shows_iff _ _ (fun _ _ => False)); [| apply shows_refl, Hfb].
    intros px py. split; [tauto | intros (k & Hk & _); lia].
  - rewrite !seq_S, !foldl_app. cbn [foldl]. change (0 + n)%nat with n.
    rewrite stepD_eq. cbn [fst snd]. rewrite IH1. split; [reflexivity|].
    rewrite bullet_loop_untouched by lia.
    assert (W : shows (snd (foldl stepD (g, fb) (seq 0 n)))
                  (if negb (fst (view g n) =? 0) && negb (snd (view g n) =? 0)
                   then drawBullet (fst (view g n)) (snd (view g n))
                          (snd (foldl stepD (g, fb) (seq 0 n)))
                   else snd (foldl stepD (g, fb) (seq 0 n)))
                  (bulletLit (view g n))).
    { unfold bulletLit.
      destruct (Z.eqb_spec (fst (view g n)) 0) as [E1 | E1];
        [| destruct (Z.eqb_spec (snd (view g n)) 0) as [E2 | E2]]; cbn [negb andb].
      - apply (shows_iff _ _ (fun _ _ => False)); [| apply shows_refl, IH2].
        intros; split; [tauto | intros [C _]; contradiction].
      - apply (shows_iff _ _ (fun _ _ => False)); [| apply shows_refl, IH2].
        intros; split; [tauto | intros (_ & C & _); contradiction].
      - eapply shows_iff; [| apply drawBullet_shows, IH2]. intros; cbv beta; tauto. }
    eapply shows_iff; [| exact (shows_trans _ _ _ _ _ IH2 W)].
    intros px py. cbv beta. split.
    + intros [(k & Hk & Hl) | Hl]; [exists k; split; [lia | exact Hl] | exists n; split; [lia | exact Hl]].
    + intros (k & Hk & Hl). destruct (Nat.eq_dec k n) as [-> | Hne]; [right; exact Hl|].
      left. exists k. split; [lia | exact Hl].
Qed.

End BulletLoop.

Lemma gameLoopBodyD_game inp g fb :
  gameLoopBody inp g
  = match gameLoopBodyD inp (g, fb) with Next st => Next (fst st) | Over => Over end.
Proof.
  unfold gameLoopBody, gameLoopBodyD. cbn [fst snd].
  destruct (shipDemise _) as [g1 |]; [| reflexivity]. cbn [flow_bind].
  destruct (enemyRemaining g1 <=? 0); [reflexivity|].
  rewrite alienSweep_slots, alienSweepD_slots.
  match goal with
  | |- context [forFlow slotBodyD _ ?st] =>
      pose proof (sweepD_game (seq 0 ENEMY_COUNT) st) as G; cbn [fst] in G; rewrite G; clear G
  end.
  destruct (forFlow slotBodyD _ _) as [[gs fbs] |]; [| reflexivity].
  cbn [flow_bind fst snd].
  assert (P : forall g0 fb0 n,
            fst (foldl playerBulletStepD (g0, fb0) (seq 0 n)) = foldl playerBulletStep g0 (seq 0 n)).
  { intros g0 fb0 n. induction n as [| n IH]; [reflexivity|].
    rewrite !seq_S, !foldl_app. cbn [foldl]. unfold playerBulletStepD at 1. cbn [fst].
    rewrite IH. reflexivity. }
  assert (E : forall st n,
            fst (foldl enemyBulletStepD st (seq 0 n)) = foldl enemyBulletStep (fst st) (seq 0 n)).
  { intros st n. induction n as [| n IH]; [reflexivity|].
    rewrite !seq_S, !foldl_app. cbn [foldl]. unfold enemyBulletStepD at 1. cbn [fst].
    rewrite IH. reflexivity. }
  unfold advanceEnemyBullets, advancePlayerBullets. rewrite E, P. reflexivity.
Qed.

Lemma alienLit_ext g1 g2 k px py :
  enemyAlive g1 = enemyAlive g2 -> enemyX g1 = enemyX g2 -> enemyY g1 = enemyY g2 ->
  alienLit g1 k px py <-> alienLit g2 k px py.
Proof.
  intros Ea Ex Ey. unfold alienLit.
  rewrite (enemyYBefore_ext g1 g2 k Ea Ex Ey), Ea, Ex. reflexivity.
Qed.

Lemma fired_ship_fields inp g :
  let g3 := if btnFire inp && (bulletWait (tickBulletWait (moveShip inp g)) =? 0)
            then playerFire (tickBulletWait (moveShip inp g))
            else tickBulletWait (moveShip inp g) in
  shipAlive g3 = shipAlive (moveShip inp g) /\ shipX g3 = shipX (moveShip inp g) /\
  shipY g3 = shipY (moveShip inp g).
Proof.
  cbv zeta. generalize (moveShip inp g). intros g1.
  unfold tickBulletWait.
  repeat match goal with |- context [if ?b then _ else _] => destruct b end;
    repeat split; reflexivity.
Qed.

Lemma gameLoopBodyD_shows inp g fb g' fb' :
  frameOk fb -> gameLoopBodyD inp (g, fb) = Next (g', fb') -> shows fb fb' (tickLit inp g).
Proof.
  intros Hfb H. unfold gameLoopBodyD in H. cbn [fst snd] in H.
  pose proof (fired_ship_fields inp g) as HF. cbv zeta in HF.
  revert H HF.
  change (shipDemise
            (flashShip
               (if btnFire inp && (bulletWait (tickBulletWait (moveShip inp g)) =? 0)
                then playerFire (tickBulletWait (moveShip inp g))
                else tickBulletWait (moveShip inp g))))
    with (shipDemise (beforeDemise inp g)).
  generalize (if btnFire inp && (bulletWait (tickBulletWait (moveShip inp g)) =? 0)
              then playerFire (tickBulletWait (moveShip inp g))
              else tickBulletWait (moveShip inp g)).
  intros g3 H (F1 & F2 & F3).
  pose proof (shipFrame_shows g3 fb Hfb) as W1.
  assert (L1 : forall px py, shipLit g3 px py <-> shipLit (moveShip inp g) px py)
    by (intros px py; unfold shipLit; rewrite F1, F2, F3; reflexivity).
  apply (shows_iff _ _ _ _ L1) in W1. clear L1 F1 F2 F3.
  revert H W1. generalize (shipFrame g3 fb). intros fb1 H W1.
  unfold tickLit, sweptState.
  destruct (shipDemise (beforeDemise inp g)) as [g1 |] eqn:D; [| discriminate].
  cbn [flow_bind] in H.
  destruct (enemyRemaining g1 <=? 0); [discriminate|].
  rewrite alienSweepD_slots in H.
  pose proof (sweepD_game (seq 0 ENEMY_COUNT) (selectFirer inp g1, fb1)) as G. cbn [fst] in G.
  rewrite <- alienSweep_slots in G. unfold afterSweep. rewrite G. clear G.
  destruct (forFlow slotBodyD (seq 0 ENEMY_COUNT) (selectFirer inp g1, fb1))
    as [[[gs s'] fbs] |] eqn:E; [| discriminate].
  cbn [flow_bind fst snd] in H.
  (* the aliens *)
  assert (W2 : shows fb1 fbs (fun px py => exists k, (k < ENEMY_COUNT)%nat /\ alienLit g k px py)).
  { destruct (selectFirer inp g1) as [g2 s] eqn:ES.
    pose proof (sweepD_prefix ENEMY_COUNT g2 s fb1 gs s' fbs (proj1 W1) E) as W.
    eapply shows_iff; [| exact W]. intros px py. cbv beta.
    assert (Eq : enemyAlive g2 = enemyAlive g /\ enemyX g2 = enemyX g /\ enemyY g2 = enemyY g).
    { pose proof (selectFirer_frame inp g1) as HS. rewrite ES in HS. cbn [fst] in HS.
      pose proof (shipDemise_formation _ _ D) as Df.
      destruct (shipDemise_aliens _ _ D) as [Da _].
      pose proof (beforeDemise_enemySide inp g) as Bs. unfold enemySide in Bs.
      tuple_eqs HS. tuple_eqs Df. tuple_eqs Bs. repeat split; congruence. }
    destruct Eq as (Ea & Ex & Ey).
    split; intros (k & Hk & Hl); exists k; (split; [exact Hk|]);
      apply (alienLit_ext g2 g k px py Ea Ex Ey); exact Hl. }
  (* the two pools *)
  destruct (bullet_loop_shows playerBulletStep playerSlot playerBulletStepD
              playerBulletStep_other (fun st i => eq_refl)
              (moveFormation gs) fbs MAX_PLAYER_BULLETS (proj1 W2)) as [P1 W3].
  revert H P1 W3.
  generalize (foldl playerBulletStepD (moveFormation gs, fbs) (seq 0 MAX_PLAYER_BULLETS)).
  intros [gp fbp] H P1 W3. cbn [fst snd] in *.
  destruct (bullet_loop_shows enemyBulletStep enemySlot enemyBulletStepD
              enemyBulletStep_other (fun st i => eq_refl)
              gp fbp MAX_ENEMY_BULLETS (proj1 W3)) as [_ W4].
  assert (Hf : snd (foldl enemyBulletStepD (gp, fbp) (seq 0 MAX_ENEMY_BULLETS)) = fb')
    by exact (f_equal (fun r => match r with Next st => snd st | Over => fb' end) H).
  rewrite Hf in W4. clear H Hf.
  eapply shows_iff;
    [| exact (shows_trans _ _ _ _ _ W1 (shows_trans _ _ _ _ _ W2 (shows_trans _ _ _ _ _ W3 W4)))].
  intros px py. cbv beta.
  assert (Ee : forall j, enemySlot gp j = enemySlot gs j).
  { intros j.
    assert (P1' : gp = advancePlayerBullets (moveFormation gs)) by exact P1.
    rewrite P1'.
    pose proof (advancePlayerBullets_frame (moveFormation gs)) as HP. unfold enemySlot.
    tuple_eqs HP.
    change (enemyBulletX (moveFormation gs)) with (enemyBulletX gs) in *.
    change (enemyBulletY (moveFormation gs)) with (enemyBulletY gs) in *. congruence. }
  change (playerSlot (moveFormation gs)) with (playerSlot gs).
  split.
  - intros [Hs | [Ha | [(j & Hj & Hb) | (j & Hj & Hb)]]].
    + left. exact Hs.
    + right. left. exact Ha.
    + right. right. left. exists j. split; assumption.
    + right. right. right. exists j. split; [exact Hj | rewrite <- Ee; exact Hb].
  - intros [Hs | [Ha | [(j & Hj & Hb) | (j & Hj & Hb)]]].
    + left. exact Hs.
    + right. left. exact Ha.
    + right. right. left. exists j. split; assumption.
    + right. right. right. exists j. split; [exact Hj | rewrite Ee; exact Hb].
Qed.

(** X19.  One tick with its drawing.  The drawing changes nothing of the
    game: the tick goes on or ends as [gameLoopBody] says, with the same
    game.  When it goes on, the pixels lit in the frame buffer are those
    lit before and those of: the ship's sprite at its new place, if
    [shipAlive] is odd; the sprite of every drawn alien, where the slot
    stands at its turn; and two pixels for every bullet of either pool
    that is in flight when the alien loops are done. *)
Theorem tick_draws_ship_aliens_and_bullets (inp : Input) (g : Game) (fb : list Z) :
  frameOk fb ->
  match gameLoopBodyD inp (g, fb) with
  | Next st => gameLoopBody inp g = Next (fst st) /\ shows fb (snd st) (tickLit inp g)
  | Over => gameLoopBody inp g = Over
  end.
Proof.
  intros Hfb. pose proof (gameLoopBodyD_game inp g fb) as G.
  destruct (gameLoopBodyD inp (g, fb)) as [[g' fb'] |] eqn:E; [| exact G].
  split; [exact G|]. cbn [snd]. exact (gameLoopBodyD_shows inp g fb g' fb' Hfb E).
Qed.

Lemma tick_draws_ship_aliens_and_bullets_witness :
  match gameLoopBodyD idle (start, replicate FRAME_BYTES 0) with
  | Next st => gameLoopBody idle start = Next (fst st) /\
               shows (replicate FRAME_BYTES 0) (snd st) (tickLit idle start)
  | Over => gameLoopBody idle start = Over
  end.
Proof.
  exact (tick_draws_ship_aliens_and_bullets idle start (replicate FRAME_BYTES 0) blank_frameOk).
Defined.

(** X20.  One turn of the loop of [main] whose tick goes on: the game
    moves on by [gameLoop], the frame buffer holds exactly the picture of
    the tick, whatever it held before, and the display is sent that
    buffer, 1056 strobes, with no other pin changed. *)
Theorem main_turn_sends_the_picture (inp : Input) (g : Game) (fb : list Z) (m : Mcu) :
  length fb = FRAME_BYTES ->
  match mainTurn inp (g, fb, m) with
  | Next (g', fb', m') =>
      g' = gameLoop inp g /\ frameOk fb' /\
      (forall px py, 0 <= px <= 127 -> 0 <= py <= 63 ->
         (pixelAt fb' px py = true <-> tickLit inp g px py)) /\
      strobes m' = strobes m ++ frameStrobes fb' /\
      otherPins m' = otherPins m
  | Over => gameLoopBody inp g = Over
  end.
Proof.
  intros Hlen. unfold mainTurn. rewrite (lcdClear_eq fb Hlen).
  pose proof (gameLoopBodyD_game inp g (replicate FRAME_BYTES 0)) as G.
  destruct (gameLoopBodyD inp (g, replicate FRAME_BYTES 0)) as [[g' fb'] |] eqn:E;
    [| exact G].
  cbn [flow_bind fst snd].
  destruct (gameLoopBodyD_shows inp g _ g' fb' blank_frameOk E) as [Hok Hpx].
  destruct (lcdRepaint_wired fb' m) as (S & _ & O).
  split; [unfold gameLoop; rewrite G; reflexivity|].
  split; [exact Hok|]. split; [| split; [exact S | exact O]].
  intros px py Hx Hy. rewrite (Hpx px py Hx Hy), (blank_dark px py Hx Hy).
  split; [intros [C | H]; [discriminate | exact H] | intros H; right; exact H].
Qed.

Lemma main_turn_sends_the_picture_witness :
  match mainTurn idle (start, replicate FRAME_BYTES 255, mkMcu 0 0 0 0 0 0 []) with
  | Next (g', fb', m') =>
      g' = gameLoop idle start /\ frameOk fb' /\
      (forall px py, 0 <= px <= 127 -> 0 <= py <= 63 ->
         (pixelAt fb' px py = true <-> tickLit idle start px py)) /\
      strobes m' = strobes (mkMcu 0 0 0 0 0 0 []) ++ frameStrobes fb' /\
      otherPins m' = otherPins (mkMcu 0 0 0 0 0 0 [])
  | Over => gameLoopBody idle start = Over
  end.
Proof.
  apply (main_turn_sends_the_picture idle start (replicate FRAME_BYTES 255)
           (mkMcu 0 0 0 0 0 0 [])).
  apply length_replicate.
Defined.

(** ** gameOver *)

Lemma lcdPrintText_bytes (TEXT text : list Z) (line : Z) (fb : list Z) :
  0 <= line <= 7 -> length text = 16%nat -> length fb = FRAME_BYTES ->
  length (lcdPrintText TEXT text line fb) = FRAME_BYTES /\
  forall k : nat,
    lcdPrintText TEXT text line fb !!! k
    = if (896 - 128 * line <=? Z.of_nat k) && (Z.of_nat k <=? 1023 - 128 * line)
      then glyphByte TEXT (text !!! Z.to_nat ((1023 - 128 * line - Z.of_nat k) / 8))
                     (Z.to_nat ((1023 - 128 * line - Z.of_nat k) mod 8))
      else fb !!! k.
Proof.
  intros Hl Ht Hlen. unfold lcdPrintText.
  replace (7 <? line) with false by (symmetry; apply Z.ltb_ge; lia).
  replace (16 <? Z.of_nat (length text)) with false by (symmetry; apply Z.ltb_ge; lia).
  destruct (printText_prefix TEXT text line (length text) fb) as [Hlen' Hk];
    [lia | lia | exact Hlen|].
  split; [exact Hlen'|]. intros k. rewrite Hk, Ht.
  destruct (Z.ltb_spec (1023 - 128 * line - 8 * Z.of_nat 16) (Z.of_nat k)),
           (Z.leb_spec (896 - 128 * line) (Z.of_nat k)); try reflexivity; lia.
Qed.

(** X21.  [gameOver] resets the game and prints its three lines over the
    frame as it stands: the bytes 0..639 of the buffer keep the unfinished
    picture, and byte [1023 - 128*line - 8*j - i] holds byte [i] of the
    glyph of character [j] of the line's string, for the lines 0, 1 and 2.
    That buffer is sent to the display, and the function returns when the
    keys have been read released and then pressed. *)
Theorem gameOver_prints_three_lines (TEXT : list Z) (g : Game) (fb : list Z) (m : Mcu)
        (samples : list Z) (g' : Game) (fb' : list Z) (m' : Mcu) (rest : list Z) :
  length fb = FRAME_BYTES ->
  gameOverD TEXT (g, fb, m) samples = Some (g', fb', m', rest) ->
  g' = gameOver g /\
  length fb' = FRAME_BYTES /\
  (forall k : nat, (k < 640)%nat -> fb' !!! k = fb !!! k) /\
  (forall line j i : nat, (line < 3)%nat -> (j < 16)%nat -> (i < 8)%nat ->
     fb' !!! (1023 - 128 * line - 8 * j - i)%nat = glyphByte TEXT (gameOverLine line !!! j) i) /\
  strobes m' = strobes m ++ frameStrobes fb' /\
  (exists r, waitRelease samples = Some r /\ waitPress r = Some rest).
Proof.
  intros Hlen H. unfold gameOverD in H.
  destruct (waitRelease samples) as [r |]; [| discriminate].
  destruct (waitPress r) as [rest' |] eqn:EP; [| discriminate].
  destruct (lcdPrintText_bytes TEXT GAME_OVER_STRING 0 fb) as [L0 B0];
    [lia | reflexivity | exact Hlen|].
  destruct (lcdPrintText_bytes TEXT PRESS_ANY_STRING 1 _ ltac:(lia) eq_refl L0) as [L1 B1].
  destruct (lcdPrintText_bytes TEXT PLAY_AGAN_STRING 2 _ ltac:(lia) eq_refl L1) as [L2 B2].
  revert H L2 B2.
  generalize (lcdPrintText TEXT PLAY_AGAN_STRING 2
                (lcdPrintText TEXT PRESS_ANY_STRING 1 (lcdPrintText TEXT GAME_OVER_STRING 0 fb))).
  intros fb2 H L2 B2.
  assert (E : (gameReset g, fb2, lcdRepaint fb2 m, rest') = (g', fb', m', rest))
    by exact (f_equal (fun o => match o with Some v => v | None => (g', fb', m', rest) end) H).
  tuple_eqs E. subst g' fb' m' rest'. clear H.
  split; [reflexivity|]. split; [exact L2|]. split; [| split; [| split]].
  - intros k Hk. rewrite B2, B1, B0.
    repeat match goal with
           | |- context [?a <=? ?b] => destruct (Z.leb_spec a b); try lia
           end; reflexivity.
  - intros line j i Hline Hj Hi.
    assert (D : forall l : Z, 0 <= l <= 2 ->
              (1023 - 128 * l - Z.of_nat (1023 - 128 * Z.to_nat l - 8 * j - i)) / 8 = Z.of_nat j /\
              (1023 - 128 * l - Z.of_nat (1023 - 128 * Z.to_nat l - 8 * j - i)) mod 8 = Z.of_nat i).
    { intros l Hl.
      replace (1023 - 128 * l - Z.of_nat (1023 - 128 * Z.to_nat l - 8 * j - i))
        with (8 * Z.of_nat j + Z.of_nat i) by lia.
      split; [symmetry; apply (Z.div_unique _ 8 _ (Z.of_nat i)); lia
             | symmetry; apply (Z.mod_unique _ 8 (Z.of_nat j)); lia]. }
    assert (Hc : (line = 0 \/ line = 1 \/ line = 2)%nat) by lia.
    destruct Hc as [-> | [-> | ->]]; cbn [gameOverLine].
    + rewrite B2, B1, B0.
      destruct (D 0 ltac:(lia)) as [D1 D2]. change (Z.to_nat 0) with 0%nat in D1, D2.
      change (128 * 0) with 0 in *. rewrite ?Z.sub_0_r in *.
      repeat match goal with
             | |- context [?a <=? ?b] => destruct (Z.leb_spec a b); try lia
             end; cbn [andb].
      rewrite D1, D2, !Nat2Z.id. reflexivity.
    + rewrite B2, B1.
      destruct (D 1 ltac:(lia)) as [D1 D2]. change (Z.to_nat 1) with 1%nat in D1, D2.
      repeat match goal with
             | |- context [?a <=? ?b] => destruct (Z.leb_spec a b); try lia
             end; cbn [andb].
      rewrite D1, D2, !Nat2Z.id. reflexivity.
    + rewrite B2.
      destruct (D 2 ltac:(lia)) as [D1 D2]. change (Z.to_nat 2) with 2%nat in D1, D2.
      repeat match goal with
             | |- context [?a <=? ?b] => destruct (Z.leb_spec a b); try lia
             end; cbn [andb].
      rewrite D1, D2, !Nat2Z.id. reflexivity.
  - exact (proj1 (lcdRepaint_wired fb2 m)).
  - exists r. split; [reflexivity | exact EP].
Qed.

Lemma gameOver_prints_three_lines_witness :
  let fb' := lcdPrintText (replicate 424 255) PLAY_AGAN_STRING 2
               (lcdPrintText (replicate 424 255) PRESS_ANY_STRING 1
                  (lcdPrintText (replicate 424 255) GAME_OVER_STRING 0
                     (replicate FRAME_BYTES 0))) in
  length fb' = FRAME_BYTES /\
  forall k : nat, (k < 640)%nat -> fb' !!! k = replicate FRAME_BYTES 0 !!! k.
Proof.
  cbv zeta.
  refine (let H := gameOver_prints_three_lines (replicate 424 255) start
                     (replicate FRAME_BYTES 0) (mkMcu 0 0 0 0 0 0 []) [56; 0]
                     _ _ _ [] _ _ in
          conj (proj1 (proj2 H)) (proj1 (proj2 (proj2 H)))).
  - apply length_replicate.
  - reflexivity.
Defined.

Lemma waitRelease_iff (samples rest : list Z) :
  waitRelease samples = Some rest <->
  exists held r, samples = held ++ r :: rest /\
                 Forall (fun s => isAnyKeyDown s = 1) held /\ isAnyKeyDown r = 0.
Proof.
  induction samples as [| s samples IH]; cbn [waitRelease].
  - split; [discriminate | intros (held & r & E & _); destruct held; discriminate].
  - assert (V : isAnyKeyDown s = 0 \/ isAnyKeyDown s = 1)
      by (unfold isAnyKeyDown; destruct (_ =? 56); [left | right]; reflexivity).
    destruct (Z.eqb_spec (isAnyKeyDown s) 0) as [E0 | E0].
    + split.
      * intros H. injection H as <-. exists [], s. repeat split; [constructor | exact E0].
      * intros (held & r & E & Hh & Hr). destruct held as [| h held].
        -- cbn in E. injection E as _ <-. reflexivity.
        -- cbn in E. injection E as <- _. apply Forall_cons in Hh. destruct Hh as [Hh _]. lia.
    + rewrite IH. split.
      * intros (held & r & -> & Hh & Hr). exists (s :: held), r.
        repeat split; [constructor; [lia | exact Hh] | exact Hr].
      * intros (held & r & E & Hh & Hr). destruct held as [| h held].
        -- cbn in E. injection E as <- _. contradiction.
        -- cbn in E. injection E as _ ->. apply Forall_cons in Hh. destruct Hh as [_ Hh].
           exists held, r. repeat split; assumption.
Qed.

Lemma waitPress_iff (samples rest : list Z) :
  waitPress samples = Some rest <->
  exists idle p, samples = idle ++ p :: rest /\
                 Forall (fun s => isAnyKeyDown s = 0) idle /\ isAnyKeyDown p = 1.
Proof.
  induction samples as [| s samples IH]; cbn [waitPress].
  - split; [discriminate | intros (idle & p & E & _); destruct idle; discriminate].
  - assert (V : isAnyKeyDown s = 0 \/ isAnyKeyDown s = 1)
      by (unfold isAnyKeyDown; destruct (_ =? 56); [left | right]; reflexivity).
    destruct (Z.eqb_spec (isAnyKeyDown s) 0) as [E0 | E0].
    + rewrite IH. split.
      * intros (idle & p & -> & Hi & Hp). exists (s :: idle), p.
        repeat split; [constructor; [exact E0 | exact Hi] | exact Hp].
      * intros (idle & p & E & Hi & Hp). destruct idle as [| h idle].
        -- cbn in E. injection E as <- _. lia.
        -- cbn in E. injection E as _ ->. apply Forall_cons in Hi. destruct Hi as [_ Hi].
           exists idle, p. repeat split; assumption.
    + split.
      * intros H. injection H as <-. exists [], s. repeat split; [constructor | lia].
      * intros (idle & p & E & Hi & Hp). destruct idle as [| h idle].
        -- cbn in E. injection E as _ <-. reflexivity.
        -- cbn in E. injection E as <- _. apply Forall_cons in Hi. destruct Hi as [Hi _].
           contradiction.
Qed.

(** X22.  The wait of [gameOver] ends exactly at the first reading with a
    key down that comes after a reading with no key down: the readings are
    some with a key down, one with none, some with none, one with a key
    down, and what follows is left unread.  A key held since before the
    game ended does not restart the game. *)
Theorem gameOver_waits_for_release_then_press
        (TEXT : list Z) (st : Game * list Z * Mcu) (samples rest : list Z) :
  (exists out, gameOverD TEXT st samples = Some (out, rest)) <->
  exists held r idle p,
    samples = held ++ r :: idle ++ p :: rest /\
    Forall (fun s => isAnyKeyDown s = 1) held /\ isAnyKeyDown r = 0 /\
    Forall (fun s => isAnyKeyDown s = 0) idle /\ isAnyKeyDown p = 1.
Proof.
  destruct st as [[g fb] m]. unfold gameOverD. split.
  - intros (out & H).
    destruct (waitRelease samples) as [r1 |] eqn:ER; [| discriminate].
    destruct (waitPress r1) as [r2 |] eqn:EP; [| discriminate].
    assert (E : r2 = rest)
      by exact (f_equal (fun o => match o with Some v => snd v | None => rest end) H).
    subst r2. apply waitRelease_iff in ER. apply waitPress_iff in EP.
    destruct ER as (held & r & -> & Hh & Hr). destruct EP as (idle & p & -> & Hi & Hp).
    exists held, r, idle, p. repeat split; assumption.
  - intros (held & r & idle & p & -> & Hh & Hr & Hi & Hp).
    assert (ER : waitRelease (held ++ r :: idle ++ p :: rest) = Some (idle ++ p :: rest))
      by (apply waitRelease_iff; exists held, r; repeat split; assumption).
    assert (EP : waitPress (idle ++ p :: rest) = Some rest)
      by (apply waitPress_iff; exists idle, p; repeat split; assumption).
    rewrite ER, EP. eexists. reflexivity.
Qed.

(** ** The ship under fire *)

Lemma enemyBulletStep_hit sx sy g i :
  enemyLoopInv sx sy g -> (i < 20)%nat ->
  shipAlive (enemyBulletStep g i)
  = if strikesShip sx sy (enemySlot g i) && (shipAlive g =? ALIVE)
    then START_DYING else shipAlive g.
Proof.
  intros [[Hx Hy] [Hsx Hsy]] Hi.
  unfold enemySlot, enemyBulletStep, strikesShip, MAX_ENEMY_BULLETS in *. cbn [fst snd].
  destruct (negb (enemyBulletX g !!! i =? 0) && negb (enemyBulletY g !!! i =? 0));
    [| reflexivity].
  cbn -[u8 inBox Z.eqb Z.leb]. rewrite list_lookup_total_insert_eq by lia. rewrite Hsx, Hsy.
  destruct (inBox sx sy SHIP_WIDTH SHIP_HEIGHT (enemyBulletX g !!! i)
              (u8 (enemyBulletY g !!! i + ENEMY_BULLET_SPEED))).
  - destruct (shipAlive g =? ALIVE); cbn -[u8 inBox Z.eqb Z.leb];
      repeat match goal with |- context [if ?b then _ else _] => destruct b end; reflexivity.
  - cbn -[u8 inBox Z.eqb Z.leb].
    repeat match goal with |- context [if ?b then _ else _] => destruct b end; reflexivity.
Qed.

Lemma enemy_loop_hit g n :
  enemyPoolSized g -> (n <= 20)%nat ->
  shipAlive (foldl enemyBulletStep g (seq 0 n))
  = if (shipAlive g =? ALIVE)
       && existsb (fun j => strikesShip (shipX g) (shipY g) (enemySlot g j)) (seq 0 n)
    then START_DYING else shipAlive g.
Proof.
  intros Hg. induction n as [| n IH]; intros Hn.
  - cbn [seq foldl existsb]. rewrite andb_false_r. reflexivity.
  - assert (Hinv : enemyLoopInv (shipX g) (shipY g) g) by (repeat split; apply Hg).
    destruct (slot_loop_prefix enemyBulletStep enemySlot
                (enemyAdvanceRule (shipX g) (shipY g)) (enemyLoopInv (shipX g) (shipY g))
                (enemyBulletStep_inv _ _) enemyBulletStep_other (enemyBulletStep_self _ _)
                g n Hinv ltac:(lia)) as [Hi Hv].
    rewrite seq_S, foldl_app, existsb_app. cbn [foldl existsb]. change (0 + n)%nat with n.
    rewrite (enemyBulletStep_hit _ _ _ _ Hi) by lia.
    rewrite Hv, Nat.ltb_irrefl, IH by lia. rewrite orb_false_r.
    unfold START_DYING, ALIVE.
    destruct (Z.eqb_spec (shipAlive g) 7) as [E | E]; cbn [andb].
    + destruct (existsb _ (seq 0 n)); cbn [orb].
      * change (7 - 1 =? 7) with false. rewrite andb_false_r. reflexivity.
      * rewrite E. change (7 =? 7) with true. rewrite andb_true_r. reflexivity.
    + destruct (Z.eqb_spec (shipAlive g) 7) as [C | _]; [contradiction|].
      rewrite andb_false_r. reflexivity.
Qed.

(** X23.  The ship is hit in a tick exactly when it is [ALIVE] and some
    enemy bullet in flight, moved down by one, lies in the box from the
    ship's corner to 8 pixels right and 8 pixels down, edges included; its
    [shipAlive] then becomes [START_DYING].  A ship that is already
    flashing is not hit again. *)
Theorem ship_is_hit_by_a_bullet_in_its_box (g : Game) :
  enemyPoolSized g ->
  shipAlive (advanceEnemyBullets g)
  = if (shipAlive g =? ALIVE)
       && existsb (fun j => strikesShip (shipX g) (shipY g) (enemySlot g j))
                  (seq 0 MAX_ENEMY_BULLETS)
    then START_DYING else shipAlive g.
Proof. intros Hg. apply enemy_loop_hit; [exact Hg | unfold MAX_ENEMY_BULLETS; lia]. Qed.

Lemma ship_is_hit_by_a_bullet_in_its_box_witness :
  shipAlive (advanceEnemyBullets (run twoBulletsTrace))
  = if (shipAlive (run twoBulletsTrace) =? ALIVE)
       && existsb (fun j => strikesShip (shipX (run twoBulletsTrace)) (shipY (run twoBulletsTrace))
                              (enemySlot (run twoBulletsTrace) j))
                  (seq 0 MAX_ENEMY_BULLETS)
    then START_DYING else shipAlive (run twoBulletsTrace).
Proof.
  apply (ship_is_hit_by_a_bullet_in_its_box (run twoBulletsTrace)).
  split; vm_compute; reflexivity.
Defined.

(** ** The start of main *)

Lemma mainSetup_eq (g : Game) (fb : list Z) (m : Mcu) :
  mainSetup (g, fb, m)
  = (gameReset g, snd (initLcdScreen (m, fb)),
     set_DDRC (initButtons (DDRC (fst (initLcdScreen (m, fb))))) (fst (initLcdScreen (m, fb)))).
Proof. unfold mainSetup. destruct (initLcdScreen (m, fb)) as [m1 fb1]. reflexivity. Qed.

(** X24.  After [initLcdScreen], [initButtons] and [gameReset], as [main]
    calls them: the game is the reset game and the frame buffer is blank;
    port D is all outputs; of port B the pins 0 and 1 are outputs; of port
    C the pins 0 and 1 are outputs and the pins 3, 4 and 5 inputs, the two
    modules writing the same register without undoing each other; every
    other direction bit is as [init] left it; and the display has been
    sent its two commands and nothing since. *)
Theorem main_setup_directions (g : Game) (fb : list Z) (m : Mcu) :
  length fb = FRAME_BYTES ->
  let r := mainSetup (g, fb, m) in
  fst (fst r) = start /\
  snd (fst r) = replicate FRAME_BYTES 0 /\
  DDRD (snd r) = 255 /\
  (forall n, 0 <= n < 8 ->
     Z.testbit (DDRB (snd r)) n = (n <? 2) || Z.testbit (DDRB m) n) /\
  (forall n, 0 <= n < 8 ->
     Z.testbit (DDRC (snd r)) n
     = ((n <? 2) || Z.testbit (DDRC m) n) && negb ((n =? 3) || (n =? 4) || (n =? 5))) /\
  strobes (snd r)
  = strobes m
    ++ (if Z.testbit (PORTB m) 1 then [(Z.land (PORTC m) 3, true, PORTD m)] else [])
    ++ [(1, false, 63); (2, false, 63)] /\
  lines (snd r) = (3, false, true).
Proof.
  intros Hlen. cbv zeta. rewrite mainSetup_eq. cbn [fst snd].
  destruct (initLcdScreen_wired m fb) as (S & Ln & O).
  destruct (SETUP_LCD_PINS_fields m) as [S0 O0]. rewrite S0 in S. rewrite O0 in O.
  assert (Efb : snd (initLcdScreen (m, fb)) = lcdClear fb) by reflexivity.
  rewrite Efb. clear Efb.
  revert S Ln O. generalize (fst (initLcdScreen (m, fb))). intros m1 S Ln O.
  unfold otherPins in O. tuple_eqs O.
  unfold set_DDRC. cbn [DDRB DDRC DDRD strobes]. 
  change (lines (mkMcu (DDRB m1) (u8 (initButtons (DDRC m1))) (DDRD m1) (PORTB m1) (PORTC m1)
                   (PORTD m1) (strobes m1))) with (lines m1).
  split; [reflexivity|]. split; [exact (lcdClear_eq fb Hlen)|]. split; [assumption|].
  assert (B3 : forall n, 0 <= n < 8 -> Z.testbit 3 n = (n <? 2)).
  { intros n Hn.
    assert (E : n = 0 \/ n = 1 \/ n = 2 \/ n = 3 \/ n = 4 \/ n = 5 \/ n = 6 \/ n = 7) by lia.
    destruct E as [-> | [-> | [-> | [-> | [-> | [-> | [-> | ->]]]]]]]; reflexivity. }
  split; [| split; [| split; [exact S | exact Ln]]].
  - intros n Hn.
    match goal with H : DDRB m1 = _ |- _ => rewrite H end.
    rewrite u8_testbit, Z.lor_spec, B3 by lia.
    destruct (Z.ltb_spec n 8); [| lia]. cbn [andb]. apply orb_comm.
  - intros n Hn.
    match goal with H : DDRC m1 = _ |- _ => rewrite H end.
    unfold initButtons.
    rewrite !u8_testbit, Z.land_spec, Z.lnot_spec, !Z.lor_spec, !Z.shiftl_1_l,
      !Z.pow2_bits_eqb, u8_testbit, Z.lor_spec, B3 by lia.
    destruct (Z.ltb_spec n 8); [| lia]. cbn [andb].
    rewrite !(Z.eqb_sym n), (orb_comm (Z.testbit (DDRC m) n)). reflexivity.
Qed.

Lemma main_setup_directions_witness :
  let r := mainSetup (start, replicate FRAME_BYTES 255, mkMcu 0 56 0 0 0 0 []) in
  fst (fst r) = start /\ snd (fst r) = replicate FRAME_BYTES 0.
Proof.
  cbv zeta.
  refine (let H := main_setup_directions start (replicate FRAME_BYTES 255)
                     (mkMcu 0 56 0 0 0 0 []) _ in conj (proj1 H) (proj1 (proj2 H))).
  apply length_replicate.
Defined.

(** ** The descent of the formation *)

Lemma height_steps (n : nat) :
  (n <= 14)%nat ->
  F32.to_int (F32.add (F32.of_int (ALIEN_INCREASE_Y_BY * Z.of_nat n)) (F32.of_int 0))
  = 4 * Z.of_nat n /\
  F32.to_int (F32.add (F32.of_int (ALIEN_INCREASE_Y_BY * Z.of_nat n)) (F32.of_int ALIEN_HEIGHT))
  = 4 * Z.of_nat n + 8 /\
  bounceY (F32.of_int (ALIEN_INCREASE_Y_BY * Z.of_nat n))
  = F32.of_int (ALIEN_INCREASE_Y_BY * Z.of_nat (S n)).
Proof.
  intros Hn.
  do 15 (destruct n as [| n]; [vm_compute; repeat split; reflexivity |]).
  lia.
Qed.

Lemma slotBody_descent k g s g' s' (n : nat) :
  slotBody k (g, s) = Next (g', s') ->
  (n <= 14)%nat -> descent n g ->
  exists n' : nat, (n' <= 14)%nat /\ descent n' g'.
Proof.
  intros H Hn [Hy Hd].
  destruct (slotBody_step k g s g' s' H) as (_ & _ & Ed & Ey & _).
  destruct (touches (enemyAlive g) (enemyX g) k) eqn:T.
  - assert (Hnot : ~ slotBody k (g, s) = Over) by (rewrite H; discriminate).
    rewrite slotBody_over in Hnot.
    unfold touches in T. apply andb_prop in T. destruct T as [Tdr _].
    assert (Hlow : slotYAt (enemyY g) k + ALIEN_HEIGHT < SCREEN_HEIGHT).
    { destruct (Z.lt_ge_cases (slotYAt (enemyY g) k + ALIEN_HEIGHT) SCREEN_HEIGHT) as [L | L];
        [exact L | exfalso; apply Hnot; split; [exact Tdr | lia]]. }
    destruct (height_steps n Hn) as (Y1 & Y2 & Yb).
    assert (Hn13 : (n <= 13)%nat).
    { revert Hlow. unfold slotYAt. rewrite Hy. unfold SCREEN_HEIGHT, ALIEN_HEIGHT in *.
      destruct (k <? ROW1_ENEMY_COUNT)%nat; rewrite ?Y1, ?Y2; lia. }
    exists (S n). split; [lia|]. split.
    + rewrite Ey, Hy. exact Yb.
    + rewrite Ed, Hd. reflexivity.
  - exists n. split; [exact Hn|]. split; congruence.
Qed.

Lemma start_descent : descent 0 start.
Proof. split; vm_compute; reflexivity. Qed.

Lemma gameLoop_descent inp g :
  (exists n : nat, (n <= 14)%nat /\ descent n g) ->
  exists n : nat, (n <= 14)%nat /\ descent n (gameLoop inp g).
Proof.
  intros (n & Hn & Hy & Hd). apply gameLoop_cases.
  - exists 0%nat. split; [lia | exact start_descent].
  - intros g' H. destruct (tick_sweep inp g g' H)
      as (gs & s & gs' & s' & Hs & _ & _ & Ey & Ed & Ed' & Ey' & _).
    rewrite alienSweep_slots in Hs.
    destruct (forFlow_inv (fun st => exists n : nat, (n <= 14)%nat /\ descent n (fst st))
                slotBody (seq 0 ENEMY_COUNT) (gs, s) (gs', s')) as (n' & Hn' & Hy' & Hd');
      [| | exact Hs |].
    + intros k [g1 s1] [g2 s2] _ (m & Hm & Hdm) Hb. cbn [fst] in *.
      exact (slotBody_descent k g1 s1 g2 s2 m Hb Hm Hdm).
    + exists n. split; [exact Hn|]. split; cbn [fst]; congruence.
    + exists n'. split; [exact Hn'|]. cbn [fst] in *. split; congruence.
Qed.

(** X25.  In every state reached from [gameReset] the formation has bounced
    some [n <= 14] times since the reset: its height is the whole number
    [4 * n], so the rows are drawn at y = 4n and y = 4n + 8, and its
    velocity is 0.5 turned round and scaled by 1.2 exactly [n] times.  The
    speed depends on the height alone, and of the two floats only 15
    pairs of values ever occur. *)
Theorem formation_speed_follows_its_height (inps : list Input) :
  exists n : nat,
    (n <= 14)%nat /\
    enemyY (run inps) = F32.of_int (ALIEN_INCREASE_Y_BY * Z.of_nat n) /\
    enemyDX (run inps) = Nat.iter n bounceDX (F32.lit 1 2) /\
    row1Y (run inps) = 4 * Z.of_nat n /\
    row2Y (run inps) = 4 * Z.of_nat n + 8.
Proof.
  destruct (run_ind (fun g => exists n : nat, (n <= 14)%nat /\ descent n g)
              (ex_intro _ 0%nat (conj (Nat.le_0_l 14) start_descent))
              gameLoop_descent inps) as (n & Hn & Hy & Hd).
  exists n. split; [exact Hn|]. split; [exact Hy|]. split; [exact Hd|].
  destruct (height_steps n Hn) as (Y1 & Y2 & _).
  unfold row1Y, row2Y. rewrite Hy. split; assumption.
Qed.

(** * One alien at the edge

    In play the formation turns once in a tick: a second drawn alien never
    touches an edge in a tick that goes on.  The aliens of neighbouring
    columns stand 9 pixels apart, and an alien passes the line from which
    it touches an edge by less than that.  It passes the line at all only
    while it flashes, in a tick in which it is not drawn; a bullet that
    restarts its flashing must reach it, which it does up to 5 or 6 pixels
    beyond the line; and a drawn alien beyond the line turns the
    formation.  The bounds of [tabL] and [tabR] follow one alien through
    these steps for every number of turns and every vitality. *)

(** ** The value of a float *)

Lemma digits2_size (m : positive) : digits2_pos m = Pos.size m.
Proof. induction m; simpl; congruence. Qed.

Lemma digits_bounds (m : positive) :
  2 ^ (Z.pos (digits2_pos m) - 1) <= Z.pos m < 2 ^ Z.pos (digits2_pos m).
Proof.
  rewrite digits2_size. split.
  - pose proof (Pos.size_le m) as H.
    assert (H' : (2 ^ Z.pos (Pos.size m) <= Z.pos m~0)).
    { rewrite <- Pos2Z.inj_pow. apply Pos2Z.pos_le_pos. exact H. }
    replace (Z.pos (Pos.size m)) with (Z.succ (Z.pos (Pos.size m) - 1)) in H' by lia.
    rewrite Z.pow_succ_r in H' by lia. lia.
  - pose proof (Pos.size_gt m) as H.
    rewrite <- Pos2Z.inj_pow. apply Pos2Z.pos_lt_pos. exact H.
Qed.

Lemma iter_pos_iter {A : Type} (f : A -> A) (n : positive) (x : A) :
  SpecFloat.iter_pos f n x = Pos.iter f x n.
Proof.
  revert x. induction n as [n IH | n IH |]; intros x; simpl.
  - rewrite !IH. rewrite <- !Pos.iter_swap. reflexivity.
  - rewrite !IH. reflexivity.
  - reflexivity.
Qed.

Lemma shr_1_m (mrs : shr_record) :
  0 <= shr_m mrs -> shr_m (shr_1 mrs) = shr_m mrs / 2 /\ 0 <= shr_m (shr_1 mrs).
Proof.
  destruct mrs as [m r s]. simpl. intros Hm.
  destruct m as [| p | p]; [simpl; split; reflexivity || lia | | lia].
  destruct p as [p | p |]; simpl.
  - split; [|lia]. rewrite Pos2Z.inj_xI.
    apply Z.div_unique with 1; lia.
  - split; [|lia]. rewrite Pos2Z.inj_xO.
    apply Z.div_unique with 0; lia.
  - split; [reflexivity | lia].
Qed.

Lemma shr_iter_m (n : positive) (mrs : shr_record) :
  0 <= shr_m mrs ->
  shr_m (SpecFloat.iter_pos shr_1 n mrs) = shr_m mrs / 2 ^ Z.pos n.
Proof.
  intros Hm. rewrite iter_pos_iter.
  assert (G : 0 <= shr_m (Pos.iter shr_1 mrs n) /\
              shr_m (Pos.iter shr_1 mrs n) = shr_m mrs / 2 ^ Z.pos n).
  { induction n as [| n IH] using Pos.peano_ind.
    - simpl. destruct (shr_1_m mrs Hm) as [E P]. split; [exact P|].
      rewrite E. reflexivity.
    - rewrite Pos.iter_succ. destruct IH as [P E].
      destruct (shr_1_m _ P) as [E' P']. split; [exact P'|].
      rewrite E', E, Pos2Z.inj_succ, Z.pow_succ_r by lia.
      rewrite Z.div_div by lia. f_equal. lia. }
  apply G.
Qed.

Lemma iter_xO (m d : positive) : Z.pos (Pos.iter xO m d) = Z.pos m * 2 ^ Z.pos d.
Proof.
  induction d as [| d IH] using Pos.peano_ind.
  - simpl. lia.
  - rewrite Pos.iter_succ, Pos2Z.inj_xO, IH, Pos2Z.inj_succ, Z.pow_succ_r by lia. lia.
Qed.

(** [shl_align] keeps the value and lowers the exponent to [ez] at most. *)
Lemma shl_align_spec (m : positive) (e ez : Z) :
  exists m' e', shl_align m e ez = (m', e') /\ e' = Z.min e ez /\
                Z.pos m' = Z.pos m * 2 ^ (e - e').
Proof.
  unfold shl_align. destruct (ez - e) as [| d | d] eqn:Hd.
  - exists m, e. repeat split; [lia|]. rewrite Z.sub_diag. simpl. lia.
  - exists m, e. repeat split; [lia|]. rewrite Z.sub_diag. simpl. lia.
  - exists (Pos.iter xO m d), ez. repeat split; [lia|].
    replace (e - ez) with (Z.pos d) by lia. apply iter_xO.
Qed.

Lemma fexp32_eq (x : Z) : fexp 24 128 x = fexp32 x.
Proof. reflexivity. Qed.

Lemma shr_record_of_loc_m (m : Z) (l : location) : shr_m (shr_record_of_loc m l) = m.
Proof. destruct l as [| []]; reflexivity. Qed.

(** [shr_fexp] divides the mantissa by the power of two that raises the
    exponent to [fexp (digits + e)], rounding down. *)
Lemma shr_fexp_spec (m e : Z) (l : location) :
  0 <= m ->
  exists mrs e', shr_fexp 24 128 m e l = (mrs, e') /\
                 e' = Z.max e (fexp32 (Zdigits2 m + e)) /\
                 shr_m mrs = m / 2 ^ (e' - e).
Proof.
  intros Hm. unfold shr_fexp, shr. rewrite fexp32_eq.
  destruct (fexp32 (Zdigits2 m + e) - e) as [| p | p] eqn:Hp.
  - eexists _, _. split; [reflexivity|]. split; [lia|].
    rewrite shr_record_of_loc_m, Z.sub_diag, Z.pow_0_r, Z.div_1_r. reflexivity.
  - eexists _, _. split; [reflexivity|]. split; [lia|].
    rewrite shr_iter_m by (rewrite shr_record_of_loc_m; exact Hm).
    rewrite shr_record_of_loc_m. f_equal. f_equal. lia.
  - eexists _, _. split; [reflexivity|]. split; [lia|].
    rewrite shr_record_of_loc_m, Z.sub_diag, Z.pow_0_r, Z.div_1_r. reflexivity.
Qed.

Lemma round_nearest_even_range (m : Z) (l : location) :
  m <= round_nearest_even m l <= m + 1.
Proof. destruct l as [| []]; simpl; try lia. destruct (Z.even m); lia. Qed.

Lemma Zdigits2_bounds (m : Z) :
  0 < m -> 2 ^ (Zdigits2 m - 1) <= m < 2 ^ Zdigits2 m.
Proof. destruct m as [| p | p]; [lia | intros _; apply digits_bounds | lia]. Qed.

Lemma Zdigits2_le (m : Z) (k : Z) : 0 <= k -> 0 <= m < 2 ^ k -> Zdigits2 m <= k.
Proof.
  intros Hk [H0 H1]. destruct (Z.eq_dec m 0) as [-> | Hn]; [simpl; lia|].
  destruct (Zdigits2_bounds m ltac:(lia)) as [L _].
  destruct (Z_le_gt_dec (Zdigits2 m) k) as [|G]; [assumption|].
  assert (2 ^ k <= 2 ^ (Zdigits2 m - 1)) by (apply Z.pow_le_mono_r; lia). lia.
Qed.

Lemma Zdigits2_nonneg (m : Z) : 0 <= Zdigits2 m.
Proof. destruct m; simpl; lia. Qed.

Lemma two_shifts (m m1 m1' m2 A B P : Z) :
  0 < A -> 0 < B -> 0 < P ->
  m1 * A <= m < (m1 + 1) * A -> m1 <= m1' <= m1 + 1 ->
  m2 * B <= m1' < (m2 + 1) * B ->
  m * P - A * P - B * (A * P) < m2 * (B * (A * P)) <= m * P + A * P.
Proof.
  intros HA HB HP [L1 U1] [L2 U2] [L3 U3].
  assert (HAP : 0 < A * P) by (apply Z.mul_pos_pos; assumption).
  assert (E1 : m1 * A * P <= m * P) by (apply Z.mul_le_mono_nonneg_r; lia).
  assert (E2 : m * P < (m1 + 1) * A * P) by (apply Zmult_lt_compat_r; lia).
  assert (E3 : m2 * B * (A * P) <= m1' * (A * P)) by (apply Z.mul_le_mono_nonneg_r; lia).
  assert (E4 : m1' * (A * P) < (m2 + 1) * B * (A * P)) by (apply Zmult_lt_compat_r; lia).
  assert (E5 : m1 * (A * P) <= m1' * (A * P)) by (apply Z.mul_le_mono_nonneg_r; lia).
  assert (E6 : m1' * (A * P) <= (m1 + 1) * (A * P)) by (apply Z.mul_le_mono_nonneg_r; lia).
  replace (m2 * (B * (A * P))) with (m2 * B * (A * P)) by ring.
  replace (m1 * A * P) with (m1 * (A * P)) in E1 by ring.
  replace ((m1 + 1) * A * P) with (m1 * (A * P) + A * P) in E2 by ring.
  replace ((m2 + 1) * B * (A * P)) with (m2 * B * (A * P) + B * (A * P)) in E4 by ring.
  replace ((m1 + 1) * (A * P)) with (m1 * (A * P) + A * P) in E6 by ring.
  lia.
Qed.

Lemma pow_split (a b : Z) : 0 <= a -> 0 <= b -> 2 ^ (a + b) = 2 ^ a * 2 ^ b.
Proof. intros. apply Z.pow_add_r; assumption. Qed.

(** Rounding a positive mantissa: the result is a float of the game and
    differs from [m * 2^e] by 2^-14 at most, when [m * 2^e < 2^8]. *)
Lemma round_aux_err (s : bool) (m e : Z) :
  0 < m -> -149 <= e <= -15 -> m * 2 ^ (e + 149) < 2 ^ 157 ->
  inRange (binary_round_aux 24 128 s m e loc_Exact) /\
  Z.abs (sval (binary_round_aux 24 128 s m e loc_Exact)
         - (if s then -1 else 1) * (m * 2 ^ (e + 149))) <= ERR.
Proof.
  intros Hm He Hv. unfold binary_round_aux.
  destruct (shr_fexp_spec m e loc_Exact ltac:(lia)) as (mrs & e1 & E1 & He1 & Hm1).
  rewrite E1.
  pose proof (round_nearest_even_range (shr_m mrs) (loc_of_shr_record mrs)) as Hr.
  set (m1' := round_nearest_even (shr_m mrs) (loc_of_shr_record mrs)) in *.
  set (m1 := shr_m mrs) in *.
  (* the first shift *)
  destruct (Zdigits2_bounds m Hm) as [Dl Du].
  assert (Hde : Zdigits2 m + e <= 8).
  { destruct (Z_le_gt_dec (Zdigits2 m + e) 8) as [|G]; [assumption|exfalso].
    assert (2 ^ 157 <= 2 ^ (Zdigits2 m - 1) * 2 ^ (e + 149)).
    { rewrite <- pow_split by (pose proof (Zdigits2_nonneg m); lia).
      apply Z.pow_le_mono_r; lia. }
    assert (2 ^ (Zdigits2 m - 1) * 2 ^ (e + 149) <= m * 2 ^ (e + 149))
      by (apply Z.mul_le_mono_nonneg_r; [apply Z.pow_nonneg|]; lia).
    lia. }
  assert (He1r : -149 <= e1 <= -15) by (unfold fexp32 in He1; lia).
  set (k1 := e1 - e) in *.
  assert (Hk1 : 0 <= k1) by (unfold k1, fexp32 in *; lia).
  assert (HA : 0 < 2 ^ k1) by (apply Z.pow_pos_nonneg; lia).
  assert (HP : 0 < 2 ^ (e + 149)) by (apply Z.pow_pos_nonneg; lia).
  assert (EP1 : 2 ^ (e1 + 149) = 2 ^ k1 * 2 ^ (e + 149)).
  { rewrite <- pow_split by lia. f_equal. unfold k1. lia. }
  assert (Hm1l : m1 * 2 ^ k1 <= m) by (rewrite Hm1, Z.mul_comm; apply Z.mul_div_le; lia).
  assert (Hm1u : m < (m1 + 1) * 2 ^ k1).
  { rewrite Hm1, Z.mul_comm. replace (m / 2 ^ k1 + 1) with (Z.succ (m / 2 ^ k1)) by lia.
    apply Z.mul_succ_div_gt. lia. }
  assert (Hm10 : 0 <= m1) by (rewrite Hm1; apply Z.div_pos; lia).
  assert (Hm1b : m1 < 2 ^ (8 - e1)).
  { apply Z.mul_lt_mono_pos_r with (2 ^ (e1 + 149)); [apply Z.pow_pos_nonneg; lia|].
    rewrite <- pow_split by lia. replace (8 - e1 + (e1 + 149)) with 157 by lia.
    rewrite EP1, Z.mul_assoc.
    apply Z.le_lt_trans with (m * 2 ^ (e + 149)); [|exact Hv].
    apply Z.mul_le_mono_nonneg_r; lia. }
  (* the second shift *)
  destruct (shr_fexp_spec m1' e1 loc_Exact ltac:(lia)) as (mrs2 & e2 & E2 & He2 & Hm2).
  rewrite E2.
  assert (Hd1 : Zdigits2 m1' <= 9 - e1).
  { apply Zdigits2_le; [lia|]. split; [lia|].
    replace (9 - e1) with (Z.succ (8 - e1)) by lia. rewrite Z.pow_succ_r by lia. lia. }
  assert (He2r : e1 <= e2 <= -15) by (unfold fexp32 in He2; lia).
  set (k2 := e2 - e1) in *.
  assert (Hk2 : 0 <= k2) by (unfold k2; lia).
  assert (HB : 0 < 2 ^ k2) by (apply Z.pow_pos_nonneg; lia).
  assert (EP2 : 2 ^ (e2 + 149) = 2 ^ k2 * 2 ^ (e1 + 149)).
  { rewrite <- pow_split by lia. f_equal. unfold k2. lia. }
  set (m2 := shr_m mrs2) in *.
  assert (Hm2l : m2 * 2 ^ k2 <= m1') by (rewrite Hm2, Z.mul_comm; apply Z.mul_div_le; lia).
  assert (Hm2u : m1' < (m2 + 1) * 2 ^ k2).
  { rewrite Hm2, Z.mul_comm. replace (m1' / 2 ^ k2 + 1) with (Z.succ (m1' / 2 ^ k2)) by lia.
    apply Z.mul_succ_div_gt. lia. }
  assert (Hm20 : 0 <= m2) by (rewrite Hm2; apply Z.div_pos; lia).
  assert (Hbig : 2 ^ (e2 + 149) <= 2 ^ 134) by (apply Z.pow_le_mono_r; lia).
  assert (Hone : 2 ^ (e1 + 149) <= 2 ^ (e2 + 149)) by (apply Z.pow_le_mono_r; lia).
  assert (HP1 : 0 < 2 ^ (e1 + 149)) by (apply Z.pow_pos_nonneg; lia).
  (* the distance *)
  pose proof (two_shifts m m1 m1' m2 (2 ^ k1) (2 ^ k2) (2 ^ (e + 149))
                HA HB HP (conj Hm1l Hm1u) Hr (conj Hm2l Hm2u)) as [Hlo Hup].
  rewrite <- EP1, <- EP2 in Hlo, Hup.
  assert (H135 : ERR = 2 * 2 ^ 134) by reflexivity.
  destruct m2 as [| p | p] eqn:Em2; [| |lia].
  - simpl. split; [exact I|]. destruct s; lia.
  - replace (e2 <=? 128 - 24) with true by (symmetry; apply Z.leb_le; lia).
    split; [simpl; lia|]. simpl sval. destruct s; lia.
Qed.

Lemma binary_round_err (s : bool) (p : positive) (e : Z) :
  -149 <= e <= -15 -> Z.pos p * 2 ^ (e + 149) < 2 ^ 157 ->
  inRange (binary_round 24 128 s p e) /\
  Z.abs (sval (binary_round 24 128 s p e)
         - (if s then -1 else 1) * (Z.pos p * 2 ^ (e + 149))) <= ERR.
Proof.
  intros He Hv. unfold binary_round.
  destruct (shl_align_spec p e (fexp 24 128 (Z.pos (digits2_pos p) + e)))
    as (mz & ez & E & Hez & Hmz).
  rewrite E. rewrite fexp32_eq in Hez.
  assert (Hr : -149 <= ez <= -15) by (unfold fexp32 in Hez; lia).
  assert (EV : Z.pos mz * 2 ^ (ez + 149) = Z.pos p * 2 ^ (e + 149)).
  { rewrite Hmz, <- Z.mul_assoc, <- pow_split by lia. do 2 f_equal. lia. }
  rewrite <- EV. apply round_aux_err; [lia | exact Hr | rewrite EV; exact Hv].
Qed.

(** The sum of two floats of the game is a float of the game, less than
    2^-14 away from the exact sum, when that sum is below 2^8 in size. *)
Lemma add_err (x y : F32.t) :
  inRange x -> inRange y -> Z.abs (sval x + sval y) < 2 ^ 157 ->
  inRange (F32.add x y) /\ Z.abs (sval (F32.add x y) - (sval x + sval y)) <= ERR.
Proof.
  assert (HE : 0 <= ERR) by (unfold ERR; apply Z.pow_nonneg; lia).
  unfold F32.add, F32.prec, F32.emax.
  destruct x as [sx | sx | | sx mx ex], y as [sy | sy | | sy my ey];
    simpl inRange; try contradiction; intros Hx Hy Hv.
  - simpl SFadd. destruct sx, sy; simpl; split; (exact I || lia).
  - simpl SFadd. split; [exact Hy|]. simpl sval. lia.
  - simpl SFadd. split; [exact Hx|]. simpl sval. lia.
  - unfold SFadd.
    destruct (shl_align_spec mx ex (Z.min ex ey)) as (mx' & ex' & Ex & Hex & Hmx).
    destruct (shl_align_spec my ey (Z.min ex ey)) as (my' & ey' & Ey & Hey & Hmy).
    rewrite Ex, Ey. cbn [fst].
    set (ez := Z.min ex ey) in *.
    assert (Hez : -149 <= ez <= -15) by (unfold ez; lia).
    assert (HP : 0 < 2 ^ (ez + 149)) by (apply Z.pow_pos_nonneg; lia).
    assert (Vx : Z.pos mx * 2 ^ (ex + 149) = Z.pos mx' * 2 ^ (ez + 149)).
    { rewrite Hmx, <- Z.mul_assoc, <- pow_split by lia. do 2 f_equal. lia. }
    assert (Vy : Z.pos my * 2 ^ (ey + 149) = Z.pos my' * 2 ^ (ez + 149)).
    { rewrite Hmy, <- Z.mul_assoc, <- pow_split by lia. do 2 f_equal. lia. }
    cbn [sval] in *. rewrite Vx, Vy in *.
    set (P := 2 ^ (ez + 149)) in *.
    assert (ES : (if sx then -1 else 1) * (Z.pos mx' * P)
                 + (if sy then -1 else 1) * (Z.pos my' * P)
                 = (cond_Zopp sx (Z.pos mx') + cond_Zopp sy (Z.pos my')) * P).
    { destruct sx, sy; simpl cond_Zopp; ring. }
    rewrite ES in *.
    destruct (cond_Zopp sx (Z.pos mx') + cond_Zopp sy (Z.pos my')) as [| p | p] eqn:Esum.
    + simpl. split; [exact I | lia].
    + unfold binary_normalize.
      destruct (binary_round_err false p ez Hez) as [F D]; [fold P; lia|].
      split; [exact F|]. fold P in D. lia.
    + unfold binary_normalize.
      destruct (binary_round_err true p ez Hez) as [F D]; [fold P; lia|].
      split; [exact F|]. fold P in D.
      replace (Z.neg p * P) with (-1 * (Z.pos p * P)) by lia. exact D.
Qed.

(** [(int)] of a float of the game is its value with the fraction cut off. *)
Lemma to_int_quot (x : F32.t) : inRange x -> F32.to_int x = Z.quot (sval x) UNIT.
Proof.
  destruct x as [sx | sx | | sx mx ex]; simpl inRange; try contradiction; intros Hx.
  - reflexivity.
  - unfold F32.to_int, sval, UNIT.
    assert (E : Z.shiftl (Z.pos mx) ex = Z.pos mx * 2 ^ (ex + 149) / 2 ^ 149).
    { rewrite <- (Z.opp_involutive ex) at 1. rewrite Z.shiftl_opp_r.
      rewrite Z.shiftr_div_pow2 by lia.
      replace (2 ^ 149) with (2 ^ (- ex) * 2 ^ (ex + 149))
        by (rewrite <- pow_split by lia; f_equal; lia).
      rewrite Z.div_mul_cancel_r; try reflexivity; apply Z.pow_nonzero; lia. }
    assert (H0 : 0 <= Z.pos mx * 2 ^ (ex + 149))
      by (apply Z.mul_nonneg_nonneg; [lia | apply Z.pow_nonneg; lia]).
    rewrite E. destruct sx.
    + replace (-1 * (Z.pos mx * 2 ^ (ex + 149))) with (- (Z.pos mx * 2 ^ (ex + 149))) by lia.
      rewrite Z.quot_opp_l by (apply Z.pow_nonzero; lia).
      rewrite Z.quot_div_nonneg by (try apply Z.pow_pos_nonneg; lia). reflexivity.
    + rewrite Z.mul_1_l.
      rewrite Z.quot_div_nonneg by (try apply Z.pow_pos_nonneg; lia). reflexivity.
Qed.

(** ** The formation between the edges *)

Lemma UNIT_pos : 0 < UNIT.
Proof. reflexivity. Qed.

Lemma ERR_small : 0 < ERR /\ 8 * ERR < UNIT.
Proof. split; reflexivity. Qed.

(** The tables pass the check, by computation. *)
Lemma tables_checked : forallb sideOk [true; false] = true.
Proof. vm_compute. reflexivity. Qed.

Lemma forallb_at {A : Type} (f : A -> bool) (l : list A) (x : A) :
  forallb f l = true -> In x l -> f x = true.
Proof. intros H. apply forallb_forall. exact H. Qed.

Lemma side_at (left : bool) : sideOk left = true.
Proof.
  apply (forallb_at sideOk [true; false] left tables_checked).
  destruct left; simpl; auto.
Qed.

Lemma row_at (left : bool) (n : nat) : (n <= 14)%nat -> rowOk left n = true.
Proof.
  intros Hn. apply (forallb_at (rowOk left) (seq 0 15)); [exact (side_at left)|].
  apply in_seq. lia.
Qed.

Lemma cell_at (left : bool) (n : nat) (a : Z) :
  (n <= 14)%nat -> In a vitalities -> cellOk left n a = true.
Proof.
  intros Hn Ha. pose proof (row_at left n Hn) as R. unfold rowOk in R.
  apply andb_prop in R. destruct R as [_ R].
  exact (forallb_at _ _ a R Ha).
Qed.

(** What the check says for one side, level and vitality. *)
Lemma tables_at (left : bool) (n : nat) (a : Z) :
  (n <= 14)%nat -> In a vitalities ->
  inRange (Nat.iter n bounceDX (F32.lit 1 2)) /\
  Z.abs (vel n) <= 7 * UNIT /\
  levelOk left n a = true /\
  forall c, (c <= 1)%nat -> (n + c <= 14)%nat -> stepOk left n a c = true.
Proof.
  intros Hn Ha.
  pose proof (row_at left n Hn) as R. unfold rowOk in R.
  apply andb_prop in R. destruct R as [R _].
  apply andb_prop in R. destruct R as [T1 T2].
  pose proof (cell_at left n a Hn Ha) as C. unfold cellOk in C.
  apply andb_prop in C. destruct C as [T3 T4].
  split; [|split; [|split; [exact T3|]]].
  - revert T1. generalize (Nat.iter n bounceDX (F32.lit 1 2)).
    intros [s | s | | s m e]; simpl; try discriminate; [intros _; exact I|].
    intros H. apply andb_prop in H. destruct H as [H1 H2]. lia.
  - apply Z.leb_le. exact T2.
  - intros c Hc Hnc.
    assert (Hin : In c [0; 1]%nat) by (destruct c as [|[|]]; simpl; auto; lia).
    pose proof (forallb_at _ _ c T4 Hin) as T5. cbv beta in T5.
    apply orb_prop in T5. destruct T5 as [T5 | T5]; [|exact T5].
    apply Nat.ltb_lt in T5. lia.
Qed.

Lemma flash_cases (a : Z) :
  In a vitalities -> flash a = 0 \/ In (flash a) vitalities.
Proof.
  unfold vitalities. simpl. intros [<- | [<- | [<- | [<- | [<- | [<- | []]]]]]];
    vm_compute; auto 10.
Qed.

(** One tick of one alien, read off the tables. *)
Lemma table_step (left : bool) (n c : nat) (a a' d d' : Z) :
  (c <= 1)%nat -> (n + c <= 14)%nat -> In a vitalities ->
  d <= bound left n a ->
  (Z.odd a = true -> c = 0%nat -> d <= FREE) ->
  d' <= d + grow left (n + c) + ERR ->
  a' = flash a \/ (Z.odd a = true /\ a' = 5 /\ d < REACH left) ->
  a' <> 0 ->
  d' <= bound left (n + c) a'.
Proof.
  intros Hc Hnc Ha Hd Hfree Hd' Ha' Hnz.
  destruct (tables_at left n a ltac:(lia) Ha) as (_ & _ & _ & T).
  specialize (T c Hc Hnc). unfold stepOk in T.
  apply andb_prop in T. destruct T as [T1 T2].
  destruct Ha' as [-> | (Hodd & -> & Hr)].
  - apply orb_prop in T1. destruct T1 as [T1 | T1]; [apply Z.eqb_eq in T1; contradiction|].
    apply Z.leb_le in T1.
    destruct (Z.odd a) eqn:Eo, (Nat.eqb_spec c 0) as [-> | Hne]; simpl in T1;
      try specialize (Hfree eq_refl eq_refl); lia.
  - rewrite Hodd in T2. simpl in T2. apply Z.leb_le in T2.
    destruct (Nat.eqb_spec c 0) as [-> | Hne]; simpl in T2;
      try specialize (Hfree Hodd eq_refl); lia.
Qed.

(** ** The position of a slot *)

Lemma slotXAt_slotPos (ex : F32.t) (k : nat) : slotXAt ex k = F32.to_int (slotPos ex k).
Proof. unfold slotXAt, slotPos. destruct (k <? ROW1_ENEMY_COUNT)%nat; reflexivity. Qed.

Lemma off_range (k : nat) : (k < ENEMY_COUNT)%nat -> 0 <= off k <= 72.
Proof.
  intros Hk. unfold off, ROW1_ENEMY_COUNT, ALIEN_BETWEEN_OFFSET.
  destruct (Nat.ltb_spec k 5); unfold ENEMY_COUNT, ROW1_ENEMY_COUNT, ROW2_ENEMY_COUNT in *; lia.
Qed.

Lemma of_int_column (i : nat) :
  (i < 5)%nat ->
  inRange (F32.of_int (ALIEN_BETWEEN_OFFSET * Z.of_nat i)) /\
  sval (F32.of_int (ALIEN_BETWEEN_OFFSET * Z.of_nat i))
  = ALIEN_BETWEEN_OFFSET * Z.of_nat i * UNIT.
Proof.
  intros Hi. destruct i as [|[|[|[|[|]]]]]; try lia; vm_compute; split;
    first [exact I | reflexivity | split; discriminate].
Qed.

Lemma of_int_nine : inRange (F32.of_int 9) /\ sval (F32.of_int 9) = 9 * UNIT.
Proof. vm_compute. split; [split; discriminate | reflexivity]. Qed.

Lemma slotPos_err (ex : F32.t) (k : nat) :
  (k < ENEMY_COUNT)%nat -> inRange ex -> -100 * UNIT <= sval ex <= 150 * UNIT ->
  inRange (slotPos ex k) /\ Z.abs (sval (slotPos ex k) - posOf ex k) <= 2 * ERR.
Proof.
  intros Hk Hf Hx. pose proof UNIT_pos as HU. pose proof ERR_small as [HE0 HE].
  assert (H157 : 2 ^ 157 = 256 * UNIT) by reflexivity.
  unfold slotPos, posOf, off, ENEMY_COUNT, ROW1_ENEMY_COUNT, ROW2_ENEMY_COUNT in *.
  destruct (Nat.ltb_spec k 5) as [Hlt | Hge].
  - destruct (of_int_column k Hlt) as [F V].
    destruct (add_err ex _ Hf F) as [F' D].
    { rewrite V, H157. unfold ALIEN_BETWEEN_OFFSET. lia. }
    split; [exact F'|]. rewrite V in D. lia.
  - destruct of_int_nine as [F9 V9].
    destruct (add_err ex _ Hf F9) as [F1 D1]; [rewrite V9, H157; lia|].
    destruct (of_int_column (k - 5) ltac:(lia)) as [F V].
    destruct (add_err _ _ F1 F) as [F2 D2].
    { rewrite V, H157. rewrite V9 in D1. unfold ALIEN_BETWEEN_OFFSET. lia. }
    split; [exact F2|]. rewrite V in D2. rewrite V9 in D1. lia.
Qed.

Lemma quot_bounds (v U : Z) :
  0 < U ->
  (0 <= v -> (v ÷ U) * U <= v < (v ÷ U + 1) * U) /\
  (v <= 0 -> (v ÷ U - 1) * U < v <= (v ÷ U) * U).
Proof.
  intros HU. pose proof (Z.quot_rem' v U) as E. split; intros Hv.
  - pose proof (Z.rem_bound_pos v U Hv HU). lia.
  - pose proof (Z.rem_bound_pos_neg v U HU Hv). lia.
Qed.

(** Where a slot stands, from the column it is drawn at. *)
Lemma zone_facts (ex : F32.t) (k : nat) :
  (k < ENEMY_COUNT)%nat -> inRange ex -> -100 * UNIT <= sval ex <= 150 * UNIT ->
  let x := slotXAt ex k in
  let q := posOf ex k in
  (x <= 0 -> - 2 * ERR < depth true q) /\
  (0 < x -> depth true q <= FREE) /\
  (SCREEN_WIDTH <= x + ALIEN_WIDTH -> - 2 * ERR <= depth false q) /\
  (x + ALIEN_WIDTH < SCREEN_WIDTH -> depth false q <= FREE) /\
  (-4 <= x -> depth true q < REACH true) /\
  (x <= 124 -> depth false q < REACH false).
Proof.
  intros Hk Hf Hx x q. unfold x, q. clear x q.
  destruct (slotPos_err ex k Hk Hf Hx) as [F D].
  rewrite slotXAt_slotPos, (to_int_quot _ F).
  pose proof UNIT_pos as HU. pose proof ERR_small as [HE0 HE].
  destruct (quot_bounds (sval (slotPos ex k)) UNIT HU) as [Qp Qn].
  unfold depth, FREE, REACH, SCREEN_WIDTH, ALIEN_WIDTH.
  set (v := sval (slotPos ex k)) in *. set (x := v ÷ UNIT) in *.
  set (q := posOf ex k) in *.
  assert (Hcases : 0 <= v \/ v <= 0) by lia.
  assert (EU : UNIT = 713623846352979940529142984724747568191373312) by reflexivity.
  assert (EE : ERR = 43556142965880123323311949751266331066368) by reflexivity.
  rewrite EU, EE in *.
  repeat split; intros H; destruct Hcases as [C | C];
    try specialize (Qp C); try specialize (Qn C); lia.
Qed.

(** ** The vitality of a slot after its turn *)

Lemma flash_u8 (a : Z) :
  vitalityOk a ->
  (if (0 <? a) && (a <? ALIVE) then u8 (a - 1) else a) = flash a.
Proof.
  unfold vitalityOk, flash, ALIVE. intros H.
  destruct (Z.ltb_spec 0 a), (Z.ltb_spec a 7); simpl; try reflexivity.
  apply u8_small. lia.
Qed.

Lemma anyHit_reach (x y : Z) (g : Game) :
  (forall j, (j < 20)%nat -> playerSlotOk 50 (playerSlot g j)) ->
  anyHit x y g 20 = true -> x <= 124 /\ (-4 <= x \/ y <= 0).
Proof.
  intros Hb H. unfold anyHit in H. apply existsb_exists in H.
  destruct H as (j & Hj & H). apply in_seq in Hj.
  specialize (Hb j ltac:(lia)). unfold playerSlot, playerSlotOk in Hb.
  unfold inBox, ALIEN_WIDTH, ALIEN_HEIGHT in H.
  apply andb_prop in H. destruct H as [H H4].
  apply andb_prop in H. destruct H as [H H3].
  apply andb_prop in H. destruct H as [H1 H2].
  apply Z.leb_le in H1, H2, H3, H4.
  destruct Hb as [E | [Hx Hy]].
  - injection E as Ex Ey. rewrite Ex in *. rewrite Ey in *. lia.
  - cbn [fst snd] in *. lia.
Qed.

Lemma slotBody_vitality k g s g' s' :
  shapeOk g ->
  (forall j, (j < ENEMY_COUNT)%nat -> vitalityOk (enemyAlive g !!! j)) ->
  (forall j, (j < 20)%nat -> playerSlotOk 50 (playerSlot g j)) ->
  (k < ENEMY_COUNT)%nat ->
  slotBody k (g, s) = Next (g', s') ->
  enemyAlive g' !!! k = flash (enemyAlive g !!! k) \/
  (isDrawn (enemyAlive g) k = true /\ enemyAlive g' !!! k = 5 /\
   slotXAt (enemyX g) k <= 124 /\
   (-4 <= slotXAt (enemyX g) k \/ slotYAt (enemyY g) k <= 0)).
Proof.
  intros Hg Hv Hb Hk. unfold slotBody, isDrawn. simpl fst.
  assert (Hl : length (enemyAlive g) = ENEMY_COUNT) by apply Hg.
  destruct ((enemyAlive g !!! k) mod 2 =? 1).
  - set (x := slotXAt (enemyX g) k). set (y := slotYAt (enemyY g) k).
    unfold alienBody. destruct (SCREEN_HEIGHT <=? y + ALIEN_HEIGHT); [discriminate|].
    simpl. intros H. injection H as <- <-.
    set (gB := if touchesEdge x then bounce (if s =? 0 then enemyFire x y g else g)
               else if s =? 0 then enemyFire x y g else g).
    assert (EB : bulletX gB = bulletX g /\ bulletY gB = bulletY g /\
                 enemyAlive gB = enemyAlive g)
      by (unfold gB; destruct (touchesEdge x), (s =? 0); repeat split; reflexivity).
    destruct EB as (EBx & EBy & EBa).
    assert (Hp : playerPoolSized gB) by (unfold playerPoolSized; rewrite EBx, EBy; apply Hg).
    assert (Ea : enemyAlive (hitScan k x y gB)
                 = if anyHit x y gB 20 then <[k := START_DYING]> (enemyAlive g)
                   else enemyAlive g).
    { unfold hitScan. change MAX_PLAYER_BULLETS with 20%nat.
      rewrite (hitScan_alien_prefix k x y gB 20 Hp) by lia. rewrite EBa. reflexivity. }
    destruct (anyHit x y gB 20) eqn:EH.
    + right. split; [reflexivity|]. split.
      * rewrite flashAlien_alive_same
          by (rewrite Ea, length_insert, Hl; exact Hk).
        rewrite Ea, list_lookup_total_insert_eq by (rewrite Hl; exact Hk).
        reflexivity.
      * apply (anyHit_reach x y gB); [|exact EH].
        intros j Hj. unfold playerSlot. rewrite EBx, EBy. apply Hb, Hj.
    + left. rewrite flashAlien_alive_same by (rewrite Ea, Hl; exact Hk).
      rewrite Ea. apply flash_u8, Hv, Hk.
  - simpl. intros H. injection H as <- <-. left.
    rewrite flashAlien_alive_same by (rewrite Hl; exact Hk).
    apply flash_u8, Hv, Hk.
Qed.

(** What the two loops have made of the vitalities of the slots 0..n-1. *)
Lemma sweep_vitality (n : nat) (g : Game) (s : Z) (gn : Game) (sn : Z) :
  (n <= ENEMY_COUNT)%nat ->
  shapeOk g ->
  (forall j, (j < ENEMY_COUNT)%nat -> vitalityOk (enemyAlive g !!! j)) ->
  (forall j, (j < 20)%nat -> playerSlotOk 50 (playerSlot g j)) ->
  forFlow slotBody (seq 0 n) (g, s) = Next (gn, sn) ->
  (shapeOk gn /\
   (forall j, (j < ENEMY_COUNT)%nat -> vitalityOk (enemyAlive gn !!! j)) /\
   (forall j, (j < 20)%nat -> playerSlotOk 50 (playerSlot gn j))) /\
  forall k, (k < n)%nat ->
    enemyAlive gn !!! k = flash (enemyAlive g !!! k) \/
    (isDrawn (enemyAlive g) k = true /\ enemyAlive gn !!! k = 5 /\
     slotXAt (enemyX g) k <= 124 /\
     (-4 <= slotXAt (enemyX g) k \/ slotYAt (enemyYBefore g k) k <= 0)).
Proof.
  intros Hn Hg Hv Hb. revert gn sn. induction n as [| n IH]; intros gn sn H.
  - simpl in H. injection H as <- <-.
    split; [split; [exact Hg | split; [exact Hv | exact Hb]]|]. intros k Hk. lia.
  - rewrite seq_S, forFlow_app in H. simpl in H.
    destruct (forFlow slotBody (seq 0 n) (g, s)) as [[gm sm] |] eqn:Em; [|discriminate].
    destruct (IH ltac:(lia) gm sm eq_refl) as ((Gm & Vm & Bm) & Km).
    destruct (sweep_prefix n g s gm sm Em) as (_ & Ex & _ & Ey & Ea & _).
    simpl in H. destruct (slotBody n (gm, sm)) as [[g1 s1] |] eqn:E; [|discriminate].
    simpl in H. injection H as <- <-.
    pose proof (slotBody_vitality n gm sm g1 s1 Gm Vm Bm ltac:(lia) E) as Kn.
    pose proof (slotBody_step n gm sm g1 s1 E) as (_ & _ & _ & _ & Eo & _).
    split.
    + split; [|split].
      * exact (rowBody_shapeOk n _ _ (gm, sm) (g1, s1) Gm E).
      * exact (proj2 (rowBody_vitalityOk n _ _ (gm, sm) (g1, s1) ltac:(lia) (conj Gm Vm) E)).
      * exact (proj2 (rowBody_slots n _ _ (gm, sm) (g1, s1) (conj Gm Bm) E)).
    + intros k Hk. destruct (Nat.eq_dec k n) as [-> | Hne].
      * unfold isDrawn in *. rewrite Ea, Ex, Ey in Kn by lia. exact Kn.
      * rewrite Eo by exact Hne. apply Km. lia.
Qed.

(** ** Heights *)

Lemma height_at (m : nat) :
  (m <= 23)%nat ->
  F32.to_int (F32.add (F32.of_int (ALIEN_INCREASE_Y_BY * Z.of_nat m)) (F32.of_int 0))
  = 4 * Z.of_nat m /\
  F32.to_int (F32.add (F32.of_int (ALIEN_INCREASE_Y_BY * Z.of_nat m)) (F32.of_int ALIEN_HEIGHT))
  = 4 * Z.of_nat m + 8 /\
  bounceY (F32.of_int (ALIEN_INCREASE_Y_BY * Z.of_nat m))
  = F32.of_int (ALIEN_INCREASE_Y_BY * Z.of_nat (S m)).
Proof.
  intros Hm.
  do 24 (destruct m as [| m]; [vm_compute; repeat split; reflexivity|]). lia.
Qed.

Lemma iter_bounceY (n c : nat) :
  (n + c <= 24)%nat ->
  Nat.iter c bounceY (F32.of_int (ALIEN_INCREASE_Y_BY * Z.of_nat n))
  = F32.of_int (ALIEN_INCREASE_Y_BY * Z.of_nat (n + c)).
Proof.
  induction c as [| c IH]; intros H.
  - rewrite Nat.add_0_r. reflexivity.
  - simpl. rewrite IH by lia.
    rewrite (proj2 (proj2 (height_at (n + c) ltac:(lia)))).
    do 3 f_equal. lia.
Qed.

Lemma slotYAt_height (m k : nat) :
  (m <= 23)%nat ->
  slotYAt (F32.of_int (ALIEN_INCREASE_Y_BY * Z.of_nat m)) k
  = 4 * Z.of_nat m + (if (k <? ROW1_ENEMY_COUNT)%nat then 0 else 8).
Proof.
  intros Hm. destruct (height_at m Hm) as (H1 & H2 & _). unfold slotYAt.
  destruct (k <? ROW1_ENEMY_COUNT)%nat; [rewrite H1 | rewrite H2]; lia.
Qed.

(** ** Counting the aliens at the edges *)

Lemma touchingBefore_mono alive ex (k n : nat) :
  (k <= n)%nat -> (touchingBefore alive ex k <= touchingBefore alive ex n)%nat.
Proof.
  induction 1 as [| n Hle IH]; [lia|]. rewrite touchingBefore_S. lia.
Qed.

Lemma touchingBefore_pos alive ex (k n : nat) :
  (k < n)%nat -> touches alive ex k = true -> (1 <= touchingBefore alive ex n)%nat.
Proof.
  intros Hk Ht. pose proof (touchingBefore_mono alive ex (S k) n Hk) as H.
  rewrite touchingBefore_S, Ht in H. lia.
Qed.

Lemma touching_exists alive ex (n : nat) :
  (1 <= touchingBefore alive ex n)%nat ->
  exists k, (k < n)%nat /\ touches alive ex k = true.
Proof.
  induction n as [| n IH]; [unfold touchingBefore; simpl; lia|].
  rewrite touchingBefore_S. destruct (touches alive ex n) eqn:E.
  - intros _. exists n. split; [lia | exact E].
  - intros H. destruct IH as (k & Hk & Ht); [lia|]. exists k. split; [lia | exact Ht].
Qed.

Lemma touching_at_most_one alive ex (n : nat) :
  (forall i j, (i < j < n)%nat -> touches alive ex i = true -> touches alive ex j = true ->
               False) ->
  (touchingBefore alive ex n <= 1)%nat.
Proof.
  induction n as [| n IH]; intros H; [unfold touchingBefore; simpl; lia|].
  rewrite touchingBefore_S.
  assert (IH' : (touchingBefore alive ex n <= 1)%nat).
  { apply IH. intros i j Hij. apply H. lia. }
  destruct (touches alive ex n) eqn:E; [|lia].
  destruct (Nat.eq_dec (touchingBefore alive ex n) 0%nat) as [-> | Hne]; [lia|].
  destruct (touching_exists alive ex n ltac:(lia)) as (k & Hk & Ht).
  exfalso. apply (H k n); [lia | exact Ht | exact E].
Qed.

Lemma off_apart (i j : nat) :
  (i < j < ENEMY_COUNT)%nat ->
  9 <= Z.abs (off i - off j) /\
  ((j < ROW1_ENEMY_COUNT)%nat -> 18 <= Z.abs (off i - off j)).
Proof.
  unfold off, ENEMY_COUNT, ROW1_ENEMY_COUNT, ROW2_ENEMY_COUNT, ALIEN_BETWEEN_OFFSET.
  intros Hij. destruct (Nat.ltb_spec i 5), (Nat.ltb_spec j 5); lia.
Qed.

Lemma level_bounds (left : bool) (n : nat) (a : Z) :
  (n <= 14)%nat -> In a vitalities ->
  0 <= bound left n a <= 14 * UNIT /\
  (Z.odd a = true -> (n <= 10)%nat -> bound left n a + 4 * ERR < 9 * UNIT) /\
  (Z.odd a = true -> (n <= 12)%nat -> bound left n a + 4 * ERR < 18 * UNIT) /\
  (n = 0%nat -> bound left n a < REACH left).
Proof.
  intros Hn Ha. destruct (tables_at left n a Hn Ha) as (_ & _ & L & _).
  unfold levelOk in L.
  apply andb_prop in L. destruct L as [L L5].
  apply andb_prop in L. destruct L as [L L4].
  apply andb_prop in L. destruct L as [L L3].
  apply andb_prop in L. destruct L as [L1 L2].
  apply Z.leb_le in L1, L2. split; [lia|]. split; [|split].
  - intros Ho H10. rewrite Ho in L3. simpl in L3.
    replace (n <=? 10)%nat with true in L3 by (symmetry; apply Nat.leb_le; exact H10).
    simpl in L3. apply Z.ltb_lt in L3. exact L3.
  - intros Ho H12. rewrite Ho in L4. simpl in L4.
    replace (n <=? 12)%nat with true in L4 by (symmetry; apply Nat.leb_le; exact H12).
    simpl in L4. apply Z.ltb_lt in L4. exact L4.
  - intros ->. simpl in L5. apply Z.ltb_lt in L5. exact L5.
Qed.

Lemma vitality_listed (a : Z) : vitalityOk a -> a <> 0 -> In a vitalities.
Proof.
  unfold vitalityOk, ALIVE, vitalities. intros H Hn. simpl.
  assert (C : a = 1 \/ a = 2 \/ a = 3 \/ a = 4 \/ a = 5 \/ a = 7) by lia.
  destruct C as [-> | [-> | [-> | [-> | [-> | ->]]]]]; auto 10.
Qed.

Lemma drawn_odd (alive : list Z) (k : nat) :
  isDrawn alive k = true -> Z.odd (alive !!! k) = true /\ alive !!! k <> 0.
Proof.
  unfold isDrawn. intros H. apply Z.eqb_eq in H. split.
  - rewrite Zodd_mod. apply Z.eqb_eq. exact H.
  - intros E. rewrite E in H. discriminate.
Qed.

Lemma undrawn_even (alive : list Z) (k : nat) :
  isDrawn alive k = false -> Z.odd (alive !!! k) = false.
Proof.
  unfold isDrawn. intros H. rewrite Zodd_mod. exact H.
Qed.

(** ** The formation in play *)

Lemma touchingBefore_le alive ex (n : nat) : (touchingBefore alive ex n <= n)%nat.
Proof.
  induction n as [| n IH]; [unfold touchingBefore; simpl; lia|].
  rewrite touchingBefore_S. destruct (touches alive ex n); lia.
Qed.

(** The height at which slot [k] is drawn. *)
Lemma drawn_height (n : nat) (g : Game) (k : nat) :
  (n <= 14)%nat -> descent n g -> (k <= ENEMY_COUNT)%nat ->
  slotYAt (enemyYBefore g k) k
  = 4 * Z.of_nat (n + touchingBefore (enemyAlive g) (enemyX g) k)
    + (if (k <? ROW1_ENEMY_COUNT)%nat then 0 else 8).
Proof.
  intros Hn [Hy _] Hk. unfold enemyYBefore. rewrite Hy.
  pose proof (touchingBefore_le (enemyAlive g) (enemyX g) k) as Hle.
  unfold ENEMY_COUNT, ROW1_ENEMY_COUNT, ROW2_ENEMY_COUNT in Hk.
  rewrite iter_bounceY by lia. apply slotYAt_height. lia.
Qed.

(** A drawn alien at an edge: its vitality and its side. *)
Lemma touching_alien (n : nat) (g : Game) (k : nat) :
  (n <= 14)%nat -> formOk n g ->
  (forall j, (j < ENEMY_COUNT)%nat -> vitalityOk (enemyAlive g !!! j)) ->
  (k < ENEMY_COUNT)%nat -> touches (enemyAlive g) (enemyX g) k = true ->
  In (enemyAlive g !!! k) vitalities /\ Z.odd (enemyAlive g !!! k) = true /\
  (- 2 * ERR < depth true (posOf (enemyX g) k) \/
   - 2 * ERR <= depth false (posOf (enemyX g) k)).
Proof.
  intros Hn (_ & Hf & Hx & _) Hv Hk Ht. unfold touches in Ht.
  apply andb_prop in Ht. destruct Ht as [Hd He].
  destruct (drawn_odd _ _ Hd) as [Ho Hz].
  split; [apply vitality_listed; [apply Hv, Hk | exact Hz]|]. split; [exact Ho|].
  destruct (zone_facts (enemyX g) k Hk Hf Hx) as (Z1 & _ & Z3 & _).
  unfold touchesEdge in He. apply orb_prop in He. destruct He as [He | He].
  - left. apply Z1. apply Z.leb_le. exact He.
  - right. apply Z3. apply Z.leb_le. exact He.
Qed.

(** In a tick that goes on, one drawn alien at most touches an edge, and
    when one does the formation has turned 13 times at most. *)
Lemma at_most_one_touches (n : nat) (g : Game) (s : Z) :
  (n <= 14)%nat -> formOk n g ->
  (forall j, (j < ENEMY_COUNT)%nat -> vitalityOk (enemyAlive g !!! j)) ->
  forFlow slotBody (seq 0 ENEMY_COUNT) (g, s) <> Over ->
  (touchingBefore (enemyAlive g) (enemyX g) ENEMY_COUNT <= 1)%nat /\
  ((1 <= touchingBefore (enemyAlive g) (enemyX g) ENEMY_COUNT)%nat -> (n <= 13)%nat).
Proof.
  intros Hn Hform Hv Hover.
  assert (Hlow : forall k, (k < ENEMY_COUNT)%nat -> isDrawn (enemyAlive g) k = true ->
                   slotYAt (enemyYBefore g k) k + ALIEN_HEIGHT < SCREEN_HEIGHT).
  { intros k Hk Hd. destruct (Z_lt_ge_dec (slotYAt (enemyYBefore g k) k + ALIEN_HEIGHT)
                                SCREEN_HEIGHT) as [|G]; [assumption|].
    exfalso. apply Hover. apply sweep_over_iff. exists k.
    split; [exact Hk|]. split; [exact Hd | lia]. }
  pose proof Hform as (Hdesc & Hf & Hx & Hdepth).
  assert (EU : UNIT = 713623846352979940529142984724747568191373312) by reflexivity.
  assert (EE : ERR = 43556142965880123323311949751266331066368) by reflexivity.
  split.
  - apply touching_at_most_one. intros i j Hij Hi Hj.
    destruct (touching_alien n g i Hn Hform Hv ltac:(lia) Hi) as (Ai & Oi & Si).
    destruct (touching_alien n g j Hn Hform Hv ltac:(lia) Hj) as (Aj & Oj & Sj).
    assert (Dj : isDrawn (enemyAlive g) j = true)
      by (unfold touches in Hj; apply andb_prop in Hj; apply Hj).
    pose proof (Hlow j ltac:(lia) Dj) as Yj.
    rewrite (drawn_height n g j Hn Hdesc ltac:(lia)) in Yj.
    pose proof (touchingBefore_pos (enemyAlive g) (enemyX g) i j ltac:(lia) Hi) as Tj.
    destruct (off_apart i j Hij) as [A9 A18].
    pose proof (off_range i ltac:(lia)) as Ri. pose proof (off_range j ltac:(lia)) as Rj.
    assert (Zi : enemyAlive g !!! i <> 0) by (apply (drawn_odd (enemyAlive g) i);
      unfold touches in Hi; apply andb_prop in Hi; apply Hi).
    assert (Zj : enemyAlive g !!! j <> 0) by (apply (drawn_odd (enemyAlive g) j); exact Dj).
    pose proof (Hdepth i ltac:(lia) Zi true) as DiL.
    pose proof (Hdepth i ltac:(lia) Zi false) as DiR.
    pose proof (Hdepth j ltac:(lia) Zj true) as DjL.
    pose proof (Hdepth j ltac:(lia) Zj false) as DjR.
    unfold SCREEN_HEIGHT, ALIEN_HEIGHT, ROW1_ENEMY_COUNT in *.
    unfold depth, posOf in *. rewrite EU, EE in *.
    set (X := sval (enemyX g)) in *.
    destruct (Nat.ltb_spec j 5) as [J5 | J5].
    + (* both in the first row: 18 apart, 12 turns at most *)
      specialize (A18 J5).
      destruct (level_bounds true n _ Hn Ai) as (_ & _ & Bi & _).
      destruct (level_bounds false n _ Hn Ai) as (_ & _ & Bi' & _).
      destruct (level_bounds true n _ Hn Aj) as (_ & _ & Bj & _).
      destruct (level_bounds false n _ Hn Aj) as (_ & _ & Bj' & _).
      specialize (Bi Oi ltac:(lia)). specialize (Bi' Oi ltac:(lia)).
      specialize (Bj Oj ltac:(lia)). specialize (Bj' Oj ltac:(lia)).
      rewrite EU, EE in *. lia.
    + destruct (level_bounds true n _ Hn Ai) as (_ & Bi & _ & _).
      destruct (level_bounds false n _ Hn Ai) as (_ & Bi' & _ & _).
      destruct (level_bounds true n _ Hn Aj) as (_ & Bj & _ & _).
      destruct (level_bounds false n _ Hn Aj) as (_ & Bj' & _ & _).
      specialize (Bi Oi ltac:(lia)). specialize (Bi' Oi ltac:(lia)).
      specialize (Bj Oj ltac:(lia)). specialize (Bj' Oj ltac:(lia)).
      rewrite EU, EE in *. lia.
  - intros H1. destruct (touching_exists _ _ _ H1) as (k & Hk & Ht).
    assert (Dk : isDrawn (enemyAlive g) k = true)
      by (unfold touches in Ht; apply andb_prop in Ht; apply Ht).
    pose proof (Hlow k Hk Dk) as Yk.
    rewrite (drawn_height n g k Hn Hdesc ltac:(lia)) in Yk.
    unfold SCREEN_HEIGHT, ALIEN_HEIGHT in Yk.
    destruct (k <? ROW1_ENEMY_COUNT)%nat; lia.
Qed.

Lemma formOk_ext (n : nat) (g1 g2 : Game) :
  enemyAlive g2 = enemyAlive g1 -> enemyX g2 = enemyX g1 ->
  enemyY g2 = enemyY g1 -> enemyDX g2 = enemyDX g1 ->
  formOk n g1 -> formOk n g2.
Proof.
  unfold formOk, descent. intros -> -> -> ->. exact (fun H => H).
Qed.

Lemma alive_exists (l : list Z) :
  0 < aliveCount l -> exists k, (k < length l)%nat /\ l !!! k <> 0.
Proof.
  induction l as [| x l IH]; [unfold aliveCount; simpl; lia|].
  rewrite aliveCount_cons. destruct (Z.ltb_spec 0 x) as [Hx | Hx].
  - intros _. exists 0%nat. simpl. split; [lia | lia].
  - intros H. destruct IH as (k & Hk & Hz); [lia|].
    exists (S k). simpl. split; [lia | exact Hz].
Qed.

(** The game at the start of the alien loops of a tick that goes on. *)
Lemma tick_sweep_start inp g g' :
  playOk g -> gameLoopBody inp g = Next g' ->
  exists gs s gs' s',
    forFlow slotBody (seq 0 ENEMY_COUNT) (gs, s) = Next (gs', s') /\
    (enemyAlive gs = enemyAlive g /\ enemyX gs = enemyX g /\
     enemyY gs = enemyY g /\ enemyDX gs = enemyDX g) /\
    (enemyAlive g' = enemyAlive gs' /\ enemyDX g' = enemyDX gs' /\
     enemyY g' = enemyY gs' /\ enemyX g' = F32.add (enemyX gs') (enemyDX gs')) /\
    shapeOk gs /\
    (forall j, (j < ENEMY_COUNT)%nat -> vitalityOk (enemyAlive gs !!! j)) /\
    (forall j, (j < 20)%nat -> playerSlotOk 50 (playerSlot gs j)) /\
    0 < aliveCount (enemyAlive g).
Proof.
  intros (Hg & Ht & Hy & Hb & Ha & Hv) H.
  apply gameLoopBody_Next in H. destruct H as (g1 & [gs' s'] & Hd & Hr & Hs & ->).
  destruct (selectFirer inp g1) as [gs s] eqn:Esel.
  exists gs, s, gs', s'. rewrite alienSweep_slots in Hs. split; [exact Hs|].
  pose proof (selectFirer_frame inp g1) as FS. rewrite Esel in FS. simpl fst in FS.
  pose proof (beforeDemise_enemySide inp g) as FB. unfold enemySide in FB.
  pose proof (shipDemise_formation _ _ Hd) as FD.
  destruct (shipDemise_aliens _ _ Hd) as [DA DR].
  destruct (beforeDemise_aliens inp g) as [BA BR].
  pose proof (advanceEnemyBullets_frame (advancePlayerBullets (moveFormation gs'))) as FE.
  pose proof (advancePlayerBullets_frame (moveFormation gs')) as FP.
  pose proof (beforeDemise_slots inp g Hg Ht Hy Hb) as B.
  assert (H1 : shapeOk g1) by (eapply shipDemise_shapeOk; [exact Hd|];
                               apply beforeDemise_shapeOk, Hg).
  assert (D : bulletX g1 = bulletX (beforeDemise inp g) /\
              bulletY g1 = bulletY (beforeDemise inp g)).
  { revert Hd. unfold shipDemise.
    repeat match goal with |- context [if ?b then _ else _] => destruct b end;
      intros H; try discriminate; injection H as <-; split; reflexivity. }
  assert (S1 : shapeOk gs).
  { replace gs with (fst (selectFirer inp g1)) by (rewrite Esel; reflexivity).
    unfold selectFirer.
    repeat match goal with |- context [if ?b then _ else _] => destruct b end; exact H1. }
  tuple_eqs FS. tuple_eqs FB. tuple_eqs FD. tuple_eqs FE. tuple_eqs FP.
  simpl fst.
  change (enemyDX (moveFormation gs')) with (enemyDX gs') in *.
  change (enemyY (moveFormation gs')) with (enemyY gs') in *.
  change (enemyAlive (moveFormation gs')) with (enemyAlive gs') in *.
  change (enemyX (moveFormation gs')) with (F32.add (enemyX gs') (enemyDX gs')) in *.
  assert (EA : enemyAlive gs = enemyAlive g) by congruence.
  split; [repeat split; congruence|].
  split; [repeat split; congruence|].
  split; [exact S1|].
  split; [intros j Hj; rewrite EA; apply Hv, Hj|].
  split.
  - intros j Hj. specialize (B j Hj). unfold playerSlot in *.
    destruct D as [D1 D2]. congruence.
  - destruct Ha as (_ & _ & Hc). apply Z.leb_gt in Hr. rewrite <- Hc. congruence.
Qed.

Lemma odd_drawn (alive : list Z) (k : nat) :
  Z.odd (alive !!! k) = true -> isDrawn alive k = true.
Proof. unfold isDrawn. rewrite Zodd_mod. exact (fun H => H). Qed.

(** One tick that goes on: the formation turns once at most, and the
    bounds hold again. *)
Lemma tick_formOk inp g g' (n : nat) :
  playOk g -> (n <= 14)%nat -> formOk n g ->
  gameLoopBody inp g = Next g' ->
  let c := touchingBefore (enemyAlive g) (enemyX g) ENEMY_COUNT in
  (c <= 1)%nat /\ (n + c <= 14)%nat /\ formOk (n + c) g'.
Proof.
  intros Hplay Hn Hform H c.
  destruct (tick_sweep_start inp g g' Hplay H)
    as (gs & s & gs' & s' & Hs & (EA & EX & EY & ED) & (EA' & ED' & EY' & EX') &
        Sg & Sv & Sb & Hcount).
  assert (Fs : formOk n gs) by (apply (formOk_ext n g gs); assumption).
  assert (Hover : forFlow slotBody (seq 0 ENEMY_COUNT) (gs, s) <> Over)
    by (rewrite Hs; discriminate).
  destruct (at_most_one_touches n gs s Hn Fs Sv Hover) as [C1 C13].
  rewrite EA, EX in C1, C13. fold c in C1, C13.
  assert (Hnc : (n + c <= 14)%nat) by (destruct (Nat.eq_dec c 0%nat); [lia | specialize (C13 ltac:(lia)); lia]).
  split; [exact C1|]. split; [exact Hnc|].
  destruct (sweep_prefix _ _ _ _ _ Hs) as (_ & PX & PD & PY & _).
  destruct (sweep_vitality ENEMY_COUNT gs s gs' s' ltac:(lia) Sg Sv Sb Hs) as [_ PV].
  unfold enemyYBefore in PY. rewrite EA, EX in PD, PY. fold c in PD, PY.
  destruct Hform as (Hdesc & Hf & Hx & Hdepth).
  pose proof Hdesc as [HdY HdD].
  (* the new velocity, height and position *)
  assert (NewD : enemyDX g' = Nat.iter (n + c) bounceDX (F32.lit 1 2)).
  { rewrite ED', PD, ED, HdD, Nat.add_comm. symmetry. apply Nat.iter_add. }
  assert (NewY : enemyY g' = F32.of_int (ALIEN_INCREASE_Y_BY * Z.of_nat (n + c))).
  { rewrite EY', PY, EY, HdY. apply iter_bounceY. lia. }
  destruct (tables_at true (n + c) 7 Hnc ltac:(simpl; auto 10)) as (Fv & Bv & _ & _).
  assert (NewX : enemyX g' = F32.add (enemyX g) (enemyDX g'))
    by (rewrite EX', ED', PX, EX; reflexivity).
  assert (Sv' : sval (enemyDX g') = vel (n + c)) by (rewrite NewD; reflexivity).
  rewrite <- NewD in Fv.
  assert (EU : UNIT = 713623846352979940529142984724747568191373312) by reflexivity.
  assert (EE : ERR = 43556142965880123323311949751266331066368) by reflexivity.
  destruct (add_err (enemyX g) (enemyDX g') Hf Fv) as [FX' DX'].
  { rewrite Sv'. change (2 ^ 157) with (256 * UNIT). rewrite EU in *. lia. }
  rewrite <- NewX, Sv' in DX'. rewrite <- NewX in FX'.
  (* a living alien bounds the old position *)
  assert (Hrange : -85 * UNIT <= sval (enemyX g) <= 134 * UNIT).
  { destruct (alive_exists _ Hcount) as (k & Hk & Hz).
    destruct Hplay as (Pg & _ & _ & _ & _ & Pv). rewrite (proj1 Pg) in Hk.
    pose proof (vitality_listed _ (Pv k Hk) Hz) as Hin.
    pose proof (Hdepth k Hk Hz true) as DL. pose proof (Hdepth k Hk Hz false) as DR.
    destruct (level_bounds true n _ Hn Hin) as (BL & _).
    destruct (level_bounds false n _ Hn Hin) as (BR & _).
    pose proof (off_range k Hk) as Ro.
    unfold depth, posOf in *. rewrite EU in *. lia. }
  split; [split; [exact NewY | exact NewD]|].
  split; [exact FX'|].
  split; [rewrite EU, EE in *; lia|].
  intros k Hk Hz left.
  rewrite EA' in Hz |- *.
  destruct Hplay as (Pg & _ & _ & _ & _ & Pv).
  specialize (PV k Hk). rewrite EA, EX in PV.
  assert (Ey : enemyYBefore gs k = enemyYBefore g k)
    by (apply enemyYBefore_ext; assumption).
  rewrite Ey in PV.
  set (a := enemyAlive g !!! k) in *. set (a' := enemyAlive gs' !!! k) in *.
  assert (Hz0 : a <> 0).
  { destruct PV as [E | (Dk & _)].
    - intros E0. apply Hz. rewrite E, E0. reflexivity.
    - apply (drawn_odd (enemyAlive g) k Dk). }
  pose proof (vitality_listed _ (Pv k Hk) Hz0) as Hin. fold a in Hin.
  destruct (zone_facts (enemyX g) k Hk Hf Hx) as (_ & Z2 & _ & Z4 & Z5 & Z6).
  apply (table_step left n c a a' (depth left (posOf (enemyX g) k))); try assumption.
  - apply Hdepth; assumption.
  - (* a drawn alien that did not turn the formation touches no edge *)
    intros Ho Hc0. apply odd_drawn in Ho. fold a in Ho.
    assert (Ht : touches (enemyAlive g) (enemyX g) k = false).
    { destruct (touches (enemyAlive g) (enemyX g) k) eqn:E; [|reflexivity].
      pose proof (touchingBefore_pos _ _ k ENEMY_COUNT Hk E). fold c in H0. lia. }
    unfold touches in Ht. unfold a in Ho. rewrite Ho in Ht. simpl in Ht.
    unfold touchesEdge in Ht. apply orb_false_elim in Ht. destruct Ht as [T1 T2].
    apply Z.leb_gt in T1, T2.
    destruct left; [apply Z2; lia | apply Z4; lia].
  - unfold depth, posOf, grow. destruct left; lia.
  - destruct PV as [E | (Dk & E5 & Hx124 & Hreach)]; [left; exact E|].
    right. split; [apply (drawn_odd (enemyAlive g) k Dk)|]. split; [exact E5|].
    destruct left; [|apply Z6; exact Hx124].
    destruct Hreach as [R | R]; [apply Z5; exact R|].
    rewrite (drawn_height n g k Hn Hdesc ltac:(lia)) in R.
    assert (n = 0)%nat by (destruct (k <? ROW1_ENEMY_COUNT)%nat; lia). subst n.
    destruct (level_bounds true 0 a ltac:(lia) Hin) as (_ & _ & _ & B0).
    specialize (B0 eq_refl). pose proof (Hdepth k Hk Hz0 true) as D0. fold a in D0. lia.
Qed.

Lemma start_playOk : playOk start.
Proof.
  split; [exact start_shapeOk|].
  split; [split; [vm_compute; split; discriminate | reflexivity]|].
  split; [reflexivity|].
  split.
  - intros j Hj. left. unfold playerSlot.
    change (bulletX start) with (replicate 20%nat 0).
    change (bulletY start) with (replicate 20%nat 0).
    rewrite !lookup_total_replicate_2 by exact Hj. reflexivity.
  - split.
    + split; [reflexivity|]. split; [|reflexivity].
      change (enemyAlive start) with (replicate 9%nat 7). apply Forall_replicate. lia.
    + intros j Hj. change (enemyAlive start) with (replicate 9%nat 7).
      rewrite lookup_total_replicate_2 by exact Hj. right. reflexivity.
Qed.

Lemma gameLoop_playOk inp g : playOk g -> playOk (gameLoop inp g).
Proof.
  intros (Hg & Ht & Hy & Hb & Ha & Hv).
  split; [apply gameLoop_shapeOk, Hg|].
  split; [apply gameLoop_onTrack, Ht|].
  split; [apply gameLoop_shipY, Hy|].
  split; [apply gameLoop_slots; assumption|].
  split; [apply gameLoop_aliveInv, Ha|].
  apply gameLoop_vitalityOk. split; assumption.
Qed.

Lemma start_formOk : formOk 0 start.
Proof.
  split; [exact start_descent|].
  split; [vm_compute; split; discriminate|].
  split; [vm_compute; split; discriminate|].
  intros k Hk _ left.
  change (enemyAlive start) with (replicate 9%nat 7).
  rewrite lookup_total_replicate_2 by exact Hk.
  pose proof (off_range k Hk) as Ho.
  change (enemyX start) with (F32.of_int 10).
  assert (E10 : sval (F32.of_int 10) = 10 * UNIT) by reflexivity.
  unfold depth, posOf. rewrite E10.
  assert (EU : UNIT = 713623846352979940529142984724747568191373312) by reflexivity.
  destruct left.
  - change (bound true 0 7) with 0. rewrite EU. lia.
  - assert (0 <= bound false 0 7) by (vm_compute; discriminate). rewrite EU. lia.
Qed.

(** Play keeps the formation within the bounds. *)
Lemma run_formOk (inps : list Input) :
  playOk (run inps) /\ exists n : nat, (n <= 14)%nat /\ formOk n (run inps).
Proof.
  apply (run_ind (fun g => playOk g /\ exists n : nat, (n <= 14)%nat /\ formOk n g)).
  - split; [exact start_playOk|]. exists 0%nat. split; [lia | exact start_formOk].
  - intros inp g [Hp (n & Hn & Hf)]. split; [apply gameLoop_playOk, Hp|].
    apply gameLoop_cases.
    + exists 0%nat. split; [lia | exact start_formOk].
    + intros g' H. destruct (tick_formOk inp g g' n Hp Hn Hf H) as (_ & Hnc & F).
      eexists. split; [exact Hnc | exact F].
Qed.

(** In play, one drawn alien at most touches an edge in a tick that goes
    on. *)
Lemma one_toucher_in_play (inps : list Input) (inp : Input) (g' : Game) :
  gameLoopBody inp (run inps) = Next g' ->
  (touchingBefore (enemyAlive (run inps)) (enemyX (run inps)) ENEMY_COUNT <= 1)%nat.
Proof.
  intros H. destruct (run_formOk inps) as [Hp (n & Hn & Hf)].
  exact (proj1 (tick_formOk inp (run inps) g' n Hp Hn Hf H)).
Qed.

(** From any game: a tick that goes on and in which exactly one drawn alien
    touches an edge turns the formation once. *)
Lemma single_touch_turns_once (inp : Input) (g g' : Game) :
  gameLoopBody inp g = Next g' ->
  touchingBefore (enemyAlive g) (enemyX g) ENEMY_COUNT = 1%nat ->
  enemyDX g' = bounceDX (enemyDX g) /\ enemyY g' = bounceY (enemyY g).
Proof.
  intros H Hn. apply tick_sweep in H.
  destruct H as (gs & s & gs' & s' & Hs & A1 & A2 & A3 & A4 & A5 & A6 & _).
  apply alienSweep_swept in Hs. destruct Hs as (_ & _ & S3 & S4 & _).
  unfold enemyYBefore in S4. rewrite A1, A2 in S3, S4. rewrite A3 in S4. rewrite A4 in S3.
  rewrite Hn in S3, S4. simpl in S3, S4. split; congruence.
Qed.

(** C4 (as amended).  In every tick of play that does not end in game over
    and in which at least one drawn alien touches a screen edge ([x <= 0]
    or [x + 8 >= 128]), the formation velocity is multiplied by
    -ALIEN_INCREASE_SPEED_BY and the descent offset is increased by
    ALIEN_INCREASE_Y_BY exactly once for the whole sweep, however many
    aliens stand near the edge: no second drawn alien touches an edge in
    that tick.  A velocity of 0.5 becomes -0.6 (as single-precision
    values). *)
Theorem formation_turns_once_in_play (inps : list Input) (inp : Input) (g' : Game) :
  gameLoopBody inp (run inps) = Next g' ->
  (1 <= touchingBefore (enemyAlive (run inps)) (enemyX (run inps)) ENEMY_COUNT)%nat ->
  touchingBefore (enemyAlive (run inps)) (enemyX (run inps)) ENEMY_COUNT = 1%nat /\
  enemyDX g' = F32.mul (enemyDX (run inps)) (F32.neg ALIEN_INCREASE_SPEED_BY) /\
  enemyY g' = F32.add (enemyY (run inps)) (F32.of_int ALIEN_INCREASE_Y_BY) /\
  (enemyDX (run inps) = F32.lit 1 2 -> enemyDX g' = F32.neg (F32.lit 6 10)).
Proof.
  intros H H1. pose proof (one_toucher_in_play inps inp g' H) as H2.
  assert (Hn : touchingBefore (enemyAlive (run inps)) (enemyX (run inps)) ENEMY_COUNT = 1%nat)
    by lia.
  destruct (single_touch_turns_once inp (run inps) g' H Hn) as [HDX HY].
  split; [exact Hn|]. split; [exact HDX|]. split; [exact HY|].
  intros H05. rewrite HDX, H05. vm_compute. reflexivity.
Qed.

Lemma formation_turns_once_in_play_witness :
  enemyDX (gameLoop idle (run (replicate 76 idle))) = F32.neg (F32.lit 6 10).
Proof.
  refine (proj2 (proj2 (proj2 (formation_turns_once_in_play
            (replicate 76 idle) idle (gameLoop idle (run (replicate 76 idle))) _ _))) _).
  - vm_compute. reflexivity.
  - vm_compute. lia.
  - vm_compute. reflexivity.
Defined.

(** C4 as stated fails in a tick that ends in game over.  After
    [landingTrace] slot 0 is drawn at x = 0, the only alien at an edge, and
    the formation stands at descent offset 44.  In the next tick that alien
    turns the formation, which takes the second row to y = 56: slot 5
    lands, the game is reset, and the tick ends with the velocity 0.5 and
    the descent offset 0 instead of -1.2 times the old velocity and 48. *)
Lemma bounce_then_landing_resets_formation :
  isDrawn (enemyAlive (run landingTrace)) 0 = true /\
  slotXAt (enemyX (run landingTrace)) 0 = 0 /\
  touchingBefore (enemyAlive (run landingTrace)) (enemyX (run landingTrace)) ENEMY_COUNT
  = 1%nat /\
  enemyY (run landingTrace) = F32.of_int 44 /\
  lives (run landingTrace) = 3 /\
  gameLoopBody (idleRand 8) (run landingTrace) = Over /\
  enemyDX (gameLoop (idleRand 8) (run landingTrace)) = F32.lit 1 2 /\
  enemyDX (gameLoop (idleRand 8) (run landingTrace))
  <> F32.mul (enemyDX (run landingTrace)) (F32.neg ALIEN_INCREASE_SPEED_BY) /\
  enemyY (gameLoop (idleRand 8) (run landingTrace)) = F32.of_int 0 /\
  enemyY (gameLoop (idleRand 8) (run landingTrace))
  <> F32.add (enemyY (run landingTrace)) (F32.of_int ALIEN_INCREASE_Y_BY).
Proof. vm_compute. repeat split; discriminate. Qed.
